(** * TypeOptimizer: a shallow embedding of Cheerp's type-layout optimizer

    The development follows [TypeOptimizer.cpp]: the type graph of the
    module, the memo table [typesMapping] and the analysis tables are an
    explicit [state]; [rewriteType], [rewriteGEPIndexes] and
    [rewriteConstant] run in a state monad whose results are [Ok], [Abort]
    (a failed [assert], a failed [cast<>] or a division by zero) or
    [OutOfFuel] (the recursion budget of the embedding ran out). *)

From Stdlib Require Import ZArith NArith List Bool Lia.
From stdpp Require Import base decidable countable gmap list numbers.

Set Warnings "-register-all".
Open Scope N_scope.

(** ** The type graph *)

(** LLVM types are uniqued in their context, so the pointer comparisons of
    the source are structural equality here.  Struct types are identified
    (created by [StructType::create]): a struct is a name [StructTy id] and
    its body lives in the struct table of the [state]. *)
Inductive type : Type :=
| VoidTy
| FloatTy
| DoubleTy
| IntegerTy (bits : N)
| PointerTy (elt : type)
| ArrayTy (elt : type) (num : N)
| FunctionTy (ret : type) (params : list type) (varArg : bool)
| StructTy (id : nat).

Lemma type_eq_dec : forall x y : type, {x = y} + {x <> y}.
Proof.
  fix IH 1.
  intros x y; destruct x, y; try (right; discriminate).
  - left; reflexivity.
  - left; reflexivity.
  - left; reflexivity.
  - destruct (N.eq_dec bits bits0) as [->|n]; [left; reflexivity|right; congruence].
  - destruct (IH x y) as [->|n]; [left; reflexivity|right; congruence].
  - destruct (IH x y) as [->|n]; [|right; congruence].
    destruct (N.eq_dec num num0) as [->|n]; [left; reflexivity|right; congruence].
  - destruct (IH x y) as [->|n]; [|right; congruence].
    destruct (List.list_eq_dec IH params params0) as [->|n]; [|right; congruence].
    destruct (Bool.bool_dec varArg varArg0) as [->|n]; [left; reflexivity|right; congruence].
  - destruct (Nat.eq_dec id id0) as [->|n]; [left; reflexivity|right; congruence].
Defined.

#[global] Instance type_eq_decision : EqDecision type := type_eq_dec.

(** An induction principle that reaches the parameters of a function type. *)
Lemma type_ind_nested (P : type -> Prop) :
  P VoidTy -> P FloatTy -> P DoubleTy ->
  (forall b, P (IntegerTy b)) ->
  (forall e, P e -> P (PointerTy e)) ->
  (forall e n, P e -> P (ArrayTy e n)) ->
  (forall r ps v, P r -> Forall P ps -> P (FunctionTy r ps v)) ->
  (forall id, P (StructTy id)) ->
  forall t, P t.
Proof.
  intros Hv Hf Hd Hi Hp Ha Hfn Hs.
  fix IH 1. intros [| | |b|e|e n|r ps v|id].
  - exact Hv.
  - exact Hf.
  - exact Hd.
  - apply Hi.
  - apply Hp, IH.
  - apply Ha, IH.
  - apply Hfn; [apply IH|].
    induction ps as [|p ps IHps]; constructor; [apply IH|exact IHps].
  - apply Hs.
Qed.

Fixpoint type_to_tree (t : type) : gen_tree N :=
  match t with
  | VoidTy => GenNode 0 []
  | FloatTy => GenNode 1 []
  | DoubleTy => GenNode 2 []
  | IntegerTy b => GenNode 3 [GenLeaf b]
  | PointerTy e => GenNode 4 [type_to_tree e]
  | ArrayTy e n => GenNode 5 [GenLeaf n; type_to_tree e]
  | FunctionTy r ps v =>
      GenNode 6 (GenLeaf (if v then 1 else 0) :: type_to_tree r :: map type_to_tree ps)
  | StructTy id => GenNode 7 [GenLeaf (N.of_nat id)]
  end.

Fixpoint tree_to_type (g : gen_tree N) : type :=
  match g with
  | GenNode 1 [] => FloatTy
  | GenNode 2 [] => DoubleTy
  | GenNode 3 [GenLeaf b] => IntegerTy b
  | GenNode 4 [e] => PointerTy (tree_to_type e)
  | GenNode 5 [GenLeaf n; e] => ArrayTy (tree_to_type e) n
  | GenNode 6 (GenLeaf v :: r :: ps) =>
      FunctionTy (tree_to_type r) (map tree_to_type ps) (N.eqb v 1)
  | GenNode 7 [GenLeaf id] => StructTy (N.to_nat id)
  | _ => VoidTy
  end.

Lemma tree_to_type_to_tree t : tree_to_type (type_to_tree t) = t.
Proof.
  induction t as [| | |b|e IH|e n IH|r ps v IHr IHps|id] using type_ind_nested;
    simpl; try reflexivity; try congruence.
  - rewrite IHr. f_equal.
    + induction IHps as [|p ps Hp _ IH]; simpl; [reflexivity|]. now rewrite Hp, IH.
    + now destruct v.
  - now rewrite Nat2N.id.
Qed.

#[global] Instance type_countable : Countable type :=
  inj_countable' type_to_tree tree_to_type tree_to_type_to_tree.

Definition isStructTy (t : type) : bool :=
  match t with StructTy _ => true | _ => false end.
Definition isPointerTy (t : type) : bool :=
  match t with PointerTy _ => true | _ => false end.
Definition isArrayTy (t : type) : bool :=
  match t with ArrayTy _ _ => true | _ => false end.
Definition isIntegerTy (t : type) : bool :=
  match t with IntegerTy _ => true | _ => false end.
Definition isIntegerTyN (n : N) (t : type) : bool :=
  match t with IntegerTy b => N.eqb b n | _ => false end.

(** The body and the flags of an identified struct type. *)
Record StructInfo : Type := mkStruct {
  elements : list type;
  isOpaque : bool;
  directBase : option nat;
  hasByteLayout : bool;
  hasAsmJS : bool;
  isPacked : bool
}.

(** ** TypeMappingInfo *)

Inductive MAPPING_KIND : Type :=
| IDENTICAL
| COLLAPSED
| COLLAPSING
| COLLAPSING_BUT_USED
| BYTE_LAYOUT_TO_ARRAY
| POINTER_FROM_ARRAY
| FLATTENED_ARRAY
| MERGED_MEMBER_ARRAYS
| MERGED_MEMBER_ARRAYS_AND_COLLAPSED.

#[global] Instance MAPPING_KIND_eq_decision : EqDecision MAPPING_KIND.
Proof. solve_decision. Defined.

Record TypeMappingInfo : Type := mkInfo {
  mappedType : type;
  elementMappingKind : MAPPING_KIND
}.

#[global] Instance TypeMappingInfo_eq_decision : EqDecision TypeMappingInfo.
Proof. solve_decision. Defined.

Definition isTransient (k : MAPPING_KIND) : bool :=
  match k with COLLAPSING | COLLAPSING_BUT_USED => true | _ => false end.

Definition isCollapsedStruct (k : MAPPING_KIND) : bool :=
  match k with COLLAPSED | MERGED_MEMBER_ARRAYS_AND_COLLAPSED => true | _ => false end.

(** ** The state of the pass *)

Record state : Type := mkState {
  structs : gmap nat StructInfo;
  nextStruct : nat;
  newStructTypes : gset nat;
  typesMapping : gmap type TypeMappingInfo;
  baseTypesForByteLayout : gmap nat (option type);
  membersMappingData : gmap nat (list (nat * N));
  downcastSourceToDestinationsMapping : gmap nat (list nat);
  escapingFields : gset (nat * nat)
}.

Definition set_structs (f : gmap nat StructInfo -> gmap nat StructInfo) (s : state) : state :=
  mkState (f (structs s)) (nextStruct s) (newStructTypes s) (typesMapping s)
          (baseTypesForByteLayout s) (membersMappingData s)
          (downcastSourceToDestinationsMapping s) (escapingFields s).
Definition set_typesMapping (f : gmap type TypeMappingInfo -> gmap type TypeMappingInfo)
    (s : state) : state :=
  mkState (structs s) (nextStruct s) (newStructTypes s) (f (typesMapping s))
          (baseTypesForByteLayout s) (membersMappingData s)
          (downcastSourceToDestinationsMapping s) (escapingFields s).
Definition set_baseTypes (f : gmap nat (option type) -> gmap nat (option type))
    (s : state) : state :=
  mkState (structs s) (nextStruct s) (newStructTypes s) (typesMapping s)
          (f (baseTypesForByteLayout s)) (membersMappingData s)
          (downcastSourceToDestinationsMapping s) (escapingFields s).
Definition set_membersMappingData
    (f : gmap nat (list (nat * N)) -> gmap nat (list (nat * N))) (s : state) : state :=
  mkState (structs s) (nextStruct s) (newStructTypes s) (typesMapping s)
          (baseTypesForByteLayout s) (f (membersMappingData s))
          (downcastSourceToDestinationsMapping s) (escapingFields s).
Definition set_downcasts (f : gmap nat (list nat) -> gmap nat (list nat)) (s : state) : state :=
  mkState (structs s) (nextStruct s) (newStructTypes s) (typesMapping s)
          (baseTypesForByteLayout s) (membersMappingData s)
          (f (downcastSourceToDestinationsMapping s)) (escapingFields s).
Definition set_escapingFields (f : gset (nat * nat) -> gset (nat * nat)) (s : state) : state :=
  mkState (structs s) (nextStruct s) (newStructTypes s) (typesMapping s)
          (baseTypesForByteLayout s) (membersMappingData s)
          (downcastSourceToDestinationsMapping s) (f (escapingFields s)).

(** [StructType::create]: a fresh opaque struct, registered as new. *)
Definition createStruct (s : state) : nat * state :=
  let id := nextStruct s in
  (id,
   mkState (<[id := mkStruct [] true None false false false]> (structs s)) (S id)
           ({[id]} ∪ newStructTypes s) (typesMapping s)
           (baseTypesForByteLayout s) (membersMappingData s)
           (downcastSourceToDestinationsMapping s) (escapingFields s)).

(** ** The monad *)

Inductive result (A : Type) : Type :=
| Ok (a : A) (s : state)
| Abort
| OutOfFuel.
Arguments Ok {A} a s.
Arguments Abort {A}.
Arguments OutOfFuel {A}.

Definition M (A : Type) : Type := state -> result A.

#[global] Instance M_ret : MRet M := fun A a s => Ok a s.
#[global] Instance M_bind : MBind M := fun A B f m s =>
  match m s with
  | Ok a s' => f a s'
  | Abort => Abort
  | OutOfFuel => OutOfFuel
  end.

Definition get : M state := fun s => Ok s s.
Definition modify (f : state -> state) : M unit := fun s => Ok tt (f s).
Definition abort {A} : M A := fun _ => Abort.
Definition outOfFuel {A} : M A := fun _ => OutOfFuel.
Definition assert (b : bool) : M unit := if b then mret tt else abort.

(** Iteration over the elements of a container, threading an accumulator. *)
Fixpoint foldM {A B} (f : B -> A -> M B) (l : list A) (b : B) : M B :=
  match l with
  | [] => mret b
  | x :: l' => b' ← f b x; foldM f l' b'
  end.

Fixpoint mapM' {A B} (f : A -> M B) (l : list A) : M (list B) :=
  match l with
  | [] => mret []
  | x :: l' => y ← f x; ys ← mapM' f l'; mret (y :: ys)
  end.

Definition wrap32 (n : N) : N := n mod 2 ^ 32.
Definition wrap8 (n : N) : N := n mod 2 ^ 8.

(** ** Primitive accesses to the state *)

Definition getStruct (st : nat) : M StructInfo := fun s =>
  match structs s !! st with
  | Some info => Ok info s
  | None => Abort
  end.

Definition lookupMapping (t : type) : M (option TypeMappingInfo) := fun s =>
  Ok (typesMapping s !! t) s.

Definition setMapping (t : type) (info : TypeMappingInfo) : M unit :=
  modify (set_typesMapping <[t := info]>).

(** The lambda [CacheAndReturn] of [rewriteType], closed over [t]. *)
Definition CacheAndReturn (t ret : type) (kind : MAPPING_KIND) : M TypeMappingInfo :=
  _ ← setMapping t (mkInfo ret kind); mret (mkInfo ret kind).

Definition newStruct : M nat := fun s =>
  let '(id, s') := createStruct s in Ok id s'.

(** [newStruct->setBody(newTypes, packed, newDirectBase)] followed by the
    two flag setters at the end of the struct case. *)
Definition setBody (id : nat) (tys : list type) (packed : bool) (base : option nat)
    (byteLayout asmJS : bool) : M unit :=
  modify (set_structs <[id := mkStruct tys false base byteLayout
                                       (negb byteLayout && asmJS) packed]>).

(** ** addAllBaseTypesForByteLayout *)

(** The leaf case: initialise the known base type, or clear it to [NULL]
    when it differs from the passed one. *)
Definition addBaseType (st : nat) (baseType : type)
    (m : gmap nat (option type)) : gmap nat (option type) :=
  match m !! st with
  | None => <[st := Some baseType]> m
  | Some known =>
      if decide (known = Some baseType) then m else <[st := None]> m
  end.

Fixpoint addAllBaseTypes (fuel : nat) (sts : gmap nat StructInfo) (st : nat)
    (baseType : type) (m : gmap nat (option type)) : option (gmap nat (option type)) :=
  match fuel with
  | O => None
  | S fuel' =>
      match baseType with
      | ArrayTy elt _ => addAllBaseTypes fuel' sts st elt m
      | StructTy id =>
          match sts !! id with
          | Some info =>
              fold_left (fun acc ty => acc ≫= addAllBaseTypes fuel' sts st ty)
                        (elements info) (Some m)
          | None => Some m
          end
      | _ => Some (addBaseType st baseType m)
      end
  end.

Definition addAllBaseTypesForByteLayout (fuel : nat) (st : nat) (baseType : type) : M unit :=
  fun s =>
    match addAllBaseTypes fuel (structs s) st baseType (baseTypesForByteLayout s) with
    | Some m => Ok tt (set_baseTypes (fun _ => m) s)
    | None => OutOfFuel
    end.

(** ** gatherAllTypesInfo: the cast and reinterpretation facts *)

(** The instructions the pre-pass looks at.  A down-cast carries its source
    and destination struct and whether its offset operand is the constant
    zero; a bitcast carries the pointee types of its source and
    destination; an escaping struct GEP carries its container struct and
    its last (field) index. *)
Inductive gatherInst : Type :=
| Downcast (sourceType destType : nat) (offsetIsZero : bool)
| Virtualcast (sourceType : nat)
| BitCast (srcElt destElt : type)
| EscapingGEP (containerStructType fieldIndex : nat).

Definition insertDest (d : nat) (l : list nat) : list nat :=
  if decide (d ∈ l) then l else l ++ [d].

Fixpoint escapeBase (fuel : nat) (sts : gmap nat StructInfo) (container fieldIndex : nat)
    : option nat :=
  match fuel with
  | O => None
  | S fuel' =>
      match sts !! container ≫= directBase with
      | Some base =>
          match sts !! base with
          | Some binfo =>
              if Nat.leb (length (elements binfo)) fieldIndex then Some container
              else escapeBase fuel' sts base fieldIndex
          | None => Some container
          end
      | None => Some container
      end
  end.

Definition gatherInstInfo (fuel : nat) (i : gatherInst) : M unit :=
  match i with
  | Downcast src dst zero =>
      if negb zero then
        modify (set_downcasts <[src := []]>)
      else
        s ← get;
        match downcastSourceToDestinationsMapping s !! src with
        | Some [] => mret tt
        | Some l => modify (set_downcasts <[src := insertDest dst l]>)
        | None => modify (set_downcasts <[src := [dst]]>)
        end
  | Virtualcast src => modify (set_downcasts <[src := []]>)
  | BitCast srcElt destElt =>
      match srcElt with
      | StructTy st =>
          info ← getStruct st;
          if hasByteLayout info then addAllBaseTypesForByteLayout fuel st destElt
          else mret tt
      | _ => mret tt
      end
  | EscapingGEP container fieldIndex =>
      s ← get;
      match escapeBase fuel (structs s) container fieldIndex with
      | Some base => modify (set_escapingFields (fun e => {[(base, fieldIndex)]} ∪ e))
      | None => outOfFuel
      end
  end.

Definition gatherAllTypesInfo (fuel : nat) (insts : list gatherInst) : M unit :=
  foldM (fun _ i => gatherInstInfo fuel i) insts tt.

(** ** rewriteType *)

(** The state of the field-merging loop of the struct case. *)
Record MergeState : Type := mkMerge {
  newTypes : list type;
  membersMapping : list (nat * N);
  arraysFound : gmap type nat;
  mergedInts : list (nat * N);
  directBaseLimit : nat;
  curDirectBase : option nat;
  hasMergedArrays : bool
}.

Definition initMerge : MergeState := mkMerge [] [] ∅ [] 0 None false.

(** The walk down the chain of direct bases that still contain field [i]. *)
Fixpoint findDirectBase (fuel : nat) (sts : gmap nat StructInfo) (curBase i : nat)
    : option nat :=
  match fuel with
  | O => None
  | S fuel' =>
      match sts !! curBase ≫= directBase with
      | Some base =>
          match sts !! base with
          | Some binfo =>
              if Nat.ltb i (length (elements binfo))
              then findDirectBase fuel' sts base i
              else Some curBase
          | None => Some curBase
          end
      | None => Some curBase
      end
  end.

(** The first fillable integer with enough room for [bw] more bits. *)
Fixpoint findMergedInt (bw : N) (l : list (nat * N)) (m : nat) : option (nat * (nat * N)) :=
  match l with
  | [] => None
  | mi :: l' => if N.ltb (snd mi) bw then findMergedInt bw l' (S m) else Some (m, mi)
  end.

(** [membersMapping.push_back(newTypes.size(), 0); newTypes.push_back(rewrittenType)]. *)
Definition pushField (rewrittenType : type) (ms : MergeState) : MergeState :=
  mkMerge (newTypes ms ++ [rewrittenType])
          (membersMapping ms ++ [(length (newTypes ms), 0)])
          (arraysFound ms) (mergedInts ms) (directBaseLimit ms) (curDirectBase ms)
          (hasMergedArrays ms).

(** One iteration of the merging loop after the element type has been
    rewritten; [None] is a failed [cast<>]. *)
Definition mergeField (byteLayout : bool) (escaping : gset (nat * nat)) (i : nat)
    (rewrittenType : type) (ms : MergeState) : option MergeState :=
  if byteLayout then
    Some (mkMerge (newTypes ms ++ [rewrittenType]) (membersMapping ms) (arraysFound ms)
                  (mergedInts ms) (directBaseLimit ms) (curDirectBase ms)
                  (hasMergedArrays ms))
  else
    match rewrittenType with
    | ArrayTy arrayElementType num =>
        match arraysFound ms !! arrayElementType with
        | Some typeIndex =>
            match newTypes ms !! typeIndex with
            | Some (ArrayTy _ prevNum) =>
                Some (mkMerge (<[typeIndex := ArrayTy arrayElementType (prevNum + num)]>
                                 (newTypes ms))
                              (membersMapping ms ++ [(typeIndex, wrap32 prevNum)])
                              (arraysFound ms) (mergedInts ms) (directBaseLimit ms)
                              (curDirectBase ms) true)
            | _ => None
            end
        | None =>
            Some (pushField rewrittenType
                    (mkMerge (newTypes ms) (membersMapping ms)
                             (<[arrayElementType := length (newTypes ms)]> (arraysFound ms))
                             (mergedInts ms) (directBaseLimit ms) (curDirectBase ms)
                             (hasMergedArrays ms)))
        end
    | IntegerTy bw =>
        let fieldEscapes :=
          match curDirectBase ms with
          | Some base => bool_decide ((base, i) ∈ escaping)
          | None => false
          end in
        if negb fieldEscapes && N.ltb bw 32 then
          match findMergedInt bw (mergedInts ms) 0 with
          | Some (m, (first, second)) =>
              match newTypes ms !! first with
              | Some (IntegerTy oldBw) =>
                  let second' := second - bw in
                  Some (mkMerge (<[first := IntegerTy (oldBw + bw)]> (newTypes ms))
                                (membersMapping ms ++ [(first, 32 - second)])
                                (arraysFound ms)
                                (if N.eqb second' 0 then delete m (mergedInts ms)
                                 else <[m := (first, second')]> (mergedInts ms))
                                (directBaseLimit ms) (curDirectBase ms) true)
              | _ => None
              end
          | None =>
              Some (pushField rewrittenType
                      (mkMerge (newTypes ms) (membersMapping ms) (arraysFound ms)
                               (mergedInts ms ++ [(length (newTypes ms), 32 - bw)])
                               (directBaseLimit ms) (curDirectBase ms)
                               (hasMergedArrays ms)))
          end
        else Some (pushField rewrittenType ms)
    | _ => Some (pushField rewrittenType ms)
    end.

(** The reset of the merging state at the limit of the previous direct base. *)
Definition resetAtBase (fuel : nat) (sts : gmap nat StructInfo) (st i : nat)
    (ms : MergeState) : option MergeState :=
  if Nat.eqb i (directBaseLimit ms) then
    match findDirectBase fuel sts st i with
    | Some curBase =>
        Some (mkMerge (newTypes ms) (membersMapping ms) ∅ [] 
                      (match sts !! curBase with
                       | Some binfo => length (elements binfo)
                       | None => 0%nat
                       end)
                      (Some curBase) (hasMergedArrays ms))
    | None => None
    end
  else Some ms.

Section TypeOptimizer.

(** The collaborators of the pass that live outside [TypeOptimizer.cpp]:
    [TypeSupport::isClientType], [TypeSupport::isJSExportedType] (asked
    about the new struct, which has taken over the name of the old one,
    hence indexed here by the old struct) and the data layout. *)
Variable isClientType : type -> bool.
Variable isJSExportedType : nat -> bool.
Variable getTypeAllocSize : type -> N.
Variable getElementOffset : nat -> nat -> N.

Section Body.

(** [rec] stands for the recursive calls of [rewriteType]; [fuel] bounds
    the auxiliary walks over the struct table. *)
Variable fuel : nat.
Variable rec : type -> M TypeMappingInfo.

(** We can only collapse a downcast source if all the possible
    destinations collapse as well. *)
Fixpoint allDestinationsCollapse (dests : list nat) : M bool :=
  match dests with
  | [] => mret false
  | destSt :: dests' =>
      destStInfo ← rec (StructTy destSt);
      if decide (elementMappingKind destStInfo = COLLAPSED)
      then allDestinationsCollapse dests'
      else mret true
  end.

Definition isUnsafeDowncastSource (st : nat) : M bool :=
  s ← get;
  match downcastSourceToDestinationsMapping s !! st with
  | None => mret false
  | Some [] => mret true
  | Some dests => allDestinationsCollapse dests
  end.

(** Every struct type inside a byte layout struct must be convertible to
    an array as well. *)
Fixpoint areSubStructsConvertible (elts : list type) : M bool :=
  match elts with
  | [] => mret true
  | StructTy subSt :: elts' =>
      subInfoS ← getStruct subSt;
      if negb (hasByteLayout subInfoS) then mret false
      else
        subInfo ← rec (StructTy subSt);
        if decide (elementMappingKind subInfo = BYTE_LAYOUT_TO_ARRAY)
        then areSubStructsConvertible elts'
        else mret false
  | _ :: elts' => areSubStructsConvertible elts'
  end.

(** The body of [while(TypeSupport::hasByteLayout(st))]: [Some] is a
    [return], [None] a [break]. *)
Definition byteLayoutToArray (st : nat) (info : StructInfo) : M (option TypeMappingInfo) :=
  _ ← addAllBaseTypesForByteLayout fuel st (StructTy st);
  s ← get;
  match baseTypesForByteLayout s !! st with
  | None => abort
  | Some None => mret None
  | Some (Some baseType) =>
      let structSize := wrap32 (getTypeAllocSize (StructTy st)) in
      let elementSize := wrap32 (getTypeAllocSize baseType) in
      if N.eqb elementSize 0 then abort
      else if negb (N.eqb (structSize mod elementSize) 0) then mret None
      else
        convertible ← areSubStructsConvertible (elements info);
        if negb convertible then mret None
        else
          let numElements := structSize / elementSize in
          if N.eqb numElements 1 then
            r ← CacheAndReturn (StructTy st) baseType BYTE_LAYOUT_TO_ARRAY; mret (Some r)
          else
            r ← CacheAndReturn (StructTy st) (ArrayTy baseType numElements)
                  BYTE_LAYOUT_TO_ARRAY;
            mret (Some r)
  end.

(** The merging loop over the elements of a struct with several fields. *)
Fixpoint mergeFields (st : nat) (byteLayout : bool) (elts : list type) (i : nat)
    (ms : MergeState) : M MergeState :=
  match elts with
  | [] => mret ms
  | elementType :: elts' =>
      s ← get;
      match resetAtBase fuel (structs s) st i ms with
      | None => outOfFuel
      | Some ms1 =>
          rewrittenType ← rec elementType;
          s' ← get;
          match mergeField byteLayout (escapingFields s') i (mappedType rewrittenType) ms1 with
          | None => abort
          | Some ms2 => mergeFields st byteLayout elts' (S i) ms2
          end
      end
  end.

(** The test guarding the collapse of a struct left with a single field. *)
Definition mayCollapse (st : nat) (info : StructInfo) (field : type) : bool :=
  (match field with
   | PointerTy elt => isClientType elt
   | _ => false
   end)
  || (negb (isIntegerTyN 8 field) && negb (isPointerTy field)
      && negb (isJSExportedType st) && negb (hasByteLayout info)).

(** The block entered when [newTypes] has a single element: [inl] is the
    early [return] of a collapsed struct, [inr] the rewritten member. *)
Definition collapseSingleField (st newSt : nat) (info : StructInfo) (field : type)
    (newStructKind : MAPPING_KIND) : M (TypeMappingInfo + list type) :=
  let rewriteMember : M (TypeMappingInfo + list type) :=
    rewrittenType ← rec field; mret (inr [mappedType rewrittenType]) in
  if mayCollapse st info field then
    unsafe ← isUnsafeDowncastSource st;
    if negb unsafe then
      _ ← setMapping (StructTy st) (mkInfo field COLLAPSING);
      collapsed ← rec field;
      cur ← lookupMapping (StructTy st);
      match cur with
      | None => abort
      | Some curInfo =>
          if decide (elementMappingKind curInfo = COLLAPSING_BUT_USED) then
            _ ← setMapping (StructTy st) (mkInfo (StructTy newSt) IDENTICAL);
            rewriteMember
          else
            _ ← assert (bool_decide (elementMappingKind curInfo = COLLAPSING));
            r ← CacheAndReturn (StructTy st) (mappedType collapsed)
                  (if decide (newStructKind = MERGED_MEMBER_ARRAYS)
                   then MERGED_MEMBER_ARRAYS_AND_COLLAPSED else COLLAPSED);
            mret (inl r)
      end
    else rewriteMember
  else rewriteMember.

(** The struct case of [rewriteType], after the memo table missed.  The
    [state] holds the bodies and the flags of the structs, not their names
    nor the named metadata of the module: the renaming of the old struct
    to [obsoletestruct] and the update of the [_bases] metadata have no
    counterpart here. *)
Definition rewriteStruct (st : nat) : M TypeMappingInfo :=
  info ← getStruct st;
  if isClientType (StructTy st) then CacheAndReturn (StructTy st) (StructTy st) IDENTICAL
  else if isOpaque info then CacheAndReturn (StructTy st) (StructTy st) IDENTICAL
  else
    flattened ← (if hasByteLayout info then byteLayoutToArray st info else mret None);
    match flattened with
    | Some r => mret r
    | None =>
        newSt ← newStruct;
        _ ← setMapping (StructTy st) (mkInfo (StructTy newSt) IDENTICAL);
        '(tys, newStructKind) ←
          (if hasAsmJS info then
             tys ← mapM' (fun elTy => r ← rec elTy; mret (mappedType r)) (elements info);
             mret (tys, IDENTICAL)
           else if Nat.ltb 1 (length (elements info)) then
             ms ← mergeFields st (hasByteLayout info) (elements info) 0 initMerge;
             _ ← assert (bool_decide (length (membersMapping ms) = length (elements info))
                         || hasByteLayout info);
             if hasMergedArrays ms then
               _ ← assert (negb (bool_decide (newTypes ms = [])));
               _ ← modify (set_membersMappingData (fun m =>
                      match m !! st with
                      | Some _ => m
                      | None => <[st := membersMapping ms]> m
                      end));
               mret (newTypes ms, MERGED_MEMBER_ARRAYS)
             else mret (newTypes ms, IDENTICAL)
           else mret (elements info, IDENTICAL));
        collapsed ←
          (match tys with
           | [field] =>
               if negb (hasAsmJS info)
               then collapseSingleField st newSt info field newStructKind
               else mret (inr tys)
           | _ => mret (inr tys)
           end);
        match collapsed with
        | inl r => mret r
        | inr tys' =>
            newDirectBase ←
              (match directBase info with
               | Some base =>
                   r ← rec (StructTy base);
                   mret (match mappedType r with StructTy b => Some b | _ => None end)
               | None => mret None
               end);
            _ ← setBody newSt tys' (isPacked info) newDirectBase
                  (hasByteLayout info) (hasAsmJS info);
            CacheAndReturn (StructTy st) (StructTy newSt) newStructKind
        end
    end.

Definition rewriteType_body (t : type) : M TypeMappingInfo :=
  s ← get;
  _ ← assert (negb (match t with
                    | StructTy id => bool_decide (id ∈ newStructTypes s)
                    | _ => false
                    end));
  match typesMapping s !! t with
  | Some found =>
      if decide (elementMappingKind found = COLLAPSING) then
        if isStructTy (mappedType found) then
          _ ← assert (negb (bool_decide (mappedType found = t)));
          rec (mappedType found)
        else
          let used := mkInfo (mappedType found) COLLAPSING_BUT_USED in
          _ ← setMapping t used;
          mret used
      else mret found
  | None =>
      match t with
      | StructTy st => rewriteStruct st
      | FunctionTy retTy params varArg =>
          newReturnType ← rec retTy;
          newParameters ← mapM' (fun p => r ← rec p; mret (mappedType r)) params;
          CacheAndReturn t (FunctionTy (mappedType newReturnType) newParameters varArg)
            IDENTICAL
      | PointerTy elementType =>
          newType ← rec elementType;
          match mappedType newType with
          | ArrayTy arrayElementType _ =>
              CacheAndReturn t (PointerTy arrayElementType) POINTER_FROM_ARRAY
          | newTy =>
              if decide (newTy = elementType) then CacheAndReturn t t IDENTICAL
              else CacheAndReturn t (PointerTy newTy) IDENTICAL
          end
      | ArrayTy elementType num =>
          newInfo ← rec elementType;
          match mappedType newInfo with
          | ArrayTy subElementType subNum =>
              CacheAndReturn t (ArrayTy subElementType (num * subNum)) FLATTENED_ARRAY
          | newTy =>
              if decide (newTy = elementType) then CacheAndReturn t t IDENTICAL
              else CacheAndReturn t (ArrayTy newTy num) IDENTICAL
          end
      | _ => CacheAndReturn t t IDENTICAL
      end
  end.

End Body.

Fixpoint rewriteType (fuel : nat) (t : type) : M TypeMappingInfo :=
  match fuel with
  | O => outOfFuel
  | S fuel' => rewriteType_body fuel' (rewriteType fuel') t
  end.

(** ** Index values *)

(** The operands of an address computation: integer constants, values
    local to the function, and the arithmetic instructions the pass
    creates in front of the insertion point. *)
Inductive binop : Type := Add | Mul | And | Or | Shl | AShr.

Inductive value : Type :=
| ConstantInt (bits : N) (v : N)
| Local (bits : N) (id : nat)
| BinaryOperator (op : binop) (lhs rhs : value)
| LoadInst (bits : N) (ptr : nat)
| ZExtInst (v : value) (bits : N)
| TruncInst (v : value) (bits : N).

#[global] Instance binop_eq_decision : EqDecision binop.
Proof. solve_decision. Defined.
#[global] Instance value_eq_decision : EqDecision value.
Proof. solve_decision. Defined.

Fixpoint valueBits (v : value) : N :=
  match v with
  | ConstantInt b _ => b
  | Local b _ => b
  | BinaryOperator _ l _ => valueBits l
  | LoadInst b _ => b
  | ZExtInst _ b => b
  | TruncInst _ b => b
  end.

(** [ConstantInt::get(Type, uint64_t)] keeps the low bits of the value. *)
Definition ConstantInt_get (bits v : N) : value := ConstantInt bits (v mod 2 ^ bits).

(** [ConstantExpr::getAdd] and [getMul] on two integer constants of one type. *)
Definition constFold (op : binop) (a b : value) : option value :=
  match a, b with
  | ConstantInt ba va, ConstantInt bb vb =>
      if N.eqb ba bb then
        match op with
        | Add => Some (ConstantInt_get ba (va + vb))
        | Mul => Some (ConstantInt_get ba (va * vb))
        | _ => None
        end
      else None
  | _, _ => None
  end.

Record GEPState : Type := mkGEP {
  newIndexes : list value;
  addToLastIndex : bool;
  integerOffset : N;
  curType : type
}.

(** [insertionPoint] tells whether the indexes belong to an instruction
    (arithmetic is emitted as instructions) or to a constant expression
    (arithmetic is folded). *)
Definition combine (insertionPoint : bool) (op : binop) (a b : value) : option value :=
  if insertionPoint then Some (BinaryOperator op a b) else constFold op a b.

(** [newIndexes.back() = f(newIndexes.back())]; there is no back of an
    empty vector. *)
Fixpoint updateBack (f : value -> option value) (l : list value) : option (list value) :=
  match l with
  | [] => None
  | [back] => match f back with Some v => Some [v] | None => None end
  | x :: l' => match updateBack f l' with Some r => Some (x :: r) | None => None end
  end.

(** The lambda [AddIndex]. *)
Definition AddIndex (insertionPoint : bool) (V : value) (gs : GEPState) : option GEPState :=
  if addToLastIndex gs then
    match updateBack (fun back => combine insertionPoint Add back V) (newIndexes gs) with
    | Some idxs => Some (mkGEP idxs false (integerOffset gs) (curType gs))
    | None => None
    end
  else Some (mkGEP (newIndexes gs ++ [V]) false (integerOffset gs) (curType gs)).

(** The lambda [AddMultipliedIndex]. *)
Definition AddMultipliedIndex (insertionPoint : bool) (V : value) (multiplier : N)
    (gs : GEPState) : option GEPState :=
  match combine insertionPoint Mul V (ConstantInt_get (valueBits V) multiplier) with
  | Some prod => AddIndex insertionPoint prod gs
  | None => None
  end.

Definition setAddToLastIndex (gs : GEPState) : GEPState :=
  mkGEP (newIndexes gs) true (integerOffset gs) (curType gs).
Definition setCurType (t : type) (gs : GEPState) : GEPState :=
  mkGEP (newIndexes gs) (addToLastIndex gs) (integerOffset gs) t.
Definition addIntegerOffset (n : N) (gs : GEPState) : GEPState :=
  mkGEP (newIndexes gs) (addToLastIndex gs) (wrap32 (integerOffset gs + n)) (curType gs).

Definition liftOption {A} (o : option A) : M A :=
  match o with Some a => mret a | None => abort end.

Definition getSequentialElementType (t : type) : option type :=
  match t with
  | PointerTy e => Some e
  | ArrayTy e _ => Some e
  | _ => None
  end.

Definition constantIndex (V : value) : option nat :=
  match V with ConstantInt _ v => Some (N.to_nat v) | _ => None end.

(** The step to the type addressed by index [idx] inside [curType]. *)
Definition advanceType (idx : value) (gs : GEPState) : M GEPState :=
  match curType gs with
  | StructTy st =>
      info ← getStruct st;
      elementIndex ← liftOption (constantIndex idx);
      ty ← liftOption (elements info !! elementIndex);
      mret (setCurType ty gs)
  | t =>
      ty ← liftOption (getSequentialElementType t);
      mret (setCurType ty gs)
  end.

Section GEP.

Variable fuel : nat.
Variable insertionPoint : bool.
Variable targetType : type.

Definition Int32Zero : value := ConstantInt 32 0.

(** The common tail: a target that is an array is addressed through its
    first element. *)
Definition addZeroForArrayTarget (gs : GEPState) : M GEPState :=
  if isArrayTy targetType then liftOption (AddIndex insertionPoint Int32Zero gs)
  else mret gs.

(** The inner loop of the [BYTE_LAYOUT_TO_ARRAY] case, which consumes all
    the remaining indexes. *)
Fixpoint byteLayoutIndexes (baseTypeSize : N) (idxs : list value) (gs : GEPState)
    : M GEPState :=
  match idxs with
  | [] => mret gs
  | idx :: idxs' =>
      gs1 ←
        (match curType gs with
         | StructTy st =>
             info ← getStruct st;
             elementIndex ← liftOption (constantIndex idx);
             let elementOffset := wrap32 (getElementOffset st elementIndex) in
             _ ← assert (negb (N.eqb baseTypeSize 0));
             _ ← assert (N.eqb (elementOffset mod baseTypeSize) 0);
             gs' ← liftOption (AddIndex insertionPoint
                                 (ConstantInt_get 32 (elementOffset / baseTypeSize)) gs);
             ty ← liftOption (elements info !! elementIndex);
             mret (setCurType ty gs')
         | t =>
             elt ← liftOption (getSequentialElementType t);
             let elementSize := wrap32 (getTypeAllocSize elt) in
             _ ← assert (negb (N.eqb baseTypeSize 0));
             _ ← assert (N.eqb (elementSize mod baseTypeSize) 0);
             gs' ← liftOption (AddMultipliedIndex insertionPoint idx
                                 (elementSize / baseTypeSize) gs);
             mret (setCurType elt gs')
         end);
      byteLayoutIndexes baseTypeSize idxs' (setAddToLastIndex gs1)
  end.

Definition checkTarget (gs : GEPState) : M unit :=
  r ← rewriteType fuel (curType gs);
  assert (bool_decide (mappedType r = targetType)).

Fixpoint gepIndexes (idxs : list value) (i : nat) (gs : GEPState) : M (list value * N) :=
  match idxs with
  | [] =>
      _ ← checkTarget gs;
      gs' ← addZeroForArrayTarget gs;
      mret (newIndexes gs', wrap8 (integerOffset gs'))
  | idx :: idxs' =>
      curTypeMappingInfo ← rewriteType fuel (curType gs);
      let continue (gs1 : GEPState) : M (list value * N) :=
        gs2 ← advanceType idx gs1; gepIndexes idxs' (S i) gs2 in
      let flattened : M (list value * N) :=
        elt ← liftOption (getSequentialElementType (curType gs));
        oldInfo ← rewriteType fuel elt;
        let oldTypeSize := wrap32 (getTypeAllocSize (mappedType oldInfo)) in
        newElt ← liftOption (getSequentialElementType (mappedType curTypeMappingInfo));
        let elementSize := wrap32 (getTypeAllocSize newElt) in
        _ ← assert (negb (N.eqb elementSize 0));
        _ ← assert (N.eqb (oldTypeSize mod elementSize) 0);
        gs1 ← liftOption (AddMultipliedIndex insertionPoint idx
                            (oldTypeSize / elementSize) gs);
        continue (setAddToLastIndex gs1) in
      match elementMappingKind curTypeMappingInfo with
      | IDENTICAL =>
          gs1 ← liftOption (AddIndex insertionPoint idx gs);
          continue gs1
      | COLLAPSED => continue gs
      | BYTE_LAYOUT_TO_ARRAY =>
          _ ← assert (N.eqb (integerOffset gs) 0);
          match curType gs with
          | StructTy st =>
              if decide (mappedType curTypeMappingInfo = targetType) then
                gs' ← addZeroForArrayTarget gs;
                mret (newIndexes gs', 0)
              else
                s ← get;
                match baseTypesForByteLayout s !! st with
                | Some (Some baseType) =>
                    if negb (isArrayTy (mappedType curTypeMappingInfo)) then
                      _ ← assert (bool_decide (mappedType curTypeMappingInfo = baseType));
                      mret (newIndexes gs, 0)
                    else
                      let baseTypeSize := wrap32 (getTypeAllocSize baseType) in
                      gs1 ← byteLayoutIndexes baseTypeSize idxs gs;
                      _ ← checkTarget gs1;
                      gs2 ← addZeroForArrayTarget gs1;
                      mret (newIndexes gs2, 0)
                | _ => abort
                end
          | _ => abort
          end
      | POINTER_FROM_ARRAY =>
          _ ← assert (Nat.eqb i 0);
          flattened
      | FLATTENED_ARRAY => flattened
      | MERGED_MEMBER_ARRAYS | MERGED_MEMBER_ARRAYS_AND_COLLAPSED =>
          match curType gs with
          | StructTy oldStruct =>
              info ← getStruct oldStruct;
              elementIndex ← liftOption (constantIndex idx);
              s ← get;
              mapping ← liftOption (membersMappingData s !! oldStruct);
              mappedMember ← liftOption (mapping !! elementIndex);
              gs1 ←
                (if decide (elementMappingKind curTypeMappingInfo = MERGED_MEMBER_ARRAYS)
                 then liftOption (AddIndex insertionPoint
                                    (ConstantInt_get 32 (N.of_nat (fst mappedMember))) gs)
                 else _ ← assert (Nat.eqb (fst mappedMember) 0); mret gs);
              elementType ← liftOption (elements info !! elementIndex);
              mappedElementType ← rewriteType fuel elementType;
              gs2 ←
                (if isIntegerTy (mappedType mappedElementType)
                 then mret (addIntegerOffset (snd mappedMember) gs1)
                 else if negb (N.eqb (snd mappedMember) 0) then
                   gs' ← liftOption (AddIndex insertionPoint
                                       (ConstantInt_get 32 (snd mappedMember)) gs1);
                   mret (setAddToLastIndex gs')
                 else mret gs1);
              continue gs2
          | _ => abort
          end
      | COLLAPSING | COLLAPSING_BUT_USED => abort
      end
  end.

Definition rewriteGEPIndexes (ptrType : type) (idxs : list value) : M (list value * N) :=
  gepIndexes idxs 0 (mkGEP [] false 0 ptrType).

End GEP.

(** ** Constants *)

Inductive ceOpcode : Type := GetElementPtr | BitCastOp | IntToPtr | OtherOp (opcode : nat).

Inductive constant : Type :=
| GlobalVariable (id : nat) (ty : type)
| GlobalValue (id : nat) (ty : type)
| ConstantExpr (opcode : ceOpcode) (ty : type) (ops : list constant)
| ConstantAggregateZero (ty : type)
| ConstantPointerNull (ty : type)
| UndefValue (ty : type)
| ConstantStruct (ty : type) (ops : list constant)
| ConstantArray (ty : type) (ops : list constant)
| ConstantDataSequential (ty : type) (elts : list constant)
| ConstantIntC (bits : N) (v : N)
| ConstantFP (ty : type) (v : N).

Definition getType (C : constant) : type :=
  match C with
  | GlobalVariable _ ty | GlobalValue _ ty | ConstantExpr _ ty _
  | ConstantAggregateZero ty | ConstantPointerNull ty | UndefValue ty
  | ConstantStruct ty _ | ConstantArray ty _ | ConstantDataSequential ty _
  | ConstantFP ty _ => ty
  | ConstantIntC bits _ => IntegerTy bits
  end.

Definition isGEPExpr (C : constant) : bool :=
  match C with ConstantExpr GetElementPtr _ _ => true | _ => false end.

(** [Constant::getNullValue]. *)
Definition getNullValue (ty : type) : constant :=
  match ty with
  | IntegerTy bits => ConstantIntC bits 0
  | FloatTy | DoubleTy => ConstantFP ty 0
  | PointerTy _ => ConstantPointerNull ty
  | _ => ConstantAggregateZero ty
  end.

(** The indexes of a constant address expression are integer constants.
    The rewritten expression is given the rewritten type of the old one. *)
Definition constantToValue (C : constant) : option value :=
  match C with ConstantIntC bits v => Some (ConstantInt bits v) | _ => None end.
Definition valueToConstant (V : value) : option constant :=
  match V with ConstantInt bits v => Some (ConstantIntC bits v) | _ => None end.

Fixpoint sequenceOptions {A} (l : list (option A)) : option (list A) :=
  match l with
  | [] => Some []
  | Some a :: l' => match sequenceOptions l' with Some r => Some (a :: r) | None => None end
  | None :: _ => None
  end.

(** [pushAllArrayConstantElements]: the elements of an array constant. *)
Definition pushAllArrayConstantElements (array : constant) : option (list constant) :=
  match getType array with
  | ArrayTy elt num =>
      match array with
      | ConstantArray _ ops => Some (take (N.to_nat num) ops)
      | ConstantDataSequential _ elts => Some (take (N.to_nat num) elts)
      | ConstantAggregateZero _ => Some (replicate (N.to_nat num) (getNullValue elt))
      | _ => None
      end
  | _ => None
  end.

(** [pushAllBaseConstantElements]: the leaves of type [baseType] of a
    constant of a byte layout struct. *)
Fixpoint pushAllBaseConstantElements (fuel : nat) (C : constant) (baseType : type)
    : M (list constant) :=
  match fuel with
  | O => outOfFuel
  | S fuel' =>
      let pushAll (cs : list constant) : M (list constant) :=
        foldM (fun acc c =>
                 r ← pushAllBaseConstantElements fuel' c baseType; mret (acc ++ r)) cs [] in
      if decide (getType C = baseType) then mret [C]
      else
        match getType C with
        | ArrayTy elt num =>
            match C with
            | ConstantArray _ ops => pushAll (take (N.to_nat num) ops)
            | ConstantDataSequential _ elts => pushAll (take (N.to_nat num) elts)
            | ConstantAggregateZero _ =>
                pushAll (replicate (N.to_nat num) (getNullValue elt))
            | _ => abort
            end
        | StructTy st =>
            info ← getStruct st;
            match C with
            | ConstantStruct _ ops => pushAll (take (length (elements info)) ops)
            | ConstantAggregateZero _ => pushAll (map getNullValue (elements info))
            | _ => abort
            end
        | _ => abort
        end
  end.

Section Constants.

Variable fuel : nat.
(** [globalsMapping] and [globalTypeMapping], filled by [rewriteGlobal]
    before any constant is rewritten. *)
Variable globalsMapping : gmap nat constant.
Variable globalTypeMapping : gmap nat type.
Variable rec : constant -> M (constant * N).

Definition getOriginalGlobalType (C : constant) : type :=
  match C with
  | GlobalVariable id ty | GlobalValue id ty =>
      match globalTypeMapping !! id with
      | Some orig => orig
      | None => ty
      end
  | _ => getType C
  end.

(** The operand loops that require a zero residual offset. *)
Definition rewriteOperand (C : constant) : M constant :=
  rewrittenOperand ← rec C;
  _ ← assert (N.eqb (snd rewrittenOperand) 0);
  mret (fst rewrittenOperand).

(** The loop over the operands of a struct constant that is neither
    flattened nor collapsed. *)
Definition rewriteStructElement (newTypeInfo : TypeMappingInfo)
    (mapping : option (list (nat * N))) (hasMergedArrays : bool)
    (acc : list constant * nat) (element : constant) : M (list constant * nat) :=
  let '(newElements, i) := acc in
  newElement ← rewriteOperand element;
  let remapped : option (nat * N) :=
    if hasMergedArrays then
      match mapping ≫= (fun m => m !! i) with
      | Some mm => if Nat.eqb (fst mm) (length newElements) then None else Some mm
      | None => Some (0%nat, 0)
      end
    else None in
  match remapped with
  | None => mret (newElements ++ [newElement], S i)
  | Some (first, second) =>
      _ ← assert (bool_decide (is_Some (mapping ≫= (fun m => m !! i))));
      oldMember ← liftOption (newElements !! first);
      match getType oldMember with
      | ArrayTy elt _ =>
          _ ← assert (bool_decide (getSequentialElementType (getType newElement) = Some elt));
          oldElts ← liftOption (pushAllArrayConstantElements oldMember);
          newElts ← liftOption (pushAllArrayConstantElements newElement);
          let merged := oldElts ++ newElts in
          mret (<[first := ConstantArray (ArrayTy elt (N.of_nat (length merged))) merged]>
                  newElements, S i)
      | IntegerTy _ =>
          match oldMember, newElement with
          | ConstantIntC _ oldValue, ConstantIntC _ newValue =>
              let shifted := wrap32 (N.shiftl (wrap32 newValue) second) in
              let finalValue := N.lor (wrap32 oldValue) shifted in
              IntType ←
                (if decide (elementMappingKind newTypeInfo = MERGED_MEMBER_ARRAYS_AND_COLLAPSED)
                 then mret (mappedType newTypeInfo)
                 else
                   match mappedType newTypeInfo with
                   | StructTy newSt =>
                       info ← getStruct newSt;
                       liftOption (elements info !! first)
                   | _ => abort
                   end);
              match IntType with
              | IntegerTy bits =>
                  mret (<[first := ConstantIntC bits (finalValue mod 2 ^ bits)]> newElements,
                        S i)
              | _ => abort
              end
          | _, _ => abort
          end
      | _ => mret (newElements, S i)
      end
  end.

(** The constant expressions. *)
Definition rewriteConstantExpr (newTypeInfo : TypeMappingInfo) (opcode : ceOpcode)
    (ty : type) (ops : list constant) : M (constant * N) :=
  match opcode with
  | GetElementPtr =>
      match ops with
      | ptrOperand :: indexes =>
          let ptrType := getOriginalGlobalType ptrOperand in
          newPtrOperand ← rewriteOperand ptrOperand;
          elt ← liftOption (getSequentialElementType ty);
          targetType ← rewriteType fuel elt;
          idxs ← liftOption (sequenceOptions (map constantToValue indexes));
          '(newIndexes, mergedIntegerOffset) ←
            rewriteGEPIndexes fuel false (mappedType targetType) ptrType idxs;
          newIdxs ← liftOption (sequenceOptions (map valueToConstant newIndexes));
          mret (ConstantExpr GetElementPtr (mappedType newTypeInfo)
                  (newPtrOperand :: newIdxs), mergedIntegerOffset)
      | [] => abort
      end
  | BitCastOp =>
      match ops with
      | srcOperand :: _ =>
          newSrc ← rewriteOperand srcOperand;
          mret (ConstantExpr BitCastOp (mappedType newTypeInfo) [newSrc], 0)
      | [] => abort
      end
  | IntToPtr => mret (ConstantExpr IntToPtr (mappedType newTypeInfo) (firstn 1 ops), 0)
  | OtherOp op =>
      newOperands ← mapM' rewriteOperand ops;
      mret (ConstantExpr (OtherOp op) ty newOperands, 0)
  end.

(** The struct constants whose type changed. *)
Definition rewriteConstantStruct (newTypeInfo : TypeMappingInfo) (C : constant) (st : nat)
    (ops : list constant) : M (constant * N) :=
  if decide (elementMappingKind newTypeInfo = BYTE_LAYOUT_TO_ARRAY) then
    s ← get;
    match baseTypesForByteLayout s !! st with
    | Some (Some baseType) =>
        newElements ← pushAllBaseConstantElements fuel C baseType;
        match newElements with
        | [single] => mret (single, 0)
        | _ =>
            mret (ConstantArray (ArrayTy baseType (N.of_nat (length newElements)))
                    newElements, 0)
        end
    | _ => abort
    end
  else if decide (elementMappingKind newTypeInfo = COLLAPSED) then
    info ← getStruct st;
    _ ← assert (Nat.eqb (length (elements info)) 1);
    element ← liftOption (ops !! 0%nat);
    rec element
  else
    s ← get;
    let mapping := membersMappingData s !! st in
    let hasMergedArrays :=
      bool_decide (elementMappingKind newTypeInfo = MERGED_MEMBER_ARRAYS)
      || bool_decide (elementMappingKind newTypeInfo = MERGED_MEMBER_ARRAYS_AND_COLLAPSED) in
    _ ← assert (negb hasMergedArrays || bool_decide (is_Some mapping));
    '(newElements, _) ←
      foldM (rewriteStructElement newTypeInfo mapping hasMergedArrays) ops ([], 0%nat);
    if decide (elementMappingKind newTypeInfo = MERGED_MEMBER_ARRAYS_AND_COLLAPSED) then
      match newElements with
      | [single] => mret (single, 0)
      | _ => abort
      end
    else
      _ ← assert (isStructTy (mappedType newTypeInfo));
      mret (ConstantStruct (mappedType newTypeInfo) newElements, 0).

(** The constants that are not expressions and whose type changed. *)
Definition rewriteRetypedConstant (newTypeInfo : TypeMappingInfo) (C : constant)
    : M (constant * N) :=
  match C with
  | ConstantAggregateZero _ => mret (getNullValue (mappedType newTypeInfo), 0)
  | ConstantPointerNull _ =>
      _ ← assert (isPointerTy (mappedType newTypeInfo));
      mret (ConstantPointerNull (mappedType newTypeInfo), 0)
  | UndefValue _ => mret (UndefValue (mappedType newTypeInfo), 0)
  | ConstantStruct (StructTy st) ops => rewriteConstantStruct newTypeInfo C st ops
  | ConstantArray _ ops =>
      _ ← assert (isArrayTy (mappedType newTypeInfo));
      newElements ←
        foldM (fun acc element =>
                 newElement ← rewriteOperand element;
                 if decide (elementMappingKind newTypeInfo = FLATTENED_ARRAY) then
                   elts ← liftOption (pushAllArrayConstantElements newElement);
                   mret (acc ++ elts)
                 else mret (acc ++ [newElement])) ops [];
      mret (ConstantArray (mappedType newTypeInfo) newElements, 0)
  | _ => abort
  end.

Definition rewriteConstant_body (C : constant) : M (constant * N) :=
  match C with
  | GlobalVariable id _ =>
      c ← liftOption (globalsMapping !! id); mret (c, 0)
  | GlobalValue _ _ => mret (C, 0)
  | ConstantExpr opcode ty ops =>
      newTypeInfo ← rewriteType fuel (getType C);
      rewriteConstantExpr newTypeInfo opcode ty ops
  | _ =>
      newTypeInfo ← rewriteType fuel (getType C);
      if decide (getType C = mappedType newTypeInfo) then mret (C, 0)
      else rewriteRetypedConstant newTypeInfo C
  end.

End Constants.

Fixpoint rewriteConstant (fuel : nat) (globalsMapping : gmap nat constant)
    (globalTypeMapping : gmap nat type) (C : constant) : M (constant * N) :=
  match fuel with
  | O => outOfFuel
  | S fuel' =>
      rewriteConstant_body fuel' globalsMapping globalTypeMapping
        (rewriteConstant fuel' globalsMapping globalTypeMapping) C
  end.

(** ** Loads and stores through a merged integer *)

(** The [Store] case of [rewriteFunction] for a pointer that was mapped to
    a shared integer of [wordBits] bits at bit offset [offset]: the value
    that the store writes back in place of [mappedValue]. *)
Definition rewriteMergedStore (mappedValue : value) (wordBits : N) (ptr : nat) (offset : N)
    : value :=
  let load := LoadInst wordBits ptr in
  let maskVal := wrap32 (2 ^ valueBits mappedValue - 1) in
  let maskVal := wrap32 (N.shiftl maskVal offset) in
  let maskVal := N.lxor maskVal (2 ^ 32 - 1) in
  let mask := BinaryOperator And load (ConstantInt_get wordBits maskVal) in
  let extend := ZExtInst mappedValue wordBits in
  let extend :=
    if N.eqb offset 0 then extend
    else BinaryOperator Shl extend (ConstantInt_get wordBits offset) in
  BinaryOperator Or mask extend.

(** The [Load] case: the value that replaces a load of [oldBits] bits. *)
Definition rewriteMergedLoad (oldBits wordBits : N) (ptr : nat) (offset : N) : value :=
  let mergedValue := LoadInst wordBits ptr in
  let mergedValue :=
    if N.eqb offset 0 then mergedValue
    else BinaryOperator AShr mergedValue (ConstantInt_get wordBits offset) in
  TruncInst mergedValue oldBits.

(** The meaning of the emitted instructions on integers of [bits] bits,
    kept as their unsigned value. *)
Definition ashr (bits a b : N) : N :=
  if N.testbit a (bits - 1)
  then N.lor (N.shiftr a b) (N.shiftl (N.ones b) (bits - b)) mod 2 ^ bits
  else N.shiftr a b.

Definition evalBinop (op : binop) (bits a b : N) : N :=
  match op with
  | Add => (a + b) mod 2 ^ bits
  | Mul => (a * b) mod 2 ^ bits
  | And => N.land a b
  | Or => N.lor a b
  | Shl => N.shiftl a b mod 2 ^ bits
  | AShr => ashr bits a b
  end.

Fixpoint evalValue (mem : nat -> N) (locals : nat -> N) (V : value) : N :=
  match V with
  | ConstantInt _ v => v
  | Local _ id => locals id
  | BinaryOperator op l r =>
      evalBinop op (valueBits l) (evalValue mem locals l) (evalValue mem locals r)
  | LoadInst bits ptr => mem ptr mod 2 ^ bits
  | ZExtInst v _ => evalValue mem locals v
  | TruncInst v bits => evalValue mem locals v mod 2 ^ bits
  end.

(** Executing the rewritten store: the shared word is replaced. *)
Definition execMergedStore (mappedValue : value) (wordBits : N) (ptr : nat) (offset : N)
    (locals : nat -> N) (mem : nat -> N) : nat -> N :=
  let word := evalValue mem locals (rewriteMergedStore mappedValue wordBits ptr offset) in
  fun p => if Nat.eqb p ptr then word else mem p.

End TypeOptimizer.

(** * Reasoning about the monad *)

(** Partial correctness: [wp m Q s] holds when running [m] from [s]
    either does not finish with [Ok] or finishes in a result and a state
    that satisfy [Q]. *)
Definition wp {A} (m : M A) (Q : A -> state -> Prop) (s : state) : Prop :=
  match m s with
  | Ok a s' => Q a s'
  | Abort => True
  | OutOfFuel => True
  end.

Lemma wp_run {A} (m : M A) Q s a s' : wp m Q s -> m s = Ok a s' -> Q a s'.
Proof. unfold wp. intros H E. now rewrite E in H. Qed.

Lemma run_wp {A} (m : M A) (Q : A -> state -> Prop) s :
  (forall a s', m s = Ok a s' -> Q a s') -> wp m Q s.
Proof. unfold wp. intros H. destruct (m s); auto. Qed.

Lemma wp_ret {A} (a : A) (Q : A -> state -> Prop) s : Q a s -> wp (mret a) Q s.
Proof. exact id. Qed.

Lemma wp_bind {A B} (m : M A) (f : A -> M B) (Q : B -> state -> Prop) s :
  wp m (fun a s' => wp (f a) Q s') s -> wp (m ≫= f) Q s.
Proof. unfold wp, mbind, M_bind. destruct (m s); auto. Qed.

Lemma wp_mono {A} (m : M A) (Q Q' : A -> state -> Prop) s :
  wp m Q s -> (forall a s', Q a s' -> Q' a s') -> wp m Q' s.
Proof. unfold wp. destruct (m s); auto. Qed.

Lemma wp_and {A} (m : M A) (Q Q' : A -> state -> Prop) s :
  wp m Q s -> wp m Q' s -> wp m (fun a s' => Q a s' /\ Q' a s') s.
Proof. unfold wp. destruct (m s); auto. Qed.

Lemma wp_get (Q : state -> state -> Prop) s : Q s s -> wp get Q s.
Proof. exact id. Qed.

Lemma wp_modify f (Q : unit -> state -> Prop) s : Q tt (f s) -> wp (modify f) Q s.
Proof. exact id. Qed.

Lemma wp_abort {A} (Q : A -> state -> Prop) s : wp abort Q s.
Proof. exact I. Qed.

Lemma wp_outOfFuel {A} (Q : A -> state -> Prop) s : wp outOfFuel Q s.
Proof. exact I. Qed.

Lemma wp_assert b (Q : unit -> state -> Prop) s : (b = true -> Q tt s) -> wp (assert b) Q s.
Proof. destruct b; simpl; intros H; [apply H; reflexivity|exact I]. Qed.

Lemma wp_liftOption {A} (o : option A) (Q : A -> state -> Prop) s :
  (forall a, o = Some a -> Q a s) -> wp (liftOption o) Q s.
Proof. destruct o; simpl; intros H; [apply H; reflexivity|exact I]. Qed.

Lemma wp_getStruct st (Q : StructInfo -> state -> Prop) s :
  (forall info, structs s !! st = Some info -> Q info s) -> wp (getStruct st) Q s.
Proof. unfold wp, getStruct. destruct (structs s !! st); auto. Qed.

Lemma wp_lookupMapping t (Q : option TypeMappingInfo -> state -> Prop) s :
  Q (typesMapping s !! t) s -> wp (lookupMapping t) Q s.
Proof. exact id. Qed.

Lemma wp_setMapping t info (Q : unit -> state -> Prop) s :
  Q tt (set_typesMapping <[t := info]> s) -> wp (setMapping t info) Q s.
Proof. exact id. Qed.

Lemma wp_CacheAndReturn t ret kind (Q : TypeMappingInfo -> state -> Prop) s :
  Q (mkInfo ret kind) (set_typesMapping <[t := mkInfo ret kind]> s) ->
  wp (CacheAndReturn t ret kind) Q s.
Proof. exact id. Qed.

Lemma wp_newStruct (Q : nat -> state -> Prop) s :
  Q (nextStruct s) (snd (createStruct s)) -> wp newStruct Q s.
Proof. exact id. Qed.

(** One step of symbolic execution of a monadic program. *)
Ltac wp_step :=
  lazymatch goal with
  | |- wp (mbind _ _) _ _ => apply wp_bind
  | |- wp (mret _) _ _ => apply wp_ret
  | |- wp get _ _ => apply wp_get
  | |- wp (modify _) _ _ => apply wp_modify
  | |- wp abort _ _ => apply wp_abort
  | |- wp outOfFuel _ _ => apply wp_outOfFuel
  | |- wp (assert _) _ _ => apply wp_assert; intros ?
  | |- wp (liftOption _) _ _ => apply wp_liftOption; intros ? ?
  | |- wp (getStruct _) _ _ => apply wp_getStruct; intros ? ?
  | |- wp (lookupMapping _) _ _ => apply wp_lookupMapping
  | |- wp (setMapping _ _) _ _ => apply wp_setMapping
  | |- wp (CacheAndReturn _ _ _) _ _ => apply wp_CacheAndReturn
  | |- wp newStruct _ _ => apply wp_newStruct
  end.

(** * The memo table along a run of [rewriteType] *)

(** The only change ever made to an existing entry: a struct that is being
    collapsed to a non-struct type and is asked for again. *)
Definition promoted (i i' : TypeMappingInfo) : Prop :=
  elementMappingKind i = COLLAPSING /\ isStructTy (mappedType i) = false /\
  i' = mkInfo (mappedType i) COLLAPSING_BUT_USED.

(** [extends x s s']: what a run from [s] to [s'] keeps.  The entry of the
    type [x] under rewriting, if any, is exempt. *)
Record extends (x : option type) (s s' : state) : Prop := mkExtends {
  ext_downcasts :
    downcastSourceToDestinationsMapping s' = downcastSourceToDestinationsMapping s;
  ext_escaping : escapingFields s' = escapingFields s;
  ext_next : (nextStruct s <= nextStruct s')%nat;
  ext_structs : forall id, (id < nextStruct s)%nat -> structs s' !! id = structs s !! id;
  ext_new : forall id,
    id ∈ newStructTypes s' -> id ∈ newStructTypes s \/ (nextStruct s <= id)%nat;
  ext_new_mono : forall id, id ∈ newStructTypes s -> id ∈ newStructTypes s';
  ext_memo : forall k i, x <> Some k -> typesMapping s !! k = Some i ->
    typesMapping s' !! k = Some i \/
    exists i', promoted i i' /\ typesMapping s' !! k = Some i';
  ext_transient : forall k i', x <> Some k -> typesMapping s' !! k = Some i' ->
    isTransient (elementMappingKind i') = true ->
    exists i, typesMapping s !! k = Some i /\ isTransient (elementMappingKind i) = true;
  ext_members : forall st l,
    membersMappingData s !! st = Some l -> membersMappingData s' !! st = Some l
}.

Lemma extends_refl x s : extends x s s.
Proof. constructor; eauto. Qed.

Lemma extends_trans x s1 s2 s3 : extends x s1 s2 -> extends x s2 s3 -> extends x s1 s3.
Proof.
  intros [D1 E1 N1 S1 W1 V1 M1 T1 B1] [D2 E2 N2 S2 W2 V2 M2 T2 B2]. constructor.
  - congruence.
  - congruence.
  - lia.
  - intros id Hid. rewrite S2 by lia. now apply S1.
  - intros id Hid. destruct (W2 id Hid) as [H|H]; [apply W1 in H; destruct H; auto; right; lia|right; lia].
  - auto.
  - intros k i Hx Hk. destruct (M1 k i Hx Hk) as [H|(i' & Hp & H)].
    + apply (M2 k i Hx H).
    + destruct (M2 k i' Hx H) as [H'|(i'' & Hp' & H')].
      * right; eauto.
      * destruct Hp as (_ & _ & ->), Hp' as (Hk' & _). discriminate.
  - intros k i' Hx Hk Ht. destruct (T2 k i' Hx Hk Ht) as (i & Hi & Hti). eauto.
  - eauto.
Qed.

Lemma extends_weaken x s s' : extends None s s' -> extends x s s'.
Proof.
  intros [D E N S W V M T B]. constructor; try assumption.
  - intros k i _ Hk. apply M; [discriminate|exact Hk].
  - intros k i _ Hk Ht. apply (T k i); [discriminate|exact Hk|exact Ht].
Qed.

Lemma extends_close t s s' :
  extends (Some t) s s' -> typesMapping s !! t = None ->
  (forall i, typesMapping s' !! t = Some i -> isTransient (elementMappingKind i) = false) ->
  extends None s s'.
Proof.
  intros [D E N S W V M T B] Hnone Hfin. constructor; try assumption.
  - intros k i _ Hk. apply M; [|exact Hk]. intros [= ->]. congruence.
  - intros k i _ Hk Ht. apply (T k i); auto. intros [= ->].
    rewrite (Hfin _ Hk) in Ht. discriminate.
Qed.

Lemma extends_setMapping t i s : extends (Some t) s (set_typesMapping <[t := i]> s).
Proof.
  constructor; simpl; auto.
  - intros k j Hx Hk. left. rewrite lookup_insert_ne; [exact Hk|congruence].
  - intros k j Hx Hk Ht. rewrite lookup_insert_ne in Hk by congruence. eauto.
Qed.

Lemma extends_promote t i s :
  typesMapping s !! t = Some i -> elementMappingKind i = COLLAPSING ->
  isStructTy (mappedType i) = false ->
  extends None s (set_typesMapping <[t := mkInfo (mappedType i) COLLAPSING_BUT_USED]> s).
Proof.
  intros Ht Hk Hs. constructor; simpl; auto.
  - intros k j _ Hj. destruct (decide (t = k)) as [->|Hne].
    + right. rewrite lookup_insert_eq. eexists; split; [|reflexivity].
      assert (j = i) as -> by congruence. now repeat split.
    + left. now rewrite lookup_insert_ne.
  - intros k j _ Hj Htr. destruct (decide (t = k)) as [->|Hne].
    + exists i. split; [exact Ht|]. now rewrite Hk.
    + rewrite lookup_insert_ne in Hj by assumption. eauto.
Qed.

Lemma extends_createStruct x s : extends x s (snd (createStruct s)).
Proof.
  constructor; simpl; auto.
  - intros id Hid. rewrite lookup_insert_ne; [reflexivity|lia].
  - intros id Hid. apply elem_of_union in Hid as [Hid|Hid]; [|now left].
    apply elem_of_singleton in Hid. right; lia.
  - intros id Hid. apply elem_of_union. now right.
  - eauto.
Qed.

Lemma extends_setBody x s id info :
  (nextStruct s <= id)%nat -> extends x s (set_structs <[id := info]> s).
Proof.
  intros Hid. constructor; simpl; auto.
  - intros id' Hid'. rewrite lookup_insert_ne; [reflexivity|lia].
  - eauto.
Qed.

Lemma extends_set_structs_later x s0 s id info :
  extends x s0 s -> (nextStruct s0 <= id)%nat ->
  extends x s0 (set_structs <[id := info]> s).
Proof.
  intros [D E N S W V M T B] Hid. constructor; simpl; auto.
  intros id' Hid'. rewrite lookup_insert_ne by lia. now apply S.
Qed.

Lemma extends_set_baseTypes x s f : extends x s (set_baseTypes f s).
Proof. constructor; simpl; eauto. Qed.

Lemma extends_insertMembers x s st l :
  extends x s (set_membersMappingData (fun m =>
                 match m !! st with Some _ => m | None => <[st := l]> m end) s).
Proof.
  constructor; simpl; eauto.
  intros st' l' H. destruct (membersMappingData s !! st) eqn:E; [exact H|].
  rewrite lookup_insert_ne; [exact H|congruence].
Qed.

(** ** Runs that stay inside a preorder on states *)

Definition steps {A} (R : state -> state -> Prop) (m : M A) : Prop :=
  forall s, wp m (fun _ s' => R s s') s.

Lemma wp_steps {A} R (m : M A) (Q : A -> state -> Prop) s :
  steps R m -> (forall a s', R s s' -> Q a s') -> wp m Q s.
Proof. intros H HQ. eapply wp_mono; [apply H|]. exact HQ. Qed.

Section Steps.

Context (R : state -> state -> Prop) `{!PreOrder R}.

Lemma steps_ret {A} (a : A) : steps R (mret a).
Proof. intros s. apply wp_ret. reflexivity. Qed.

Lemma steps_bind {A B} (m : M A) (f : A -> M B) :
  steps R m -> (forall a, steps R (f a)) -> steps R (m ≫= f).
Proof.
  intros Hm Hf s. apply wp_bind. eapply wp_steps; [exact Hm|].
  intros a s' H1. eapply wp_steps; [apply Hf|].
  intros b s'' H2. now transitivity s'.
Qed.

Lemma steps_get : steps R get.
Proof. intros s. apply wp_get. reflexivity. Qed.

Lemma steps_abort {A} : steps R (@abort A).
Proof. intros s. exact I. Qed.

Lemma steps_outOfFuel {A} : steps R (@outOfFuel A).
Proof. intros s. exact I. Qed.

Lemma steps_assert b : steps R (assert b).
Proof. intros s. apply wp_assert. reflexivity. Qed.

Lemma steps_liftOption {A} (o : option A) : steps R (liftOption o).
Proof. intros s. apply wp_liftOption. reflexivity. Qed.

Lemma steps_getStruct st : steps R (getStruct st).
Proof. intros s. apply wp_getStruct. reflexivity. Qed.

Lemma steps_lookupMapping t : steps R (lookupMapping t).
Proof. intros s. apply wp_lookupMapping. reflexivity. Qed.

Lemma steps_mapM' {A B} (f : A -> M B) l :
  (forall a, steps R (f a)) -> steps R (mapM' f l).
Proof.
  intros Hf. induction l as [|x l IH]; simpl.
  - apply steps_ret.
  - apply steps_bind; [apply Hf|]. intros y.
    apply steps_bind; [exact IH|]. intros ys. apply steps_ret.
Qed.

Lemma steps_foldM {A B} (f : B -> A -> M B) l b :
  (forall b a, steps R (f b a)) -> steps R (foldM f l b).
Proof.
  intros Hf. revert b. induction l as [|x l IH]; intros b; simpl.
  - apply steps_ret.
  - apply steps_bind; [apply Hf|]. intros b'. apply IH.
Qed.

Variable rec : type -> M TypeMappingInfo.
Hypothesis steps_rec : forall t, steps R (rec t).

Lemma steps_allDestinationsCollapse dests : steps R (allDestinationsCollapse rec dests).
Proof.
  induction dests as [|d dests IH]; simpl.
  - apply steps_ret.
  - apply steps_bind; [apply steps_rec|]. intros info.
    destruct (decide _); [exact IH|apply steps_ret].
Qed.

Lemma steps_isUnsafeDowncastSource st : steps R (isUnsafeDowncastSource rec st).
Proof.
  unfold isUnsafeDowncastSource. apply steps_bind; [apply steps_get|]. intros s.
  destruct (downcastSourceToDestinationsMapping s !! st) as [[|d dests]|].
  - apply steps_ret.
  - apply steps_allDestinationsCollapse.
  - apply steps_ret.
Qed.

Lemma steps_areSubStructsConvertible elts : steps R (areSubStructsConvertible rec elts).
Proof.
  induction elts as [|e elts IH]; simpl.
  - apply steps_ret.
  - destruct e; try exact IH.
    apply steps_bind; [apply steps_getStruct|]. intros info.
    destruct (negb (hasByteLayout info)); [apply steps_ret|].
    apply steps_bind; [apply steps_rec|]. intros sub.
    destruct (decide _); [exact IH|apply steps_ret].
Qed.

Lemma steps_mergeFields fuel st byteLayout elts i ms :
  steps R (mergeFields fuel rec st byteLayout elts i ms).
Proof.
  revert i ms. induction elts as [|e elts IH]; intros i ms; simpl.
  - apply steps_ret.
  - apply steps_bind; [apply steps_get|]. intros s.
    destruct (resetAtBase fuel (structs s) st i ms); [|apply steps_outOfFuel].
    apply steps_bind; [apply steps_rec|]. intros r.
    apply steps_bind; [apply steps_get|]. intros s'.
    destruct (mergeField _ _ _ _ _); [apply IH|apply steps_abort].
Qed.

End Steps.

#[global] Instance extends_preorder x : PreOrder (extends x).
Proof. split; [intros s; apply extends_refl|intros s1 s2 s3; apply extends_trans]. Qed.

Section Memo.

Variable isClientType : type -> bool.
Variable isJSExportedType : nat -> bool.
Variable getTypeAllocSize : type -> N.

Local Abbreviation rewriteType' := (rewriteType isClientType isJSExportedType getTypeAllocSize).

(** What a finished call says about the entry of its own type. *)
Definition resultOK (t : type) (s : state) (r : TypeMappingInfo) (s' : state) : Prop :=
  match typesMapping s !! t with
  | None => typesMapping s' !! t = Some r /\ isTransient (elementMappingKind r) = false
  | Some i =>
      if decide (elementMappingKind i = COLLAPSING) then
        if isStructTy (mappedType i) then True
        else r = mkInfo (mappedType i) COLLAPSING_BUT_USED /\
             s' = set_typesMapping <[t := r]> s
      else r = i /\ s' = s
  end.

Definition cached (t : type) (r : TypeMappingInfo) (s' : state) : Prop :=
  typesMapping s' !! t = Some r /\ isTransient (elementMappingKind r) = false.

Lemma wp_addAllBaseTypesForByteLayout fuel st ty (Q : unit -> state -> Prop) s :
  (forall m, Q tt (set_baseTypes (fun _ => m) s)) ->
  wp (addAllBaseTypesForByteLayout fuel st ty) Q s.
Proof.
  intros H. unfold wp, addAllBaseTypesForByteLayout.
  destruct (addAllBaseTypes _ _ _ _ _); auto.
Qed.

Lemma wp_setBody id tys packed base bl asm (Q : unit -> state -> Prop) s :
  (forall info, Q tt (set_structs <[id := info]> s)) ->
  wp (setBody id tys packed base bl asm) Q s.
Proof. intros H. apply H. Qed.

Section Frame.

Variable fuel : nat.
Variable rec : type -> M TypeMappingInfo.
Hypothesis rec_extends : forall t, steps (extends None) (rec t).

Lemma rec_extends_x x t : steps (extends x) (rec t).
Proof. intros s. eapply wp_mono; [apply rec_extends|]. intros; now apply extends_weaken. Qed.

Lemma cached_insert t ret kind s :
  isTransient kind = false ->
  cached t (mkInfo ret kind) (set_typesMapping <[t := mkInfo ret kind]> s).
Proof. intros H. split; [apply lookup_insert_eq|exact H]. Qed.

Lemma byteLayoutToArray_extends st info s :
  wp (byteLayoutToArray getTypeAllocSize fuel rec st info)
     (fun o s' => extends (Some (StructTy st)) s s' /\
                  match o with Some r => cached (StructTy st) r s' | None => True end) s.
Proof.
  unfold byteLayoutToArray.
  wp_step. apply wp_addAllBaseTypesForByteLayout. intros m.
  assert (E1 : extends (Some (StructTy st)) s (set_baseTypes (fun _ => m) s))
    by apply extends_set_baseTypes.
  wp_step. wp_step. simpl.
  destruct (m !! st) as [[baseType|]|]; [|wp_step; auto|wp_step].
  destruct (N.eqb _ 0); [wp_step|].
  destruct (negb _); [wp_step; auto|].
  wp_step. eapply wp_steps; [apply (steps_areSubStructsConvertible (extends (Some (StructTy st)))), rec_extends_x|].
  intros b s' E2. pose proof (extends_trans _ _ _ _ E1 E2) as E3.
  destruct (negb b); [wp_step; auto|].
  destruct (N.eqb _ 1); wp_step; wp_step; wp_step.
  all: split; [|now apply cached_insert].
  all: eapply extends_trans; [exact E3|apply extends_setMapping].
Qed.

Lemma collapseSingleField_extends st newSt info field kind s :
  wp (collapseSingleField isClientType isJSExportedType rec st newSt info field kind)
     (fun o s' => extends (Some (StructTy st)) s s' /\
                  match o with inl r => cached (StructTy st) r s' | inr _ => True end) s.
Proof.
  unfold collapseSingleField.
  assert (Hmember : forall s1, extends (Some (StructTy st)) s s1 ->
    wp (rewrittenType ← rec field; mret (inr [mappedType rewrittenType]))
       (fun (o : TypeMappingInfo + list type) s' =>
          extends (Some (StructTy st)) s s' /\
          match o with inl r => cached (StructTy st) r s' | inr _ => True end) s1).
  { intros s1 E1. wp_step. eapply wp_steps; [apply (rec_extends_x (Some (StructTy st)))|].
    intros r s2 E2. wp_step. split; [|exact I]. eapply extends_trans; eassumption. }
  destruct (mayCollapse _ _ _ _ _); [|apply Hmember, extends_refl].
  wp_step. eapply wp_steps; [apply (steps_isUnsafeDowncastSource (extends (Some (StructTy st)))), rec_extends_x|].
  intros unsafe s1 E1.
  destruct (negb unsafe); [|now apply Hmember].
  wp_step. wp_step.
  assert (E2 := extends_trans _ _ _ _ E1 (extends_setMapping (StructTy st)
                                           (mkInfo field COLLAPSING) s1)).
  wp_step. eapply wp_steps; [apply (rec_extends_x (Some (StructTy st)))|]. intros collapsed s3 E3.
  assert (E4 := extends_trans _ _ _ _ E2 E3).
  wp_step. wp_step.
  destruct (typesMapping s3 !! StructTy st) as [curInfo|]; [|wp_step].
  destruct (decide (elementMappingKind curInfo = COLLAPSING_BUT_USED)).
  - wp_step. wp_step. apply Hmember.
    eapply extends_trans; [exact E4|apply extends_setMapping].
  - wp_step. wp_step. wp_step. wp_step. wp_step.
    split; [eapply extends_trans; [exact E4|apply extends_setMapping]|].
    apply cached_insert. now destruct (decide _).
Qed.

Lemma rewriteStruct_extends st s :
  wp (rewriteStruct isClientType isJSExportedType getTypeAllocSize fuel rec st)
     (fun r s' => extends (Some (StructTy st)) s s' /\ cached (StructTy st) r s') s.
Proof.
  unfold rewriteStruct.
  wp_step. wp_step.
  destruct (isClientType (StructTy st)).
  { wp_step. split; [apply extends_setMapping|now apply cached_insert]. }
  destruct (isOpaque info).
  { wp_step. split; [apply extends_setMapping|now apply cached_insert]. }
  wp_step.
  apply wp_mono with
    (Q := fun o s' => extends (Some (StructTy st)) s s' /\
                      match o with Some r => cached (StructTy st) r s' | None => True end).
  { destruct (hasByteLayout info); [apply byteLayoutToArray_extends|].
    wp_step. split; [apply extends_refl|exact I]. }
  intros [r|] s1 [E1 Hc]; [wp_step; auto|].
  wp_step. wp_step.
  assert (E2 := extends_trans _ _ _ _ E1 (extends_createStruct _ s1)).
  assert (Hnew : (nextStruct s <= nextStruct s1)%nat) by apply E1.
  set (newSt := nextStruct s1) in *.
  wp_step. wp_step.
  match goal with |- wp _ _ ?s2 => assert (E3 : extends (Some (StructTy st)) s s2);
    [eapply extends_trans; [exact E2|apply extends_setMapping]|] end.
  wp_step.
  apply wp_mono with
    (Q := fun (p : list type * MAPPING_KIND) s' =>
            extends (Some (StructTy st)) s s' /\
            (snd p = IDENTICAL \/ snd p = MERGED_MEMBER_ARRAYS)).
  { destruct (hasAsmJS info).
    - wp_step. eapply wp_steps.
      + apply (steps_mapM' (extends (Some (StructTy st)))). intros a.
        apply steps_bind; [typeclasses eauto|apply rec_extends_x|].
        intros r. apply steps_ret. typeclasses eauto.
      + intros tys s3 E4. wp_step. split; [eapply extends_trans; eassumption|now left].
    - destruct (Nat.ltb 1 _).
      + wp_step. eapply wp_steps; [apply (steps_mergeFields (extends (Some (StructTy st)))), rec_extends_x|].
        intros ms s3 E4. assert (E5 := extends_trans _ _ _ _ E3 E4).
        wp_step. wp_step.
        destruct (hasMergedArrays ms); [|wp_step; split; [exact E5|now left]].
        wp_step. wp_step. wp_step. wp_step. wp_step.
        split; [|now right].
        eapply extends_trans; [exact E5|apply extends_insertMembers].
      + wp_step. split; [exact E3|now left]. }
  intros [tys newStructKind] s3 [E4 Hk]. simpl in Hk.
  wp_step.
  apply wp_mono with
    (Q := fun (o : TypeMappingInfo + list type) s' =>
            extends (Some (StructTy st)) s s' /\
            match o with inl r => cached (StructTy st) r s' | inr _ => True end).
  { assert (Hskip : wp (mret (inr tys))
       (fun (o : TypeMappingInfo + list type) s' =>
          extends (Some (StructTy st)) s s' /\
          match o with inl r => cached (StructTy st) r s' | inr _ => True end) s3)
      by (wp_step; auto).
    destruct tys as [|field [|]]; try exact Hskip.
    destruct (negb (hasAsmJS info)); [|exact Hskip].
    eapply wp_mono; [apply collapseSingleField_extends|].
    intros o s4 [E5 Ho]. split; [eapply extends_trans; eassumption|exact Ho]. }
  intros [r|tys'] s4 [E5 Ho]; [wp_step; auto|].
  wp_step.
  apply wp_mono with (Q := fun _ s' => extends (Some (StructTy st)) s s').
  { destruct (directBase info).
    - wp_step. eapply wp_steps; [apply (rec_extends_x (Some (StructTy st)))|]. intros r s5 E6.
      wp_step. eapply extends_trans; eassumption.
    - wp_step. exact E5. }
  intros newBase s5 E6.
  wp_step. apply wp_setBody. intros binfo.
  wp_step.
  split; [|apply cached_insert].
  - eapply extends_trans; [|apply extends_setMapping].
    apply extends_set_structs_later; [exact E6|exact Hnew].
  - now destruct Hk as [-> | ->].
Qed.

Lemma close_frame t s r s' :
  typesMapping s !! t = None -> extends (Some t) s s' -> cached t r s' ->
  extends None s s' /\ resultOK t s r s'.
Proof.
  intros Hnone E [Hc Ht]. split.
  - apply (extends_close t); auto. intros i Hi. congruence.
  - unfold resultOK. rewrite Hnone. now split.
Qed.

Lemma cache_frame t s s1 ret kind :
  typesMapping s !! t = None -> extends (Some t) s s1 -> isTransient kind = false ->
  wp (CacheAndReturn t ret kind)
     (fun r s' => extends None s s' /\ resultOK t s r s') s1.
Proof.
  intros Hnone E Hk. wp_step. apply close_frame; [exact Hnone| |now apply cached_insert].
  eapply extends_trans; [exact E|apply extends_setMapping].
Qed.

Lemma rewriteType_body_extends t s :
  wp (rewriteType_body isClientType isJSExportedType getTypeAllocSize fuel rec t)
     (fun r s' => extends None s s' /\ resultOK t s r s') s.
Proof.
  unfold rewriteType_body. wp_step. wp_step. wp_step. wp_step.
  destruct (typesMapping s !! t) as [found|] eqn:Hm.
  - destruct (decide (elementMappingKind found = COLLAPSING)) as [Hk|Hk].
    + destruct (isStructTy (mappedType found)) eqn:Hs.
      * wp_step. wp_step. eapply wp_mono; [apply rec_extends|].
        intros r s' E. split; [exact E|].
        unfold resultOK. rewrite Hm. destruct (decide _); [|contradiction].
        now rewrite Hs.
      * wp_step. wp_step. wp_step. split.
        -- now apply extends_promote.
        -- unfold resultOK. rewrite Hm. destruct (decide _); [|contradiction].
           now rewrite Hs.
    + wp_step. split; [apply extends_refl|].
      unfold resultOK. rewrite Hm. now destruct (decide _).
  - destruct t as [| | |b|e|e n|ret params va|st].
    + now apply cache_frame; [|apply extends_refl|].
    + now apply cache_frame; [|apply extends_refl|].
    + now apply cache_frame; [|apply extends_refl|].
    + now apply cache_frame; [|apply extends_refl|].
    + wp_step. eapply wp_steps; [apply (rec_extends_x (Some (PointerTy e)))|].
      intros r s1 E1.
      destruct (mappedType r); try destruct (decide _); now apply cache_frame.
    + wp_step. eapply wp_steps; [apply (rec_extends_x (Some (ArrayTy e n)))|].
      intros r s1 E1.
      destruct (mappedType r); try destruct (decide _); now apply cache_frame.
    + wp_step. eapply wp_steps; [apply (rec_extends_x (Some (FunctionTy ret params va)))|].
      intros r s1 E1. wp_step. eapply wp_steps.
      * apply (steps_mapM' (extends (Some (FunctionTy ret params va)))). intros a.
        apply steps_bind; [typeclasses eauto|apply rec_extends_x|].
        intros r'. apply steps_ret. typeclasses eauto.
      * intros ps s2 E2. apply cache_frame; [exact Hm| |reflexivity].
        eapply extends_trans; eassumption.
    + eapply wp_mono; [apply rewriteStruct_extends|].
      intros r s' [E Hc]. now apply close_frame.
Qed.

End Frame.

(** Every finished call of [rewriteType] extends the state and leaves the
    entry of its type as [resultOK] says. *)
Lemma rewriteType_extends fuel t s :
  wp (rewriteType' fuel t) (fun r s' => extends None s s' /\ resultOK t s r s') s.
Proof.
  revert t s. induction fuel as [|fuel IH]; intros t s; [exact I|].
  simpl. apply rewriteType_body_extends.
  intros t' s'. eapply wp_mono; [apply IH|]. now intros r s'' [E _].
Qed.



(** ** Well-formed states *)

Definition structKeyBelow (n : nat) (k : type) : Prop :=
  match k with StructTy id => (id < n)%nat | _ => True end.

#[global] Instance structKeyBelow_dec n k : Decision (structKeyBelow n k).
Proof. destruct k; simpl; apply _. Defined.

(** Every struct of the struct table and every struct with an entry in the
    memo table was created before [nextStruct]. *)
Definition wfState (s : state) : Prop :=
  map_Forall (fun id _ => (id < nextStruct s)%nat) (structs s) /\
  map_Forall (fun k _ => structKeyBelow (nextStruct s) k) (typesMapping s).

#[global] Instance wfState_dec s : Decision (wfState s).
Proof. unfold wfState. apply _. Defined.

Lemma wp_const {A} (m : M A) (P : Prop) s : P -> wp m (fun _ _ => P) s.
Proof. unfold wp. destruct (m s); auto. Qed.

(** A call that misses the memo table on a struct finds it in the struct table. *)
Lemma rewriteType_struct_known fuel st s r s' :
  rewriteType' fuel (StructTy st) s = Ok r s' ->
  typesMapping s !! StructTy st = None -> is_Some (structs s !! st).
Proof.
  destruct fuel as [|fuel]; [discriminate|]. intros Hrun Hnone.
  apply (wp_run _ (fun _ _ => is_Some (structs s !! st)) _ _ _) in Hrun; [exact Hrun|].
  simpl. unfold rewriteType_body. wp_step. wp_step. wp_step. wp_step.
  rewrite Hnone. unfold rewriteStruct. wp_step. wp_step.
  apply wp_const. eauto.
Qed.

(** A hit on an entry that is not [COLLAPSING] returns the entry at once:
    no recursive call, no change of the state. *)
Lemma rewriteType_hit fuel t s i :
  typesMapping s !! t = Some i -> elementMappingKind i <> COLLAPSING ->
  (forall id, t = StructTy id -> id ∉ newStructTypes s) ->
  rewriteType' (S fuel) t s = Ok i s.
Proof.
  intros Hi Hk Hnew. simpl. unfold rewriteType_body, mbind, M_bind, get. simpl.
  assert (Ha : negb match t with
                    | StructTy id => bool_decide (id ∈ newStructTypes s)
                    | _ => false
                    end = true).
  { destruct t; try reflexivity. apply negb_true_iff, bool_decide_eq_false. now apply Hnew. }
  rewrite Ha. simpl. rewrite Hi. now destruct (decide _).
Qed.

Lemma not_new_after fuel t' st s r s' :
  wfState s -> rewriteType' fuel t' s = Ok r s' ->
  (is_Some (structs s !! st) \/ is_Some (typesMapping s !! StructTy st)) ->
  st ∉ newStructTypes s -> st ∉ newStructTypes s'.
Proof.
  intros [Hw1 Hw2] Hrun Hst Hnew Hin.
  destruct (wp_run _ _ _ _ _ (rewriteType_extends fuel t' s) Hrun) as [E _].
  destruct (ext_new _ _ _ E st Hin) as [H|H]; [contradiction|].
  destruct Hst as [[x Hx]|[x Hx]].
  - specialize (Hw1 st x Hx). simpl in Hw1. lia.
  - specialize (Hw2 (StructTy st) x Hx). simpl in Hw2. lia.
Qed.

(** C6. [rewriteType] is deterministic given the tables: a second call on
    the same type, after the first has completed, returns the same
    [TypeMappingInfo] and leaves the state alone; and unless the first call
    was forwarded through a [COLLAPSING] struct, the second call needs no
    recursive call at all (one unit of fuel), the memo table being
    consulted first. *)
Theorem rewriteType_deterministic fuel t s r s' :
  wfState s -> rewriteType' fuel t s = Ok r s' ->
  rewriteType' fuel t s' = Ok r s' /\
  ((forall i, typesMapping s !! t = Some i -> elementMappingKind i = COLLAPSING ->
              isStructTy (mappedType i) = false) ->
   rewriteType' 1 t s' = Ok r s').
Proof.
  revert t s r s'. induction fuel as [|fuel IH]; intros t s r s' Hwf Hrun; [discriminate|].
  pose proof (wp_run _ _ _ _ _ (rewriteType_extends (S fuel) t s) Hrun) as [E Hres].
  assert (Hnew0 : forall id, t = StructTy id -> id ∉ newStructTypes s).
  { intros id ->. simpl in Hrun. unfold rewriteType_body, mbind, M_bind, get in Hrun.
    simpl in Hrun. destruct (bool_decide (id ∈ newStructTypes s)) eqn:Hb; [discriminate|].
    now apply bool_decide_eq_false in Hb. }
  assert (Hnew : forall id, t = StructTy id -> id ∉ newStructTypes s').
  { intros id ->. eapply not_new_after; eauto.
    destruct (typesMapping s !! StructTy id) eqn:Hm; [right; eauto|left].
    eapply rewriteType_struct_known; eauto. }
  unfold resultOK in Hres.
  destruct (typesMapping s !! t) as [i|] eqn:Hm.
  - destruct (decide (elementMappingKind i = COLLAPSING)) as [Hk|Hk].
    + destruct (isStructTy (mappedType i)) eqn:Hs.
      * split; [|intros H; specialize (H i eq_refl Hk); congruence].
        (* forwarded: the entry of [t] is still there *)
        assert (Hm' : typesMapping s' !! t = Some i).
        { destruct (ext_memo _ _ _ E t i) as [H|(i' & (_ & Hs' & _) & _)]; auto; congruence. }
        simpl in Hrun |- *. unfold rewriteType_body, mbind, M_bind, get in Hrun |- *.
        simpl in Hrun |- *.
        assert (Ha : forall s0, (forall id, t = StructTy id -> id ∉ newStructTypes s0) ->
                  negb match t with
                       | StructTy id => bool_decide (id ∈ newStructTypes s0)
                       | _ => false
                       end = true).
        { intros s0 H0. destruct t; try reflexivity.
          apply negb_true_iff, bool_decide_eq_false. now apply H0. }
        rewrite (Ha s Hnew0) in Hrun. rewrite (Ha s' Hnew). simpl in Hrun |- *.
        rewrite Hm in Hrun. rewrite Hm'.
        destruct (decide (elementMappingKind i = COLLAPSING)); [|contradiction].
        rewrite Hs in Hrun |- *.
        destruct (negb (bool_decide (mappedType i = t))); [|discriminate].
        simpl in Hrun |- *. now apply (IH _ s).
      * destruct Hres as [-> ->].
        assert (H1 : forall n, rewriteType' (S n) t
                  (set_typesMapping <[t := mkInfo (mappedType i) COLLAPSING_BUT_USED]> s)
                  = Ok (mkInfo (mappedType i) COLLAPSING_BUT_USED)
                       (set_typesMapping <[t := mkInfo (mappedType i) COLLAPSING_BUT_USED]> s)).
        { intros n. apply rewriteType_hit; [apply lookup_insert_eq|discriminate|exact Hnew]. }
        split; [apply H1|intros _; apply H1].
    + destruct Hres as [-> ->].
      split; [|intros _]; now apply rewriteType_hit.
  - destruct Hres as [Hr Ht].
    assert (Hk : elementMappingKind r <> COLLAPSING) by (intros Hk; now rewrite Hk in Ht).
    split; [|intros _]; now apply rewriteType_hit.
Qed.

(** * Which structs collapse *)

Definition isCollapseKind (k : MAPPING_KIND) : bool :=
  match k with
  | COLLAPSED | MERGED_MEMBER_ARRAYS_AND_COLLAPSED | COLLAPSING | COLLAPSING_BUT_USED => true
  | _ => false
  end.

(** The entry of a destination of a down-cast that lets the source
    collapse: collapsed, or being collapsed to a struct and hence bound to
    end up collapsed. *)
Definition destOK (j : TypeMappingInfo) : Prop :=
  elementMappingKind j = COLLAPSED \/
  (elementMappingKind j = COLLAPSING /\ isStructTy (mappedType j) = true).

(** What stands behind an entry of a struct [st] whose kind says that the
    struct collapses or is about to; [sts0] is the struct table and [dc]
    the table of down-casts the analysis left. *)
Record collapsible (sts0 : gmap nat StructInfo) (dc : gmap nat (list nat))
    (tm : gmap type TypeMappingInfo) (st : nat) (i : TypeMappingInfo) : Prop := mkCollapsible {
  col_struct : exists info field,
    sts0 !! st = Some info /\ isClientType (StructTy st) = false /\
    isOpaque info = false /\ hasAsmJS info = false /\
    mayCollapse isClientType isJSExportedType st info field = true /\
    (isTransient (elementMappingKind i) = true -> mappedType i = field) /\
    (elementMappingKind i <> MERGED_MEMBER_ARRAYS_AND_COLLAPSED ->
     elements info = [field] \/
     (isTransient (elementMappingKind i) = true /\ isStructTy field = false)) /\
    (elementMappingKind i = MERGED_MEMBER_ARRAYS_AND_COLLAPSED ->
     (1 < length (elements info))%nat /\ (isArrayTy field = true \/ isIntegerTy field = true));
  col_safe : dc !! st <> Some [];
  col_dests : forall dests d, dc !! st = Some dests -> d ∈ dests ->
    exists j, tm !! StructTy d = Some j /\ destOK j
}.

Definition memoInv (sts0 : gmap nat StructInfo) (dc : gmap nat (list nat))
    (tm : gmap type TypeMappingInfo) : Prop :=
  forall st i, tm !! StructTy st = Some i ->
    isCollapseKind (elementMappingKind i) = true -> collapsible sts0 dc tm st i.

(** The invariant of the pass over a module whose structs are [sts0]. *)
Record stateInv (sts0 : gmap nat StructInfo) (s : state) : Prop := mkStateInv {
  inv_memo : memoInv sts0 (downcastSourceToDestinationsMapping s) (typesMapping s);
  inv_old : forall id info, sts0 !! id = Some info ->
    structs s !! id = Some info /\ (id < nextStruct s)%nat;
  inv_split : forall id info, structs s !! id = Some info ->
    sts0 !! id = Some info \/ id ∈ newStructTypes s;
  inv_keys : forall st i, typesMapping s !! StructTy st = Some i -> is_Some (sts0 !! st);
  inv_new : forall id, id ∈ newStructTypes s -> sts0 !! id = None
}.

Lemma destOK_not_promoted i i' : promoted i i' -> ~ destOK i /\ ~ destOK i'.
Proof.
  intros (Hk & Hs & ->). split; intros [H|[H1 H2]]; simpl in *; congruence.
Qed.

(** Writing an entry keeps the invariant when the new entry is justified
    and is as good for the sources that relied on the old one. *)
Lemma memoInv_insert sts0 dc tm t new :
  memoInv sts0 dc tm ->
  (forall st, t = StructTy st -> isCollapseKind (elementMappingKind new) = true ->
     collapsible sts0 dc (<[t := new]> tm) st new) ->
  (forall st old, t = StructTy st -> tm !! t = Some old -> destOK old -> destOK new) ->
  memoInv sts0 dc (<[t := new]> tm).
Proof.
  intros Hinv Hnew Hold st i Hi Hk.
  destruct (decide (t = StructTy st)) as [->|Hne].
  - rewrite lookup_insert_eq in Hi. injection Hi as <-. now apply Hnew.
  - rewrite lookup_insert_ne in Hi by exact Hne.
    destruct (Hinv st i Hi Hk) as [Hs Hsafe Hd]. constructor; auto.
    intros dests d Hdc Hin. destruct (Hd dests d Hdc Hin) as (j & Hj & Hok).
    destruct (decide (t = StructTy d)) as [->|Hne'].
    + exists new. rewrite lookup_insert_eq. split; [reflexivity|]. eapply Hold; eauto.
    + exists j. now rewrite lookup_insert_ne.
Qed.

(** An entry with a kind that is not about collapsing, over an entry that
    no source relies on. *)
Lemma memoInv_insert_plain sts0 dc tm t new :
  memoInv sts0 dc tm ->
  isCollapseKind (elementMappingKind new) = false ->
  (forall old, tm !! t = Some old -> ~ destOK old) ->
  memoInv sts0 dc (<[t := new]> tm).
Proof.
  intros Hinv Hk Hold. apply memoInv_insert; auto.
  - intros st _ H. congruence.
  - intros st old _ Ho Hok. now destruct (Hold old Ho).
Qed.

Lemma memoInv_insert_nonstruct sts0 dc tm t new :
  memoInv sts0 dc tm -> isStructTy t = false -> memoInv sts0 dc (<[t := new]> tm).
Proof.
  intros Hinv Ht. apply memoInv_insert; auto.
  - intros st ->. discriminate.
  - intros st old ->. discriminate.
Qed.

Lemma stateInv_setMapping sts0 s t new :
  stateInv sts0 s ->
  memoInv sts0 (downcastSourceToDestinationsMapping s) (<[t := new]> (typesMapping s)) ->
  (forall st, t = StructTy st -> is_Some (sts0 !! st)) ->
  stateInv sts0 (set_typesMapping <[t := new]> s).
Proof.
  intros [Hm Ho Hs Hk Hn] Hm' Ht. constructor; simpl; auto.
  intros st i Hi. destruct (decide (t = StructTy st)) as [->|Hne]; [now apply Ht|].
  rewrite lookup_insert_ne in Hi by exact Hne. eauto.
Qed.

Lemma stateInv_createStruct sts0 s : stateInv sts0 s -> stateInv sts0 (snd (createStruct s)).
Proof.
  intros [Hm Ho Hs Hk Hn]. constructor; simpl; auto.
  - intros id info Hid. destruct (Ho id info Hid) as [H1 H2]. split; [|lia].
    rewrite lookup_insert_ne; [exact H1|lia].
  - intros id info Hid. destruct (decide (nextStruct s = id)) as [<-|Hne].
    + right. apply elem_of_union. left. now apply elem_of_singleton.
    + rewrite lookup_insert_ne in Hid by exact Hne.
      destruct (Hs id info Hid); [now left|right]. apply elem_of_union. now right.
  - intros id Hid. apply elem_of_union in Hid as [Hid|Hid]; [|now apply Hn].
    apply elem_of_singleton in Hid. subst id.
    destruct (sts0 !! nextStruct s) as [x|] eqn:Hx; [|reflexivity].
    destruct (Ho _ _ Hx) as [_ Hlt]. lia.
Qed.

Lemma stateInv_setBody sts0 s id info :
  stateInv sts0 s -> id ∈ newStructTypes s -> sts0 !! id = None ->
  stateInv sts0 (set_structs <[id := info]> s).
Proof.
  intros [Hm Ho Hs Hk Hn] Hnew Hnone. constructor; simpl; auto.
  - intros id' info' Hid. destruct (Ho id' info' Hid) as [H1 H2]. split; [|exact H2].
    rewrite lookup_insert_ne; [exact H1|congruence].
  - intros id' info' Hid. destruct (decide (id = id')) as [<-|Hne]; [now right|].
    rewrite lookup_insert_ne in Hid by exact Hne. now apply Hs.
Qed.

Lemma stateInv_set_baseTypes sts0 s f : stateInv sts0 s -> stateInv sts0 (set_baseTypes f s).
Proof. intros [Hm Ho Hs Hk Hn]. constructor; simpl; auto. Qed.

Lemma stateInv_set_members sts0 s f :
  stateInv sts0 s -> stateInv sts0 (set_membersMappingData f s).
Proof. intros [Hm Ho Hs Hk Hn]. constructor; simpl; auto. Qed.

(** ** The merging loop, seen from outside *)

(** After [n] fields: without a merge every field is still there; with a
    merge, a struct left with a single field has an array or an integer. *)
Definition mergeOK (n : nat) (ms : MergeState) : Prop :=
  (hasMergedArrays ms = false -> length (newTypes ms) = n) /\
  (hasMergedArrays ms = true ->
   newTypes ms <> [] /\
   forall f, newTypes ms = [f] -> isArrayTy f = true \/ isIntegerTy f = true).

Lemma mergeOK_push n ms (ms' : MergeState) rt :
  mergeOK n ms -> newTypes ms' = newTypes ms ++ [rt] ->
  hasMergedArrays ms' = hasMergedArrays ms -> mergeOK (S n) ms'.
Proof.
  intros [H1 H2] Hn Hh. split; rewrite Hh, Hn.
  - intros H. rewrite length_app, (H1 H). simpl. lia.
  - intros H. destruct (H2 H) as [Hne _]. split.
    + now destruct (newTypes ms).
    + intros f Hf. destruct (newTypes ms) as [|x [|y l]]; [congruence|discriminate..].
Qed.

Lemma mergeOK_insert n ms (ms' : MergeState) idx old new :
  newTypes ms !! idx = Some old -> newTypes ms' = <[idx := new]> (newTypes ms) ->
  hasMergedArrays ms' = true -> isArrayTy new = true \/ isIntegerTy new = true ->
  mergeOK (S n) ms'.
Proof.
  intros Hidx Hn Hh Hnew. split; rewrite Hh, Hn; [discriminate|]. intros _.
  pose proof (lookup_lt_Some _ _ _ Hidx) as Hlt. split.
  - intros Hnil. apply (f_equal length) in Hnil. rewrite length_insert in Hnil.
    simpl in Hnil. lia.
  - intros f Hf. pose proof (f_equal length Hf) as Hlen.
    rewrite length_insert in Hlen. simpl in Hlen.
    assert (idx = 0%nat) as -> by lia.
    pose proof (list_lookup_insert_eq (newTypes ms) 0 new Hlt) as Hl.
    rewrite Hf in Hl. simpl in Hl. injection Hl as ->. exact Hnew.
Qed.

Lemma mergeField_OK n bl esc i rt ms ms' :
  mergeOK n ms -> mergeField bl esc i rt ms = Some ms' -> mergeOK (S n) ms'.
Proof.
  intros Hok. unfold mergeField. destruct bl.
  { intros [= <-]. eapply mergeOK_push; eauto. }
  destruct rt; try (intros [= <-]; eapply mergeOK_push; eauto; reflexivity).
  - (* integer *)
    destruct (negb _ && _).
    + destruct (findMergedInt _ _ _) as [[m [first second]]|].
      * destruct (newTypes ms !! first) as [[]|] eqn:E; try discriminate.
        intros [= <-]. eapply mergeOK_insert; eauto; now right.
      * intros [= <-]. eapply mergeOK_push; eauto; reflexivity.
    + intros [= <-]. eapply mergeOK_push; eauto; reflexivity.
  - (* array *)
    destruct (arraysFound ms !! rt) as [typeIndex|].
    + destruct (newTypes ms !! typeIndex) as [[]|] eqn:E; try discriminate.
      intros [= <-]. eapply mergeOK_insert; eauto; now left.
    + intros [= <-]. eapply mergeOK_push; eauto; reflexivity.
Qed.

Lemma resetAtBase_OK n fuel sts st i ms ms' :
  mergeOK n ms -> resetAtBase fuel sts st i ms = Some ms' -> mergeOK n ms'.
Proof.
  unfold resetAtBase. intros Hok. destruct (Nat.eqb _ _); [|now intros [= <-]].
  destruct (findDirectBase _ _ _ _); [|discriminate]. now intros [= <-].
Qed.

Lemma wp_mergeFields_OK fuel rec st bl elts i ms n s :
  mergeOK n ms ->
  wp (mergeFields fuel rec st bl elts i ms)
     (fun ms' _ => mergeOK (n + length elts) ms') s.
Proof.
  revert i ms n s. induction elts as [|e elts IH]; intros i ms n s Hok; simpl.
  - wp_step. now rewrite Nat.add_0_r.
  - wp_step. wp_step.
    destruct (resetAtBase _ _ _ _ _) as [ms1|] eqn:E1; [|wp_step].
    wp_step. apply run_wp. intros r s1 _.
    wp_step. wp_step.
    destruct (mergeField _ _ _ _ _) as [ms2|] eqn:E2; [|wp_step].
    replace (n + S (length elts))%nat with (S n + length elts)%nat by lia.
    apply IH. eapply mergeField_OK; [|exact E2]. eapply resetAtBase_OK; eauto.
Qed.

(** ** The invariant along a run *)

Section Keeps.

Variable sts0 : gmap nat StructInfo.

(** What every finished call does to the state. *)
Definition keeps (s s' : state) : Prop :=
  extends None s s' /\ (stateInv sts0 s -> stateInv sts0 s').

#[global] Instance keeps_preorder : PreOrder keeps.
Proof.
  split.
  - intros s. split; [apply extends_refl|auto].
  - intros s1 s2 s3 [E1 I1] [E2 I2]. split; [eapply extends_trans; eauto|auto].
Qed.

Lemma destOK_kept s s' k j :
  extends None s s' -> typesMapping s !! k = Some j -> destOK j ->
  typesMapping s' !! k = Some j.
Proof.
  intros E Hj Hok. destruct (ext_memo _ _ _ E k j) as [H|(j' & Hp & _)]; auto.
  now destruct (destOK_not_promoted _ _ Hp).
Qed.

Lemma entry_kept s s' k j :
  extends None s s' -> typesMapping s !! k = Some j ->
  elementMappingKind j <> COLLAPSING -> typesMapping s' !! k = Some j.
Proof.
  intros E Hj Hk. destruct (ext_memo _ _ _ E k j) as [H|(j' & (Hk' & _) & _)]; auto.
  contradiction.
Qed.

Lemma collapsed_result t s r s' :
  resultOK t s r s' -> extends None s s' -> elementMappingKind r = COLLAPSED ->
  exists j, typesMapping s' !! t = Some j /\ destOK j.
Proof.
  unfold resultOK. intros Hres E Hk.
  destruct (typesMapping s !! t) as [i|] eqn:Hm.
  - destruct (decide (elementMappingKind i = COLLAPSING)) as [Hi|Hi].
    + destruct (isStructTy (mappedType i)) eqn:Hs.
      * exists i. assert (Hok : destOK i) by (right; auto).
        split; [eapply destOK_kept; eauto|exact Hok].
      * destruct Hres as [-> _]. discriminate.
    + destruct Hres as [-> ->]. exists i. split; [exact Hm|now left].
  - destruct Hres as [Hr _]. exists r. split; [exact Hr|now left].
Qed.

Section Frame2.

Variable fuel : nat.
Variable rec : type -> M TypeMappingInfo.
Hypothesis rec_keeps : forall t s, wp (rec t) (fun r s' => keeps s s' /\ resultOK t s r s') s.

Lemma rec_steps t : steps keeps (rec t).
Proof. intros s. eapply wp_mono; [apply rec_keeps|]. now intros r s' [H _]. Qed.

Definition destsOK (dests : list nat) (s : state) : Prop :=
  forall d, d ∈ dests -> exists j, typesMapping s !! StructTy d = Some j /\ destOK j.

Lemma allDestinationsCollapse_keeps dests s :
  wp (allDestinationsCollapse rec dests)
     (fun b s' => keeps s s' /\ (b = false -> destsOK dests s')) s.
Proof.
  revert s. induction dests as [|d dests IH]; intros s; simpl.
  - wp_step. split; [reflexivity|]. intros _ d Hd. now apply elem_of_nil in Hd.
  - wp_step. eapply wp_mono; [apply rec_keeps|]. intros r s1 [K1 Hres].
    destruct (decide (elementMappingKind r = COLLAPSED)) as [Hk|Hk].
    + eapply wp_mono; [apply IH|]. intros b s2 [K2 Hd]. split; [now transitivity s1|].
      intros Hb d' Hin. apply elem_of_cons in Hin as [->|Hin]; [|now apply Hd].
      destruct (collapsed_result _ _ _ _ Hres (proj1 K1) Hk) as (j & Hj & Hok).
      exists j. split; [|exact Hok]. eapply destOK_kept; eauto. apply K2.
    + wp_step. split; [exact K1|discriminate].
Qed.

Lemma isUnsafeDowncastSource_keeps st s :
  wp (isUnsafeDowncastSource rec st)
     (fun b s' => keeps s s' /\
        (b = false ->
         downcastSourceToDestinationsMapping s !! st <> Some [] /\
         forall dests, downcastSourceToDestinationsMapping s !! st = Some dests ->
                       destsOK dests s')) s.
Proof.
  unfold isUnsafeDowncastSource. wp_step. wp_step.
  destruct (downcastSourceToDestinationsMapping s !! st) as [[|d dests]|] eqn:Hdc.
  - wp_step. split; [reflexivity|discriminate].
  - eapply wp_mono; [apply allDestinationsCollapse_keeps|]. intros b s' [K Hd].
    split; [exact K|]. intros Hb. split; [discriminate|].
    intros dests' [= <-]. now apply Hd.
  - wp_step. split; [reflexivity|]. intros _. split; [discriminate|]. discriminate.
Qed.


(** *** The frame of one struct *)

Definition noDestOK (st : nat) (s : state) : Prop :=
  forall j, typesMapping s !! StructTy st = Some j -> ~ destOK j.

Definition tentative (st newSt : nat) (s : state) : Prop :=
  typesMapping s !! StructTy st = Some (mkInfo (StructTy newSt) IDENTICAL).

Lemma tentative_kept st newSt s s' :
  extends None s s' -> tentative st newSt s -> tentative st newSt s'.
Proof. intros E H. eapply entry_kept; eauto; discriminate. Qed.

Lemma tentative_noDestOK st newSt s : tentative st newSt s -> noDestOK st s.
Proof.
  intros H j Hj [Hk|[Hk _]]; unfold tentative in H; rewrite H in Hj;
    injection Hj as <-; discriminate.
Qed.

Lemma mayCollapse_byteLayout st info field :
  mayCollapse isClientType isJSExportedType st info field = true ->
  hasByteLayout info = true -> exists e, field = PointerTy e /\ isClientType e = true.
Proof.
  unfold mayCollapse. intros H Hb. rewrite Hb in H. simpl in H.
  rewrite andb_false_r, orb_false_r in H. destruct field; try discriminate. eauto.
Qed.

Lemma noDestOK_byteLayout st info s :
  stateInv sts0 s -> sts0 !! st = Some info -> hasByteLayout info = true ->
  (forall e, elements info <> [PointerTy e]) -> noDestOK st s.
Proof.
  intros Hinv Hst Hb Hshape j Hj Hok.
  assert (Hk : isCollapseKind (elementMappingKind j) = true).
  { destruct Hok as [->|[-> _]]; reflexivity. }
  destruct (inv_memo _ _ Hinv st j Hj Hk) as [(info' & field & H1 & _ & _ & _ & Hmay & Htr & Hel & _) _ _].
  assert (info' = info) as -> by congruence.
  destruct (mayCollapse_byteLayout _ _ _ Hmay Hb) as (e & -> & _).
  destruct Hok as [Hc|[Hc Hs]].
  - destruct Hel as [Hel|[Ht _]]; [rewrite Hc; discriminate|now apply (Hshape e)|].
    rewrite Hc in Ht. discriminate.
  - rewrite Htr in Hs by now rewrite Hc. discriminate.
Qed.

Lemma areSubStructsConvertible_noDest st info s :
  stateInv sts0 s -> typesMapping s !! StructTy st = None ->
  sts0 !! st = Some info -> hasByteLayout info = true ->
  wp (areSubStructsConvertible rec (elements info))
     (fun _ s' => stateInv sts0 s' /\ extends None s s' /\ noDestOK st s') s.
Proof.
  intros Hinv Hnone Hst Hb.
  assert (Hshape : (exists e, elements info = [PointerTy e]) \/
                   (forall e, elements info <> [PointerTy e])).
  { destruct (elements info) as [|[] [|]]; try (right; intros e; discriminate).
    left. eauto. }
  destruct Hshape as [[e He]|Hshape].
  - rewrite He. simpl. wp_step. split; [exact Hinv|]. split; [apply extends_refl|].
    intros j Hj. congruence.
  - eapply wp_steps; [apply (steps_areSubStructsConvertible keeps), rec_steps|].
    intros b s' [E Hi]. split; [auto|]. split; [exact E|].
    eapply noDestOK_byteLayout; eauto.
Qed.

Lemma plain_write st info s ty k :
  stateInv sts0 s -> sts0 !! st = Some info -> noDestOK st s -> isCollapseKind k = false ->
  stateInv sts0 (set_typesMapping <[StructTy st := mkInfo ty k]> s).
Proof.
  intros Hinv Hst Hno Hk. apply stateInv_setMapping; [exact Hinv| |].
  - apply memoInv_insert_plain; [apply Hinv|exact Hk|exact Hno].
  - intros st' [= <-]. eauto.
Qed.

Lemma byteLayoutToArray_keeps st info s :
  stateInv sts0 s -> typesMapping s !! StructTy st = None ->
  sts0 !! st = Some info -> hasByteLayout info = true ->
  wp (byteLayoutToArray getTypeAllocSize fuel rec st info)
     (fun o s' => stateInv sts0 s' /\ extends (Some (StructTy st)) s s' /\
                  (o = None -> noDestOK st s')) s.
Proof.
  intros Hinv Hnone Hst Hb. unfold byteLayoutToArray.
  wp_step. apply wp_addAllBaseTypesForByteLayout. intros m.
  set (s1 := set_baseTypes (fun _ => m) s).
  assert (Hinv1 : stateInv sts0 s1) by now apply stateInv_set_baseTypes.
  assert (E1 : extends (Some (StructTy st)) s s1) by apply extends_set_baseTypes.
  assert (Hno1 : noDestOK st s1) by (intros j Hj; simpl in Hj; congruence).
  wp_step. wp_step. simpl.
  destruct (m !! st) as [[baseType|]|]; [|wp_step; auto|wp_step].
  destruct (N.eqb _ 0); [wp_step|].
  destruct (negb _); [wp_step; auto|].
  wp_step. eapply wp_mono; [apply (areSubStructsConvertible_noDest st info s1); auto|].
  intros b s2 (Hinv2 & E2 & Hno2).
  assert (E3 : extends (Some (StructTy st)) s s2).
  { eapply extends_trans; [exact E1|now apply extends_weaken]. }
  destruct (negb b); [wp_step; auto|].
  destruct (N.eqb _ 1); wp_step; wp_step; wp_step.
  all: split; [now apply (plain_write st info)|].
  all: split; [|discriminate].
  all: eapply extends_trans; [exact E3|apply extends_setMapping].
Qed.

(** What the first half of the struct case hands to the collapse test. *)
Definition fieldsOK (info : StructInfo) (tys : list type) (k : MAPPING_KIND) : Prop :=
  (k = IDENTICAL \/ k = MERGED_MEMBER_ARRAYS) /\
  (k = IDENTICAL -> hasAsmJS info = false -> forall f, tys = [f] -> elements info = [f]) /\
  (k = MERGED_MEMBER_ARRAYS ->
   (1 < length (elements info))%nat /\
   forall f, tys = [f] -> isArrayTy f = true \/ isIntegerTy f = true).

Lemma collapseSingleField_keeps st newSt info field k s :
  stateInv sts0 s -> tentative st newSt s -> sts0 !! st = Some info ->
  isClientType (StructTy st) = false -> isOpaque info = false -> hasAsmJS info = false ->
  fieldsOK info [field] k ->
  wp (collapseSingleField isClientType isJSExportedType rec st newSt info field k)
     (fun o s' => stateInv sts0 s' /\ extends (Some (StructTy st)) s s' /\
                  match o with inl _ => True | inr _ => tentative st newSt s' end) s.
Proof.
  intros Hinv Htent Hst Hcl Hop Hasm (Hk & HkI & HkM). unfold collapseSingleField.
  assert (Hmember : forall s1, stateInv sts0 s1 -> extends (Some (StructTy st)) s s1 ->
            tentative st newSt s1 ->
    wp (rewrittenType ← rec field; mret (inr [mappedType rewrittenType]))
       (fun (o : TypeMappingInfo + list type) s' =>
          stateInv sts0 s' /\ extends (Some (StructTy st)) s s' /\
          match o with inl _ => True | inr _ => tentative st newSt s' end) s1).
  { intros s1 Hinv1 E1 Ht1. wp_step. eapply wp_steps; [apply rec_steps|].
    intros r s2 [E2 Hi2]. wp_step. split; [auto|]. split.
    - eapply extends_trans; [exact E1|now apply extends_weaken].
    - eapply tentative_kept; eauto. }
  destruct (mayCollapse _ _ _ _ _) eqn:Hmay; [|apply Hmember; auto; apply extends_refl].
  wp_step. eapply wp_mono; [apply isUnsafeDowncastSource_keeps|].
  intros unsafe s1 ([E1 Hi1] & Hunsafe).
  assert (Hinv1 := Hi1 Hinv). assert (Ht1 := tentative_kept _ _ _ _ E1 Htent).
  assert (E1' : extends (Some (StructTy st)) s s1) by now apply extends_weaken.
  destruct unsafe; simpl; [now apply Hmember|].
  destruct (Hunsafe eq_refl) as [Hsafe Hdests].
  assert (Hdc1 : downcastSourceToDestinationsMapping s1 = downcastSourceToDestinationsMapping s)
    by apply E1.
  (* the struct is marked COLLAPSING *)
  assert (Hne : forall dests d, downcastSourceToDestinationsMapping s !! st = Some dests ->
                  d ∈ dests -> d <> st).
  { intros dests d Hdc Hin ->. destruct (Hdests dests Hdc st Hin) as (j & Hj & Hok).
    now apply (tentative_noDestOK _ _ _ Ht1 j). }
  assert (Hshape : forall kind, isTransient kind = true \/ (kind = COLLAPSED /\ k <> MERGED_MEMBER_ARRAYS)
                     \/ (kind = MERGED_MEMBER_ARRAYS_AND_COLLAPSED /\ k = MERGED_MEMBER_ARRAYS) ->
            (kind <> MERGED_MEMBER_ARRAYS_AND_COLLAPSED ->
               elements info = [field] \/ (isTransient kind = true /\ isStructTy field = false)) /\
            (kind = MERGED_MEMBER_ARRAYS_AND_COLLAPSED ->
               (1 < length (elements info))%nat /\
               (isArrayTy field = true \/ isIntegerTy field = true))).
  { intros kind Hkind. destruct Hk as [->| ->].
    - specialize (HkI eq_refl Hasm field eq_refl). split; [auto|].
      intros ->. destruct Hkind as [H|[[H _]|[_ H]]]; discriminate.
    - destruct (HkM eq_refl) as [Hlen Hf]. specialize (Hf field eq_refl). split; [|auto].
      intros Hn. right. destruct Hkind as [H|[[_ H]|[H _]]]; [|congruence..].
      split; [exact H|]. destruct field; destruct Hf; try discriminate; reflexivity. }
  wp_step. wp_step.
  set (s2 := set_typesMapping <[StructTy st := mkInfo field COLLAPSING]> s1).
  assert (Hinv2 : stateInv sts0 s2).
  { apply stateInv_setMapping; [exact Hinv1| |intros st' [= <-]; eauto].
    apply memoInv_insert; [apply Hinv1| |].
    - intros st' [= <-] _. constructor.
      + exists info, field. simpl.
        split; [exact Hst|]. split; [exact Hcl|]. split; [exact Hop|].
        split; [exact Hasm|]. split; [exact Hmay|]. split; [reflexivity|].
        split; [|discriminate]. apply (Hshape COLLAPSING). now left.
      + now rewrite Hdc1.
      + rewrite Hdc1. intros dests d Hdc Hin.
        destruct (Hdests dests Hdc d Hin) as (j & Hj & Hok). exists j.
        rewrite lookup_insert_ne; [auto|]. intros [= ->]. now apply (Hne dests d).
    - intros st' old [= <-] Hold Hok. now destruct (tentative_noDestOK _ _ _ Ht1 old). }
  assert (E2 : extends (Some (StructTy st)) s s2).
  { eapply extends_trans; [exact E1'|apply extends_setMapping]. }
  wp_step. eapply wp_steps; [apply rec_steps|]. intros collapsed s3 [E3 Hi3].
  assert (Hinv3 := Hi3 Hinv2).
  assert (E3' : extends (Some (StructTy st)) s s3).
  { eapply extends_trans; [exact E2|now apply extends_weaken]. }
  assert (Hdc3 : downcastSourceToDestinationsMapping s3 = downcastSourceToDestinationsMapping s).
  { rewrite (ext_downcasts _ _ _ E3). exact Hdc1. }
  wp_step. wp_step.
  destruct (typesMapping s3 !! StructTy st) as [curInfo|] eqn:Hcur; [|wp_step].
  assert (Hcur' : curInfo = mkInfo field COLLAPSING \/
                  (curInfo = mkInfo field COLLAPSING_BUT_USED /\ isStructTy field = false)).
  { destruct (ext_memo _ _ _ E3 (StructTy st) (mkInfo field COLLAPSING)) as [H|(i' & (_ & Hs & ->) & H)].
    - discriminate.
    - unfold s2. simpl. apply lookup_insert_eq.
    - left. congruence.
    - right. simpl in *. split; [congruence|exact Hs]. }
  destruct (decide (elementMappingKind curInfo = COLLAPSING_BUT_USED)) as [Hused|Hused].
  - wp_step. wp_step.
    assert (Hno3 : noDestOK st s3).
    { intros j Hj [Hc|[Hc _]]; rewrite Hcur in Hj; injection Hj as <-; congruence. }
    apply Hmember.
    + now apply (plain_write st info).
    + eapply extends_trans; [exact E3'|apply extends_setMapping].
    + unfold tentative. simpl. apply lookup_insert_eq.
  - destruct Hcur' as [->|[-> _]]; [|now destruct Hused].
    wp_step. wp_step. wp_step. wp_step. wp_step.
    split; [|split; [|exact I]].
    + apply stateInv_setMapping; [exact Hinv3| |intros st' [= <-]; eauto].
      apply memoInv_insert; [apply Hinv3| |].
      * intros st' [= <-] _. simpl. constructor.
        -- exists info, field. simpl.
           split; [exact Hst|]. split; [exact Hcl|]. split; [exact Hop|].
           split; [exact Hasm|]. split; [exact Hmay|].
           split; [destruct (decide _); discriminate|].
           apply Hshape. right. destruct (decide (k = MERGED_MEMBER_ARRAYS)); auto.
        -- now rewrite Hdc3.
        -- rewrite Hdc3. intros dests d Hdc Hin.
           destruct (Hdests dests Hdc d Hin) as (j & Hj & Hok). exists j.
           split; [|exact Hok].
           rewrite lookup_insert_ne by (intros [= ->]; now apply (Hne dests d)).
           eapply destOK_kept; [exact E3| |exact Hok].
           unfold s2. simpl. rewrite lookup_insert_ne; [exact Hj|].
           intros [= ->]. now apply (Hne dests d).
      * intros st' old [= <-] Hold Hok. rewrite Hcur in Hold. injection Hold as <-.
        destruct Hok as [Hc|[_ Hs]]; [discriminate|]. simpl in Hs. left. simpl.
        destruct (decide (k = MERGED_MEMBER_ARRAYS)) as [->|]; [|reflexivity].
        destruct (HkM eq_refl) as [_ Hf]. specialize (Hf field eq_refl).
        destruct field; destruct Hf; discriminate.
    + eapply extends_trans; [exact E3'|apply extends_setMapping].
Qed.


Lemma rewriteStruct_keeps st s :
  stateInv sts0 s -> typesMapping s !! StructTy st = None -> st ∉ newStructTypes s ->
  wp (rewriteStruct isClientType isJSExportedType getTypeAllocSize fuel rec st)
     (fun _ s' => stateInv sts0 s') s.
Proof.
  intros Hinv Hnone Hnotnew. unfold rewriteStruct.
  assert (Hno : noDestOK st s) by (intros j Hj; congruence).
  wp_step. wp_step.
  assert (Hst : sts0 !! st = Some info).
  { destruct (inv_split _ _ Hinv st info) as [Hx|Hx]; auto. contradiction. }
  destruct (isClientType (StructTy st)) eqn:Hcl.
  { wp_step. now apply (plain_write st info). }
  destruct (isOpaque info) eqn:Hop.
  { wp_step. now apply (plain_write st info). }
  wp_step.
  apply wp_mono with
    (Q := fun (o : option TypeMappingInfo) s' =>
            stateInv sts0 s' /\ extends (Some (StructTy st)) s s' /\
            (o = None -> noDestOK st s')).
  { destruct (hasByteLayout info) eqn:Hb; [now apply byteLayoutToArray_keeps|].
    wp_step. split; [exact Hinv|]. split; [apply extends_refl|auto]. }
  intros [r|] s1 (Hinv1 & E1 & Hno1); [wp_step; exact Hinv1|].
  specialize (Hno1 eq_refl).
  wp_step. wp_step. set (newSt := nextStruct s1). set (s2 := snd (createStruct s1)).
  assert (Hinv2 : stateInv sts0 s2) by now apply stateInv_createStruct.
  assert (Hfresh : sts0 !! newSt = None).
  { destruct (sts0 !! newSt) as [x|] eqn:Hx; [|reflexivity].
    destruct (inv_old _ _ Hinv1 newSt x Hx) as [_ Hlt]. unfold newSt in Hlt. lia. }
  assert (N2 : newSt ∈ newStructTypes s2).
  { unfold s2. simpl. apply elem_of_union. left. now apply elem_of_singleton. }
  wp_step. wp_step.
  set (s3 := set_typesMapping <[StructTy st := mkInfo (StructTy newSt) IDENTICAL]> s2).
  assert (Hinv3 : stateInv sts0 s3) by (apply (plain_write st info); auto).
  assert (T3 : tentative st newSt s3) by (unfold tentative, s3; simpl; apply lookup_insert_eq).
  wp_step.
  apply wp_mono with
    (Q := fun (p : list type * MAPPING_KIND) s' =>
            stateInv sts0 s' /\ extends None s3 s' /\ fieldsOK info (fst p) (snd p)).
  { destruct (hasAsmJS info) eqn:Hasm.
    - wp_step. eapply wp_steps.
      + apply (steps_mapM' keeps). intros a.
        apply steps_bind; [typeclasses eauto|apply rec_steps|].
        intros r. apply steps_ret. typeclasses eauto.
      + intros tys s4 [E4 Hi4]. wp_step. split; [auto|]. split; [exact E4|].
        split; [now left|]. split; [intros _ Hc; congruence|discriminate].
    - destruct (Nat.ltb 1 (length (elements info))) eqn:Hlen.
      + apply Nat.ltb_lt in Hlen. wp_step.
        eapply wp_mono;
          [apply wp_and;
            [apply (steps_mergeFields keeps), rec_steps
            |apply (wp_mergeFields_OK _ _ _ _ _ _ _ 0)]|].
        { split; [reflexivity|discriminate]. }
        intros ms s4 [[E4 Hi4] [Hok1 Hok2]]. simpl in Hok1.
        wp_step. wp_step.
        destruct (hasMergedArrays ms) eqn:Hm.
        * wp_step. wp_step. wp_step. wp_step. wp_step.
          split; [apply stateInv_set_members; auto|].
          split; [eapply extends_trans; [exact E4|apply extends_insertMembers]|].
          split; [now right|]. split; [discriminate|]. intros _. split; [exact Hlen|].
          simpl. now apply Hok2.
        * wp_step. split; [auto|]. split; [exact E4|].
          split; [now left|]. split; [|discriminate]. intros _ _ f Hf. simpl in Hf.
          specialize (Hok1 eq_refl). rewrite Hf in Hok1. simpl in Hok1. lia.
      + wp_step. split; [exact Hinv3|]. split; [apply extends_refl|].
        split; [now left|]. split; [|discriminate]. now intros _ _ f Hf. }
  intros [tys k] s4 (Hinv4 & E4 & Hf). simpl in Hf.
  assert (T4 := tentative_kept _ _ _ _ E4 T3).
  assert (N4 : newSt ∈ newStructTypes s4) by (apply (ext_new_mono _ _ _ E4); exact N2).
  wp_step.
  apply wp_mono with
    (Q := fun (o : TypeMappingInfo + list type) s' =>
            stateInv sts0 s' /\ extends (Some (StructTy st)) s4 s' /\
            match o with inl _ => True | inr _ => tentative st newSt s' end).
  { assert (Hskip : wp (mret (inr tys))
       (fun (o : TypeMappingInfo + list type) s' =>
          stateInv sts0 s' /\ extends (Some (StructTy st)) s4 s' /\
          match o with inl _ => True | inr _ => tentative st newSt s' end) s4).
    { wp_step. split; [exact Hinv4|]. split; [apply extends_refl|exact T4]. }
    destruct tys as [|field [|]]; try exact Hskip.
    destruct (hasAsmJS info) eqn:Hasm; [exact Hskip|]. simpl.
    now apply collapseSingleField_keeps. }
  intros [r|tys'] s5 (Hinv5 & E5 & T5); [wp_step; exact Hinv5|].
  assert (N5 : newSt ∈ newStructTypes s5) by (apply (ext_new_mono _ _ _ E5); exact N4).
  wp_step.
  apply wp_mono with (Q := fun _ s' => stateInv sts0 s' /\ extends None s5 s').
  { destruct (directBase info).
    - wp_step. eapply wp_steps; [apply rec_steps|]. intros r s6 [E6 Hi6].
      wp_step. auto.
    - wp_step. split; [exact Hinv5|apply extends_refl]. }
  intros newBase s6 [Hinv6 E6].
  assert (T6 := tentative_kept _ _ _ _ E6 T5).
  assert (N6 : newSt ∈ newStructTypes s6) by (apply (ext_new_mono _ _ _ E6); exact N5).
  wp_step. apply wp_setBody. intros binfo.
  wp_step.
  apply (plain_write st info).
  - now apply stateInv_setBody.
  - exact Hst.
  - apply (tentative_noDestOK st newSt). exact T6.
  - destruct Hf as [[-> | ->] _]; reflexivity.
Qed.

Lemma promote_keeps t found s :
  stateInv sts0 s -> typesMapping s !! t = Some found ->
  elementMappingKind found = COLLAPSING -> isStructTy (mappedType found) = false ->
  stateInv sts0 (set_typesMapping <[t := mkInfo (mappedType found) COLLAPSING_BUT_USED]> s).
Proof.
  intros Hinv Hm Hk Hs.
  apply stateInv_setMapping; [exact Hinv| |intros st ->; eapply inv_keys; eauto].
  assert (Hno : ~ destOK found) by (intros [H|[_ H]]; congruence).
  apply memoInv_insert; [apply Hinv| |].
  - intros st -> _.
    destruct (inv_memo _ _ Hinv st found Hm) as [(info & field & H1 & H2 & H3 & H4 & H5 & H6 & H7 & H8) Hsafe Hd].
    { now rewrite Hk. }
    constructor; auto.
    + exists info, field. simpl. repeat (split; [assumption|]).
      split; [intros _; apply H6; now rewrite Hk|]. split; [|discriminate].
      intros _. destruct H7 as [H7|[_ H7]]; [rewrite Hk; discriminate|now left|now right].
    + intros dests d Hdc Hin. destruct (Hd dests d Hdc Hin) as (j & Hj & Hok).
      exists j. split; [|exact Hok]. rewrite lookup_insert_ne; [exact Hj|].
      intros [= ->]. congruence.
  - intros st old -> Hold Hok. congruence.
Qed.

Lemma nonstruct_write t s ty k :
  stateInv sts0 s -> isStructTy t = false ->
  stateInv sts0 (set_typesMapping <[t := mkInfo ty k]> s).
Proof.
  intros Hinv Ht. apply stateInv_setMapping; [exact Hinv| |intros st ->; discriminate].
  apply memoInv_insert_nonstruct; [apply Hinv|exact Ht].
Qed.

Lemma rewriteType_body_keeps t s :
  stateInv sts0 s ->
  wp (rewriteType_body isClientType isJSExportedType getTypeAllocSize fuel rec t)
     (fun _ s' => stateInv sts0 s') s.
Proof.
  intros Hinv. unfold rewriteType_body. wp_step. wp_step. wp_step. wp_step.
  destruct (typesMapping s !! t) as [found|] eqn:Hm.
  - destruct (decide (elementMappingKind found = COLLAPSING)) as [Hk|Hk].
    + destruct (isStructTy (mappedType found)) eqn:Hs.
      * wp_step. wp_step. eapply wp_steps; [apply rec_steps|]. intros r s' [_ Hi]. auto.
      * wp_step. wp_step. wp_step. now apply promote_keeps.
    + wp_step. exact Hinv.
  - destruct t as [| | |b|e|e n|ret params va|st].
    + wp_step. now apply nonstruct_write.
    + wp_step. now apply nonstruct_write.
    + wp_step. now apply nonstruct_write.
    + wp_step. now apply nonstruct_write.
    + wp_step. eapply wp_steps; [apply rec_steps|]. intros r s1 [_ H1].
      destruct (mappedType r); try destruct (decide _); wp_step;
        apply nonstruct_write; auto.
    + wp_step. eapply wp_steps; [apply rec_steps|]. intros r s1 [_ H1].
      destruct (mappedType r); try destruct (decide _); wp_step;
        apply nonstruct_write; auto.
    + wp_step. eapply wp_steps; [apply rec_steps|]. intros r s1 [_ H1].
      wp_step. eapply wp_steps.
      * apply (steps_mapM' keeps). intros a.
        apply steps_bind; [typeclasses eauto|apply rec_steps|].
        intros r'. apply steps_ret. typeclasses eauto.
      * intros ps s2 [_ H2]. wp_step. apply nonstruct_write; auto.
    + apply rewriteStruct_keeps; auto.
      apply negb_true_iff, bool_decide_eq_false in H. exact H.
Qed.

End Frame2.

(** Every finished call of [rewriteType] keeps the invariant. *)
Lemma rewriteType_keeps fuel t s :
  wp (rewriteType' fuel t) (fun r s' => keeps s s' /\ resultOK t s r s') s.
Proof.
  revert t s. induction fuel as [|fuel IH]; intros t s; [exact I|].
  apply run_wp. intros r s' Hrun.
  destruct (wp_run _ _ _ _ _ (rewriteType_extends (S fuel) t s) Hrun) as [E Hres].
  split; [split; [exact E|]|exact Hres].
  intros Hinv. exact (wp_run _ _ _ _ _ (rewriteType_body_keeps fuel _ IH t s Hinv) Hrun).
Qed.

End Keeps.

(** ** Runs of the pass *)

(** The states the pass goes through: any number of finished calls of
    [rewriteType]. *)
Inductive rewrites (s : state) : state -> Prop :=
| rewrites_refl : rewrites s s
| rewrites_step s1 s2 fuel t r :
    rewrites s s1 -> rewriteType' fuel t s1 = Ok r s2 -> rewrites s s2.

Definition noTransient (s : state) : Prop :=
  forall k i, typesMapping s !! k = Some i -> isTransient (elementMappingKind i) = false.

Lemma noTransient_extends s s' : extends None s s' -> noTransient s -> noTransient s'.
Proof.
  intros E H k i Hi. destruct (isTransient (elementMappingKind i)) eqn:Ht; [|reflexivity].
  assert (Hx : None <> Some k) by discriminate.
  destruct (ext_transient _ _ _ E k i Hx Hi Ht) as (j & Hj & Htj).
  rewrite (H k j Hj) in Htj. discriminate.
Qed.

Lemma rewrites_keeps sts0 s s' :
  rewrites s s' -> keeps sts0 s s' /\ (noTransient s -> noTransient s').
Proof.
  induction 1 as [|s1 s2 fuel t r _ [K IH] Hrun].
  - split; [reflexivity|auto].
  - destruct (wp_run _ _ _ _ _ (rewriteType_keeps sts0 fuel t s1) Hrun) as [K' _].
    split; [now transitivity s1|].
    intros Hs. eapply noTransient_extends; [apply K'|auto].
Qed.

(** The state a pass starts from keeps the invariant of its own struct table. *)
Lemma stateInv_initial s :
  typesMapping s = ∅ -> newStructTypes s = ∅ ->
  map_Forall (fun id _ => (id < nextStruct s)%nat) (structs s) ->
  stateInv (structs s) s.
Proof.
  intros Hm Hn Hb. constructor.
  - intros st i Hi. rewrite Hm, lookup_empty in Hi. discriminate.
  - intros id info Hid. split; [exact Hid|]. exact (Hb id info Hid).
  - intros id info Hid. now left.
  - intros st i Hi. rewrite Hm, lookup_empty in Hi. discriminate.
  - intros id Hid. rewrite Hn in Hid. now apply not_elem_of_empty in Hid.
Qed.

(** The struct entry of a collapsed result, in a state without transient entries. *)
Lemma collapsed_entry t s r s' :
  noTransient s -> resultOK t s r s' -> typesMapping s' !! t = Some r.
Proof.
  unfold resultOK. intros Hs Hres. destruct (typesMapping s !! t) as [i|] eqn:Hm.
  - specialize (Hs t i Hm). destruct (decide (elementMappingKind i = COLLAPSING)) as [Hk|Hk].
    + rewrite Hk in Hs. discriminate.
    + destruct Hres as [-> ->]. exact Hm.
  - apply Hres.
Qed.

(** *** The facts left by [gatherAllTypesInfo] *)

Definition unsafeSource (st : nat) (i : gatherInst) : Prop :=
  match i with
  | Downcast src _ zero => src = st /\ zero = false
  | Virtualcast src => src = st
  | _ => False
  end.

#[global] Instance unsafeSource_dec st i : Decision (unsafeSource st i).
Proof. destruct i; simpl; apply _. Defined.

Definition untouched (s s' : state) : Prop :=
  structs s' = structs s /\ nextStruct s' = nextStruct s /\
  newStructTypes s' = newStructTypes s /\ typesMapping s' = typesMapping s.

Lemma gatherInstInfo_spec fuel i s :
  wp (gatherInstInfo fuel i)
     (fun _ s' =>
        untouched s s' /\
        forall st,
          (downcastSourceToDestinationsMapping s !! st = Some [] \/ unsafeSource st i ->
           downcastSourceToDestinationsMapping s' !! st = Some []) /\
          (forall d, ~ unsafeSource st i ->
             (i = Downcast st d true \/
              exists l, downcastSourceToDestinationsMapping s !! st = Some l /\ d ∈ l) ->
             downcastSourceToDestinationsMapping s' !! st = Some [] \/
             exists l, downcastSourceToDestinationsMapping s' !! st = Some l /\ d ∈ l)) s.
Proof.
  assert (Hsame : untouched s s /\
    forall st,
      (downcastSourceToDestinationsMapping s !! st = Some [] \/ False ->
       downcastSourceToDestinationsMapping s !! st = Some []) /\
      (forall d : nat, ~ False ->
         (False \/ exists l, downcastSourceToDestinationsMapping s !! st = Some l /\ d ∈ l) ->
         downcastSourceToDestinationsMapping s !! st = Some [] \/
         exists l, downcastSourceToDestinationsMapping s !! st = Some l /\ d ∈ l)).
  { split; [repeat split|]. intros st. split; [now intros [Hx|[]]|].
    intros d _ [[]|H]. now right. }
  destruct i as [src dst zero|src|srcElt destElt|container fieldIndex]; simpl.
  - destruct zero; simpl.
    + wp_step. wp_step.
      destruct (downcastSourceToDestinationsMapping s !! src) as [[|x l]|] eqn:Hsrc.
      * wp_step. split; [repeat split|]. intros st. split.
        -- intros [H|[_ H]]; [exact H|discriminate].
        -- intros d _ [[= -> ->]|H]; [now left|now right].
      * wp_step. split; [repeat split|]. intros st. simpl. split.
        -- intros [H|[_ H]]; [|discriminate].
           rewrite lookup_insert_ne; [exact H|]. intros ->. congruence.
        -- intros d _ [[= -> ->]|(l' & Hl & Hin)]; right.
           ++ rewrite lookup_insert_eq. eexists; split; [reflexivity|].
              unfold insertDest. destruct (decide _); [assumption|].
              apply elem_of_app. right. now apply list_elem_of_singleton.
           ++ destruct (decide (src = st)) as [->|Hne].
              ** rewrite lookup_insert_eq. eexists; split; [reflexivity|].
                 assert (l' = x :: l) as -> by congruence.
                 unfold insertDest. destruct (decide _); [assumption|].
                 apply elem_of_app. now left.
              ** rewrite lookup_insert_ne by exact Hne. eauto.
      * wp_step. split; [repeat split|]. intros st. simpl. split.
        -- intros [H|[_ H]]; [|discriminate].
           rewrite lookup_insert_ne; [exact H|]. intros ->. congruence.
        -- intros d _ [[= -> ->]|(l' & Hl & Hin)]; right.
           ++ rewrite lookup_insert_eq. eexists; split; [reflexivity|].
              now apply list_elem_of_singleton.
           ++ rewrite lookup_insert_ne; [eauto|]. intros ->. congruence.
    + wp_step. split; [repeat split|]. intros st. simpl. split.
      * intros [H|[-> _]]; [|apply lookup_insert_eq].
        destruct (decide (src = st)) as [->|Hne]; [apply lookup_insert_eq|].
        now rewrite lookup_insert_ne.
      * intros d Hsafe [[=]|(l' & Hl & Hin)].
        destruct (decide (src = st)) as [->|Hne]; [now destruct Hsafe|].
        right. rewrite lookup_insert_ne by exact Hne. eauto.
  - wp_step. split; [repeat split|]. intros st. simpl. split.
    + intros [H| ->]; [|apply lookup_insert_eq].
      destruct (decide (src = st)) as [->|Hne]; [apply lookup_insert_eq|].
      now rewrite lookup_insert_ne.
    + intros d Hsafe [[=]|(l' & Hl & Hin)].
      destruct (decide (src = st)) as [->|Hne]; [now destruct Hsafe|].
      right. rewrite lookup_insert_ne by exact Hne. eauto.
  - assert (Hret : wp (mret tt) (fun _ s' => untouched s s' /\
      forall st, (downcastSourceToDestinationsMapping s !! st = Some [] \/ False ->
                  downcastSourceToDestinationsMapping s' !! st = Some []) /\
                 (forall d : nat, ~ False ->
                    (BitCast srcElt destElt = Downcast st d true \/
                     exists l, downcastSourceToDestinationsMapping s !! st = Some l /\ d ∈ l) ->
                    downcastSourceToDestinationsMapping s' !! st = Some [] \/
                    exists l, downcastSourceToDestinationsMapping s' !! st = Some l /\ d ∈ l)) s).
    { wp_step. split; [repeat split|]. intros st. split; [now intros [Hx|[]]|].
      intros d _ [[=]|Hx]. now right. }
    destruct srcElt; try exact Hret.
    wp_step. wp_step. destruct (hasByteLayout info); [|exact Hret].
    apply wp_addAllBaseTypesForByteLayout. intros m.
    split; [repeat split|]. intros st. simpl. split; [now intros [Hx|[]]|].
    intros d _ [[=]|Hx]. now right.
  - wp_step. wp_step. destruct (escapeBase _ _ _ _); [|wp_step].
    wp_step. split; [repeat split|]. intros st. simpl. split; [now intros [Hx|[]]|].
    intros d _ [[=]|Hx]. now right.
Qed.

Lemma gatherAllTypesInfo_spec fuel insts s :
  wp (gatherAllTypesInfo fuel insts)
     (fun _ s' =>
        untouched s s' /\
        forall st,
          (downcastSourceToDestinationsMapping s !! st = Some [] \/
           Exists (unsafeSource st) insts ->
           downcastSourceToDestinationsMapping s' !! st = Some []) /\
          (forall d, ~ Exists (unsafeSource st) insts ->
             (In (Downcast st d true) insts \/
              exists l, downcastSourceToDestinationsMapping s !! st = Some l /\ d ∈ l) ->
             downcastSourceToDestinationsMapping s' !! st = Some [] \/
             exists l, downcastSourceToDestinationsMapping s' !! st = Some l /\ d ∈ l)) s.
Proof.
  unfold gatherAllTypesInfo. generalize tt at 1. revert s.
  induction insts as [|i insts IH]; intros s u; simpl.
  - wp_step. split; [repeat split|]. intros st. split.
    + intros [H|H]; [exact H|]. now apply Exists_nil in H.
    + intros d _ [[]|H]. now right.
  - wp_step. eapply wp_mono; [apply gatherInstInfo_spec|]. intros u1 s1 [U1 H1].
    eapply wp_mono; [apply IH|]. intros u2 s2 [U2 H2]. split.
    { destruct U1 as (A1 & B1 & C1 & D1), U2 as (A2 & B2 & C2 & D2).
      repeat split; congruence. }
    intros st. destruct (H1 st) as [H1a H1b], (H2 st) as [H2a H2b]. split.
    + intros [H|H].
      * apply H2a. left. apply H1a. now left.
      * apply Exists_cons in H as [H|H]; [|apply H2a; now right].
        apply H2a. left. apply H1a. now right.
    + intros d Hsafe Hd.
      assert (Hs1 : ~ unsafeSource st i) by (intros H; apply Hsafe; now left).
      assert (Hs2 : ~ Exists (unsafeSource st) insts) by (intros H; apply Hsafe; now right).
      assert (Hd1 : downcastSourceToDestinationsMapping s1 !! st = Some [] \/
                    In (Downcast st d true) insts \/
                    exists l, downcastSourceToDestinationsMapping s1 !! st = Some l /\ d ∈ l).
      { destruct Hd as [[Heq|Hin]|Hl].
        - destruct (H1b d Hs1 (or_introl Heq)) as [H|H]; [now left|right; now right].
        - right. now left.
        - destruct (H1b d Hs1 (or_intror Hl)) as [H|H]; [now left|right; now right]. }
      destruct Hd1 as [H|H]; [left; apply H2a; now left|]. now apply H2b.
Qed.

(** The state the analysis starts from: no type rewritten yet, no struct
    created by the pass, no cast recorded. *)
Definition initialState (s0 : state) : Prop :=
  typesMapping s0 = ∅ /\ newStructTypes s0 = ∅ /\
  downcastSourceToDestinationsMapping s0 = ∅ /\
  map_Forall (fun id _ => (id < nextStruct s0)%nat) (structs s0).

(** The entry behind a collapsed result of a call made at the top level of
    the pass, after the analysis of [insts]. *)
Lemma collapsed_struct_entry fuel0 insts s0 s1 s fuel st r s' :
  initialState s0 ->
  gatherAllTypesInfo fuel0 insts s0 = Ok tt s1 ->
  rewrites s1 s ->
  rewriteType' fuel (StructTy st) s = Ok r s' ->
  isCollapsedStruct (elementMappingKind r) = true ->
  stateInv (structs s0) s' /\ noTransient s' /\
  downcastSourceToDestinationsMapping s' = downcastSourceToDestinationsMapping s1 /\
  collapsible (structs s0) (downcastSourceToDestinationsMapping s1) (typesMapping s') st r.
Proof.
  intros (Hm0 & Hn0 & Hd0 & Hb0) Hgather Hrw Hrun Hcol.
  destruct (wp_run _ _ _ _ _ (gatherAllTypesInfo_spec fuel0 insts s0) Hgather)
    as [(U1 & U2 & U3 & U4) _].
  assert (Hinv1 : stateInv (structs s0) s1).
  { rewrite <- U1. apply stateInv_initial; [congruence|congruence|].
    rewrite U1, U2. exact Hb0. }
  assert (Hnt1 : noTransient s1).
  { intros k i Hi. rewrite U4, Hm0, lookup_empty in Hi. discriminate. }
  destruct (rewrites_keeps (structs s0) _ _ Hrw) as [[E Hi] Hnt].
  destruct (wp_run _ _ _ _ _ (rewriteType_keeps (structs s0) fuel (StructTy st) s) Hrun)
    as [[E' Hi'] Hres].
  assert (Hinv' : stateInv (structs s0) s') by auto.
  assert (Hnt' : noTransient s') by (eapply noTransient_extends; [exact E'|auto]).
  assert (Hdc : downcastSourceToDestinationsMapping s'
                = downcastSourceToDestinationsMapping s1).
  { rewrite (ext_downcasts _ _ _ E'). apply E. }
  split; [exact Hinv'|]. split; [exact Hnt'|]. split; [exact Hdc|].
  rewrite <- Hdc. apply (inv_memo _ _ Hinv').
  - eapply collapsed_entry; [apply Hnt, Hnt1|exact Hres].
  - destruct (elementMappingKind r); try discriminate; reflexivity.
Qed.

(** C1. After the analysis of the instructions [insts], at every call the
    pass makes: a struct recorded as the source of a down-cast with a
    nonzero offset or of a virtual-cast never gets a result of kind
    [COLLAPSED] or [MERGED_MEMBER_ARRAYS_AND_COLLAPSED]; and when a struct
    does get such a result, every destination [d] recorded for it by a
    zero-offset down-cast rewrites to kind [COLLAPSED]. *)
Theorem collapse_safety fuel0 insts s0 s1 s fuel st r s' :
  initialState s0 ->
  gatherAllTypesInfo fuel0 insts s0 = Ok tt s1 ->
  rewrites s1 s ->
  rewriteType' fuel (StructTy st) s = Ok r s' ->
  (Exists (unsafeSource st) insts -> isCollapsedStruct (elementMappingKind r) = false) /\
  (isCollapsedStruct (elementMappingKind r) = true ->
   forall d, In (Downcast st d true) insts ->
   exists j, elementMappingKind j = COLLAPSED /\
             forall n, rewriteType' (S n) (StructTy d) s' = Ok j s').
Proof.
  intros Hinit Hgather Hrw Hrun.
  destruct (wp_run _ _ _ _ _ (gatherAllTypesInfo_spec fuel0 insts s0) Hgather) as [_ Hg].
  assert (Hunsafe : Exists (unsafeSource st) insts ->
                    isCollapsedStruct (elementMappingKind r) = false).
  { intros Hex. destruct (isCollapsedStruct (elementMappingKind r)) eqn:Hcol; [|reflexivity].
    destruct (collapsed_struct_entry _ _ _ _ _ _ _ _ _ Hinit Hgather Hrw Hrun Hcol)
      as (_ & _ & _ & [_ Hsafe _]).
    destruct (Hg st) as [Hga _]. now rewrite Hga in Hsafe by now right. }
  split; [exact Hunsafe|]. intros Hcol d Hin.
  destruct (collapsed_struct_entry _ _ _ _ _ _ _ _ _ Hinit Hgather Hrw Hrun Hcol)
    as (Hinv' & Hnt' & Hdc & [_ Hsafe Hdests]).
  assert (Hsafe' : ~ Exists (unsafeSource st) insts).
  { intros Hex. rewrite (Hunsafe Hex) in Hcol. discriminate. }
  destruct (Hg st) as [_ Hgb].
  destruct (Hgb d Hsafe' (or_introl Hin)) as [Hx|(l & Hl & Hd)]; [contradiction|].
  destruct (Hdests l d Hl Hd) as (j & Hj & Hok).
  exists j. assert (Hk : elementMappingKind j = COLLAPSED).
  { destruct Hok as [Hk|[Hk _]]; [exact Hk|].
    specialize (Hnt' _ _ Hj). rewrite Hk in Hnt'. discriminate. }
  split; [exact Hk|]. intros n. apply rewriteType_hit; [exact Hj|congruence|].
  intros id [= <-] Hnew. destruct (inv_keys _ _ Hinv' d j Hj) as [x Hx].
  rewrite (inv_new _ _ Hinv' d Hnew) in Hx. discriminate.
Qed.

End Memo.

(** * The claims on concrete modules *)

(** A data layout for the examples: integers take their bytes, pointers
    four bytes, arrays the sum of their elements; [structSize] gives the
    size of the structs. *)
Fixpoint exampleSize (structSize : nat -> N) (t : type) : N :=
  match t with
  | IntegerTy b => (b + 7) / 8
  | FloatTy => 4
  | DoubleTy => 8
  | PointerTy _ => 4
  | ArrayTy e n => n * exampleSize structSize e
  | StructTy id => structSize id
  | _ => 0
  end.

Definition noClient (t : type) : bool := false.
Definition notExported (st : nat) : bool := false.
Definition noOffsets (st i : nat) : N := 0.

(** A module with the structs [sts], nothing analysed or rewritten yet. *)
Definition moduleState (sts : list StructInfo) : state :=
  mkState (list_to_map (zip (seq 0 (length sts)) sts)) (length sts) ∅ ∅ ∅ ∅ ∅ ∅.

Definition plainStruct (tys : list type) : StructInfo :=
  mkStruct tys false None false false false.
Definition byteLayoutStruct (tys : list type) : StructInfo :=
  mkStruct tys false None true false false.

Definition i8 : type := IntegerTy 8.
Definition i16 : type := IntegerTy 16.
Definition i32 : type := IntegerTy 32.

Definition rewriteTypeEx : nat -> type -> M TypeMappingInfo :=
  rewriteType noClient notExported (exampleSize (fun _ => 0)).
Definition rewriteGEPIndexesEx (insertionPoint : bool) (targetType ptrType : type)
    (idxs : list value) : M (list value * N) :=
  rewriteGEPIndexes noClient notExported (exampleSize (fun _ => 0)) noOffsets 10
    insertionPoint targetType ptrType idxs.

(** The result of a run, without the final state. *)
Definition resultOf {A} (r : result A) : option A :=
  match r with Ok a _ => Some a | _ => None end.
Definition stateOf {A} (r : result A) (s : state) : state :=
  match r with Ok _ s' => s' | _ => s end.

(** ** A struct wrapping a struct wrapping an [i32] *)

Definition nestedWrapper : state :=
  moduleState [plainStruct [StructTy 1]; plainStruct [i32]].

Definition nestedWrapperRewritten : state :=
  Eval vm_compute in stateOf (rewriteTypeEx 10 (StructTy 0) nestedWrapper) nestedWrapper.

Lemma nestedWrapper_wf : wfState nestedWrapper.
Proof. refine (bool_decide_unpack (wfState nestedWrapper) _). vm_compute. exact I. Qed.

Lemma nestedWrapper_run :
  rewriteTypeEx 10 (StructTy 0) nestedWrapper
  = Ok (mkInfo i32 COLLAPSED) nestedWrapperRewritten.
Proof. vm_compute. reflexivity. Qed.

Lemma rewriteType_deterministic_witness :
  rewriteTypeEx 10 (StructTy 0) nestedWrapperRewritten
  = Ok (mkInfo i32 COLLAPSED) nestedWrapperRewritten /\
  ((forall i, typesMapping nestedWrapper !! StructTy 0 = Some i ->
              elementMappingKind i = COLLAPSING -> isStructTy (mappedType i) = false) ->
   rewriteTypeEx 1 (StructTy 0) nestedWrapperRewritten
   = Ok (mkInfo i32 COLLAPSED) nestedWrapperRewritten).
Proof.
  apply (rewriteType_deterministic noClient notExported (exampleSize (fun _ => 0))
           10 (StructTy 0) nestedWrapper).
  - refine (bool_decide_unpack (wfState nestedWrapper) _). vm_compute. exact I.
  - vm_compute. reflexivity.
Defined.

(** ** Down-casts *)

(** Struct 0 is down-cast to struct 1 with offset zero, struct 2 to
    struct 3 with a nonzero offset; each wraps one [i32]. *)
Definition downcastModule : state :=
  moduleState [plainStruct [i32]; plainStruct [i32]; plainStruct [i32]; plainStruct [i32]].
Definition downcastInsts : list gatherInst :=
  [Downcast 0 1 true; Downcast 2 3 false].
Definition downcastAnalysed : state :=
  Eval vm_compute in stateOf (gatherAllTypesInfo 10 downcastInsts downcastModule) downcastModule.
Definition downcastRewritten : state :=
  Eval vm_compute in stateOf (rewriteTypeEx 10 (StructTy 0) downcastAnalysed) downcastAnalysed.

Lemma downcastModule_initial : initialState downcastModule.
Proof.
  repeat split.
  refine (bool_decide_unpack (map_Forall _ (structs downcastModule)) _).
  vm_compute. exact I.
Qed.

Lemma collapse_safety_witness :
  (Exists (unsafeSource 0) downcastInsts ->
   isCollapsedStruct (elementMappingKind (mkInfo i32 COLLAPSED)) = false) /\
  (isCollapsedStruct (elementMappingKind (mkInfo i32 COLLAPSED)) = true ->
   forall d, In (Downcast 0 d true) downcastInsts ->
   exists j, elementMappingKind j = COLLAPSED /\
             forall n, rewriteTypeEx (S n) (StructTy d) downcastRewritten
                       = Ok j downcastRewritten).
Proof.
  apply (collapse_safety noClient notExported (exampleSize (fun _ => 0))
           10 downcastInsts downcastModule downcastAnalysed downcastAnalysed 10 0).
  - exact downcastModule_initial.
  - vm_compute. reflexivity.
  - apply rewrites_refl.
  - vm_compute. reflexivity.
Defined.

(** The source of the down-cast with a nonzero offset keeps its wrapper. *)
Example unsafe_source_not_collapsed :
  resultOf (rewriteTypeEx 10 (StructTy 2) downcastAnalysed)
  = Some (mkInfo (StructTy 4) IDENTICAL).
Proof. vm_compute. reflexivity. Qed.

(** ** Structs left with a single field *)

(** Struct 1 stands for a client type. *)
Definition clientOne (t : type) : bool :=
  match t with StructTy 1 => true | _ => false end.
Definition clientStruct : StructInfo := mkStruct [] true None false false false.
Definition allExported (st : nat) : bool := true.

Definition singleField (ty : type) : state := moduleState [plainStruct [ty]].

(** The claim C8 fails as stated: a struct of one 32-bit integer, a
    word-sized scalar that is no pointer, does collapse, whereas the
    placeholder that stops the collapse is the 8-bit integer; and an
    exported struct and a byte layout struct collapse when their only
    field is a pointer to a client type. *)
Lemma collapse_skips_counterexample :
  resultOf (rewriteTypeEx 10 (StructTy 0) (singleField i32)) = Some (mkInfo i32 COLLAPSED) /\
  resultOf (rewriteTypeEx 10 (StructTy 0) (singleField i8))
  = Some (mkInfo (StructTy 1) IDENTICAL) /\
  resultOf (rewriteType clientOne allExported (exampleSize (fun _ => 0)) 10 (StructTy 0)
              (moduleState [plainStruct [PointerTy (StructTy 1)]; clientStruct]))
  = Some (mkInfo (PointerTy (StructTy 1)) COLLAPSED) /\
  resultOf (rewriteType clientOne notExported (exampleSize (fun _ => 4)) 10 (StructTy 0)
              (stateOf (gatherAllTypesInfo 10 [BitCast (StructTy 0) i32]
                          (moduleState [byteLayoutStruct [PointerTy (StructTy 1)]; clientStruct]))
                       (moduleState [])))
  = Some (mkInfo (PointerTy (StructTy 1)) COLLAPSED).
Proof. repeat split; vm_compute; reflexivity. Qed.

(** ** Two adjacent arrays of four [i32] *)

Definition twoArrays : state :=
  moduleState [plainStruct [ArrayTy i32 4; ArrayTy i32 4]].
Definition twoArraysAndFloat : state :=
  moduleState [plainStruct [ArrayTy i32 4; ArrayTy i32 4; FloatTy]].

Definition membersOf {A} (r : result A) (st : nat) : option (list (nat * N)) :=
  match r with Ok _ s => membersMappingData s !! st | _ => None end.
Definition structOf {A} (r : result A) (st : nat) : option (list type) :=
  match r with Ok _ s => elements <$> structs s !! st | _ => None end.



(** ** Address rewriting towards an array *)

Lemma updateBack_Some f l r :
  updateBack f l = Some r ->
  exists pre back v, l = pre ++ [back] /\ f back = Some v /\ r = pre ++ [v].
Proof.
  revert r. induction l as [|x l IH]; intros r; [discriminate|].
  destruct l as [|y l].
  - simpl. destruct (f x) as [v|] eqn:E; [|discriminate].
    intros [= <-]. now exists [], x, v.
  - change (updateBack f (x :: y :: l))
      with (match updateBack f (y :: l) with Some r => Some (x :: r) | None => None end).
    destruct (updateBack f (y :: l)) as [r'|]; [|discriminate].
    intros [= <-]. destruct (IH r' eq_refl) as (pre & back & v & -> & Hf & ->).
    now exists (x :: pre), back, v.
Qed.

(** ** Loads and stores through a shared integer *)

Lemma testbit_mod_pow2 a n i : N.testbit (a mod 2 ^ n) i = (i <? n) && N.testbit a i.
Proof.
  destruct (N.ltb_spec i n).
  - now rewrite N.mod_pow2_bits_low.
  - now rewrite N.mod_pow2_bits_high.
Qed.

Lemma testbit_shiftl a n i : N.testbit (N.shiftl a n) i = (n <=? i) && N.testbit a (i - n).
Proof.
  destruct (N.leb_spec n i).
  - now rewrite N.shiftl_spec_high'.
  - now rewrite N.shiftl_spec_low.
Qed.

Lemma testbit_ones n i : N.testbit (N.ones n) i = (i <? n).
Proof.
  destruct (N.ltb_spec i n).
  - now apply N.ones_spec_low.
  - now apply N.ones_spec_high.
Qed.

Lemma testbit_small a n i : a < 2 ^ n -> n <= i -> N.testbit a i = false.
Proof.
  intros Ha Hi. rewrite <- (N.mod_small a (2 ^ n)) by exact Ha.
  now apply N.mod_pow2_bits_high.
Qed.

Lemma pow2_pred_ones b : 2 ^ b - 1 = N.ones b.
Proof. rewrite N.ones_equiv. now rewrite N.sub_1_r. Qed.

Ltac bits :=
  repeat first
    [ rewrite testbit_mod_pow2 | rewrite testbit_shiftl | rewrite testbit_ones
    | rewrite N.shiftr_spec' | rewrite N.land_spec | rewrite N.lor_spec
    | rewrite N.lxor_spec ].

Ltac cmp :=
  repeat match goal with
    | |- context [?a <? ?b] => destruct (N.ltb_spec a b)
    | |- context [?a <=? ?b] => destruct (N.leb_spec a b)
    | |- context [?a =? ?b] => destruct (N.eqb_spec a b)
    end.

(** The bits of the word written back by a rewritten store. *)
Definition storedWord (w x bits wordBits offset : N) : N :=
  N.lor (N.land (w mod 2 ^ wordBits)
           (N.lxor (wrap32 (N.shiftl (wrap32 (2 ^ bits - 1)) offset)) (2 ^ 32 - 1)
            mod 2 ^ wordBits))
        (if offset =? 0 then x else N.shiftl x (offset mod 2 ^ wordBits) mod 2 ^ wordBits).

Lemma offset_small offset wordBits : offset < wordBits -> offset mod 2 ^ wordBits = offset.
Proof.
  intros H. apply N.mod_small. eapply N.lt_trans; [exact H|].
  apply N.pow_gt_lin_r. lia.
Qed.

Lemma storedWord_bit w x bits wordBits offset i :
  wordBits <= 32 -> offset + bits <= wordBits -> 0 < bits -> x < 2 ^ bits ->
  N.testbit (storedWord w x bits wordBits offset) i
  = if (offset <=? i) && (i <? offset + bits) then N.testbit x (i - offset)
    else (i <? wordBits) && N.testbit w i.
Proof.
  intros HW Hfit Hb Hx. unfold storedWord, wrap32.
  rewrite !pow2_pred_ones, (offset_small offset wordBits) by lia.
  assert (Hhigh : bits <= i - offset -> N.testbit x (i - offset) = false)
    by (apply testbit_small; exact Hx).
  destruct (N.eqb_spec offset 0) as [H0|H0]; bits.
  - subst offset. rewrite ?N.sub_0_r in *.
    destruct (N.testbit x i) eqn:Ex, (N.testbit w i); cmp; simpl; try reflexivity; try lia;
      rewrite Hhigh in Ex by lia; discriminate.
  - destruct (N.testbit x (i - offset)) eqn:Ex, (N.testbit w i); cmp; simpl;
      try reflexivity; try lia; rewrite Hhigh in Ex by lia; discriminate.
Qed.

(** The value read by a rewritten load. *)
Definition loadedValue (w oldBits wordBits offset : N) : N :=
  (if offset =? 0 then w mod 2 ^ wordBits
   else ashr wordBits (w mod 2 ^ wordBits) (offset mod 2 ^ wordBits)) mod 2 ^ oldBits.

Lemma loadedValue_bit w oldBits wordBits offset i :
  offset + oldBits <= wordBits -> 0 < oldBits ->
  N.testbit (loadedValue w oldBits wordBits offset) i
  = (i <? oldBits) && N.testbit w (i + offset).
Proof.
  intros Hfit Hb. unfold loadedValue, ashr.
  rewrite (offset_small offset wordBits) by lia.
  destruct (N.eqb_spec offset 0) as [H0|H0].
  - subst offset. rewrite N.add_0_r. bits. cmp; simpl; try reflexivity; lia.
  - destruct (N.testbit (w mod 2 ^ wordBits) (wordBits - 1)); bits;
      destruct (N.testbit w (i + offset)); cmp; simpl; try reflexivity; lia.
Qed.

Lemma evalValue_rewriteMergedLoad mem locals oldBits wordBits ptr offset :
  evalValue mem locals (rewriteMergedLoad oldBits wordBits ptr offset)
  = loadedValue (mem ptr) oldBits wordBits offset.
Proof.
  unfold rewriteMergedLoad, loadedValue, ConstantInt_get.
  now destruct (offset =? 0).
Qed.

Lemma evalValue_rewriteMergedStore mem locals V wordBits ptr offset :
  evalValue mem locals (rewriteMergedStore V wordBits ptr offset)
  = storedWord (mem ptr) (evalValue mem locals V) (valueBits V) wordBits offset.
Proof.
  unfold rewriteMergedStore, storedWord, ConstantInt_get.
  now destruct (offset =? 0).
Qed.

Lemma execMergedStore_same V wordBits ptr offset locals mem :
  execMergedStore V wordBits ptr offset locals mem ptr
  = storedWord (mem ptr) (evalValue mem locals V) (valueBits V) wordBits offset.
Proof.
  unfold execMergedStore. rewrite Nat.eqb_refl. apply evalValue_rewriteMergedStore.
Qed.

(** A field that was stored is read back. *)
Lemma store_then_load V wordBits ptr offset locals mem :
  wordBits <= 32 -> offset + valueBits V <= wordBits -> 0 < valueBits V ->
  evalValue mem locals V < 2 ^ valueBits V ->
  evalValue (execMergedStore V wordBits ptr offset locals mem) locals
    (rewriteMergedLoad (valueBits V) wordBits ptr offset)
  = evalValue mem locals V.
Proof.
  intros HW Hfit Hb Hx. rewrite evalValue_rewriteMergedLoad, execMergedStore_same.
  apply N.bits_inj. intros i.
  rewrite loadedValue_bit, storedWord_bit by assumption.
  replace (i + offset - offset) with i by lia.
  destruct (N.ltb_spec i (valueBits V)) as [Hi|Hi]; simpl.
  - destruct (N.leb_spec offset (i + offset)); [|lia].
    destruct (N.ltb_spec (i + offset) (offset + valueBits V)); [reflexivity|lia].
  - symmetry. now apply (testbit_small _ (valueBits V)).
Qed.

(** A store leaves the fields it does not overlap as they were. *)
Lemma store_then_load_other V wordBits ptr offset locals mem oldBits offset' :
  wordBits <= 32 -> offset + valueBits V <= wordBits -> 0 < valueBits V ->
  evalValue mem locals V < 2 ^ valueBits V ->
  offset' + oldBits <= wordBits -> 0 < oldBits ->
  offset' + oldBits <= offset \/ offset + valueBits V <= offset' ->
  evalValue (execMergedStore V wordBits ptr offset locals mem) locals
    (rewriteMergedLoad oldBits wordBits ptr offset')
  = evalValue mem locals (rewriteMergedLoad oldBits wordBits ptr offset').
Proof.
  intros HW Hfit Hb Hx Hfit' Hb' Hdisj.
  rewrite !evalValue_rewriteMergedLoad, execMergedStore_same.
  apply N.bits_inj. intros i.
  rewrite !loadedValue_bit, storedWord_bit by assumption.
  destruct (N.ltb_spec i oldBits) as [Hi|Hi]; simpl; [|reflexivity].
  destruct (N.leb_spec offset (i + offset')), (N.ltb_spec (i + offset') (offset + valueBits V));
    simpl; try lia;
    destruct (N.ltb_spec (i + offset') wordBits); try reflexivity; lia.
Qed.

(** ** Two 8-bit fields in one shared integer *)

Definition twoBytes : state := moduleState [plainStruct [i8; i8]].
Definition twoBytesAndShort : state := moduleState [plainStruct [i8; i8; i16]].

(** The claim C2 fails as stated: two 8-bit fields alone share a 16-bit
    integer, not a 32-bit one; and in a 32-bit integer, shared with a
    third field of 16 bits, the word read directly after the two stores
    keeps the bits of the third field. *)
Lemma packed_bytes_counterexample :
  resultOf (rewriteTypeEx 10 (StructTy 0) twoBytes)
  = Some (mkInfo (IntegerTy 16) MERGED_MEMBER_ARRAYS_AND_COLLAPSED) /\
  resultOf (rewriteTypeEx 10 (StructTy 0) twoBytesAndShort)
  = Some (mkInfo (IntegerTy 32) MERGED_MEMBER_ARRAYS_AND_COLLAPSED) /\
  membersOf (rewriteTypeEx 10 (StructTy 0) twoBytesAndShort) 0
  = Some [(0%nat, 0); (0%nat, 8); (0%nat, 16)] /\
  evalValue
    (execMergedStore (ConstantInt 8 2) 32 0 8 (fun _ => 0)
       (execMergedStore (ConstantInt 8 1) 32 0 0 (fun _ => 0) (fun _ => 0xFFFF0000)))
    (fun _ => 0) (LoadInst 32 0)
  = 0xFFFF0201 /\
  0xFFFF0201 <> N.lor 1 (N.shiftl 2 8).
Proof. repeat split; try (vm_compute; reflexivity). vm_compute. discriminate. Qed.

(** C2 (as amended). Two 8-bit integer fields of a struct share one
    integer of [wordBits] bits, 16 when they are the only fields and up to
    32 with further integer fields, at bit offsets 0 and 8.  Storing [V0]
    to the first and [V1] to the second through the rewritten stores and
    reading each back through the rewritten loads yields the two values,
    and the shared word read directly is [v0 | (v1 << 8)] together with
    the bits that the word held from bit 16 on, which are none when the
    word has 16 bits. *)
Theorem packed_bytes_roundtrip (wordBits : N) (V0 V1 : value) (ptr : nat)
    (locals mem : nat -> N) :
  16 <= wordBits -> wordBits <= 32 ->
  valueBits V0 = 8 -> valueBits V1 = 8 ->
  evalValue mem locals V0 < 2 ^ 8 ->
  evalValue (execMergedStore V0 wordBits ptr 0 locals mem) locals V1 < 2 ^ 8 ->
  resultOf (rewriteTypeEx 10 (StructTy 0) twoBytes)
  = Some (mkInfo (IntegerTy 16) MERGED_MEMBER_ARRAYS_AND_COLLAPSED) /\
  membersOf (rewriteTypeEx 10 (StructTy 0) twoBytes) 0 = Some [(0%nat, 0); (0%nat, 8)] /\
  resultOf (rewriteGEPIndexesEx false i8 (PointerTy (StructTy 0))
              [ConstantInt 32 0; ConstantInt 32 1] twoBytes)
  = Some ([ConstantInt 32 0], 8) /\
  evalValue
    (execMergedStore V1 wordBits ptr 8 locals (execMergedStore V0 wordBits ptr 0 locals mem))
    locals (rewriteMergedLoad 8 wordBits ptr 0)
  = evalValue mem locals V0 /\
  evalValue
    (execMergedStore V1 wordBits ptr 8 locals (execMergedStore V0 wordBits ptr 0 locals mem))
    locals (rewriteMergedLoad 8 wordBits ptr 8)
  = evalValue (execMergedStore V0 wordBits ptr 0 locals mem) locals V1 /\
  evalValue
    (execMergedStore V1 wordBits ptr 8 locals (execMergedStore V0 wordBits ptr 0 locals mem))
    locals (LoadInst wordBits ptr)
  = N.lor (N.lor (evalValue mem locals V0)
             (N.shiftl (evalValue (execMergedStore V0 wordBits ptr 0 locals mem) locals V1) 8))
          (N.shiftl (N.shiftr (mem ptr mod 2 ^ wordBits) 16) 16) /\
  (wordBits = 16 ->
   evalValue
     (execMergedStore V1 wordBits ptr 8 locals (execMergedStore V0 wordBits ptr 0 locals mem))
     locals (LoadInst wordBits ptr)
   = N.lor (evalValue mem locals V0)
       (N.shiftl (evalValue (execMergedStore V0 wordBits ptr 0 locals mem) locals V1) 8)).
Proof.
  intros HW1 HW2 Hb0 Hb1 Hv0 Hv1.
  set (mem1 := execMergedStore V0 wordBits ptr 0 locals mem) in *.
  set (v0 := evalValue mem locals V0) in *. set (v1 := evalValue mem1 locals V1) in *.
  assert (Hword : evalValue (execMergedStore V1 wordBits ptr 8 locals mem1) locals
                    (LoadInst wordBits ptr)
                  = N.lor (N.lor v0 (N.shiftl v1 8))
                      (N.shiftl (N.shiftr (mem ptr mod 2 ^ wordBits) 16) 16)).
  { simpl. rewrite execMergedStore_same. unfold mem1. rewrite execMergedStore_same.
    fold mem1 v0 v1. rewrite Hb0, Hb1. apply N.bits_inj. intros i. bits.
    rewrite !storedWord_bit by (try assumption; lia). bits.
    assert (H0 : 8 <= i -> N.testbit v0 i = false) by (apply testbit_small; exact Hv0).
    assert (H1 : 8 <= i - 8 -> N.testbit v1 (i - 8) = false) by (apply testbit_small; exact Hv1).
    destruct (N.leb_spec 16 i) as [Hi|Hi].
    - replace (i - 16 + 16) with i by lia. rewrite H0, H1 by lia.
      cmp; simpl; try reflexivity; try lia; now destruct (N.testbit (mem ptr) i).
    - rewrite ?N.sub_0_r.
      destruct (N.leb_spec 8 i) as [Hi'|Hi'].
      + rewrite H0 by lia. cmp; simpl; try lia; now rewrite ?orb_false_r.
      + cmp; simpl; try lia; now rewrite ?orb_false_r. }
  split; [vm_compute; reflexivity|]. split; [vm_compute; reflexivity|].
  split; [vm_compute; reflexivity|]. split; [|split; [|split]].
  - rewrite store_then_load_other; rewrite ?Hb1; try lia; try assumption.
    unfold v0. rewrite <- Hb0 at 1. apply store_then_load; rewrite ?Hb0; try lia; assumption.
  - rewrite <- Hb1 at 2. apply store_then_load; rewrite ?Hb1; try lia; assumption.
  - exact Hword.
  - intros ->. rewrite Hword, N.shiftr_div_pow2, N.div_small by (apply N.mod_lt; discriminate).
    now rewrite N.shiftl_0_l, N.lor_0_r.
Qed.

Lemma packed_bytes_roundtrip_witness :
  evalValue
    (execMergedStore (Local 8 1) 32 0 8 (fun id => N.of_nat id + 6)
       (execMergedStore (Local 8 0) 32 0 0 (fun id => N.of_nat id + 6) (fun _ => 0xABCD1234)))
    (fun id => N.of_nat id + 6) (LoadInst 32 0)
  = N.lor (N.lor 6 (N.shiftl 7 8)) (N.shiftl (N.shiftr (0xABCD1234 mod 2 ^ 32) 16) 16).
Proof.
  apply (packed_bytes_roundtrip 32 (Local 8 0) (Local 8 1) 0 (fun id => N.of_nat id + 6)
           (fun _ => 0xABCD1234)); try reflexivity; vm_compute; try reflexivity; discriminate.
Defined.

(** ** Byte layout structs *)

Lemma bind_Ok {A B} (m : M A) (f : A -> M B) s a s1 :
  m s = Ok a s1 -> (m ≫= f) s = f a s1.
Proof. unfold mbind, M_bind. now intros ->. Qed.

Lemma bind_Ok_inv {A B} (m : M A) (f : A -> M B) s b s' :
  (m ≫= f) s = Ok b s' -> exists a s1, m s = Ok a s1 /\ f a s1 = Ok b s'.
Proof. unfold mbind, M_bind. destruct (m s) as [a s1| |]; [eauto|discriminate..]. Qed.

(** The type that replaces a flattened struct of [numElements] leaves. *)
Definition flattenedType (leaf : type) (numElements : N) : type :=
  if N.eqb numElements 1 then leaf else ArrayTy leaf numElements.

(** Every struct-typed field has the byte layout and is rewritten, one
    after the other, with kind [BYTE_LAYOUT_TO_ARRAY]. *)
Inductive subStructsFlatten (rewrite : type -> M TypeMappingInfo)
    : list type -> state -> state -> Prop :=
| subStructs_nil s : subStructsFlatten rewrite [] s s
| subStructs_struct subSt elts subInfoS subInfo s s1 s2 :
    structs s !! subSt = Some subInfoS -> hasByteLayout subInfoS = true ->
    rewrite (StructTy subSt) s = Ok subInfo s1 ->
    elementMappingKind subInfo = BYTE_LAYOUT_TO_ARRAY ->
    subStructsFlatten rewrite elts s1 s2 ->
    subStructsFlatten rewrite (StructTy subSt :: elts) s s2
| subStructs_other t elts s s2 :
    isStructTy t = false -> subStructsFlatten rewrite elts s s2 ->
    subStructsFlatten rewrite (t :: elts) s s2.

Lemma areSubStructsConvertible_true rec elts s s2 :
  subStructsFlatten rec elts s s2 -> areSubStructsConvertible rec elts s = Ok true s2.
Proof.
  induction 1 as [s|subSt elts subInfoS subInfo s s1 s2 Hs Hb Hrun Hk _ IH|t elts s s2 Ht _ IH].
  - reflexivity.
  - simpl. rewrite (bind_Ok _ _ s subInfoS s) by (unfold getStruct; now rewrite Hs).
    rewrite Hb. simpl. rewrite (bind_Ok _ _ s subInfo s1 Hrun).
    now destruct (decide _).
  - destruct t; try discriminate; exact IH.
Qed.

Lemma areSubStructsConvertible_inv rec elts s :
  wp (areSubStructsConvertible rec elts)
     (fun b s2 => b = true -> subStructsFlatten rec elts s s2) s.
Proof.
  revert s. induction elts as [|t elts IH]; intros s.
  - intros _. constructor.
  - assert (Hother : isStructTy t = false ->
              wp (areSubStructsConvertible rec elts)
                 (fun b s2 => b = true -> subStructsFlatten rec (t :: elts) s s2) s).
    { intros Ht. eapply wp_mono; [apply IH|]. intros b s2 H Hb. constructor 3; auto. }
    destruct t as [| | | | | | |subSt]; try (apply Hother; reflexivity).
    simpl. wp_step. wp_step. destruct (hasByteLayout info) eqn:Hb; simpl.
    + wp_step. apply run_wp. intros subInfo s1 Hrun.
      destruct (decide _) as [Hk|Hk].
      * eapply wp_mono; [apply IH|]. intros b s2 Hrec Hbt. econstructor 2; eauto.
      * wp_step. discriminate.
    + wp_step. discriminate.
Qed.

Section ByteLayout.

Variable isClientType : type -> bool.
Variable isJSExportedType : nat -> bool.
Variable getTypeAllocSize : type -> N.

Local Abbreviation rewriteType' := (rewriteType isClientType isJSExportedType getTypeAllocSize).

(** What makes [byteLayoutToArray] flatten the struct [st]. *)
Definition flattens (fuel st : nat) (info : StructInfo) (s : state) (leaf : type)
    (s2 : state) : Prop :=
  hasByteLayout info = true /\
  exists s1,
    addAllBaseTypesForByteLayout fuel st (StructTy st) s = Ok tt s1 /\
    baseTypesForByteLayout s1 !! st = Some (Some leaf) /\
    wrap32 (getTypeAllocSize leaf) <> 0 /\
    wrap32 (getTypeAllocSize (StructTy st)) mod wrap32 (getTypeAllocSize leaf) = 0 /\
    subStructsFlatten (rewriteType' fuel) (elements info) s1 s2.

Definition flattenedInfo (st : nat) (leaf : type) : TypeMappingInfo :=
  mkInfo (flattenedType leaf
            (wrap32 (getTypeAllocSize (StructTy st)) / wrap32 (getTypeAllocSize leaf)))
         BYTE_LAYOUT_TO_ARRAY.

Lemma byteLayoutToArray_flattens fuel st info s leaf s2 :
  flattens fuel st info s leaf s2 ->
  byteLayoutToArray getTypeAllocSize fuel (rewriteType' fuel) st info s
  = Ok (Some (flattenedInfo st leaf))
       (set_typesMapping <[StructTy st := flattenedInfo st leaf]> s2).
Proof.
  intros (Hb & s1 & Hadd & Hleaf & HE & Hmod & Hsub).
  unfold byteLayoutToArray. rewrite (bind_Ok _ _ s tt s1 Hadd).
  rewrite (bind_Ok get _ s1 s1 s1 eq_refl). rewrite Hleaf.
  apply N.eqb_neq in HE. rewrite HE. apply N.eqb_eq in Hmod. rewrite Hmod. simpl.
  rewrite (bind_Ok _ _ s1 true s2 (areSubStructsConvertible_true _ _ _ _ Hsub)). simpl.
  unfold flattenedInfo, flattenedType. now destruct (N.eqb _ 1).
Qed.

Lemma byteLayoutToArray_inv fuel st info s :
  hasByteLayout info = true ->
  wp (byteLayoutToArray getTypeAllocSize fuel (rewriteType' fuel) st info)
     (fun o s' => forall r, o = Some r ->
        exists leaf s2, flattens fuel st info s leaf s2 /\ r = flattenedInfo st leaf /\
          s' = set_typesMapping <[StructTy st := r]> s2) s.
Proof.
  intros Hb. unfold byteLayoutToArray. wp_step. apply run_wp. intros [] s1 Hadd.
  wp_step. wp_step. destruct (baseTypesForByteLayout s1 !! st) as [[leaf|]|] eqn:Hleaf;
    try wp_step; try discriminate.
  destruct (N.eqb_spec (wrap32 (getTypeAllocSize leaf)) 0) as [HE|HE]; [wp_step|].
  destruct (N.eqb_spec (wrap32 (getTypeAllocSize (StructTy st))
                          mod wrap32 (getTypeAllocSize leaf)) 0) as [Hmod|Hmod]; simpl;
    [|wp_step; discriminate].
  wp_step. eapply wp_mono; [apply areSubStructsConvertible_inv|].
  intros b s2 Hsub. destruct b; simpl; [|wp_step; discriminate].
  specialize (Hsub eq_refl).
  assert (Hf : flattens fuel st info s leaf s2).
  { split; [exact Hb|]. exists s1. repeat split; assumption. }
  set (n := wrap32 (getTypeAllocSize (StructTy st)) / wrap32 (getTypeAllocSize leaf)).
  destruct (N.eqb n 1) eqn:Hn; wp_step; wp_step; wp_step; intros r [= <-]; exists leaf, s2;
    (split; [exact Hf|]); unfold flattenedInfo, flattenedType; fold n; rewrite Hn;
    split; reflexivity.
Qed.

Lemma collapseSingleField_kind rec st newSt info field kind s :
  wp (collapseSingleField isClientType isJSExportedType rec st newSt info field kind)
     (fun c _ => forall r, c = inl r -> elementMappingKind r <> BYTE_LAYOUT_TO_ARRAY) s.
Proof.
  assert (Hm : forall s1,
             wp (rewrittenType ← rec field;
                 mret (inr [mappedType rewrittenType] : TypeMappingInfo + list type))
                (fun c _ => forall r, c = inl r ->
                   elementMappingKind r <> BYTE_LAYOUT_TO_ARRAY) s1).
  { intros s1. wp_step. apply run_wp. intros r1 s2 _. wp_step. discriminate. }
  unfold collapseSingleField. destruct (mayCollapse _ _ _ _ _); [|apply Hm].
  wp_step. apply run_wp. intros unsafe s1 _. destruct unsafe; simpl; [apply Hm|].
  wp_step. wp_step. wp_step. apply run_wp. intros collapsed s2 _.
  wp_step. wp_step. destruct (typesMapping s2 !! StructTy st) as [curInfo|]; [|wp_step].
  destruct (decide _).
  - wp_step. wp_step. apply Hm.
  - wp_step. wp_step. wp_step. wp_step. wp_step. intros r [= <-]. simpl.
    now destruct (decide _).
Qed.

Lemma rewriteStruct_flattened fuel st info s :
  structs s !! st = Some info ->
  wp (rewriteStruct isClientType isJSExportedType getTypeAllocSize fuel (rewriteType' fuel) st)
     (fun r s' => elementMappingKind r = BYTE_LAYOUT_TO_ARRAY ->
        exists leaf s2, flattens fuel st info s leaf s2 /\ r = flattenedInfo st leaf /\
          s' = set_typesMapping <[StructTy st := r]> s2) s.
Proof.
  intros Hinfo. unfold rewriteStruct. wp_step. wp_step. rewrite Hinfo in H.
  injection H as <-.
  destruct (isClientType (StructTy st)); [wp_step; discriminate|].
  destruct (isOpaque info); [wp_step; discriminate|].
  wp_step.
  assert (Hrest : forall s1 (m : M TypeMappingInfo),
            (forall s2, wp m (fun r _ => elementMappingKind r <> BYTE_LAYOUT_TO_ARRAY) s2) ->
            wp m (fun r s' => elementMappingKind r = BYTE_LAYOUT_TO_ARRAY ->
              exists leaf s2, flattens fuel st info s leaf s2 /\ r = flattenedInfo st leaf /\
                s' = set_typesMapping <[StructTy st := r]> s2) s1).
  { intros s1 m Hm. eapply wp_mono; [apply Hm|]. intros r s' Hne He. contradiction. }
  assert (Hplain : forall s1,
    wp (newSt ← newStruct;
        _ ← setMapping (StructTy st) (mkInfo (StructTy newSt) IDENTICAL);
        '(tys, newStructKind) ←
          (if hasAsmJS info then
             tys ← mapM' (fun elTy => r ← rewriteType' fuel elTy; mret (mappedType r))
                     (elements info);
             mret (tys, IDENTICAL)
           else if Nat.ltb 1 (length (elements info)) then
             ms ← mergeFields fuel (rewriteType' fuel) st (hasByteLayout info)
                    (elements info) 0 initMerge;
             _ ← assert (bool_decide (length (membersMapping ms) = length (elements info))
                         || hasByteLayout info);
             if hasMergedArrays ms then
               _ ← assert (negb (bool_decide (newTypes ms = [])));
               _ ← modify (set_membersMappingData (fun m =>
                      match m !! st with
                      | Some _ => m
                      | None => <[st := membersMapping ms]> m
                      end));
               mret (newTypes ms, MERGED_MEMBER_ARRAYS)
             else mret (newTypes ms, IDENTICAL)
           else mret (elements info, IDENTICAL));
        collapsed ←
          (match tys with
           | [field] =>
               if negb (hasAsmJS info)
               then collapseSingleField isClientType isJSExportedType (rewriteType' fuel)
                      st newSt info field newStructKind
               else mret (inr tys)
           | _ => mret (inr tys)
           end);
        match collapsed with
        | inl r => mret r
        | inr tys' =>
            newDirectBase ←
              (match directBase info with
               | Some base =>
                   r ← rewriteType' fuel (StructTy base);
                   mret (match mappedType r with StructTy b => Some b | _ => None end)
               | None => mret None
               end);
            _ ← setBody newSt tys' (isPacked info) newDirectBase
                  (hasByteLayout info) (hasAsmJS info);
            CacheAndReturn (StructTy st) (StructTy newSt) newStructKind
        end)
       (fun r _ => elementMappingKind r <> BYTE_LAYOUT_TO_ARRAY) s1).
  { intros s1. wp_step. wp_step. wp_step. wp_step. wp_step.
    apply (wp_mono _ (fun p _ => snd p = IDENTICAL \/ snd p = MERGED_MEMBER_ARRAYS)).
    - destruct (hasAsmJS info).
      + wp_step. apply run_wp. intros tys s2 _. wp_step. now left.
      + destruct (Nat.ltb 1 (length (elements info))); [|wp_step; now left].
        wp_step. apply run_wp. intros ms s2 _. wp_step. wp_step.
        destruct (hasMergedArrays ms).
        * wp_step. wp_step. wp_step. wp_step. wp_step. now right.
        * wp_step. now left.
    - intros [tys newStructKind] s2 Hkind. simpl in Hkind. wp_step.
      apply (wp_mono _ (fun c _ => forall r, c = inl r ->
                          elementMappingKind r <> BYTE_LAYOUT_TO_ARRAY)).
      + destruct tys as [|field [|]]; try (wp_step; discriminate).
        destruct (negb (hasAsmJS info)); [|wp_step; discriminate].
        apply collapseSingleField_kind.
      + intros [r|tys'] s3 Hc.
        * wp_step. now apply Hc.
        * wp_step. apply run_wp. intros newDirectBase s4 _. wp_step.
          apply run_wp. intros _ s5 _. wp_step. simpl.
          destruct Hkind as [-> | ->]; discriminate. }
  destruct (hasByteLayout info) eqn:Hb.
  - eapply wp_mono; [apply byteLayoutToArray_inv; exact Hb|].
    intros [r|] s1 Hinv.
    + wp_step. intros _. destruct (Hinv r eq_refl) as (leaf & s2 & Hf & -> & ->). eauto.
    + apply Hrest. exact Hplain.
  - wp_step. apply Hrest. exact Hplain.
Qed.

End ByteLayout.

(** An entry cleared to [NULL] stays cleared. *)
Lemma addAllBaseTypes_null fuel sts st : forall baseType m m',
  addAllBaseTypes fuel sts st baseType m = Some m' ->
  m !! st = Some None -> m' !! st = Some None.
Proof.
  induction fuel as [|fuel IH]; intros baseType m m'; [discriminate|].
  assert (Hleaf : forall ty m0, m0 !! st = Some None ->
                    addBaseType st ty m0 !! st = Some None).
  { intros ty m0 Hm. unfold addBaseType. rewrite Hm.
    destruct (decide _); [discriminate|]. apply lookup_insert_eq. }
  destruct baseType; simpl; try (intros [= <-]; apply Hleaf).
  - apply IH.
  - destruct (sts !! id) as [info|]; [|now intros [= <-]].
    generalize (elements info). intros l. revert m.
    induction l as [|ty l IHl]; intros m; simpl; [now intros [= <-]|].
    destruct (addAllBaseTypes fuel sts st ty m) as [m1|] eqn:E1; simpl.
    + intros Hfold Hm. apply (IHl m1 Hfold). exact (IH ty m m1 E1 Hm).
    + intros Hfold. exfalso. clear -Hfold. induction l as [|x l IHl']; [discriminate|auto].
Qed.

(** C4 (as amended). A byte layout struct that misses the memo table is
    flattened exactly when the leaf type table, after the leaf types of the
    struct's own fields have been added to the observed views, names one
    leaf type for it, the allocation size of that leaf divides the
    allocation size of the struct, and every struct-typed field has the
    byte layout and is rewritten with kind [BYTE_LAYOUT_TO_ARRAY].  The
    result is then the array of the leaf type of length total size over
    leaf size, or the bare leaf type when that length is 1, with kind
    [BYTE_LAYOUT_TO_ARRAY].  A struct whose views disagree, so that its
    entry is [NULL], is not flattened. *)
Theorem byte_layout_flattening
    (isClientType : type -> bool) (isJSExportedType : nat -> bool)
    (getTypeAllocSize : type -> N) (fuel st : nat) (info : StructInfo) (s : state) :
  structs s !! st = Some info ->
  typesMapping s !! StructTy st = None ->
  st ∉ newStructTypes s ->
  (forall leaf s2,
      isClientType (StructTy st) = false -> isOpaque info = false ->
      flattens isClientType isJSExportedType getTypeAllocSize fuel st info s leaf s2 ->
      rewriteType isClientType isJSExportedType getTypeAllocSize (S fuel) (StructTy st) s
      = Ok (flattenedInfo getTypeAllocSize st leaf)
           (set_typesMapping <[StructTy st := flattenedInfo getTypeAllocSize st leaf]> s2)) /\
  (forall r s',
      rewriteType isClientType isJSExportedType getTypeAllocSize (S fuel) (StructTy st) s
      = Ok r s' ->
      elementMappingKind r = BYTE_LAYOUT_TO_ARRAY ->
      exists leaf s2,
        flattens isClientType isJSExportedType getTypeAllocSize fuel st info s leaf s2 /\
        r = flattenedInfo getTypeAllocSize st leaf /\
        s' = set_typesMapping <[StructTy st := r]> s2) /\
  (forall r s',
      baseTypesForByteLayout s !! st = Some None ->
      rewriteType isClientType isJSExportedType getTypeAllocSize (S fuel) (StructTy st) s
      = Ok r s' ->
      elementMappingKind r <> BYTE_LAYOUT_TO_ARRAY).
Proof.
  intros Hinfo Hmiss Hnew.
  assert (Hbody : rewriteType isClientType isJSExportedType getTypeAllocSize (S fuel)
                    (StructTy st) s
                  = rewriteStruct isClientType isJSExportedType getTypeAllocSize fuel
                      (rewriteType isClientType isJSExportedType getTypeAllocSize fuel) st s).
  { simpl. unfold rewriteType_body. rewrite (bind_Ok get _ s s s eq_refl).
    rewrite (bind_Ok _ _ s tt s).
    - now rewrite Hmiss.
    - now rewrite bool_decide_eq_false_2. }
  assert (Hinv : forall r s',
      rewriteType isClientType isJSExportedType getTypeAllocSize (S fuel) (StructTy st) s
      = Ok r s' ->
      elementMappingKind r = BYTE_LAYOUT_TO_ARRAY ->
      exists leaf s2,
        flattens isClientType isJSExportedType getTypeAllocSize fuel st info s leaf s2 /\
        r = flattenedInfo getTypeAllocSize st leaf /\
        s' = set_typesMapping <[StructTy st := r]> s2).
  { intros r s' Hrun. rewrite Hbody in Hrun.
    exact (wp_run _ _ _ _ _
             (rewriteStruct_flattened isClientType isJSExportedType getTypeAllocSize
                fuel st info s Hinfo) Hrun). }
  split; [|split].
  - intros leaf s2 Hcl Hop Hf. rewrite Hbody. unfold rewriteStruct.
    rewrite (bind_Ok _ _ s info s) by (unfold getStruct; now rewrite Hinfo).
    rewrite Hcl, Hop. destruct Hf as [Hb Hf']. rewrite Hb.
    now rewrite (bind_Ok _ _ _ _ _
                   (byteLayoutToArray_flattens isClientType isJSExportedType getTypeAllocSize
                      fuel st info s leaf s2 (conj Hb Hf'))).
  - exact Hinv.
  - intros r s' Hnull Hrun Hk.
    destruct (Hinv r s' Hrun Hk) as (leaf & s2 & (_ & s1 & Hadd & Hleaf & _) & _).
    unfold addAllBaseTypesForByteLayout in Hadd.
    destruct (addAllBaseTypes _ _ _ _ _) as [m|] eqn:E; [|discriminate].
    injection Hadd as <-. simpl in Hleaf.
    rewrite (addAllBaseTypes_null _ _ _ _ _ _ E Hnull) in Hleaf. discriminate.
Qed.

(** A union of three doubles, of 24 bytes, viewed as [double]. *)
Definition threeDoubles : state :=
  moduleState [byteLayoutStruct [DoubleTy; DoubleTy; DoubleTy]].
Definition threeDoublesViewed : state :=
  Eval vm_compute in
    stateOf (gatherAllTypesInfo 10 [BitCast (StructTy 0) DoubleTy] threeDoubles) threeDoubles.
Definition size24 : type -> N := exampleSize (fun _ => 24).

Lemma byte_layout_flattening_witness :
  rewriteType noClient notExported size24 6 (StructTy 0) threeDoublesViewed
  = Ok (mkInfo (ArrayTy DoubleTy 3) BYTE_LAYOUT_TO_ARRAY)
       (set_typesMapping <[StructTy 0 := mkInfo (ArrayTy DoubleTy 3) BYTE_LAYOUT_TO_ARRAY]>
          threeDoublesViewed).
Proof.
  refine (proj1 (byte_layout_flattening noClient notExported size24 5 0
                   (byteLayoutStruct [DoubleTy; DoubleTy; DoubleTy]) threeDoublesViewed
                   _ _ _) DoubleTy threeDoublesViewed _ _ _).
  - vm_compute. reflexivity.
  - vm_compute. reflexivity.
  - refine (bool_decide_unpack (0%nat ∉ newStructTypes threeDoublesViewed) _).
    vm_compute. exact I.
  - reflexivity.
  - reflexivity.
  - split; [reflexivity|]. exists threeDoublesViewed.
    split; [vm_compute; reflexivity|]. split; [vm_compute; reflexivity|].
    split; [vm_compute; discriminate|]. split; [vm_compute; reflexivity|].
    do 3 (apply subStructs_other; [reflexivity|]). apply subStructs_nil.
Defined.

(** Six [i32] in 24 bytes, viewed only as [double]; and three doubles
    viewed as [double] in one place and as [i32] in another. *)
Definition sixInts : state :=
  moduleState [byteLayoutStruct [i32; i32; i32; i32; i32; i32]].
Definition sixIntsViewed : state :=
  Eval vm_compute in
    stateOf (gatherAllTypesInfo 10 [BitCast (StructTy 0) DoubleTy] sixInts) sixInts.
Definition threeDoublesTwoViews : state :=
  Eval vm_compute in
    stateOf (gatherAllTypesInfo 10 [BitCast (StructTy 0) DoubleTy; BitCast (StructTy 0) i32]
               threeDoubles) threeDoubles.

(** The claim C4 fails as stated: the views of the struct of six [i32]
    all agree on [double], whose size divides the 24 bytes of the struct,
    and the struct has no struct-typed field; yet it is not flattened,
    because its own fields are leaves of another type. *)
Lemma byte_layout_views_counterexample :
  baseTypesForByteLayout sixIntsViewed !! 0%nat = Some (Some DoubleTy) /\
  size24 (StructTy 0) mod size24 DoubleTy = 0 /\
  resultOf (rewriteType noClient notExported size24 10 (StructTy 0) sixIntsViewed)
  = Some (mkInfo (StructTy 1) IDENTICAL).
Proof. repeat split; vm_compute; reflexivity. Qed.

(** The two examples of the specification. *)
Example byte_layout_examples :
  resultOf (rewriteType noClient notExported size24 10 (StructTy 0) threeDoublesViewed)
  = Some (mkInfo (ArrayTy DoubleTy 3) BYTE_LAYOUT_TO_ARRAY) /\
  baseTypesForByteLayout threeDoublesTwoViews !! 0%nat = Some None /\
  resultOf (rewriteType noClient notExported size24 10 (StructTy 0) threeDoublesTwoViews)
  = Some (mkInfo (StructTy 1) IDENTICAL).
Proof. repeat split; vm_compute; reflexivity. Qed.

(** * Termination *)

(** A computation indexed by its fuel is total from [s] when, from some
    amount of fuel on, it gives one and the same result, which is not the
    exhaustion of the fuel; [Q] holds of the result if it is [Ok]. *)
Definition total {A} (m : nat -> M A) (Q : A -> state -> Prop) (s : state) : Prop :=
  exists F r, (forall fuel, (F <= fuel)%nat -> m fuel s = r) /\
    match r with Ok a s' => Q a s' | Abort => True | OutOfFuel => False end.

Lemma total_bind {A B} (m : nat -> M A) (f : nat -> A -> M B) (Q1 : A -> state -> Prop)
    (Q : B -> state -> Prop) s :
  total m Q1 s -> (forall a s', Q1 a s' -> total (fun fuel => f fuel a) Q s') ->
  total (fun fuel => m fuel ≫= f fuel) Q s.
Proof.
  intros (F & r & Hr & HQ) Hf. destruct r as [a s'| |]; [|exists F, Abort|contradiction].
  - destruct (Hf a s' HQ) as (F2 & r2 & Hr2 & HQ2). exists (Nat.max F F2), r2.
    split; [|exact HQ2]. intros fuel Hfuel. unfold mbind, M_bind.
    rewrite Hr by lia. apply Hr2. lia.
  - split; [|exact I]. intros fuel Hfuel. unfold mbind, M_bind. now rewrite Hr.
Qed.

Lemma total_pure {A B} (m0 : M A) (f : nat -> A -> M B) (Q : B -> state -> Prop) s :
  match m0 s with
  | Ok a s' => total (fun fuel => f fuel a) Q s'
  | Abort => True
  | OutOfFuel => False
  end ->
  total (fun fuel => m0 ≫= f fuel) Q s.
Proof.
  intros H. apply (total_bind (fun _ => m0) f (fun a s' => m0 s = Ok a s')).
  - exists 0%nat, (m0 s). split; [reflexivity|]. now destruct (m0 s).
  - intros a s' E. now rewrite E in H.
Qed.

Lemma total_ret {A} (a : A) (Q : A -> state -> Prop) s : Q a s -> total (fun _ => mret a) Q s.
Proof. intros H. now exists 0%nat, (Ok a s). Qed.

Lemma total_const {A} (m0 : M A) (Q : A -> state -> Prop) s :
  match m0 s with Ok a s' => Q a s' | Abort => True | OutOfFuel => False end ->
  total (fun _ => m0) Q s.
Proof. intros H. now exists 0%nat, (m0 s). Qed.

Lemma total_abort {A} (Q : A -> state -> Prop) s : total (fun _ => abort) Q s.
Proof. now exists 0%nat, Abort. Qed.

Lemma total_mono {A} (m : nat -> M A) (Q Q' : A -> state -> Prop) s :
  total m Q s -> (forall a s', Q a s' -> Q' a s') -> total m Q' s.
Proof.
  intros (F & r & Hr & HQ) H. exists F, r. split; [exact Hr|].
  destruct r; auto.
Qed.

(** What partial correctness tells of every run holds of the final one. *)
Lemma total_wp {A} (m : nat -> M A) (Q Q' : A -> state -> Prop) s :
  total m Q s -> (forall fuel, wp (m fuel) Q' s) ->
  total m (fun a s' => Q a s' /\ Q' a s') s.
Proof.
  intros (F & r & Hr & HQ) H. exists F, r. split; [exact Hr|].
  destruct r as [a s'| |]; auto. split; [exact HQ|].
  exact (wp_run _ _ _ _ _ (H F) (Hr F (Nat.le_refl F))).
Qed.

Lemma total_ext {A} (m m' : nat -> M A) (Q : A -> state -> Prop) s :
  (forall fuel, m fuel s = m' fuel s) -> total m Q s -> total m' Q s.
Proof.
  intros E (F & r & Hr & HQ). exists F, r. split; [|exact HQ].
  intros fuel Hf. rewrite <- E. now apply Hr.
Qed.

(** One more unit of fuel for the outermost call. *)
Lemma total_shift {A} (m : nat -> M A) (m' : nat -> M A) (Q : A -> state -> Prop) s :
  (forall fuel, m' (S fuel) s = m fuel s) -> total m Q s -> total m' Q s.
Proof.
  intros E (F & r & Hr & HQ). exists (S F), r. split; [|exact HQ].
  intros [|fuel] Hf; [lia|]. rewrite E. apply Hr. lia.
Qed.

Lemma total_assert {B} b (f : nat -> unit -> M B) (Q : B -> state -> Prop) s :
  (b = true -> total (fun fuel => f fuel tt) Q s) ->
  total (fun fuel => assert b ≫= f fuel) Q s.
Proof. intros H. apply total_pure. destruct b; simpl; auto. Qed.

Lemma total_liftOption {A B} (o : option A) (f : nat -> A -> M B) (Q : B -> state -> Prop) s :
  (forall a, o = Some a -> total (fun fuel => f fuel a) Q s) ->
  total (fun fuel => liftOption o ≫= f fuel) Q s.
Proof. intros H. apply total_pure. destruct o; simpl; auto. Qed.

Lemma total_getStruct {B} st (f : nat -> StructInfo -> M B) (Q : B -> state -> Prop) s :
  (forall info, structs s !! st = Some info -> total (fun fuel => f fuel info) Q s) ->
  total (fun fuel => getStruct st ≫= f fuel) Q s.
Proof. intros H. apply total_pure. unfold getStruct. destruct (structs s !! st); auto. Qed.

Lemma total_bind_ret {A B} (a : A) (f : nat -> A -> M B) (Q : B -> state -> Prop) s :
  total (fun fuel => f fuel a) Q s -> total (fun fuel => mret a ≫= f fuel) Q s.
Proof. intros H. apply total_pure. exact H. Qed.

Lemma total_bind_state {A B} (m0 : M A) a s' (f : nat -> A -> M B)
    (Q : B -> state -> Prop) s :
  m0 s = Ok a s' -> total (fun fuel => f fuel a) Q s' ->
  total (fun fuel => m0 ≫= f fuel) Q s.
Proof. intros E H. apply total_pure. now rewrite E. Qed.

Lemma total_CacheAndReturn t ret k (Q : TypeMappingInfo -> state -> Prop) s :
  Q (mkInfo ret k) (set_typesMapping <[t := mkInfo ret k]> s) ->
  total (fun _ => CacheAndReturn t ret k) Q s.
Proof. intros H. apply total_const. exact H. Qed.

Ltac tpure :=
  lazymatch goal with
  | |- total (fun fuel => mbind (@?f fuel) get) _ ?s =>
      apply (total_bind_state get s s f); [reflexivity|]; cbv beta
  | |- total (fun fuel => mbind (@?f fuel) (assert ?b)) _ ?s =>
      apply (total_assert b f); intros ?; cbv beta
  | |- total (fun fuel => mbind (@?f fuel) (getStruct ?st)) _ ?s =>
      apply (total_getStruct st f); intros ? ?; cbv beta
  | |- total (fun fuel => mbind (@?f fuel) (liftOption ?o)) _ ?s =>
      apply (total_liftOption o f); intros ? ?; cbv beta
  | |- total (fun fuel => mbind (@?f fuel) (setMapping ?t ?i)) _ ?s =>
      apply (total_bind_state (setMapping t i) tt (set_typesMapping <[t := i]> s) f);
      [reflexivity|]; cbv beta
  | |- total (fun fuel => mbind (@?f fuel) (modify ?g)) _ ?s =>
      apply (total_bind_state (modify g) tt (g s) f); [reflexivity|]; cbv beta
  | |- total (fun fuel => mbind (@?f fuel) (lookupMapping ?t)) _ ?s =>
      apply (total_bind_state (lookupMapping t) (typesMapping s !! t) s f);
      [reflexivity|]; cbv beta
  | |- total (fun fuel => mbind (@?f fuel) newStruct) _ ?s =>
      apply (total_bind_state newStruct (nextStruct s) (snd (createStruct s)) f);
      [reflexivity|]; cbv beta
  | |- total (fun fuel => mbind (@?f fuel) (mret ?a)) _ ?s =>
      apply (total_bind_ret a f); cbv beta
  | |- total (fun _ => mret ?a) _ _ => apply total_ret
  | |- total (fun _ => abort) _ _ => apply total_abort
  | |- total (fun _ => CacheAndReturn ?t ?ret ?k) _ ?s => apply total_CacheAndReturn
  end.

(** ** The walks over the struct table *)

(** The fuel that [addAllBaseTypes] needs on a type, given a rank of the
    structs that bounds the need of their fields. *)
Fixpoint need (rank : nat -> nat) (t : type) : nat :=
  match t with
  | ArrayTy e _ => S (need rank e)
  | StructTy st => S (rank st)
  | _ => 1
  end.

(** Every struct that [t] holds by value is a struct of the module. *)
Fixpoint closedByValue (sts0 : gmap nat StructInfo) (t : type) : Prop :=
  match t with
  | ArrayTy e _ => closedByValue sts0 e
  | StructTy st => is_Some (sts0 !! st)
  | _ => True
  end.

(** The struct table is well founded: no struct holds itself by value,
    and no struct is its own base, however indirectly. *)
Record ranked (sts0 : gmap nat StructInfo) (rank brank : nat -> nat) : Prop := mkRanked {
  rk_fields : forall st info f, sts0 !! st = Some info -> f ∈ elements info ->
    closedByValue sts0 f /\ (need rank f <= rank st)%nat;
  rk_base : forall st info b, sts0 !! st = Some info -> directBase info = Some b ->
    is_Some (sts0 !! b) /\ (brank b < brank st)%nat
}.

Lemma total_from {A} (F : nat) (m m' : nat -> M A) (Q : A -> state -> Prop) s :
  (forall fuel, (F <= fuel)%nat -> m fuel s = m' fuel s) -> total m' Q s -> total m Q s.
Proof.
  intros E (F' & r & Hr & HQ). exists (Nat.max F F'), r. split; [|exact HQ].
  intros fuel Hf. rewrite E by lia. apply Hr. lia.
Qed.

Section Walks.

Variable sts0 : gmap nat StructInfo.
Variables rank brank : nat -> nat.
Hypothesis Hranked : ranked sts0 rank brank.
Variable sts : gmap nat StructInfo.
Hypothesis Hold : forall id info, sts0 !! id = Some info -> sts !! id = Some info.

Lemma fold_addAllBaseTypes st f1 f2 l :
  (forall x m, x ∈ l ->
     addAllBaseTypes f1 sts st x m = addAllBaseTypes f2 sts st x m /\
     is_Some (addAllBaseTypes f1 sts st x m)) ->
  forall acc,
    fold_left (fun acc ty => acc ≫= addAllBaseTypes f1 sts st ty) l acc
    = fold_left (fun acc ty => acc ≫= addAllBaseTypes f2 sts st ty) l acc /\
    (is_Some acc ->
     is_Some (fold_left (fun acc ty => acc ≫= addAllBaseTypes f1 sts st ty) l acc)).
Proof.
  induction l as [|x l IH]; intros Hx acc; simpl; [auto|].
  assert (Hl : forall x0 m, x0 ∈ l ->
             addAllBaseTypes f1 sts st x0 m = addAllBaseTypes f2 sts st x0 m /\
             is_Some (addAllBaseTypes f1 sts st x0 m)).
  { intros x0 m H0. apply Hx. now right. }
  destruct acc as [m|]; simpl.
  - destruct (Hx x m) as [E Hs]; [left|]. rewrite <- E.
    destruct (IH Hl (addAllBaseTypes f1 sts st x m)) as [E' Hs']. auto.
  - destruct (IH Hl None) as [E' _]. split; [exact E'|]. intros [? ?]. discriminate.
Qed.

Lemma addAllBaseTypes_enough st : forall f1 f2 ty m,
  closedByValue sts0 ty -> (need rank ty <= f1)%nat -> (need rank ty <= f2)%nat ->
  addAllBaseTypes f1 sts st ty m = addAllBaseTypes f2 sts st ty m /\
  is_Some (addAllBaseTypes f1 sts st ty m).
Proof.
  induction f1 as [|f1 IH]; intros f2 ty m Hc H1 H2.
  - destruct ty; simpl in H1; lia.
  - destruct f2 as [|f2]; [destruct ty; simpl in H2; lia|].
    destruct ty; simpl; try (split; [reflexivity|eauto]).
    + apply IH; simpl in *; [exact Hc|lia|lia].
    + simpl in Hc, H1, H2. destruct Hc as [info Hinfo]. rewrite (Hold _ _ Hinfo).
      destruct (fold_addAllBaseTypes st f1 f2 (elements info)) with (acc := Some m)
        as [E Hs]; [|split; [exact E|apply Hs; eauto]].
      intros x m' Hx. destruct (rk_fields _ _ _ Hranked _ _ _ Hinfo Hx) as [Hcx Hnx].
      apply IH; [exact Hcx|lia|lia].
Qed.

Lemma findDirectBase_enough i : forall f1 f2 curBase,
  is_Some (sts0 !! curBase) -> (brank curBase < f1)%nat -> (brank curBase < f2)%nat ->
  findDirectBase f1 sts curBase i = findDirectBase f2 sts curBase i /\
  is_Some (findDirectBase f1 sts curBase i).
Proof.
  induction f1 as [|f1 IH]; intros f2 curBase [info Hinfo] H1 H2; [lia|].
  destruct f2 as [|f2]; [lia|]. simpl. rewrite (Hold _ _ Hinfo). simpl.
  destruct (directBase info) as [b|] eqn:Hb; [|split; [reflexivity|eauto]].
  destruct (rk_base _ _ _ Hranked _ _ _ Hinfo Hb) as [[binfo Hbinfo] Hlt].
  rewrite (Hold _ _ Hbinfo). destruct (Nat.ltb _ _); [|split; [reflexivity|eauto]].
  apply IH; [eauto|lia|lia].
Qed.

Lemma resetAtBase_enough st i ms :
  is_Some (sts0 !! st) ->
  exists ms1, forall fuel, (S (brank st) <= fuel)%nat ->
    resetAtBase fuel sts st i ms = Some ms1.
Proof.
  intros Hst. unfold resetAtBase. destruct (Nat.eqb i (directBaseLimit ms)); [|eauto].
  destruct (findDirectBase_enough i (S (brank st)) (S (brank st)) st Hst) as [_ [b Hb]];
    [lia|lia|].
  eexists. intros fuel Hf.
  destruct (findDirectBase_enough i fuel (S (brank st)) st Hst) as [E _]; [lia|lia|].
  rewrite E, Hb. reflexivity.
Qed.

End Walks.

(** ** The invariant and the order of the termination argument *)

(** [sts0] is the struct table of the module.  A tentative entry that
    names a struct names the only field of an old struct; the old structs
    are untouched; any other struct is a new one. *)
Record termInv (sts0 : gmap nat StructInfo) (s : state) : Prop := mkTermInv {
  ti_tentative : forall k i, typesMapping s !! k = Some i ->
    elementMappingKind i = COLLAPSING -> isStructTy (mappedType i) = true ->
    exists st info, k = StructTy st /\ sts0 !! st = Some info /\
                    elements info = [mappedType i];
  ti_old : forall id info, sts0 !! id = Some info ->
    structs s !! id = Some info /\ (id < nextStruct s)%nat;
  ti_split : forall id, is_Some (structs s !! id) ->
    is_Some (sts0 !! id) \/ id ∈ newStructTypes s
}.

(** The memo table only gains keys, and the new structs stay new. *)
Definition grows (s s' : state) : Prop :=
  (forall k, is_Some (typesMapping s !! k) -> is_Some (typesMapping s' !! k)) /\
  (forall id, id ∈ newStructTypes s -> id ∈ newStructTypes s').

#[global] Instance grows_preorder : PreOrder grows.
Proof.
  split.
  - intros s. split; auto.
  - intros s1 s2 s3 [H1 N1] [H2 N2]. split; auto.
Qed.

Lemma grows_setMapping s t i : grows s (set_typesMapping <[t := i]> s).
Proof.
  split; [|auto]. intros k H. simpl. destruct (decide (t = k)) as [->|Hne].
  - rewrite lookup_insert_eq. eauto.
  - now rewrite lookup_insert_ne.
Qed.

Lemma grows_createStruct s : grows s (snd (createStruct s)).
Proof. split; [auto|]. intros id H. simpl. apply elem_of_union. now right. Qed.

Lemma grows_set_structs s f : grows s (set_structs f s).
Proof. split; auto. Qed.

Lemma grows_set_baseTypes s f : grows s (set_baseTypes f s).
Proof. split; auto. Qed.

Lemma grows_set_members s f : grows s (set_membersMappingData f s).
Proof. split; auto. Qed.

Lemma termInv_setMapping sts0 s t i :
  termInv sts0 s ->
  (elementMappingKind i = COLLAPSING -> isStructTy (mappedType i) = true ->
   exists st info, t = StructTy st /\ sts0 !! st = Some info /\
                   elements info = [mappedType i]) ->
  termInv sts0 (set_typesMapping <[t := i]> s).
Proof.
  intros [T Ho Hsp] Hi. constructor; simpl; auto.
  intros k j Hj. destruct (decide (t = k)) as [->|Hne].
  - rewrite lookup_insert_eq in Hj. injection Hj as <-. exact Hi.
  - rewrite lookup_insert_ne in Hj by exact Hne. now apply T.
Qed.

Lemma termInv_setMapping_final sts0 s t i :
  termInv sts0 s -> elementMappingKind i <> COLLAPSING ->
  termInv sts0 (set_typesMapping <[t := i]> s).
Proof. intros H Hk. apply termInv_setMapping; [exact H|]. intros Hc. contradiction. Qed.

Lemma termInv_createStruct sts0 s : termInv sts0 s -> termInv sts0 (snd (createStruct s)).
Proof.
  intros [T Ho Hsp]. constructor; simpl; auto.
  - intros id info Hid. destruct (Ho id info Hid) as [Hs Hlt]. split; [|lia].
    rewrite lookup_insert_ne by lia. exact Hs.
  - intros id. destruct (decide (nextStruct s = id)) as [<-|Hne].
    + intros _. right. apply elem_of_union. left. now apply elem_of_singleton.
    + rewrite lookup_insert_ne by exact Hne. intros H.
      destruct (Hsp id H) as [H'|H']; [now left|right; apply elem_of_union; now right].
Qed.

Lemma termInv_setBody sts0 s id info :
  termInv sts0 s -> sts0 !! id = None -> id ∈ newStructTypes s ->
  termInv sts0 (set_structs <[id := info]> s).
Proof.
  intros [T Ho Hsp] Hid Hnew. constructor; simpl; auto.
  - intros id' info' H'. destruct (Ho id' info' H') as [Hs Hlt]. split; [|exact Hlt].
    rewrite lookup_insert_ne; [exact Hs|]. intros ->. congruence.
  - intros id'. destruct (decide (id = id')) as [<-|Hne].
    + intros _. now right.
    + rewrite lookup_insert_ne by exact Hne. apply Hsp.
Qed.

Lemma termInv_set_baseTypes sts0 s f : termInv sts0 s -> termInv sts0 (set_baseTypes f s).
Proof. intros [T Ho Hsp]. constructor; auto. Qed.

Lemma termInv_set_members sts0 s f :
  termInv sts0 s -> termInv sts0 (set_membersMappingData f s).
Proof. intros [T Ho Hsp]. constructor; auto. Qed.

(** ** The loops, for recursive calls that are known to be total *)

Section TotalBody.

Variable isClientType : type -> bool.
Variable isJSExportedType : nat -> bool.
Variable getTypeAllocSize : type -> N.
Variable sts0 : gmap nat StructInfo.
Variables rank brank : nat -> nat.
Hypothesis Hranked : ranked sts0 rank brank.

(** [rec fuel] stands for the recursive calls with [fuel]; [callable t s]
    says that the call on [t] from [s] is below the call under study. *)
Variable rec : nat -> type -> M TypeMappingInfo.
Variable callable : type -> state -> Prop.

Definition after (s : state) {A} : A -> state -> Prop :=
  fun _ s' => termInv sts0 s' /\ grows s s'.

Hypothesis rec_total : forall t s,
  termInv sts0 s -> callable t s -> total (fun fuel => rec fuel t) (after s) s.
Hypothesis callable_grows : forall t s s', callable t s -> grows s s' -> callable t s'.

Definition free (s : state) : Prop := forall t, callable t s.

Lemma free_grows s s' : free s -> grows s s' -> free s'.
Proof. intros H G t. eapply callable_grows; eauto. Qed.

Lemma total_after {A} (m : nat -> M A) s s1 :
  grows s s1 -> total m (after s1) s1 -> total m (after s) s1.
Proof.
  intros G H. eapply total_mono; [exact H|]. intros a s' [I G']. split; [exact I|].
  now transitivity s1.
Qed.

Ltac trec :=
  lazymatch goal with
  | |- total (fun fuel => mbind (@?f fuel) (rec fuel ?t)) _ ?s =>
      apply (total_bind (fun fuel => rec fuel t) f (after s));
      [apply rec_total; [assumption|auto]|]
  end.

Lemma total_mapM' l s :
  termInv sts0 s -> (forall x, x ∈ l -> callable x s) ->
  total (fun fuel => mapM' (fun elTy => r ← rec fuel elTy; mret (mappedType r)) l)
        (after s) s.
Proof.
  revert s. induction l as [|x l IH]; intros s Hinv Hc; simpl.
  - tpure. split; [exact Hinv|reflexivity].
  - apply (total_bind (fun fuel => r ← rec fuel x; mret (mappedType r))
             (fun fuel y => ys ← mapM' (fun elTy => r ← rec fuel elTy; mret (mappedType r)) l;
                           mret (y :: ys)) (after s)).
    + trec; [apply Hc; left|]. intros r s1 [I1 G1]. tpure. now split.
    + intros y s1 [I1 G1].
      apply (total_bind
               (fun fuel => mapM' (fun elTy => r ← rec fuel elTy; mret (mappedType r)) l)
               (fun _ ys => mret (y :: ys)) (after s1)).
      * apply IH; [exact I1|]. intros x' Hx'. eapply callable_grows; [|exact G1].
        apply Hc. now right.
      * intros ys s2 [I2 G2]. tpure. split; [exact I2|]. now transitivity s1.
Qed.

Lemma total_allDestinationsCollapse dests s :
  termInv sts0 s -> free s ->
  total (fun fuel => allDestinationsCollapse (rec fuel) dests) (after s) s.
Proof.
  revert s. induction dests as [|d dests IH]; intros s Hinv Hf; simpl.
  - tpure. split; [exact Hinv|reflexivity].
  - trec. intros r s1 [I1 G1]. destruct (decide _).
    + apply total_after; [exact G1|]. apply IH; [exact I1|]. eapply free_grows; eauto.
    + tpure. now split.
Qed.

Lemma total_isUnsafeDowncastSource st s :
  termInv sts0 s -> free s ->
  total (fun fuel => isUnsafeDowncastSource (rec fuel) st) (after s) s.
Proof.
  intros Hinv Hf. unfold isUnsafeDowncastSource. tpure.
  destruct (downcastSourceToDestinationsMapping s !! st) as [[|d dests]|].
  - tpure. split; [exact Hinv|reflexivity].
  - now apply total_allDestinationsCollapse.
  - tpure. split; [exact Hinv|reflexivity].
Qed.

Lemma total_areSubStructsConvertible elts s :
  termInv sts0 s -> (forall sub, StructTy sub ∈ elts -> callable (StructTy sub) s) ->
  total (fun fuel => areSubStructsConvertible (rec fuel) elts) (after s) s.
Proof.
  revert s. induction elts as [|t elts IH]; intros s Hinv Hc.
  - simpl. tpure. split; [exact Hinv|reflexivity].
  - assert (Hrest : total (fun fuel => areSubStructsConvertible (rec fuel) elts) (after s) s).
    { apply IH; [exact Hinv|]. intros sub Hsub. apply Hc. now right. }
    destruct t as [| | | | | | |subSt]; try exact Hrest.
    simpl. tpure. destruct (hasByteLayout info); simpl.
    + trec; [apply Hc; left|]. intros r s1 [I1 G1]. destruct (decide _).
      * apply total_after; [exact G1|]. apply IH; [exact I1|].
        intros sub Hsub. eapply callable_grows; [|exact G1]. apply Hc. now right.
      * tpure. now split.
    + tpure. split; [exact Hinv|reflexivity].
Qed.

Lemma total_addAllBaseTypesForByteLayout st0 st s :
  termInv sts0 s -> is_Some (sts0 !! st) ->
  total (fun fuel => addAllBaseTypesForByteLayout fuel st0 (StructTy st))
        (fun _ s1 => exists m, s1 = set_baseTypes (fun _ => m) s) s.
Proof.
  intros Hinv Hst.
  assert (Hold : forall id info, sts0 !! id = Some info -> structs s !! id = Some info).
  { intros id info H. now apply (ti_old _ _ Hinv). }
  destruct (addAllBaseTypes_enough sts0 rank brank Hranked (structs s) Hold st0
              (S (rank st)) (S (rank st)) (StructTy st) (baseTypesForByteLayout s))
    as [_ [m Hm]]; [exact Hst|simpl; lia|simpl; lia|].
  exists (S (rank st)), (Ok tt (set_baseTypes (fun _ => m) s)). split; [|eauto].
  intros fuel Hf. unfold addAllBaseTypesForByteLayout.
  destruct (addAllBaseTypes_enough sts0 rank brank Hranked (structs s) Hold st0
              fuel (S (rank st)) (StructTy st) (baseTypesForByteLayout s))
    as [E _]; [exact Hst|simpl; lia|simpl; lia|].
  now rewrite E, Hm.
Qed.

Lemma total_mergeFields st bl elts : forall i ms s,
  termInv sts0 s -> free s -> is_Some (sts0 !! st) ->
  total (fun fuel => mergeFields fuel (rec fuel) st bl elts i ms) (after s) s.
Proof.
  induction elts as [|e elts IH]; intros i ms s Hinv Hf Hst; simpl.
  - tpure. split; [exact Hinv|reflexivity].
  - tpure.
    assert (Hold : forall id info, sts0 !! id = Some info -> structs s !! id = Some info).
    { intros id info H. now apply (ti_old _ _ Hinv). }
    destruct (resetAtBase_enough sts0 rank brank Hranked (structs s) Hold st i ms Hst)
      as [ms1 Hms1].
    apply (total_from (S (brank st)) _
             (fun fuel =>
                rewrittenType ← rec fuel e;
                s' ← get;
                match mergeField bl (escapingFields s') i (mappedType rewrittenType) ms1 with
                | None => abort
                | Some ms2 => mergeFields fuel (rec fuel) st bl elts (S i) ms2
                end)).
    { intros fuel Hfuel. now rewrite (Hms1 fuel Hfuel). }
    trec. intros r s1 [I1 G1]. tpure.
    destruct (mergeField _ _ _ _ _) as [ms2|]; [|tpure].
    apply total_after; [exact G1|]. apply IH; [exact I1| |exact Hst].
    eapply free_grows; eauto.
Qed.

Lemma total_byteLayoutToArray st info s :
  termInv sts0 s -> sts0 !! st = Some info ->
  (forall sub, StructTy sub ∈ elements info -> callable (StructTy sub) s) ->
  total (fun fuel => byteLayoutToArray getTypeAllocSize fuel (rec fuel) st info)
        (after s) s.
Proof.
  intros Hinv Hst Hc. unfold byteLayoutToArray.
  apply (total_bind (fun fuel => addAllBaseTypesForByteLayout fuel st (StructTy st)) _
           (fun _ s1 => exists m, s1 = set_baseTypes (fun _ => m) s)).
  { apply total_addAllBaseTypesForByteLayout; eauto. }
  intros [] s1 [m ->].
  assert (I1 : termInv sts0 (set_baseTypes (fun _ => m) s)) by now apply termInv_set_baseTypes.
  assert (G1 : grows s (set_baseTypes (fun _ => m) s)) by apply grows_set_baseTypes.
  apply total_after; [exact G1|]. set (s1 := set_baseTypes (fun _ => m) s) in *.
  tpure. destruct (baseTypesForByteLayout s1 !! st) as [[baseType|]|]; [| |tpure].
  - destruct (N.eqb _ 0); [tpure|]. destruct (negb _).
    + tpure. split; [exact I1|reflexivity].
    + apply (total_bind (fun fuel => areSubStructsConvertible (rec fuel) (elements info)) _
               (after s1)).
      { apply total_areSubStructsConvertible; [exact I1|].
        intros sub Hsub. eapply callable_grows; [|exact G1]. now apply Hc. }
      intros convertible s2 [I2 G2]. apply total_after; [exact G2|].
      destruct (negb convertible).
      * tpure. split; [exact I2|reflexivity].
      * destruct (N.eqb _ 1).
        -- apply (total_bind (fun _ => CacheAndReturn _ _ _) _ (after s2)).
           ++ tpure. split; [|apply grows_setMapping].
              now apply termInv_setMapping_final.
           ++ intros r s3 H3. tpure. exact H3.
        -- apply (total_bind (fun _ => CacheAndReturn _ _ _) _ (after s2)).
           ++ tpure. split; [|apply grows_setMapping].
              now apply termInv_setMapping_final.
           ++ intros r s3 H3. tpure. exact H3.
  - tpure. split; [exact I1|reflexivity].
Qed.

Lemma total_collapseSingleField st newSt info field kind s :
  termInv sts0 s -> free s ->
  (isStructTy field = true ->
   exists info0, sts0 !! st = Some info0 /\ elements info0 = [field]) ->
  total (fun fuel => collapseSingleField isClientType isJSExportedType (rec fuel)
                       st newSt info field kind)
        (after s) s.
Proof.
  intros Hinv Hf Hfield.
  assert (Hm : forall s1, termInv sts0 s1 -> free s1 ->
             total (fun fuel => rewrittenType ← rec fuel field;
                      mret (inr [mappedType rewrittenType] : TypeMappingInfo + list type))
                   (after s1) s1).
  { intros s1 I1 F1. trec. intros r s2 H2. tpure. exact H2. }
  unfold collapseSingleField. destruct (mayCollapse _ _ _ _ _); [|now apply Hm].
  apply (total_bind (fun fuel => isUnsafeDowncastSource (rec fuel) st) _ (after s)).
  { now apply total_isUnsafeDowncastSource. }
  intros unsafe s1 [I1 G1]. apply total_after; [exact G1|].
  assert (F1 : free s1) by (eapply free_grows; eauto).
  destruct unsafe; simpl; [now apply Hm|].
  tpure.
  set (s2 := set_typesMapping <[StructTy st := mkInfo field COLLAPSING]> s1).
  assert (I2 : termInv sts0 s2).
  { apply termInv_setMapping; [exact I1|]. simpl. intros _ Hs.
    destruct (Hfield Hs) as (info0 & H0 & H0'). eauto. }
  assert (G2 : grows s1 s2) by apply grows_setMapping.
  assert (F2 : free s2) by (eapply free_grows; eauto).
  apply total_after; [exact G2|].
  trec. intros collapsed s3 [I3 G3]. apply total_after; [exact G3|].
  assert (F3 : free s3) by (eapply free_grows; eauto).
  tpure. destruct (typesMapping s3 !! StructTy st) as [curInfo|]; [|tpure].
  destruct (decide _).
  - tpure. apply total_after; [apply grows_setMapping|]. apply Hm.
    + now apply termInv_setMapping_final.
    + eapply free_grows; [exact F3|apply grows_setMapping].
  - tpure.
    apply (total_bind (fun _ => CacheAndReturn _ _ _) _ (after s3)).
    + tpure. split; [|apply grows_setMapping].
      apply termInv_setMapping_final; [exact I3|]. simpl. now destruct (decide _).
    + intros r s4 H4. tpure. exact H4.
Qed.

(** The struct case after a miss: the calls before the struct gets its
    entry are on the struct-typed fields; any call is fine afterwards. *)
Lemma total_rewriteStruct st s :
  termInv sts0 s -> st ∉ newStructTypes s ->
  (forall info sub, sts0 !! st = Some info -> StructTy sub ∈ elements info ->
     callable (StructTy sub) s) ->
  (forall s1, is_Some (sts0 !! st) -> grows s s1 ->
     is_Some (typesMapping s1 !! StructTy st) -> free s1) ->
  total (fun fuel => rewriteStruct isClientType isJSExportedType getTypeAllocSize fuel
                       (rec fuel) st)
        (after s) s.
Proof.
  intros Hinv Hnew Hsub Hfree. unfold rewriteStruct. tpure.
  assert (Hst : sts0 !! st = Some info).
  { destruct (ti_split _ _ Hinv st) as [[info0 H0]|Hn]; [eauto| |contradiction].
    destruct (ti_old _ _ Hinv st info0 H0) as [H1 _]. congruence. }
  assert (Hfinal : forall ret kind, kind <> COLLAPSING ->
            total (fun _ => CacheAndReturn (StructTy st) ret kind) (after s) s).
  { intros ret kind Hk. tpure. split; [|apply grows_setMapping].
    now apply termInv_setMapping_final. }
  destruct (isClientType (StructTy st)); [now apply Hfinal|].
  destruct (isOpaque info); [now apply Hfinal|].
  apply (total_bind
           (fun fuel => if hasByteLayout info
                        then byteLayoutToArray getTypeAllocSize fuel (rec fuel) st info
                        else mret None) _ (after s)).
  { destruct (hasByteLayout info).
    - apply total_byteLayoutToArray; [exact Hinv|exact Hst|]. intros sub. now apply Hsub.
    - tpure. split; [exact Hinv|reflexivity]. }
  intros flattened s1 [I1 G1]. apply total_after; [exact G1|].
  destruct flattened as [r|]; [tpure; split; [exact I1|reflexivity]|].
  tpure. tpure.
  set (newSt := nextStruct s1).
  set (s2 := set_typesMapping <[StructTy st := mkInfo (StructTy newSt) IDENTICAL]>
               (snd (createStruct s1))).
  assert (I2 : termInv sts0 s2).
  { apply termInv_setMapping_final; [|discriminate]. now apply termInv_createStruct. }
  assert (G2 : grows s1 s2).
  { transitivity (snd (createStruct s1)); [apply grows_createStruct|apply grows_setMapping]. }
  assert (Hentry : forall s3, grows s2 s3 -> free s3).
  { intros s3 G3. apply Hfree.
    - eauto.
    - transitivity s1; [exact G1|]. now transitivity s2.
    - apply G3. unfold s2. simpl. rewrite lookup_insert_eq. eauto. }
  assert (HnewSt : sts0 !! newSt = None /\ forall s3, grows s2 s3 -> newSt ∈ newStructTypes s3).
  { split.
    - destruct (sts0 !! newSt) as [i0|] eqn:E; [|reflexivity].
      destruct (ti_old _ _ I1 newSt i0 E) as [_ Hlt]. unfold newSt in Hlt. lia.
    - intros s3 [_ G3]. apply G3. unfold s2. simpl. apply elem_of_union. left.
      now apply elem_of_singleton. }
  destruct HnewSt as [HnewSt0 HnewSt].
  apply total_after; [exact G2|].
  apply (total_bind
           (fun fuel =>
              if hasAsmJS info then
                tys ← mapM' (fun elTy => r ← rec fuel elTy; mret (mappedType r)) (elements info);
                mret (tys, IDENTICAL)
              else if Nat.ltb 1 (length (elements info)) then
                ms ← mergeFields fuel (rec fuel) st (hasByteLayout info) (elements info) 0
                       initMerge;
                _ ← assert (bool_decide (length (membersMapping ms) = length (elements info))
                            || hasByteLayout info);
                if hasMergedArrays ms then
                  _ ← assert (negb (bool_decide (newTypes ms = [])));
                  _ ← modify (set_membersMappingData (fun m =>
                         match m !! st with
                         | Some _ => m
                         | None => <[st := membersMapping ms]> m
                         end));
                  mret (newTypes ms, MERGED_MEMBER_ARRAYS)
                else mret (newTypes ms, IDENTICAL)
              else mret (elements info, IDENTICAL)) _
           (fun p s3 => (termInv sts0 s3 /\ grows s2 s3) /\
              (snd p <> COLLAPSING /\
               forall field, fst p = [field] -> hasAsmJS info = false ->
                 isStructTy field = true -> elements info = [field]))).
  { destruct (hasAsmJS info) eqn:Hasm.
    - apply (total_bind
               (fun fuel => mapM' (fun elTy => r ← rec fuel elTy; mret (mappedType r))
                              (elements info)) _ (after s2)).
      + apply total_mapM'; [exact I2|]. intros x _. apply Hentry. reflexivity.
      + intros tys s3 H3. tpure. split; [exact H3|]. split; [discriminate|].
        intros field _ Hx. discriminate.
    - destruct (Nat.ltb 1 (length (elements info))) eqn:Hlen.
      + apply (total_bind
                 (fun fuel => mergeFields fuel (rec fuel) st (hasByteLayout info)
                                (elements info) 0 initMerge) _
                 (fun ms s3 => (termInv sts0 s3 /\ grows s2 s3) /\
                               mergeOK (0 + length (elements info)) ms)).
        * apply total_wp.
          -- apply total_mergeFields; [exact I2| |eauto]. apply Hentry. reflexivity.
          -- intros fuel. apply wp_mergeFields_OK. split; [reflexivity|discriminate].
        * intros ms s3 [[I3 G3] [Hno Hyes]]. tpure.
          assert (Hsingle : forall field, newTypes ms = [field] ->
                              isStructTy field = true -> elements info = [field]).
          { intros field Hn Hs. exfalso. destruct (hasMergedArrays ms) eqn:Hm.
            - destruct (Hyes eq_refl) as [_ Hf]. destruct (Hf field Hn) as [Ha|Hi];
                destruct field; discriminate.
            - specialize (Hno eq_refl). rewrite Hn in Hno. simpl in Hno.
              apply Nat.ltb_lt in Hlen. lia. }
          destruct (hasMergedArrays ms).
          -- tpure. tpure. tpure. split; [split|split].
             ++ now apply termInv_set_members.
             ++ transitivity s3; [exact G3|apply grows_set_members].
             ++ discriminate.
             ++ intros field Hn _. now apply Hsingle.
          -- tpure. split; [now split|]. split; [discriminate|].
             intros field Hn _. now apply Hsingle.
      + tpure. split; [split; [exact I2|reflexivity]|]. split; [discriminate|].
        intros field Hn _ _. exact Hn. }
  intros [tys newStructKind] s3 [[I3 G3] [Hkind Hsingle]]. simpl in Hkind, Hsingle.
  apply total_after; [exact G3|].
  assert (F3 : free s3) by now apply Hentry.
  apply (total_bind
           (fun fuel =>
              match tys with
              | [field] =>
                  if negb (hasAsmJS info)
                  then collapseSingleField isClientType isJSExportedType (rec fuel)
                         st newSt info field newStructKind
                  else mret (inr tys)
              | _ => mret (inr tys)
              end) _ (after s3)).
  { destruct tys as [|field [|]]; try (tpure; split; [exact I3|reflexivity]).
    destruct (hasAsmJS info) eqn:Hasm; simpl; [tpure; split; [exact I3|reflexivity]|].
    apply total_collapseSingleField; [exact I3|exact F3|].
    intros Hs. exists info. split; [exact Hst|]. now apply Hsingle. }
  intros collapsed s4 [I4 G4]. apply total_after; [exact G4|].
  assert (G24 : grows s2 s4) by now transitivity s3.
  destruct collapsed as [r|tys']; [tpure; split; [exact I4|reflexivity]|].
  apply (total_bind
           (fun fuel =>
              match directBase info with
              | Some base =>
                  r ← rec fuel (StructTy base);
                  mret (match mappedType r with StructTy b => Some b | _ => None end)
              | None => mret None
              end) _ (after s4)).
  { destruct (directBase info) as [base|]; [|tpure; split; [exact I4|reflexivity]].
    trec; [apply (Hentry s4 G24)|]. intros r s5 H5. tpure. exact H5. }
  intros newDirectBase s5 [I5 G5]. apply total_after; [exact G5|].
  unfold setBody. tpure. tpure. split.
  - apply termInv_setMapping_final; [|exact Hkind].
    apply termInv_setBody; [exact I5|exact HnewSt0|]. apply HnewSt. now transitivity s4.
  - etransitivity; [apply grows_set_structs|apply grows_setMapping].
Qed.

(** The types on which the non-struct cases call [rewriteType]. *)
Definition children (t : type) : list type :=
  match t with
  | PointerTy e => [e]
  | ArrayTy e _ => [e]
  | FunctionTy ret params _ => ret :: params
  | _ => []
  end.

Lemma total_rewriteType_body t s :
  termInv sts0 s ->
  (forall e, e ∈ children t -> callable e s) ->
  (forall st info sub, t = StructTy st -> sts0 !! st = Some info ->
     StructTy sub ∈ elements info -> callable (StructTy sub) s) ->
  (forall st s1, t = StructTy st -> is_Some (sts0 !! st) ->
     typesMapping s !! t = None -> grows s s1 ->
     is_Some (typesMapping s1 !! t) -> free s1) ->
  (forall i, typesMapping s !! t = Some i -> elementMappingKind i = COLLAPSING ->
     isStructTy (mappedType i) = true -> callable (mappedType i) s) ->
  total (fun fuel => rewriteType_body isClientType isJSExportedType getTypeAllocSize fuel
                       (rec fuel) t)
        (after s) s.
Proof.
  intros Hinv Hchild Hsub Hfree Hfwd. unfold rewriteType_body. tpure. tpure.
  assert (Hfinal : forall s1 ret kind, termInv sts0 s1 -> grows s s1 ->
            total (fun _ => CacheAndReturn t ret kind) (after s) s1 \/ kind = COLLAPSING).
  { intros s1 ret kind I1 G1. destruct (decide (kind = COLLAPSING)); [now right|left].
    tpure. split; [now apply termInv_setMapping_final|].
    transitivity s1; [exact G1|apply grows_setMapping]. }
  destruct (typesMapping s !! t) as [found|] eqn:Hm.
  - destruct (decide (elementMappingKind found = COLLAPSING)) as [Hk|Hk].
    + destruct (isStructTy (mappedType found)) eqn:Hs.
      * tpure. apply rec_total; [exact Hinv|]. now apply Hfwd.
      * tpure. tpure. split; [|apply grows_setMapping].
        now apply termInv_setMapping_final.
    + tpure. split; [exact Hinv|reflexivity].
  - destruct t as [| | |bits|elt|elt num|ret params varArg|st].
    + destruct (Hfinal s VoidTy IDENTICAL Hinv) as [Hr|Hr]; [reflexivity|exact Hr|discriminate].
    + destruct (Hfinal s FloatTy IDENTICAL Hinv) as [Hr|Hr]; [reflexivity|exact Hr|discriminate].
    + destruct (Hfinal s DoubleTy IDENTICAL Hinv) as [Hr|Hr]; [reflexivity|exact Hr|discriminate].
    + destruct (Hfinal s (IntegerTy bits) IDENTICAL Hinv) as [Hr|Hr];
        [reflexivity|exact Hr|discriminate].
    + trec; [apply Hchild; left|]. intros r s1 [I1 G1].
      destruct (mappedType r) eqn:Hr;
        try (destruct (decide _);
             match goal with
             | |- total (fun _ => CacheAndReturn ?t ?ret ?k) _ _ =>
                 destruct (Hfinal s1 ret k I1 G1) as [Hx|Hx]; [exact Hx|discriminate]
             end).
      destruct (Hfinal s1 (PointerTy t) POINTER_FROM_ARRAY I1 G1) as [Hx|Hx];
        [exact Hx|discriminate].
    + trec; [apply Hchild; left|]. intros r s1 [I1 G1].
      destruct (mappedType r) eqn:Hr;
        try (destruct (decide _);
             match goal with
             | |- total (fun _ => CacheAndReturn ?t ?ret ?k) _ _ =>
                 destruct (Hfinal s1 ret k I1 G1) as [Hx|Hx]; [exact Hx|discriminate]
             end).
      destruct (Hfinal s1 (ArrayTy t (num * num0)) FLATTENED_ARRAY I1 G1) as [Hx|Hx];
        [exact Hx|discriminate].
    + trec; [apply Hchild; left|]. intros r s1 [I1 G1].
      apply (total_bind
               (fun fuel => mapM' (fun p => r ← rec fuel p; mret (mappedType r)) params) _
               (after s1)).
      * apply total_mapM'; [exact I1|]. intros x Hx. eapply callable_grows; [|exact G1].
        apply Hchild. now right.
      * intros newParameters s2 [I2 G2].
        destruct (Hfinal s2 (FunctionTy (mappedType r) newParameters varArg) IDENTICAL I2)
          as [Hx|Hx]; [now transitivity s1|exact Hx|discriminate].
    + apply total_rewriteStruct.
      * exact Hinv.
      * apply negb_true_iff, bool_decide_eq_false in H. exact H.
      * intros info sub. now apply Hsub.
      * intros s1 Hst. now apply (Hfree st).
Qed.

End TotalBody.

(** ** The measure *)

Lemma filter_length_mono {A} (P Q : A -> Prop) `{!forall x, Decision (P x)}
    `{!forall x, Decision (Q x)} (l : list A) :
  (forall x, x ∈ l -> P x -> Q x) -> (length (filter P l) <= length (filter Q l))%nat.
Proof.
  induction l as [|a l IH]; intros Hsub; [reflexivity|].
  rewrite !filter_cons.
  assert (Hl : (length (filter P l) <= length (filter Q l))%nat).
  { apply IH. intros x Hx. apply Hsub. now right. }
  destruct (decide (P a)) as [Hp|Hp], (decide (Q a)) as [Hq|Hq]; simpl; try lia.
  destruct Hq. apply Hsub; [left|exact Hp].
Qed.

Lemma filter_length_strict {A} (P Q : A -> Prop) `{!forall x, Decision (P x)}
    `{!forall x, Decision (Q x)} (l : list A) x :
  (forall x, x ∈ l -> P x -> Q x) -> x ∈ l -> Q x -> ~ P x ->
  (length (filter P l) < length (filter Q l))%nat.
Proof.
  induction l as [|a l IH]; intros Hsub Hx Hq Hp; [inversion Hx|].
  rewrite !filter_cons.
  assert (Hl : (length (filter P l) <= length (filter Q l))%nat).
  { apply filter_length_mono. intros y Hy. apply Hsub. now right. }
  assert (Hl' : x ∈ l -> (length (filter P l) < length (filter Q l))%nat).
  { intros Hin. apply IH; auto. intros y Hy. apply Hsub. now right. }
  apply elem_of_cons in Hx. destruct Hx as [<-|Hx].
  - rewrite decide_False by exact Hp. rewrite decide_True by exact Hq. simpl. lia.
  - specialize (Hl' Hx).
    destruct (decide (P a)) as [Hpa|Hpa], (decide (Q a)) as [Hqa|Hqa]; simpl; try lia.
    destruct Hqa. apply Hsub; [left|exact Hpa].
Qed.

(** The structs of the module that have no entry in the memo table yet. *)
Definition unmapped (sts0 : gmap nat StructInfo) (s : state) : nat :=
  length (filter (fun st => typesMapping s !! StructTy st = None) (map_to_list sts0).*1).

Lemma unmapped_grows sts0 s s' : grows s s' -> (unmapped sts0 s' <= unmapped sts0 s)%nat.
Proof.
  intros [G _]. apply filter_length_mono. intros st _ H.
  destruct (typesMapping s !! StructTy st) as [i|] eqn:E; [|reflexivity].
  destruct (G (StructTy st)) as [j Hj]; [eauto|]. congruence.
Qed.

Lemma unmapped_entry sts0 s s' st :
  grows s s' -> is_Some (sts0 !! st) -> typesMapping s !! StructTy st = None ->
  is_Some (typesMapping s' !! StructTy st) ->
  (unmapped sts0 s' < unmapped sts0 s)%nat.
Proof.
  intros [G _] [info Hst] Hnone [j Hj]. apply (filter_length_strict _ _ _ st).
  - intros x _ H. destruct (typesMapping s !! StructTy x) as [i|] eqn:E; [|reflexivity].
    destruct (G (StructTy x)) as [j' Hj']; [eauto|]. congruence.
  - apply list_elem_of_fmap. exists (st, info). split; [reflexivity|].
    now apply elem_of_map_to_list.
  - exact Hnone.
  - congruence.
Qed.

(** The struct case is measured by the rank, a wrapper by its content. *)
Fixpoint typeMeasure (rank : nat -> nat) (t : type) : nat :=
  match t with
  | PointerTy e => S (typeMeasure rank e)
  | ArrayTy e _ => S (typeMeasure rank e)
  | FunctionTy ret params _ =>
      S (typeMeasure rank ret + list_sum (map (typeMeasure rank) params))
  | StructTy st => rank st
  | _ => 0
  end.

Lemma typeMeasure_children rank t e :
  e ∈ children t -> (typeMeasure rank e < typeMeasure rank t)%nat.
Proof.
  destruct t; simpl; try (intros H; inversion H; fail).
  - intros H. apply list_elem_of_singleton in H. subst. lia.
  - intros H. apply list_elem_of_singleton in H. subst. lia.
  - intros H. apply elem_of_cons in H. destruct H as [->|H]; [lia|].
    assert (typeMeasure rank e <= list_sum (map (typeMeasure rank) params))%nat; [|lia].
    clear -H. induction H; simpl; lia.
Qed.

(** ** Every call of [rewriteType] ends *)

Section Terminates.

Variable isClientType : type -> bool.
Variable isJSExportedType : nat -> bool.
Variable getTypeAllocSize : type -> N.
Variable sts0 : gmap nat StructInfo.
Variables rank brank : nat -> nat.
Hypothesis Hranked : ranked sts0 rank brank.

Local Abbreviation rewriteType' := (rewriteType isClientType isJSExportedType getTypeAllocSize).

Lemma rewriteType_total_below : forall n m s t,
  termInv sts0 s -> (unmapped sts0 s <= n)%nat -> (typeMeasure rank t <= m)%nat ->
  total (fun fuel => rewriteType' fuel t) (after sts0 s) s.
Proof.
  induction n as [n IHn] using lt_wf_ind. induction m as [m IHm] using lt_wf_ind.
  intros s t Hinv Hu Hm.
  set (callable := fun (t' : type) (s1 : state) =>
         (unmapped sts0 s1 < n)%nat \/
         ((unmapped sts0 s1 <= n)%nat /\ (typeMeasure rank t' < m)%nat)).
  assert (Hrec : forall t' s1, termInv sts0 s1 -> callable t' s1 ->
            total (fun fuel => rewriteType' fuel t') (after sts0 s1) s1).
  { intros t' s1 I1 [Hlt|[Hle Hlt]].
    - exact (IHn _ Hlt (typeMeasure rank t') s1 t' I1 (Nat.le_refl _) (Nat.le_refl _)).
    - exact (IHm _ Hlt s1 t' I1 Hle (Nat.le_refl _)). }
  assert (Hgrows : forall t' s1 s2, callable t' s1 -> grows s1 s2 -> callable t' s2).
  { intros t' s1 s2 Hc G. pose proof (unmapped_grows sts0 s1 s2 G).
    destruct Hc as [Hlt|[Hle Hlt]]; [left; lia|right; split; [lia|exact Hlt]]. }
  apply (total_shift
           (fun fuel => rewriteType_body isClientType isJSExportedType getTypeAllocSize fuel
                          (rewriteType' fuel) t)); [reflexivity|].
  apply (total_rewriteType_body isClientType isJSExportedType getTypeAllocSize sts0
           rank brank Hranked rewriteType' callable Hrec Hgrows t s Hinv).
  - intros e He. right. split; [exact Hu|].
    pose proof (typeMeasure_children rank t e He). lia.
  - intros st info sub -> Hst Hsub. right. split; [exact Hu|].
    destruct (rk_fields _ _ _ Hranked st info (StructTy sub) Hst Hsub) as [_ Hn].
    simpl in *. lia.
  - intros st s1 -> Hst Hnone G1 Hsome t'. left.
    pose proof (unmapped_entry sts0 s s1 st G1 Hst Hnone Hsome). lia.
  - intros i Hi Hk Hs. right. split; [exact Hu|].
    destruct (ti_tentative _ _ Hinv t i Hi Hk Hs) as (st & info & -> & Hst & Hel).
    destruct (mappedType i) as [| | | | | | |sub] eqn:Hmt; try discriminate.
    destruct (rk_fields _ _ _ Hranked st info (StructTy sub) Hst) as [_ Hn].
    + rewrite Hel. left.
    + simpl in *. lia.
Qed.

(** With enough fuel a call from a state that satisfies the invariant
    gives its result, and more fuel gives the same. *)
Lemma rewriteType_total s t :
  termInv sts0 s -> total (fun fuel => rewriteType' fuel t) (after sts0 s) s.
Proof.
  intros Hinv.
  exact (rewriteType_total_below _ _ s t Hinv (Nat.le_refl _) (Nat.le_refl _)).
Qed.

End Terminates.

(** ** The invariant at the start, and a test for the ranks *)

Lemma termInv_start s :
  typesMapping s = ∅ ->
  map_Forall (fun id _ => (id < nextStruct s)%nat) (structs s) ->
  termInv (structs s) s.
Proof.
  intros Hm Hn. constructor.
  - intros k i Hi. rewrite Hm, lookup_empty in Hi. discriminate.
  - intros id info H. split; [exact H|]. exact (Hn id info H).
  - intros id H. now left.
Qed.

#[global] Instance closedByValue_dec sts0 t : Decision (closedByValue sts0 t).
Proof.
  induction t as [| | | |e _|e IH n|ret _ params varArg|st]; simpl;
    try exact (left I); [exact IH|apply _].
Defined.

Definition rankedAt (sts0 : gmap nat StructInfo) (rank brank : nat -> nat)
    (st : nat) (info : StructInfo) : Prop :=
  Forall (fun f => closedByValue sts0 f /\ (need rank f <= rank st)%nat) (elements info) /\
  match directBase info with
  | Some b => is_Some (sts0 !! b) /\ (brank b < brank st)%nat
  | None => True
  end.

#[global] Instance rankedAt_dec sts0 rank brank st info :
  Decision (rankedAt sts0 rank brank st info).
Proof. unfold rankedAt. destruct (directBase info); apply _. Defined.

Lemma ranked_intro sts0 rank brank :
  map_Forall (rankedAt sts0 rank brank) sts0 -> ranked sts0 rank brank.
Proof.
  intros H. constructor.
  - intros st info f Hst Hf. destruct (H st info Hst) as [Hfields _].
    exact (proj1 (list.Forall_forall _ _) Hfields f Hf).
  - intros st info b Hst Hb. destruct (H st info Hst) as [_ Hbase].
    now rewrite Hb in Hbase.
Qed.

(** ** Wrappers around a pointer to the outermost struct *)

(** [A { B { C { A* } } }]: structs 0, 1 and 2. *)
Definition wrapperCycle : state :=
  moduleState [plainStruct [StructTy 1]; plainStruct [StructTy 2];
               plainStruct [PointerTy (StructTy 0)]].
Definition cycleRank (st : nat) : nat :=
  match st with 0 => 3 | 1 => 2 | _ => 1 end%nat.
Definition wrapperCycleRewritten : state :=
  Eval vm_compute in stateOf (rewriteTypeEx 20 (StructTy 0) wrapperCycle) wrapperCycle.

(** * Residual offsets of constants *)

(** ** Types that are integers by value *)

Section IntLike.

Variable isClientType : type -> bool.
Variable sts0 : gmap nat StructInfo.

(** An integer, an array of such, or a struct of the module that is not
    a client type and whose fields are all such. *)
Inductive intLike : type -> Prop :=
| intLike_int bits : intLike (IntegerTy bits)
| intLike_array e n : intLike e -> intLike (ArrayTy e n)
| intLike_struct st info :
    sts0 !! st = Some info -> isClientType (StructTy st) = false ->
    (forall f, f ∈ elements info -> intLike f) -> intLike (StructTy st).

(** The structs held by value are structs of the module and no client
    types. *)
Fixpoint heldOK (t : type) : Prop :=
  match t with
  | ArrayTy e _ => heldOK e
  | StructTy st => is_Some (sts0 !! st) /\ isClientType (StructTy st) = false
  | _ => True
  end.

Definition byValueOK : Prop :=
  forall st info f, sts0 !! st = Some info -> f ∈ elements info -> heldOK f.

(** What a result or an entry with an integer as its mapped type tells
    of the type it stands for. *)
Definition intResult (t : type) (r : TypeMappingInfo) : Prop :=
  isIntegerTy (mappedType r) = true ->
  intLike t /\ (isIntegerTy t = true \/ isStructTy t = true).

Record intInv (s : state) : Prop := mkIntInv {
  ii_int : forall k i, typesMapping s !! k = Some i -> intResult k i;
  ii_client : forall st i, typesMapping s !! StructTy st = Some i ->
    elementMappingKind i = COLLAPSING -> isClientType (StructTy st) = false
}.

Lemma intInv_setMapping s t i :
  intInv s -> intResult t i ->
  (forall st, t = StructTy st -> elementMappingKind i = COLLAPSING ->
     isClientType t = false) ->
  intInv (set_typesMapping <[t := i]> s).
Proof.
  intros [Hi Hc] Hr Hcl. constructor; simpl.
  - intros k j Hj. destruct (decide (t = k)) as [->|Hne].
    + rewrite lookup_insert_eq in Hj. now injection Hj as <-.
    + rewrite lookup_insert_ne in Hj by exact Hne. now apply Hi.
  - intros st j Hj Hk. destruct (decide (t = StructTy st)) as [->|Hne].
    + rewrite lookup_insert_eq in Hj. injection Hj as <-. now apply (Hcl st).
    + rewrite lookup_insert_ne in Hj by exact Hne. now apply (Hc st j).
Qed.

Lemma intInv_same s s' : typesMapping s' = typesMapping s -> intInv s -> intInv s'.
Proof. intros E [Hi Hc]. constructor; rewrite E; assumption. Qed.

Lemma intResult_other t r : isIntegerTy (mappedType r) = false -> intResult t r.
Proof. intros H H'. congruence. Qed.

(** *** The leaves of a byte layout struct *)

Section Leaves.

Variable sts : gmap nat StructInfo.
Hypothesis Hold : forall id info, sts0 !! id = Some info -> sts !! id = Some info.
Hypothesis HbyValue : byValueOK.
Variable st0 : nat.
Variable leaf : type.
Hypothesis leaf_int : isIntegerTy leaf = true.

Definition leafEntry (m : gmap nat (option type)) : Prop :=
  m !! st0 = None \/ m !! st0 = Some (Some leaf).

Lemma addBaseType_leafEntry ty m :
  leafEntry (addBaseType st0 ty m) -> leafEntry m /\ ty = leaf.
Proof.
  unfold leafEntry, addBaseType. destruct (m !! st0) as [known|] eqn:Hm.
  - destruct (decide (known = Some ty)) as [->|Hne].
    + rewrite Hm. intros [H|H]; [discriminate|]. injection H as <-. auto.
    + rewrite lookup_insert_eq. intros [H|H]; discriminate.
  - rewrite lookup_insert_eq. intros [H|H]; [discriminate|]. injection H as <-. auto.
Qed.

Lemma fold_addAllBaseTypes_None fuel l :
  fold_left (fun acc ty => acc ≫= addAllBaseTypes fuel sts st0 ty) l None = None.
Proof. induction l; simpl; auto. Qed.

Lemma addAllBaseTypes_leaves : forall fuel ty m m',
  addAllBaseTypes fuel sts st0 ty m = Some m' -> leafEntry m' -> heldOK ty ->
  leafEntry m /\ intLike ty.
Proof.
  induction fuel as [|fuel IH]; intros ty m m' Hrun Hm' Hheld; [discriminate|].
  assert (Hleaf : Some (addBaseType st0 ty m) = Some m' -> leafEntry m /\ ty = leaf).
  { intros [= <-]. now apply addBaseType_leafEntry. }
  assert (Hint : leafEntry m /\ ty = leaf -> leafEntry m /\ intLike ty).
  { intros [H ->]. split; [exact H|]. destruct leaf; try discriminate. constructor. }
  destruct ty; simpl in Hrun; try (apply Hint, Hleaf, Hrun).
  - destruct (IH _ _ _ Hrun Hm' Hheld) as [H1 H2]. split; [exact H1|now constructor].
  - destruct Hheld as [[info Hinfo] Hcl]. rewrite (Hold _ _ Hinfo) in Hrun.
    assert (Hfields : forall l m1,
              (forall f, f ∈ l -> heldOK f) ->
              fold_left (fun acc ty => acc ≫= addAllBaseTypes fuel sts st0 ty) l (Some m1)
              = Some m' ->
              leafEntry m1 /\ forall f, f ∈ l -> intLike f).
    { induction l as [|x l IHl]; intros m1 Hl Hfold; simpl in Hfold.
      - injection Hfold as <-. split; [exact Hm'|]. intros f Hf. inversion Hf.
      - destruct (addAllBaseTypes fuel sts st0 x m1) as [m2|] eqn:E; simpl in Hfold;
          [|rewrite fold_addAllBaseTypes_None in Hfold; discriminate].
        destruct (IHl m2) as [H2 Hrest]; [intros f Hf; apply Hl; now right|exact Hfold|].
        destruct (IH _ _ _ E H2) as [H1 Hx]; [apply Hl; left|].
        split; [exact H1|]. intros f Hf. apply elem_of_cons in Hf.
        destruct Hf as [->|Hf]; auto. }
    destruct (Hfields (elements info) m) as [H1 H2]; [|exact Hrun|].
    + intros f Hf. exact (HbyValue _ _ _ Hinfo Hf).
    + split; [exact H1|]. econstructor; eauto.
Qed.

End Leaves.

End IntLike.

(** ** The invariant along [rewriteType] *)

Lemma mergeField_allInt bl esc i rt ms ms' :
  mergeField bl esc i rt ms = Some ms' ->
  Forall (fun t => isIntegerTy t = true) (newTypes ms') ->
  Forall (fun t => isIntegerTy t = true) (newTypes ms) /\ isIntegerTy rt = true.
Proof.
  assert (Hpush : forall l, Forall (fun t => isIntegerTy t = true) (l ++ [rt]) ->
            Forall (fun t => isIntegerTy t = true) l /\ isIntegerTy rt = true).
  { intros l H. apply Forall_app in H. destruct H as [H1 H2].
    split; [exact H1|]. now inversion H2. }
  assert (Hins : forall (l : list type) k old new,
            l !! k = Some old -> isIntegerTy old = isIntegerTy new ->
            Forall (fun t => isIntegerTy t = true) (<[k := new]> l) ->
            Forall (fun t => isIntegerTy t = true) l /\ isIntegerTy new = true).
  { intros l k old new Hk Hsame H. rewrite list.Forall_forall in H.
    assert (Hnew : isIntegerTy new = true).
    { apply H. eapply list_elem_of_lookup_2. apply list_lookup_insert_eq.
      now apply lookup_lt_Some in Hk. }
    split; [|exact Hnew]. apply list.Forall_forall. intros x Hx.
    apply list_elem_of_lookup in Hx. destruct Hx as [j Hj].
    destruct (decide (k = j)) as [->|Hne].
    - rewrite Hk in Hj. injection Hj as <-. congruence.
    - apply H. eapply list_elem_of_lookup_2. rewrite list_lookup_insert_ne; eauto. }
  unfold mergeField. destruct bl.
  - intros [= <-]. simpl. apply Hpush.
  - destruct rt; try (intros [= <-]; simpl; apply Hpush).
    + destruct (negb _ && _).
      * destruct (findMergedInt _ _ _) as [[m [first second]]|].
        -- destruct (newTypes ms !! first) as [[| | |oldBw| | | |]|] eqn:Hf; try discriminate.
           intros [= <-]. simpl. intros H.
           destruct (Hins _ _ _ (IntegerTy (oldBw + bits)) Hf eq_refl H) as [H1 _]. auto.
        -- intros [= <-]. simpl. apply Hpush.
      * intros [= <-]. simpl. apply Hpush.
    + destruct (arraysFound ms !! rt) as [typeIndex|].
      * destruct (newTypes ms !! typeIndex) as [[| | | | |e0 prevNum| |]|] eqn:Hf;
          try discriminate.
        intros [= <-]. simpl. intros H.
        destruct (Hins _ _ _ (ArrayTy rt (prevNum + num)) Hf eq_refl H) as [_ H2]. discriminate.
      * intros [= <-]. simpl. apply Hpush.
Qed.

Lemma resetAtBase_newTypes fuel sts st i ms ms1 :
  resetAtBase fuel sts st i ms = Some ms1 -> newTypes ms1 = newTypes ms.
Proof.
  unfold resetAtBase. destruct (Nat.eqb _ _); [|now intros [= <-]].
  destruct (findDirectBase _ _ _ _); [|discriminate]. now intros [= <-].
Qed.

Section IntWalk.

Variable isClientType : type -> bool.
Variable isJSExportedType : nat -> bool.
Variable getTypeAllocSize : type -> N.
Variable sts0 : gmap nat StructInfo.
Hypothesis HbyValue : byValueOK isClientType sts0.

Definition good (s : state) : Prop := termInv sts0 s /\ intInv isClientType sts0 s.

Lemma good_setMapping_final s t i :
  good s -> elementMappingKind i <> COLLAPSING -> intResult isClientType sts0 t i ->
  good (set_typesMapping <[t := i]> s).
Proof.
  intros [I J] Hk Hr. split.
  - now apply termInv_setMapping_final.
  - apply intInv_setMapping; auto. intros st _ Hc. contradiction.
Qed.

Lemma good_frame s s' :
  good s -> termInv sts0 s' -> typesMapping s' = typesMapping s -> good s'.
Proof. intros [_ J] I E. split; [exact I|]. eapply intInv_same; eauto. Qed.

Lemma good_entry s t r :
  good s -> typesMapping s !! t = Some r -> intResult isClientType sts0 t r.
Proof. intros [_ J] H. exact (ii_int _ _ _ J t r H). Qed.

Variable fuel : nat.
Variable rec : type -> M TypeMappingInfo.
Hypothesis rec_good : forall t s,
  good s ->
  wp (rec t) (fun r s' => (good s' /\ grows s s') /\ intResult isClientType sts0 t r) s.

Lemma rec_good' t s : good s -> wp (rec t) (fun _ s' => good s' /\ grows s s') s.
Proof. intros H. eapply wp_mono; [now apply rec_good|]. now intros r s' [G _]. Qed.

Lemma wp_grows {A} (m : M A) s s1 (Q : A -> state -> Prop) :
  grows s s1 -> wp m (fun a s' => Q a s' /\ grows s1 s') s1 ->
  wp m (fun a s' => Q a s' /\ grows s s') s1.
Proof.
  intros G H. eapply wp_mono; [exact H|]. intros a s' [HQ G']. split; [exact HQ|].
  now transitivity s1.
Qed.

Lemma good_mapM' l s :
  good s -> wp (mapM' (fun elTy => r ← rec elTy; mret (mappedType r)) l)
               (fun _ s' => good s' /\ grows s s') s.
Proof.
  revert s. induction l as [|x l IH]; intros s G; simpl.
  - wp_step. split; [exact G|reflexivity].
  - wp_step. wp_step. eapply wp_mono; [now apply rec_good'|]. intros r s1 [G1 W1].
    wp_step. wp_step.
    eapply wp_mono; [now apply IH|]. intros ys s2 [G2 W2]. wp_step.
    split; [exact G2|now transitivity s1].
Qed.

Lemma good_allDestinationsCollapse dests s :
  good s -> wp (allDestinationsCollapse rec dests) (fun _ s' => good s' /\ grows s s') s.
Proof.
  revert s. induction dests as [|d dests IH]; intros s G; simpl.
  - wp_step. split; [exact G|reflexivity].
  - wp_step. eapply wp_mono; [now apply rec_good'|]. intros r s1 [G1 W1].
    destruct (decide _); [apply wp_grows; [exact W1|now apply IH]|wp_step; now split].
Qed.

Lemma good_isUnsafeDowncastSource st s :
  good s -> wp (isUnsafeDowncastSource rec st) (fun _ s' => good s' /\ grows s s') s.
Proof.
  intros G. unfold isUnsafeDowncastSource. wp_step. wp_step.
  destruct (downcastSourceToDestinationsMapping s !! st) as [[|d dests]|].
  - wp_step. split; [exact G|reflexivity].
  - now apply good_allDestinationsCollapse.
  - wp_step. split; [exact G|reflexivity].
Qed.

Lemma good_areSubStructsConvertible elts s :
  good s -> wp (areSubStructsConvertible rec elts) (fun _ s' => good s' /\ grows s s') s.
Proof.
  revert s. induction elts as [|t elts IH]; intros s G.
  - simpl. wp_step. split; [exact G|reflexivity].
  - destruct t; try (now apply IH). simpl. wp_step. wp_step.
    destruct (hasByteLayout info); simpl; [|wp_step; split; [exact G|reflexivity]].
    wp_step. eapply wp_mono; [now apply rec_good'|]. intros r s1 [G1 W1].
    destruct (decide _); [apply wp_grows; [exact W1|now apply IH]|wp_step; now split].
Qed.

Lemma good_mergeFields st bl elts : forall i ms s (P : Prop),
  good s -> (Forall (fun t => isIntegerTy t = true) (newTypes ms) -> P) ->
  wp (mergeFields fuel rec st bl elts i ms)
     (fun ms' s' => (good s' /\
        (Forall (fun t => isIntegerTy t = true) (newTypes ms') ->
         P /\ forall e, e ∈ elts -> intLike isClientType sts0 e)) /\ grows s s') s.
Proof.
  induction elts as [|e elts IH]; intros i ms s P G HP; simpl.
  - wp_step. split; [|reflexivity]. split; [exact G|]. intros H. split; [auto|].
    intros e He. inversion He.
  - wp_step. wp_step. destruct (resetAtBase _ _ _ _ _) as [ms1|] eqn:E1; [|wp_step].
    wp_step. eapply wp_mono; [now apply rec_good|]. intros r s1 [[G1 W1] R1].
    wp_step. wp_step. destruct (mergeField _ _ _ _ _) as [ms2|] eqn:E2; [|wp_step].
    apply wp_grows; [exact W1|]. eapply wp_mono.
    + apply (IH (S i) ms2 s1 (P /\ intLike isClientType sts0 e) G1).
      intros H2. destruct (mergeField_allInt _ _ _ _ _ _ E2 H2) as [H1 Hr].
      rewrite (resetAtBase_newTypes _ _ _ _ _ _ E1) in H1. split; [auto|].
      now apply R1.
    + intros ms' s2 [[G2 H2] W2]. split; [|exact W2]. split; [exact G2|]. intros Hall.
      destruct (H2 Hall) as [[HP' He] Hrest]. split; [exact HP'|].
      intros f Hf. apply elem_of_cons in Hf. destruct Hf as [->|Hf]; auto.
Qed.

Lemma good_byteLayoutToArray st info s :
  good s -> sts0 !! st = Some info -> isClientType (StructTy st) = false ->
  wp (byteLayoutToArray getTypeAllocSize fuel rec st info)
     (fun o s' => (good s' /\
        forall r, o = Some r -> typesMapping s' !! StructTy st = Some r) /\ grows s s') s.
Proof.
  intros G Hst Hcl. unfold byteLayoutToArray. wp_step. apply run_wp. intros [] s1 Hadd.
  unfold addAllBaseTypesForByteLayout in Hadd.
  destruct (addAllBaseTypes fuel (structs s) st (StructTy st) (baseTypesForByteLayout s))
    as [m|] eqn:Em; [|discriminate].
  injection Hadd as <-.
  assert (G1 : good (set_baseTypes (fun _ => m) s)).
  { apply (good_frame s); [exact G|apply termInv_set_baseTypes, G|reflexivity]. }
  apply (wp_grows _ s _); [apply grows_set_baseTypes|].
  set (s1 := set_baseTypes (fun _ => m) s) in *.
  wp_step. wp_step. change (baseTypesForByteLayout s1) with m.
  destruct (m !! st) as [[baseType|]|] eqn:Hm; [| |wp_step].
  - assert (Hleaf : isIntegerTy baseType = true -> intLike isClientType sts0 (StructTy st)).
    { intros Hint.
      refine (proj2 (addAllBaseTypes_leaves isClientType sts0 (structs s) _ HbyValue st
                       baseType Hint fuel (StructTy st) _ m Em _ _)).
      - intros id i0 H0. now apply (ti_old _ _ (proj1 G)).
      - right. exact Hm.
      - simpl. eauto. }
    destruct (N.eqb _ 0); [wp_step|].
    destruct (negb _); [wp_step; split; [split; [exact G1|discriminate]|reflexivity]|].
    wp_step. eapply wp_mono; [now apply good_areSubStructsConvertible|].
    intros convertible s2 [G2 W2]. apply wp_grows; [exact W2|].
    destruct (negb convertible);
      [wp_step; split; [split; [exact G2|discriminate]|reflexivity]|].
    destruct (N.eqb _ 1).
    + wp_step. wp_step. wp_step. split; [split|apply grows_setMapping].
      * apply good_setMapping_final; [exact G2|discriminate|].
        intros Hint. split; [now apply Hleaf|now right].
      * intros r [= <-]. simpl. apply lookup_insert_eq.
    + wp_step. wp_step. wp_step. split; [split|apply grows_setMapping].
      * apply good_setMapping_final; [exact G2|discriminate|]. now apply intResult_other.
      * intros r [= <-]. simpl. apply lookup_insert_eq.
  - wp_step. split; [split; [exact G1|discriminate]|reflexivity].
Qed.

Lemma good_collapseSingleField st newSt info field kind s :
  good s -> sts0 !! st = Some info -> isClientType (StructTy st) = false ->
  (isStructTy field = true -> elements info = [field]) ->
  (intLike isClientType sts0 field ->
   isIntegerTy field = true \/ isStructTy field = true ->
   forall e, e ∈ elements info -> intLike isClientType sts0 e) ->
  wp (collapseSingleField isClientType isJSExportedType rec st newSt info field kind)
     (fun c s' => (good s' /\
        forall r, c = inl r -> typesMapping s' !! StructTy st = Some r) /\ grows s s') s.
Proof.
  intros G Hst Hcl Hstruct Hel.
  assert (Hm : forall s1, good s1 ->
             wp (rewrittenType ← rec field;
                 mret (inr [mappedType rewrittenType] : TypeMappingInfo + list type))
                (fun c s' => (good s' /\
                   forall r, c = inl r -> typesMapping s' !! StructTy st = Some r) /\
                   grows s1 s') s1).
  { intros s1 G1. wp_step. eapply wp_mono; [now apply rec_good'|]. intros r s2 [G2 W2].
    wp_step. split; [|exact W2]. split; [exact G2|discriminate]. }
  assert (Hwhole : intLike isClientType sts0 field ->
                   isIntegerTy field = true \/ isStructTy field = true ->
                   intLike isClientType sts0 (StructTy st)).
  { intros H1 H2. econstructor; eauto. }
  unfold collapseSingleField. destruct (mayCollapse _ _ _ _ _); [|now apply Hm].
  wp_step. eapply wp_mono; [now apply good_isUnsafeDowncastSource|].
  intros unsafe s1 [G1 W1]. apply wp_grows; [exact W1|].
  destruct unsafe; simpl; [now apply Hm|].
  wp_step. wp_step.
  set (s2 := set_typesMapping <[StructTy st := mkInfo field COLLAPSING]> s1).
  assert (G2 : good s2).
  { destruct G1 as [I1 J1]. split.
    - apply termInv_setMapping; [exact I1|]. simpl. intros _ Hs.
      exists st, info. rewrite (Hstruct Hs). auto.
    - apply intInv_setMapping; [exact J1| |].
      + intros Hint. simpl in Hint. split; [|now right]. apply Hwhole; [|now left].
        destruct field; try discriminate. constructor.
      + intros st' [= <-] _. exact Hcl. }
  apply (wp_grows _ s1 s2); [apply grows_setMapping|].
  wp_step. eapply wp_mono; [now apply rec_good|]. intros collapsed s3 [[G3 W3] R3].
  apply wp_grows; [exact W3|].
  wp_step. wp_step. destruct (typesMapping s3 !! StructTy st) as [curInfo|]; [|wp_step].
  destruct (decide _).
  - wp_step. wp_step. apply (wp_grows _ s3 _); [apply grows_setMapping|].
    apply Hm. apply good_setMapping_final; [exact G3|discriminate|].
    now apply intResult_other.
  - wp_step. wp_step. wp_step. wp_step. wp_step. split; [split|apply grows_setMapping].
    + apply good_setMapping_final; [exact G3| |].
      * simpl. now destruct (decide _).
      * intros Hint. simpl in Hint. destruct (R3 Hint) as [H1 H2].
        split; [now apply Hwhole|now right].
    + intros r [= <-]. simpl. apply lookup_insert_eq.
Qed.

Lemma good_rewriteStruct st s :
  good s -> st ∉ newStructTypes s ->
  wp (rewriteStruct isClientType isJSExportedType getTypeAllocSize fuel rec st)
     (fun r s' => (good s' /\ typesMapping s' !! StructTy st = Some r) /\ grows s s') s.
Proof.
  intros G Hnew. unfold rewriteStruct. wp_step. wp_step.
  assert (Hst : sts0 !! st = Some info).
  { destruct (ti_split _ _ (proj1 G) st) as [[info0 H0]|Hn]; [eauto| |contradiction].
    destruct (ti_old _ _ (proj1 G) st info0 H0) as [H1 _]. congruence. }
  assert (Hself : forall s1, good s1 ->
            wp (CacheAndReturn (StructTy st) (StructTy st) IDENTICAL)
               (fun r s' => (good s' /\ typesMapping s' !! StructTy st = Some r) /\
                            grows s1 s') s1).
  { intros s1 G1. wp_step. split; [split; [|apply lookup_insert_eq]|apply grows_setMapping].
    apply good_setMapping_final; [exact G1|discriminate|]. now apply intResult_other. }
  destruct (isClientType (StructTy st)) eqn:Hcl; [now apply Hself|].
  destruct (isOpaque info); [now apply Hself|].
  wp_step.
  apply (wp_mono _ (fun o s' => (good s' /\
                      forall r, o = Some r -> typesMapping s' !! StructTy st = Some r) /\
                      grows s s')).
  { destruct (hasByteLayout info).
    - now apply good_byteLayoutToArray.
    - wp_step. split; [split; [exact G|discriminate]|reflexivity]. }
  intros flattened s1 [[G1 Hfl] W1]. apply wp_grows; [exact W1|].
  destruct flattened as [r|]; [wp_step; split; [auto|reflexivity]|].
  wp_step. wp_step. wp_step. wp_step.
  set (newSt := nextStruct s1).
  set (s2 := set_typesMapping <[StructTy st := mkInfo (StructTy newSt) IDENTICAL]>
               (snd (createStruct s1))).
  assert (G2 : good s2).
  { apply good_setMapping_final; [|discriminate|now apply intResult_other].
    apply (good_frame s1); [exact G1|apply termInv_createStruct, G1|reflexivity]. }
  assert (W12 : grows s1 s2).
  { transitivity (snd (createStruct s1)); [apply grows_createStruct|apply grows_setMapping]. }
  apply (wp_grows _ s1 s2); [exact W12|].
  assert (HnewSt0 : sts0 !! newSt = None).
  { destruct (sts0 !! newSt) as [i0|] eqn:E; [|reflexivity].
    destruct (ti_old _ _ (proj1 G1) newSt i0 E) as [_ Hlt]. unfold newSt in Hlt. lia. }
  wp_step.
  apply (wp_mono _ (fun p s3 => (good s3 /\ grows s2 s3) /\ snd p <> COLLAPSING /\
            (forall field, fst p = [field] -> hasAsmJS info = false ->
               (isStructTy field = true -> elements info = [field]) /\
               (intLike isClientType sts0 field ->
                isIntegerTy field = true \/ isStructTy field = true ->
                forall e, e ∈ elements info -> intLike isClientType sts0 e)))).
  { destruct (hasAsmJS info) eqn:Hasm.
    - wp_step. eapply wp_mono; [now apply good_mapM'|]. intros tys s3 G3. wp_step.
      split; [exact G3|]. split; [discriminate|]. intros field _ Hx. discriminate.
    - destruct (Nat.ltb 1 (length (elements info))) eqn:Hlen.
      + wp_step. eapply wp_mono.
        * apply wp_and.
          -- apply (good_mergeFields st (hasByteLayout info) (elements info) 0 initMerge s2
                      True); [exact G2|auto].
          -- apply (wp_mergeFields_OK fuel rec st (hasByteLayout info) (elements info) 0
                      initMerge 0 s2). split; [reflexivity|discriminate].
        * intros ms s3 [[[G3 Hall] W3] [Hno Hyes]]. wp_step. wp_step.
          assert (Hsingle : forall field, newTypes ms = [field] ->
                    (isStructTy field = true -> elements info = [field]) /\
                    (intLike isClientType sts0 field ->
                     isIntegerTy field = true \/ isStructTy field = true ->
                     forall e, e ∈ elements info -> intLike isClientType sts0 e)).
          { intros field Hn.
            assert (Hshape : isArrayTy field = true \/ isIntegerTy field = true).
            { destruct (hasMergedArrays ms) eqn:Hm.
              - destruct (Hyes eq_refl) as [_ Hf]. now apply Hf.
              - specialize (Hno eq_refl). rewrite Hn in Hno. simpl in Hno.
                apply Nat.ltb_lt in Hlen. lia. }
            split.
            - intros Hs. destruct Hshape; destruct field; discriminate.
            - intros _ [Hi|Hs]; [|destruct Hshape; destruct field; discriminate].
              apply Hall. rewrite Hn. constructor; [exact Hi|constructor]. }
          destruct (hasMergedArrays ms).
          -- wp_step. wp_step. wp_step. wp_step. wp_step. split; [split|split].
             ++ apply (good_frame s3); [exact G3|apply termInv_set_members, G3|reflexivity].
             ++ transitivity s3; [exact W3|apply grows_set_members].
             ++ discriminate.
             ++ intros field Hn _. now apply Hsingle.
          -- wp_step. split; [now split|]. split; [discriminate|].
             intros field Hn _. now apply Hsingle.
      + wp_step. split; [split; [exact G2|reflexivity]|]. split; [discriminate|].
        intros field Hn _. simpl in Hn. split; [auto|].
        intros Hint _ e He. rewrite Hn in He. apply list_elem_of_singleton in He. now subst. }
  intros [tys newStructKind] s3 ((G3 & W3) & Hkind & Hsingle). simpl in Hkind, Hsingle.
  apply wp_grows; [exact W3|]. wp_step.
  apply (wp_mono _ (fun c s' => (good s' /\
                      forall r, c = inl r -> typesMapping s' !! StructTy st = Some r) /\
                      grows s3 s')).
  { destruct tys as [|field [|]];
      try (wp_step; split; [split; [exact G3|discriminate]|reflexivity]).
    destruct (hasAsmJS info) eqn:Hasm; simpl;
      [wp_step; split; [split; [exact G3|discriminate]|reflexivity]|].
    destruct (Hsingle field eq_refl eq_refl) as [H1 H2].
    now apply good_collapseSingleField. }
  intros collapsed s4 [[G4 Hc4] W4]. apply wp_grows; [exact W4|].
  destruct collapsed as [r|tys']; [wp_step; split; [auto|reflexivity]|].
  wp_step.
  apply (wp_mono _ (fun _ s' => good s' /\ grows s4 s')).
  { destruct (directBase info) as [base|]; [|wp_step; split; [exact G4|reflexivity]].
    wp_step. eapply wp_mono; [now apply rec_good'|]. intros r s5 G5. wp_step. exact G5. }
  intros newDirectBase s5 [G5 W5]. apply wp_grows; [exact W5|].
  wp_step. unfold setBody. wp_step. wp_step.
  split; [|etransitivity; [apply grows_set_structs|apply grows_setMapping]].
  split; [|apply lookup_insert_eq].
  apply good_setMapping_final; [|exact Hkind|now apply intResult_other].
  destruct G5 as [I5 J5]. split; [|eapply intInv_same; [|exact J5]; reflexivity].
  apply termInv_setBody; [exact I5|exact HnewSt0|].
  assert (W25 : grows s2 s5).
  { transitivity s3; [exact W3|]. now transitivity s4. }
  apply W25. unfold s2. simpl. apply elem_of_union. left. now apply elem_of_singleton.
Qed.

Lemma good_rewriteType_body t s :
  good s ->
  wp (rewriteType_body isClientType isJSExportedType getTypeAllocSize fuel rec t)
     (fun r s' => (good s' /\ grows s s') /\ intResult isClientType sts0 t r) s.
Proof.
  intros G. unfold rewriteType_body. wp_step. wp_step. wp_step. wp_step.
  assert (Hfinal : forall s1 ret kind, good s1 -> grows s s1 -> kind <> COLLAPSING ->
            intResult isClientType sts0 t (mkInfo ret kind) ->
            wp (CacheAndReturn t ret kind)
               (fun r s' => (good s' /\ grows s s') /\ intResult isClientType sts0 t r) s1).
  { intros s1 ret kind G1 W1 Hk Hr. wp_step. split; [split|exact Hr].
    - now apply good_setMapping_final.
    - transitivity s1; [exact W1|apply grows_setMapping]. }
  destruct (typesMapping s !! t) as [found|] eqn:Hm.
  - destruct (decide (elementMappingKind found = COLLAPSING)) as [Hk|Hk].
    + destruct (isStructTy (mappedType found)) eqn:Hs.
      * wp_step. wp_step. eapply wp_mono; [now apply rec_good|].
        intros r s1 [GW R1]. split; [exact GW|]. intros Hint.
        destruct (ti_tentative _ _ (proj1 G) t found Hm Hk Hs) as (st & info & -> & Hst & Hel).
        split; [|now right]. econstructor; [exact Hst| |].
        -- exact (ii_client _ _ _ (proj2 G) st found Hm Hk).
        -- intros f Hf. rewrite Hel in Hf. apply list_elem_of_singleton in Hf. subst f.
           now apply R1.
      * wp_step. wp_step. wp_step.
        assert (Hr : intResult isClientType sts0 t (mkInfo (mappedType found) COLLAPSING_BUT_USED)).
        { intros Hint. exact (good_entry s t found G Hm Hint). }
        split; [split|exact Hr].
        -- now apply good_setMapping_final.
        -- apply grows_setMapping.
    + wp_step. split; [split; [exact G|reflexivity]|]. exact (good_entry s t found G Hm).
  - destruct t as [| | |bits|elt|elt num|ret params varArg|st].
    + apply Hfinal; [exact G|reflexivity|discriminate|now apply intResult_other].
    + apply Hfinal; [exact G|reflexivity|discriminate|now apply intResult_other].
    + apply Hfinal; [exact G|reflexivity|discriminate|now apply intResult_other].
    + apply Hfinal; [exact G|reflexivity|discriminate|].
      intros _. split; [constructor|now left].
    + wp_step. eapply wp_mono; [now apply rec_good'|]. intros r s1 [G1 W1].
      destruct (mappedType r) eqn:Hr; try destruct (decide _);
        (apply Hfinal; [exact G1|exact W1|discriminate|now apply intResult_other]).
    + wp_step. eapply wp_mono; [now apply rec_good'|]. intros r s1 [G1 W1].
      destruct (mappedType r) eqn:Hr; try destruct (decide _);
        (apply Hfinal; [exact G1|exact W1|discriminate|now apply intResult_other]).
    + wp_step. eapply wp_mono; [now apply rec_good'|]. intros r s1 [G1 W1].
      wp_step. eapply wp_mono; [now apply good_mapM'|]. intros ps s2 [G2 W2].
      apply Hfinal; [exact G2|now transitivity s1|discriminate|now apply intResult_other].
    + eapply wp_mono.
      * apply good_rewriteStruct; [exact G|].
        apply negb_true_iff, bool_decide_eq_false in H. exact H.
      * intros r s1 [[G1 Hentry] W1]. split; [now split|].
        exact (good_entry s1 _ r G1 Hentry).
Qed.

End IntWalk.

Section IntInvariant.

Variable isClientType : type -> bool.
Variable isJSExportedType : nat -> bool.
Variable getTypeAllocSize : type -> N.
Variable sts0 : gmap nat StructInfo.
Hypothesis HbyValue : byValueOK isClientType sts0.

(** A call of [rewriteType] keeps the invariant, and a result whose
    mapped type is an integer is the result for an integer-like type. *)
Lemma rewriteType_good fuel : forall t s,
  good isClientType sts0 s ->
  wp (rewriteType isClientType isJSExportedType getTypeAllocSize fuel t)
     (fun r s' => (good isClientType sts0 s' /\ grows s s') /\
                  intResult isClientType sts0 t r) s.
Proof.
  induction fuel as [|fuel IH]; intros t s G; [exact I|].
  simpl. now apply good_rewriteType_body.
Qed.

End IntInvariant.

(** ** Address computations *)

(** The type that index [idx] selects inside [t], and the type that a
    list of indexes selects: the typing rule of address computations. *)
Definition component (sts : gmap nat StructInfo) (t : type) (idx : value) : option type :=
  match t with
  | StructTy st =>
      match sts !! st, constantIndex idx with
      | Some info, Some i => elements info !! i
      | _, _ => None
      end
  | _ => getSequentialElementType t
  end.

Fixpoint indexedType (sts : gmap nat StructInfo) (t : type) (idxs : list value)
    : option type :=
  match idxs with
  | [] => Some t
  | idx :: idxs' =>
      match component sts t idx with
      | Some c => indexedType sts c idxs'
      | None => None
      end
  end.

Lemma intLike_component isClientType sts0 t idx c :
  intLike isClientType sts0 t -> component sts0 t idx = Some c ->
  intLike isClientType sts0 c.
Proof.
  intros Ht Hc. destruct Ht as [bits|e n He|st info Hst Hcl Hf]; simpl in Hc.
  - discriminate.
  - now injection Hc as <-.
  - rewrite Hst in Hc. destruct (constantIndex idx) as [i|]; [|discriminate].
    apply Hf. eapply list_elem_of_lookup_2. exact Hc.
Qed.

(** The invariant of the pass while it rewrites constants and
    instructions: the invariants of [rewriteType], in a state without
    transient entries. *)
Definition passInv (isClientType : type -> bool) (isJSExportedType : nat -> bool)
    (sts0 : gmap nat StructInfo) (s : state) : Prop :=
  good isClientType sts0 s /\ stateInv isClientType isJSExportedType sts0 s /\
  noTransient s.

Lemma passInv_old isClientType isJSExportedType sts0 s id info :
  passInv isClientType isJSExportedType sts0 s -> sts0 !! id = Some info ->
  structs s !! id = Some info.
Proof. intros [[T _] _] H. now destruct (ti_old _ _ T id info H). Qed.

Section IntGEP.

Variable isClientType : type -> bool.
Variable isJSExportedType : nat -> bool.
Variable getTypeAllocSize : type -> N.
Variable getElementOffset : nat -> nat -> N.
Variable sts0 : gmap nat StructInfo.
Hypothesis HbyValue : byValueOK isClientType sts0.
Variable fuel : nat.
Variable insertionPoint : bool.
Variable targetType : type.

Local Abbreviation rewriteType' :=
  (rewriteType isClientType isJSExportedType getTypeAllocSize fuel).
Local Abbreviation gepIndexes' :=
  (gepIndexes isClientType isJSExportedType getTypeAllocSize getElementOffset fuel
     insertionPoint targetType).
Local Abbreviation good' := (passInv isClientType isJSExportedType sts0).
Local Abbreviation intLike' := (intLike isClientType sts0).

(** The residual offset is nonzero only on the way into an integer-like
    type. *)
Definition residualOK (t : type) (idxs : list value) (r : list value * N) (s' : state)
    : Prop :=
  good' s' /\
  (snd r <> 0 -> forall T, indexedType sts0 t idxs = Some T -> intLike' T).

Lemma wp_rewriteType_pass t s (Q : TypeMappingInfo -> state -> Prop) :
  good' s ->
  (forall r s', good' s' -> intResult isClientType sts0 t r ->
     typesMapping s' !! t = Some r -> Q r s') ->
  wp (rewriteType' t) Q s.
Proof.
  intros (G & Hinv & Hnt) HQ. apply run_wp. intros r s' Hrun.
  destruct (wp_run _ _ _ _ _
              (rewriteType_good isClientType isJSExportedType getTypeAllocSize sts0
                 HbyValue fuel t s G) Hrun) as [[G' _] R].
  destruct (wp_run _ _ _ _ _
              (rewriteType_keeps isClientType isJSExportedType getTypeAllocSize sts0
                 fuel t s) Hrun) as [[E K] Hres].
  apply HQ; [|exact R|now apply (collapsed_entry t s r s')].
  split; [exact G'|]. split; [now apply K|]. eapply noTransient_extends; eauto.
Qed.

Lemma wp_rewriteType_good t s (Q : TypeMappingInfo -> state -> Prop) :
  good' s ->
  (forall r s', good' s' -> intResult isClientType sts0 t r -> Q r s') ->
  wp (rewriteType' t) Q s.
Proof. intros G HQ. apply wp_rewriteType_pass; [exact G|]. intros r s' G' R _. now apply HQ. Qed.

Lemma AddIndex_offset V gs gs' :
  AddIndex insertionPoint V gs = Some gs' ->
  integerOffset gs' = integerOffset gs /\ curType gs' = curType gs.
Proof.
  unfold AddIndex. destruct (addToLastIndex gs).
  - destruct (updateBack _ _); [|discriminate]. now intros [= <-].
  - now intros [= <-].
Qed.

Lemma AddMultipliedIndex_offset V n gs gs' :
  AddMultipliedIndex insertionPoint V n gs = Some gs' ->
  integerOffset gs' = integerOffset gs /\ curType gs' = curType gs.
Proof.
  unfold AddMultipliedIndex. destruct (combine _ _ _ _); [|discriminate].
  apply AddIndex_offset.
Qed.

Lemma addZeroForArrayTarget_offset gs (off : GEPState -> N)
    (Q : list value * N -> state -> Prop) s :
  (forall gs', integerOffset gs' = integerOffset gs -> Q (newIndexes gs', off gs') s) ->
  wp (gs' ← addZeroForArrayTarget insertionPoint targetType gs;
      mret (newIndexes gs', off gs')) Q s.
Proof.
  intros HQ. unfold addZeroForArrayTarget. destruct (isArrayTy targetType).
  - wp_step. wp_step. wp_step. apply HQ. now destruct (AddIndex_offset _ _ _ H).
  - wp_step. wp_step. wp_step. now apply HQ.
Qed.

Lemma byteLayoutIndexes_good baseTypeSize idxs : forall gs s,
  good' s ->
  wp (byteLayoutIndexes getTypeAllocSize getElementOffset insertionPoint baseTypeSize idxs gs)
     (fun _ s' => good' s') s.
Proof.
  induction idxs as [|idx idxs IH]; intros gs s G; simpl.
  - wp_step. exact G.
  - wp_step. destruct (curType gs); repeat wp_step; now apply IH.
Qed.

Definition residualFrom (gs : GEPState) (idxs : list value) (r : list value * N)
    (s' : state) : Prop :=
  good' s' /\
  ((integerOffset gs <> 0 -> intLike' (curType gs)) ->
   snd r <> 0 -> forall T, indexedType sts0 (curType gs) idxs = Some T -> intLike' T).

Lemma wrap8_nonzero n : wrap8 n <> 0 -> n <> 0.
Proof. intros H ->. now apply H. Qed.

Lemma wp_advanceType idx gs (Q : GEPState -> state -> Prop) s :
  good' s ->
  (forall ty, (forall c, component sts0 (curType gs) idx = Some c -> c = ty) ->
     Q (setCurType ty gs) s) ->
  wp (advanceType idx gs) Q s.
Proof.
  intros G HQ. unfold advanceType, component in *.
  destruct (curType gs) as [| | | | | | |st] eqn:Hcur;
    try (wp_step; wp_step; wp_step; simpl in *; apply HQ; congruence).
  wp_step. wp_step. wp_step. wp_step. wp_step. wp_step. apply HQ.
  intros c Hc. destruct (sts0 !! st) as [info0|] eqn:Hst; [|discriminate].
  pose proof (passInv_old _ _ _ _ _ _ G Hst) as Hold1.
  destruct (constantIndex idx); [|discriminate]. congruence.
Qed.

Lemma gepIndexes_residual idxs : forall i gs s,
  good' s -> wp (gepIndexes' idxs i gs) (residualFrom gs idxs) s.
Proof.
  induction idxs as [|idx idxs IH]; intros i gs s G.
  - simpl. wp_step. unfold checkTarget. wp_step.
    apply wp_rewriteType_good; [exact G|]. intros r s1 G1 _. wp_step.
    apply addZeroForArrayTarget_offset. intros gs' Ho. split; [exact G1|].
    simpl. intros Hpre Hoff T [= <-]. apply Hpre. rewrite <- Ho.
    now apply wrap8_nonzero.
  - (* The rest of the walk, once this level has left [gs1]. *)
    assert (Hcont : forall gs1 s1,
              good' s1 -> curType gs1 = curType gs ->
              wp (gs2 ← advanceType idx gs1; gepIndexes' idxs (S i) gs2)
                 (fun r s' => good' s' /\
                    ((integerOffset gs1 <> 0 ->
                      forall c, component sts0 (curType gs) idx = Some c -> intLike' c) ->
                     snd r <> 0 ->
                     forall T, indexedType sts0 (curType gs) (idx :: idxs) = Some T ->
                               intLike' T)) s1).
    { intros gs1 s1 G1 Hcur. wp_step. apply wp_advanceType; [exact G1|].
      intros ty Hty. rewrite Hcur in Hty.
      eapply wp_mono; [apply (IH (S i) (setCurType ty gs1) s1 G1)|].
      intros r s2 [G2 H2]. split; [exact G2|]. intros Hcomp Hoff T HT. simpl in HT.
      destruct (component sts0 (curType gs) idx) as [c|] eqn:Hc; [|discriminate].
      pose proof (Hty c eq_refl) as ->.
      apply H2; [|exact Hoff|exact HT]. simpl. intros Ho. now apply (Hcomp Ho ty). }
    (* A level that leaves the offset as it was. *)
    assert (Hsame : forall gs1 s1,
              good' s1 -> curType gs1 = curType gs -> integerOffset gs1 = integerOffset gs ->
              wp (gs2 ← advanceType idx gs1; gepIndexes' idxs (S i) gs2)
                 (residualFrom gs (idx :: idxs)) s1).
    { intros gs1 s1 G1 Hcur Hoff. eapply wp_mono; [now apply Hcont|].
      intros r s2 [G2 H2]. split; [exact G2|]. intros Hpre. apply H2.
      rewrite Hoff. intros Ho c Hc. eapply intLike_component; eauto. }
    assert (Hflat : forall s1 (info : TypeMappingInfo), good' s1 ->
               wp (elt ← liftOption (getSequentialElementType (curType gs));
                   oldInfo ← rewriteType' elt;
                   let oldTypeSize := wrap32 (getTypeAllocSize (mappedType oldInfo)) in
                   newElt ← liftOption (getSequentialElementType (mappedType info));
                   let elementSize := wrap32 (getTypeAllocSize newElt) in
                   _ ← assert (negb (N.eqb elementSize 0));
                   _ ← assert (N.eqb (oldTypeSize mod elementSize) 0);
                   gs1 ← liftOption (AddMultipliedIndex insertionPoint idx
                                       (oldTypeSize / elementSize) gs);
                   gs2 ← advanceType idx (setAddToLastIndex gs1);
                   gepIndexes' idxs (S i) gs2) (residualFrom gs (idx :: idxs)) s1).
    { intros s1 info G1. wp_step. wp_step. wp_step.
      apply wp_rewriteType_good; [exact G1|]. intros oldInfo s2 G2 _.
      cbv zeta. wp_step. wp_step. wp_step. wp_step. wp_step. wp_step. wp_step. wp_step.
      destruct (AddMultipliedIndex_offset _ _ _ _ H3) as [Ho Hc].
      apply Hsame; [exact G2|exact Hc|exact Ho]. }
    simpl. wp_step. apply wp_rewriteType_good; [exact G|]. intros info s1 G1 R1.
    destruct (elementMappingKind info) eqn:Hk.
    + wp_step. wp_step. destruct (AddIndex_offset _ _ _ H) as [Ho Hc]. now apply Hsame.
    + now apply Hsame.
    + wp_step.
    + wp_step.
    + assert (Hzero : forall gs0 s2, good' s2 ->
                wp (gs' ← addZeroForArrayTarget insertionPoint targetType gs0;
                    mret (newIndexes gs', 0)) (residualFrom gs (idx :: idxs)) s2).
      { intros gs0 s2 G2. apply (addZeroForArrayTarget_offset gs0 (fun _ => 0)).
        intros gs' _. split; [exact G2|]. intros _ Hoff. now destruct Hoff. }
      wp_step. wp_step. destruct (curType gs) as [| | | | | | |st] eqn:Hcur; try wp_step.
      destruct (decide (mappedType info = targetType)) as [Ht|Ht]; [now apply Hzero|].
      wp_step. wp_step.
      destruct (baseTypesForByteLayout s1 !! st) as [[baseType|]|]; try wp_step.
      destruct (isArrayTy (mappedType info)); unfold negb.
      * wp_step.
        pose proof (byteLayoutIndexes_good (wrap32 (getTypeAllocSize baseType))
                      (idx :: idxs) gs s1 G1) as Hb.
        simpl in Hb. rewrite Hcur in Hb.
        eapply wp_mono; [exact Hb|]. intros gs1 s2 G2.
        wp_step. unfold checkTarget. wp_step.
        apply wp_rewriteType_good; [exact G2|]. intros r s3 G3 _. wp_step.
        now apply Hzero.
      * wp_step. wp_step. wp_step. split; [exact G1|]. intros _ Hoff. now destruct Hoff.
    + wp_step. wp_step. now apply Hflat.
    + now apply Hflat.
    + destruct (curType gs) as [| | | | | | |oldStruct] eqn:Hcur; try wp_step.
      do 10 wp_step.
      apply (wp_mono _ (fun gs1 s' => s' = s1 /\ integerOffset gs1 = integerOffset gs /\
                                      curType gs1 = StructTy oldStruct)).
      { destruct (decide _).
        - wp_step.
          match goal with
          | Hadd : AddIndex _ _ _ = Some _ |- _ =>
              destruct (AddIndex_offset _ _ _ Hadd) as [Ho Hc]
          end. rewrite Hc. auto.
        - wp_step. wp_step. wp_step. auto. }
      intros gs1 s1' (-> & Ho1 & Hc1). wp_step. wp_step. wp_step.
      apply wp_rewriteType_good; [exact G1|]. intros mapped s2 G2 R2. wp_step.
      apply (wp_mono _ (fun gs2 s' => s' = s2 /\ curType gs2 = StructTy oldStruct /\
                (isIntegerTy (mappedType mapped) = false ->
                 integerOffset gs2 = integerOffset gs))).
      { destruct (isIntegerTy (mappedType mapped)).
        - wp_step. simpl. rewrite Hc1. split; [reflexivity|]. split; [reflexivity|].
          discriminate.
        - destruct (negb _).
          + wp_step. wp_step. wp_step. simpl.
            match goal with
            | Hadd : AddIndex _ _ gs1 = Some _ |- _ =>
                destruct (AddIndex_offset _ _ _ Hadd) as [Ho Hc]
            end. rewrite Hc, Ho, Hc1, Ho1. auto.
          + wp_step. rewrite Hc1, Ho1. auto. }
      intros gs2 s2' (-> & Hc2 & Ho2).
      eapply wp_mono; [now apply Hcont|].
      intros r s3 [G3 H3']. split; [exact G3|]. intros Hpre. rewrite Hcur in *.
      apply H3'.
      intros Hoff c Hc. destruct (isIntegerTy (mappedType mapped)) eqn:Hint.
      * destruct (R2 Hint) as [Hlike _].
        simpl in Hc.
        destruct (sts0 !! oldStruct) as [info0'|] eqn:Hst; [|discriminate].
        pose proof (passInv_old _ _ _ _ _ _ G1 Hst) as Hold1.
        destruct (constantIndex idx); [|discriminate].
        match goal with
        | Hl : intLike _ _ ?x |- _ => replace c with x by congruence; exact Hl
        end.
      * rewrite (Ho2 eq_refl) in Hoff. eapply intLike_component; eauto.
    + destruct (curType gs) as [| | | | | | |oldStruct] eqn:Hcur; try wp_step.
      do 10 wp_step.
      apply (wp_mono _ (fun gs1 s' => s' = s1 /\ integerOffset gs1 = integerOffset gs /\
                                      curType gs1 = StructTy oldStruct)).
      { destruct (decide _).
        - wp_step.
          match goal with
          | Hadd : AddIndex _ _ _ = Some _ |- _ =>
              destruct (AddIndex_offset _ _ _ Hadd) as [Ho Hc]
          end. rewrite Hc. auto.
        - wp_step. wp_step. wp_step. auto. }
      intros gs1 s1' (-> & Ho1 & Hc1). wp_step. wp_step. wp_step.
      apply wp_rewriteType_good; [exact G1|]. intros mapped s2 G2 R2. wp_step.
      apply (wp_mono _ (fun gs2 s' => s' = s2 /\ curType gs2 = StructTy oldStruct /\
                (isIntegerTy (mappedType mapped) = false ->
                 integerOffset gs2 = integerOffset gs))).
      { destruct (isIntegerTy (mappedType mapped)).
        - wp_step. simpl. rewrite Hc1. split; [reflexivity|]. split; [reflexivity|].
          discriminate.
        - destruct (negb _).
          + wp_step. wp_step. wp_step. simpl.
            match goal with
            | Hadd : AddIndex _ _ gs1 = Some _ |- _ =>
                destruct (AddIndex_offset _ _ _ Hadd) as [Ho Hc]
            end. rewrite Hc, Ho, Hc1, Ho1. auto.
          + wp_step. rewrite Hc1, Ho1. auto. }
      intros gs2 s2' (-> & Hc2 & Ho2).
      eapply wp_mono; [now apply Hcont|].
      intros r s3 [G3 H3']. split; [exact G3|]. intros Hpre. rewrite Hcur in *.
      apply H3'.
      intros Hoff c Hc. destruct (isIntegerTy (mappedType mapped)) eqn:Hint.
      * destruct (R2 Hint) as [Hlike _].
        simpl in Hc.
        destruct (sts0 !! oldStruct) as [info0'|] eqn:Hst; [|discriminate].
        pose proof (passInv_old _ _ _ _ _ _ G1 Hst) as Hold1.
        destruct (constantIndex idx); [|discriminate].
        match goal with
        | Hl : intLike _ _ ?x |- _ => replace c with x by congruence; exact Hl
        end.
      * rewrite (Ho2 eq_refl) in Hoff. eapply intLike_component; eauto.
Qed.

End IntGEP.

(** ** Constants *)

(** *** The typing of constants *)

Section OperandsTyped.

Variable wt : constant -> bool.

(** The operands of a struct constant have the types of the fields. *)
Fixpoint operandsTyped (ops : list constant) (tys : list type) : bool :=
  match ops, tys with
  | [], [] => true
  | op :: ops', ty :: tys' =>
      bool_decide (getType op = ty) && wt op && operandsTyped ops' tys'
  | _, _ => false
  end.

End OperandsTyped.

(** The typing rules of the constants that matter for a residual offset:
    a struct constant has one operand of the type of each field, all the
    way down, and the type of an address expression is a pointer to the
    type that its indexes select from the original type of its base. *)
Fixpoint wellTyped (sts0 : gmap nat StructInfo) (globalTypeMapping : gmap nat type)
    (C : constant) : bool :=
  match C with
  | ConstantExpr GetElementPtr ty (ptrOperand :: indexes) =>
      match sequenceOptions (map constantToValue indexes) with
      | Some idxs =>
          match indexedType sts0 (getOriginalGlobalType globalTypeMapping ptrOperand) idxs with
          | Some elt => bool_decide (ty = PointerTy elt)
          | None => false
          end
      | None => false
      end
  | ConstantStruct (StructTy st) ops =>
      match sts0 !! st with
      | Some info => operandsTyped (wellTyped sts0 globalTypeMapping) ops (elements info)
      | None => false
      end
  | _ => true
  end.

Lemma wellTyped_gep sts0 gtm ty ptrOperand indexes :
  wellTyped sts0 gtm (ConstantExpr GetElementPtr ty (ptrOperand :: indexes)) = true ->
  exists idxs elt,
    sequenceOptions (map constantToValue indexes) = Some idxs /\
    indexedType sts0 (getOriginalGlobalType gtm ptrOperand) idxs = Some elt /\
    ty = PointerTy elt.
Proof.
  cbn [wellTyped]. destruct (sequenceOptions _) as [idxs|]; [|discriminate].
  destruct (indexedType _ _ _) as [elt|] eqn:He; [|discriminate].
  intros H%bool_decide_eq_true. exists idxs, elt. auto.
Qed.

Lemma wellTyped_struct sts0 gtm st ops element :
  wellTyped sts0 gtm (ConstantStruct (StructTy st) ops) = true ->
  ops !! 0%nat = Some element ->
  exists info field,
    sts0 !! st = Some info /\ elements info !! 0%nat = Some field /\
    getType element = field /\ wellTyped sts0 gtm element = true.
Proof.
  cbn [wellTyped]. destruct (sts0 !! st) as [info|]; [|discriminate].
  destruct ops as [|op ops]; [discriminate|]. intros H [= ->].
  destruct (elements info) as [|field tys] eqn:He; [discriminate|]. simpl in H.
  apply andb_true_iff in H as [H _]. apply andb_true_iff in H as [Ht Hw].
  apply bool_decide_eq_true in Ht. exists info, field. rewrite He. auto.
Qed.

(** *** Runs that keep the invariant of the pass *)

Lemma wp_all {A} (m : M A) (Q : A -> state -> Prop) s : (forall a s', Q a s') -> wp m Q s.
Proof. intros H. apply run_wp. intros a s' _. apply H. Qed.

Ltac steps_auto R :=
  repeat first
    [ assumption
    | apply (steps_ret R) | apply (steps_abort R) | apply (steps_outOfFuel R)
    | apply (steps_get R) | apply (steps_assert R) | apply (steps_liftOption R)
    | apply (steps_getStruct R)
    | apply (steps_bind R); [|intros ?]
    | match goal with
      | |- steps _ (match ?x with _ => _ end) => destruct x
      end ].

Section Holds.

Variable isClientType : type -> bool.
Variable isJSExportedType : nat -> bool.
Variable getTypeAllocSize : type -> N.
Variable getElementOffset : nat -> nat -> N.
Variable sts0 : gmap nat StructInfo.
Hypothesis HbyValue : byValueOK isClientType sts0.

Local Abbreviation passInv' := (passInv isClientType isJSExportedType sts0).

(** A run that leaves the invariant of the pass as it found it. *)
Definition holds (s s' : state) : Prop := passInv' s -> passInv' s'.

#[local] Instance holds_preorder : PreOrder holds.
Proof. split; [intros s H; exact H|intros s1 s2 s3 H1 H2 H; auto]. Qed.

Lemma rewriteType_holds fuel t :
  steps holds (rewriteType isClientType isJSExportedType getTypeAllocSize fuel t).
Proof.
  intros s. apply run_wp. intros r s' Hrun G.
  refine (wp_run _ (fun _ s' => passInv' s') _ _ _ _ Hrun).
  apply (wp_rewriteType_good isClientType isJSExportedType getTypeAllocSize sts0 HbyValue
           fuel t s _ G).
  auto.
Qed.

Lemma rewriteGEPIndexes_holds fuel insertionPoint targetType ptrType idxs :
  steps holds (rewriteGEPIndexes isClientType isJSExportedType getTypeAllocSize
                 getElementOffset fuel insertionPoint targetType ptrType idxs).
Proof.
  intros s. apply run_wp. intros r s' Hrun G.
  exact (proj1 (wp_run _ _ _ _ _
                  (gepIndexes_residual isClientType isJSExportedType getTypeAllocSize
                     getElementOffset sts0 HbyValue fuel insertionPoint targetType idxs
                     0%nat _ s G) Hrun)).
Qed.

Lemma pushAllBaseConstantElements_holds fuel : forall C baseType,
  steps holds (pushAllBaseConstantElements fuel C baseType).
Proof.
  induction fuel as [|fuel IH]; intros C baseType; simpl; [apply (steps_outOfFuel holds)|].
  assert (Hall : forall cs,
            steps holds (foldM (fun acc c =>
                                  r ← pushAllBaseConstantElements fuel c baseType;
                                  mret (acc ++ r)) cs [])).
  { intros cs. apply (steps_foldM holds). intros b a. steps_auto holds. apply IH. }
  destruct (decide _); [apply (steps_ret holds)|].
  destruct (getType C); try apply (steps_abort holds).
  - destruct C; try apply (steps_abort holds); apply Hall.
  - apply (steps_bind holds); [apply (steps_getStruct holds)|]. intros info.
    destruct C; try apply (steps_abort holds); apply Hall.
Qed.

Section ConstantBody.

Variable fuel : nat.
Variable globalsMapping : gmap nat constant.
Variable globalTypeMapping : gmap nat type.
Variable rec : constant -> M (constant * N).
Hypothesis rec_holds : forall C, steps holds (rec C).

Lemma rewriteOperand_holds C : steps holds (rewriteOperand rec C).
Proof. unfold rewriteOperand. steps_auto holds. apply rec_holds. Qed.

Lemma rewriteStructElement_holds newTypeInfo mapping hasMergedArrays acc element :
  steps holds (rewriteStructElement rec newTypeInfo mapping hasMergedArrays acc element).
Proof.
  unfold rewriteStructElement. destruct acc as [newElements i].
  apply (steps_bind holds); [apply rewriteOperand_holds|]. intros newElement.
  cbv zeta. steps_auto holds.
Qed.

Lemma rewriteConstantExpr_holds newTypeInfo opcode ty ops :
  steps holds (rewriteConstantExpr isClientType isJSExportedType getTypeAllocSize
                 getElementOffset fuel globalTypeMapping rec newTypeInfo opcode ty ops).
Proof.
  unfold rewriteConstantExpr. destruct opcode.
  - destruct ops as [|ptrOperand indexes]; [apply (steps_abort holds)|]. cbv zeta.
    apply (steps_bind holds); [apply rewriteOperand_holds|]. intros newPtrOperand.
    apply (steps_bind holds); [apply (steps_liftOption holds)|]. intros elt.
    apply (steps_bind holds); [apply rewriteType_holds|]. intros targetType.
    apply (steps_bind holds); [apply (steps_liftOption holds)|]. intros idxs.
    apply (steps_bind holds); [apply rewriteGEPIndexes_holds|]. intros [newIndexes off].
    steps_auto holds.
  - destruct ops as [|srcOperand ops]; [apply (steps_abort holds)|].
    apply (steps_bind holds); [apply rewriteOperand_holds|]. intros newSrc. apply (steps_ret holds).
  - apply (steps_ret holds).
  - apply (steps_bind holds); [|intros newOperands; apply (steps_ret holds)].
    apply (steps_mapM' holds). apply rewriteOperand_holds.
Qed.

Lemma rewriteConstantStruct_holds newTypeInfo C st ops :
  steps holds (rewriteConstantStruct fuel rec newTypeInfo C st ops).
Proof.
  unfold rewriteConstantStruct. destruct (decide _).
  - apply (steps_bind holds); [apply (steps_get holds)|]. intros s.
    destruct (baseTypesForByteLayout s !! st) as [[baseType|]|]; try apply (steps_abort holds).
    apply (steps_bind holds); [apply pushAllBaseConstantElements_holds|]. intros newElements.
    steps_auto holds.
  - destruct (decide _).
    + steps_auto holds. apply rec_holds.
    + apply (steps_bind holds); [apply (steps_get holds)|]. intros s. cbv zeta.
      apply (steps_bind holds); [apply (steps_assert holds)|]. intros _.
      apply (steps_bind holds); [apply (steps_foldM holds); intros; apply rewriteStructElement_holds|].
      intros [newElements i]. steps_auto holds.
Qed.

Lemma rewriteRetypedConstant_holds newTypeInfo C :
  steps holds (rewriteRetypedConstant fuel rec newTypeInfo C).
Proof.
  unfold rewriteRetypedConstant. destruct C; try apply (steps_abort holds).
  - apply (steps_ret holds).
  - steps_auto holds.
  - apply (steps_ret holds).
  - destruct ty; try apply (steps_abort holds). apply rewriteConstantStruct_holds.
  - apply (steps_bind holds); [apply (steps_assert holds)|]. intros _.
    apply (steps_bind holds); [|intros newElements; apply (steps_ret holds)].
    apply (steps_foldM holds). intros acc element.
    apply (steps_bind holds); [apply rewriteOperand_holds|]. intros newElement. steps_auto holds.
Qed.

Lemma rewriteConstant_body_holds C :
  steps holds (rewriteConstant_body isClientType isJSExportedType getTypeAllocSize
                 getElementOffset fuel globalsMapping globalTypeMapping rec C).
Proof.
  unfold rewriteConstant_body.
  destruct C;
    try (apply (steps_bind holds); [apply rewriteType_holds|]; intros newTypeInfo;
         destruct (decide _); [apply (steps_ret holds)|apply rewriteRetypedConstant_holds]).
  - steps_auto holds.
  - apply (steps_ret holds).
  - apply (steps_bind holds); [apply rewriteType_holds|]. intros newTypeInfo.
    apply rewriteConstantExpr_holds.
Qed.

End ConstantBody.

Lemma rewriteConstant_holds fuel globalsMapping globalTypeMapping : forall C,
  steps holds (rewriteConstant isClientType isJSExportedType getTypeAllocSize
                 getElementOffset fuel globalsMapping globalTypeMapping C).
Proof.
  induction fuel as [|fuel IH]; intros C; simpl; [apply (steps_outOfFuel holds)|].
  now apply rewriteConstant_body_holds.
Qed.

End Holds.

(** *** The residual offset of a constant *)

Section ConstantResidual.

Variable isClientType : type -> bool.
Variable isJSExportedType : nat -> bool.
Variable getTypeAllocSize : type -> N.
Variable getElementOffset : nat -> nat -> N.
Variable sts0 : gmap nat StructInfo.
Variable globalsMapping : gmap nat constant.
Variable globalTypeMapping : gmap nat type.
Hypothesis HbyValue : byValueOK isClientType sts0.
(** [TypeSupport::isClientType] holds of named structs only. *)
Hypothesis client_struct : forall t, isClientType t = true -> isStructTy t = true.

Local Abbreviation passInv' := (passInv isClientType isJSExportedType sts0).
Local Abbreviation intLike' := (intLike isClientType sts0).
Local Abbreviation rewriteConstant' :=
  (rewriteConstant isClientType isJSExportedType getTypeAllocSize getElementOffset).
Local Abbreviation holds' := (holds isClientType isJSExportedType sts0).

Lemma intLike_not_client T : intLike' T -> isClientType T = false.
Proof.
  intros [bits|e n _|st info _ Hcl _]; [| |exact Hcl].
  - destruct (isClientType (IntegerTy bits)) eqn:E; [|reflexivity].
    apply client_struct in E. discriminate.
  - destruct (isClientType (ArrayTy e n)) eqn:E; [|reflexivity].
    apply client_struct in E. discriminate.
Qed.

Lemma mayCollapse_pointer st info T :
  mayCollapse isClientType isJSExportedType st info (PointerTy T) = true ->
  isClientType T = true.
Proof.
  unfold mayCollapse. simpl. now rewrite orb_false_r.
Qed.

(** The only field of a struct whose entry says [COLLAPSED]. *)
Lemma collapsed_field s st r :
  passInv' s -> typesMapping s !! StructTy st = Some r -> elementMappingKind r = COLLAPSED ->
  exists info field,
    sts0 !! st = Some info /\ elements info = [field] /\
    mayCollapse isClientType isJSExportedType st info field = true.
Proof.
  intros (_ & Hinv & _) Hr Hk.
  assert (Hc : isCollapseKind (elementMappingKind r) = true) by now rewrite Hk.
  destruct (col_struct _ _ _ _ _ _ _ (inv_memo _ _ _ _ Hinv st r Hr Hc))
    as (info & field & Hst & _ & _ & _ & Hmay & _ & Hel & _).
  exists info, field. split; [exact Hst|]. split; [|exact Hmay].
  destruct Hel as [Hel|[Ht _]]; [rewrite Hk; discriminate|exact Hel|].
  rewrite Hk in Ht. discriminate.
Qed.

(** A residual offset other than zero comes with an address expression
    whose type is a pointer to an integer held by value. *)
Definition residualZero (C : constant) (r : constant * N) : Prop :=
  snd r <> 0 ->
  isGEPExpr C = true /\ exists T, getType C = PointerTy T /\ intLike' T.

Lemma residualZero_zero C c : residualZero C (c, 0).
Proof. intros H. now destruct H. Qed.

Ltac zero :=
  repeat first
    [ apply wp_ret, residualZero_zero
    | apply wp_abort | apply wp_outOfFuel
    | apply wp_bind, wp_all; intros ? ?
    | match goal with
      | |- wp (match ?x with _ => _ end) _ _ => destruct x
      end ].

Lemma rewriteConstant_residual fuel : forall C s,
  passInv' s -> wellTyped sts0 globalTypeMapping C = true ->
  wp (rewriteConstant' fuel globalsMapping globalTypeMapping C)
     (fun r _ => residualZero C r) s.
Proof.
  induction fuel as [|fuel IH]; intros C s G W; [exact I|].
  change (wp (rewriteConstant_body isClientType isJSExportedType getTypeAllocSize
                getElementOffset fuel globalsMapping globalTypeMapping
                (rewriteConstant' fuel globalsMapping globalTypeMapping) C)
             (fun r _ => residualZero C r) s).
  unfold rewriteConstant_body.
  destruct C as [id ty|id ty|opcode ty ops|ty|ty|ty|ty ops|ty ops|ty elts|bits v|ty v];
    try solve [unfold rewriteRetypedConstant; zero].
  - (* expressions *)
    apply wp_bind. apply wp_rewriteType_good with (sts0 := sts0); [exact HbyValue|exact G|].
    intros newTypeInfo s1 G1 _. unfold rewriteConstantExpr.
    destruct opcode; try solve [zero].
    destruct ops as [|ptrOperand indexes]; [apply wp_abort|]. cbv zeta.
    apply wp_bind.
    eapply wp_steps;
      [apply (rewriteOperand_holds isClientType isJSExportedType sts0), rewriteConstant_holds;
       exact HbyValue|].
    intros newPtrOperand s2 H2. specialize (H2 G1).
    apply wp_bind, wp_liftOption. intros elt Helt.
    apply wp_bind. apply wp_rewriteType_good with (sts0 := sts0); [exact HbyValue|exact H2|].
    intros targetType s3 G3 _.
    apply wp_bind, wp_liftOption. intros idxs Hidxs.
    apply wp_bind. unfold rewriteGEPIndexes.
    eapply wp_mono;
      [apply (gepIndexes_residual isClientType isJSExportedType getTypeAllocSize
                getElementOffset sts0 HbyValue); exact G3|].
    intros [newIndexes off] s4 [_ R]. zero.
    apply wp_ret. intros Hoff. split; [reflexivity|].
    destruct (wellTyped_gep _ _ _ _ _ W) as (idxs' & elt' & Hi & Ht & ->).
    exists elt'. split; [reflexivity|].
    assert (idxs' = idxs) as -> by congruence.
    apply R; [now intros []|exact Hoff|exact Ht].
  - (* struct constants *)
    apply wp_bind. apply wp_rewriteType_pass with (sts0 := sts0); [exact HbyValue|exact G|].
    intros newTypeInfo s1 G1 _ Hentry.
    destruct (decide _); [zero|]. unfold rewriteRetypedConstant.
    destruct ty as [| | | | | | |st]; try solve [zero]. unfold rewriteConstantStruct.
    destruct (decide (elementMappingKind newTypeInfo = BYTE_LAYOUT_TO_ARRAY)); [zero|].
    destruct (decide (elementMappingKind newTypeInfo = COLLAPSED)) as [Hk|Hk]; [|zero].
    apply wp_bind, wp_getStruct. intros info Hinfo.
    apply wp_bind, wp_assert. intros Hlen.
    apply wp_bind, wp_liftOption. intros element Helement.
    destruct (wellTyped_struct _ _ _ _ _ W Helement) as (info' & field & Hst & Hf & Hty & We).
    eapply wp_mono; [apply IH; [exact G1|exact We]|].
    intros r s2 R Hoff. exfalso.
    destruct (R Hoff) as (_ & T & HT & Hint).
    destruct (collapsed_field _ _ _ G1 Hentry Hk) as (info2 & field2 & Hst2 & Hel & Hmay).
    assert (info2 = info') as -> by congruence.
    rewrite Hel in Hf. injection Hf as ->.
    rewrite <- Hty, HT in Hmay. apply mayCollapse_pointer in Hmay.
    rewrite (intLike_not_client _ Hint) in Hmay. discriminate.
Qed.

End ConstantResidual.

(** *** The invariant at the start, and a test for the structs held by value *)

Lemma passInv_start isClientType isJSExportedType s :
  typesMapping s = ∅ -> newStructTypes s = ∅ ->
  map_Forall (fun id _ => (id < nextStruct s)%nat) (structs s) ->
  passInv isClientType isJSExportedType (structs s) s.
Proof.
  intros Hm Hn Hb. split; [split|split].
  - now apply termInv_start.
  - constructor; intros k i Hi; rewrite Hm, lookup_empty in Hi; discriminate.
  - now apply stateInv_initial.
  - intros k i Hi. rewrite Hm, lookup_empty in Hi. discriminate.
Qed.

#[global] Instance heldOK_dec isClientType sts0 t : Decision (heldOK isClientType sts0 t).
Proof.
  induction t as [| | | |e _|e IH n|ret _ params varArg|st]; simpl;
    try exact (left I); [exact IH|apply _].
Defined.

Lemma byValueOK_intro isClientType sts0 :
  map_Forall (fun _ info => Forall (heldOK isClientType sts0) (elements info)) sts0 ->
  byValueOK isClientType sts0.
Proof.
  intros H st info f Hst Hf.
  exact (proj1 (list.Forall_forall _ _) (H st info Hst) f Hf).
Qed.


(** ** A wrapper around the address of a client object *)

(** Struct 0 wraps a pointer to the client struct 1; global 7 is a client
    object. *)
Definition wrapperModule : state :=
  moduleState [plainStruct [PointerTy (StructTy 1)]; clientStruct].
Definition clientGlobals : gmap nat constant :=
  {[ 7%nat := GlobalVariable 7 (PointerTy (StructTy 1)) ]}.
Definition clientAddress : constant :=
  ConstantExpr GetElementPtr (PointerTy (StructTy 1))
    [GlobalVariable 7 (PointerTy (StructTy 1)); ConstantIntC 32 0].
Definition wrappedAddress : constant := ConstantStruct (StructTy 0) [clientAddress].

Definition rewriteConstantEx (isClientType : type -> bool) (globalsMapping : gmap nat constant)
    : constant -> M (constant * N) :=
  rewriteConstant isClientType notExported (exampleSize (fun _ => 0)) noOffsets 10
    globalsMapping ∅.

Definition wrappedAddressRewritten : state :=
  Eval vm_compute in
    stateOf (rewriteConstantEx clientOne clientGlobals wrappedAddress wrapperModule)
      wrapperModule.


(** The claim C10 fails as stated: the branch of a collapsed struct does
    not require a zero residual of its operand.  The second of two bytes
    that share a 16-bit integer is at bit 8 of it, and the address of that
    byte comes with the residual offset 8; a wrapper of a client pointer
    given that address as its operand (which no constant of a module is,
    the types do not fit) is no [GetElementPtr] expression and comes with
    the residual offset 8 as well. *)
Definition bytesModule : state :=
  moduleState [plainStruct [PointerTy (StructTy 1)]; clientStruct; plainStruct [i8; i8]].
Definition bytesGlobals : gmap nat constant :=
  {[ 7%nat := GlobalVariable 7 (PointerTy i16) ]}.
Definition secondByte : constant :=
  ConstantExpr GetElementPtr (PointerTy i8)
    [GlobalVariable 7 (PointerTy (StructTy 2)); ConstantIntC 32 0; ConstantIntC 32 1].


(** * Further properties of the pass *)

(** ** What a call of [rewriteType] leaves alone *)

(** X1. A call of [rewriteType] that returns leaves the tables of the
    analysis as they were: the recorded down-casts and the escaping
    fields.  The structs it registers as new are ones it has created
    itself (they are numbered from [nextStruct] on, and the counter never
    goes back), and it keeps every member mapping that was recorded. *)
Theorem rewriteType_frame
    (isClientType : type -> bool) (isJSExportedType : nat -> bool)
    (getTypeAllocSize : type -> N) (fuel : nat) (t : type) (s : state)
    (r : TypeMappingInfo) (s' : state) :
  rewriteType isClientType isJSExportedType getTypeAllocSize fuel t s = Ok r s' ->
  downcastSourceToDestinationsMapping s' = downcastSourceToDestinationsMapping s /\
  escapingFields s' = escapingFields s /\
  (nextStruct s <= nextStruct s')%nat /\
  (forall id, id ∈ newStructTypes s' -> id ∈ newStructTypes s \/ (nextStruct s <= id)%nat) /\
  (forall st l, membersMappingData s !! st = Some l -> membersMappingData s' !! st = Some l).
Proof.
  intros Hrun.
  destruct (wp_run _ _ _ _ _
              (rewriteType_extends isClientType isJSExportedType getTypeAllocSize fuel t s)
              Hrun) as [[D E N S W V M T B] _].
  auto 10.
Qed.

Lemma rewriteType_frame_witness :
  downcastSourceToDestinationsMapping downcastRewritten
  = downcastSourceToDestinationsMapping downcastAnalysed /\
  escapingFields downcastRewritten = escapingFields downcastAnalysed /\
  (nextStruct downcastAnalysed <= nextStruct downcastRewritten)%nat /\
  (forall id, id ∈ newStructTypes downcastRewritten ->
     id ∈ newStructTypes downcastAnalysed \/ (nextStruct downcastAnalysed <= id)%nat) /\
  (forall st l, membersMappingData downcastAnalysed !! st = Some l ->
     membersMappingData downcastRewritten !! st = Some l).
Proof.
  apply (rewriteType_frame noClient notExported (exampleSize (fun _ => 0)) 10 (StructTy 0)
           downcastAnalysed (mkInfo i32 COLLAPSED) downcastRewritten).
  vm_compute. reflexivity.
Defined.

(** X2. A call of [rewriteType] that returns never removes an entry of
    the memo table and never changes one whose kind is not [COLLAPSING];
    a [COLLAPSING] entry is kept as it is when its tentative type is a
    struct, and is otherwise either kept or promoted to
    [COLLAPSING_BUT_USED] with the same mapped type. *)
Theorem rewriteType_memo_stable
    (isClientType : type -> bool) (isJSExportedType : nat -> bool)
    (getTypeAllocSize : type -> N) (fuel : nat) (t : type) (s : state)
    (r : TypeMappingInfo) (s' : state) (k : type) (i : TypeMappingInfo) :
  rewriteType isClientType isJSExportedType getTypeAllocSize fuel t s = Ok r s' ->
  typesMapping s !! k = Some i ->
  (elementMappingKind i <> COLLAPSING \/ isStructTy (mappedType i) = true ->
   typesMapping s' !! k = Some i) /\
  (typesMapping s' !! k = Some i \/
   typesMapping s' !! k = Some (mkInfo (mappedType i) COLLAPSING_BUT_USED)).
Proof.
  intros Hrun Hk.
  destruct (wp_run _ _ _ _ _
              (rewriteType_extends isClientType isJSExportedType getTypeAllocSize fuel t s)
              Hrun) as [E _].
  assert (Hx : None <> Some k) by discriminate.
  destruct (ext_memo _ _ _ E k i Hx Hk) as [H|(i' & (Hc & Hs & ->) & H)].
  - split; [intros _; exact H|now left].
  - split; [|now right]. intros [Hn|Hst]; congruence.
Qed.

(** The state after the pointer to the outer wrapper has been rewritten
    as well. *)
Definition nestedWrapperPointer : state :=
  Eval vm_compute in
    stateOf (rewriteTypeEx 10 (PointerTy (StructTy 0)) nestedWrapperRewritten)
      nestedWrapperRewritten.

Lemma rewriteType_memo_stable_witness :
  (elementMappingKind (mkInfo i32 COLLAPSED) <> COLLAPSING \/
   isStructTy (mappedType (mkInfo i32 COLLAPSED)) = true ->
   typesMapping nestedWrapperPointer !! StructTy 0 = Some (mkInfo i32 COLLAPSED)) /\
  (typesMapping nestedWrapperPointer !! StructTy 0 = Some (mkInfo i32 COLLAPSED) \/
   typesMapping nestedWrapperPointer !! StructTy 0
   = Some (mkInfo (mappedType (mkInfo i32 COLLAPSED)) COLLAPSING_BUT_USED)).
Proof.
  apply (rewriteType_memo_stable noClient notExported (exampleSize (fun _ => 0)) 10
           (PointerTy (StructTy 0)) nestedWrapperRewritten
           (mkInfo (PointerTy i32) IDENTICAL) nestedWrapperPointer (StructTy 0)
           (mkInfo i32 COLLAPSED)).
  - vm_compute. reflexivity.
  - vm_compute. reflexivity.
Defined.

(** ** Loads and stores through a shared integer, in general *)

(** X3. For a field of any width that lies inside a shared integer of at
    most 32 bits, at any bit offset, the rewritten load reads back what
    the rewritten store has written: the value of the stored operand. *)
Theorem merged_store_load_roundtrip (V : value) (wordBits : N) (ptr : nat) (offset : N)
    (locals mem : nat -> N) :
  wordBits <= 32 -> offset + valueBits V <= wordBits -> 0 < valueBits V ->
  evalValue mem locals V < 2 ^ valueBits V ->
  evalValue (execMergedStore V wordBits ptr offset locals mem) locals
    (rewriteMergedLoad (valueBits V) wordBits ptr offset)
  = evalValue mem locals V.
Proof. apply store_then_load. Qed.

Lemma merged_store_load_roundtrip_witness :
  evalValue (execMergedStore (Local 5 0) 24 3 11 (fun _ => 21) (fun _ => 0xFFFFFF)) (fun _ => 21)
    (rewriteMergedLoad 5 24 3 11)
  = 21.
Proof.
  apply (merged_store_load_roundtrip (Local 5 0) 24 3 11 (fun _ => 21) (fun _ => 0xFFFFFF));
    vm_compute; try reflexivity; discriminate.
Defined.

(** X4. A rewritten store changes nothing but its own field: a field of
    the same shared integer that does not overlap the stored one is read
    as before, and no other address of the memory is written. *)
Theorem merged_store_preserves_others (V : value) (wordBits : N) (ptr : nat) (offset : N)
    (locals mem : nat -> N) (oldBits offset' : N) (ptr' : nat) :
  wordBits <= 32 -> offset + valueBits V <= wordBits -> 0 < valueBits V ->
  evalValue mem locals V < 2 ^ valueBits V ->
  offset' + oldBits <= wordBits -> 0 < oldBits ->
  offset' + oldBits <= offset \/ offset + valueBits V <= offset' ->
  ptr' <> ptr ->
  evalValue (execMergedStore V wordBits ptr offset locals mem) locals
    (rewriteMergedLoad oldBits wordBits ptr offset')
  = evalValue mem locals (rewriteMergedLoad oldBits wordBits ptr offset') /\
  execMergedStore V wordBits ptr offset locals mem ptr' = mem ptr'.
Proof.
  intros HW Hfit Hb Hx Hfit' Hb' Hdisj Hne. split.
  - now apply store_then_load_other.
  - unfold execMergedStore. destruct (Nat.eqb_spec ptr' ptr); [contradiction|reflexivity].
Qed.

Lemma merged_store_preserves_others_witness :
  evalValue (execMergedStore (Local 5 0) 24 3 11 (fun _ => 21) (fun _ => 0xABCDEF)) (fun _ => 21)
    (rewriteMergedLoad 8 24 3 16)
  = evalValue (fun _ => 0xABCDEF) (fun _ => 21) (rewriteMergedLoad 8 24 3 16) /\
  execMergedStore (Local 5 0) 24 3 11 (fun _ => 21) (fun _ => 0xABCDEF) 4%nat = 0xABCDEF.
Proof.
  apply (merged_store_preserves_others (Local 5 0) 24 3 11 (fun _ => 21) (fun _ => 0xABCDEF)
           8 16 4).
  - vm_compute. discriminate.
  - vm_compute. discriminate.
  - reflexivity.
  - reflexivity.
  - vm_compute. discriminate.
  - reflexivity.
  - right. vm_compute. discriminate.
  - discriminate.
Defined.

(** ** Types without structs *)

(** The types built from scalars, pointers, arrays and function types
    only. *)
Fixpoint structFree (t : type) : bool :=
  match t with
  | PointerTy e | ArrayTy e _ => structFree e
  | FunctionTy r ps _ => structFree r && forallb structFree ps
  | StructTy _ => false
  | _ => true
  end.

(** The nesting depth of a type. *)
Fixpoint depth (t : type) : nat :=
  match t with
  | PointerTy e | ArrayTy e _ => S (depth e)
  | FunctionTy r ps _ => S (Nat.max (depth r) (list_max (map depth ps)))
  | _ => 0
  end.

(** What the pass makes of such a type: arrays of arrays become one
    array, a pointer to an array becomes a pointer to its element. *)
Fixpoint flatType (t : type) : type :=
  match t with
  | PointerTy e =>
      match flatType e with
      | ArrayTy a _ => PointerTy a
      | e' => PointerTy e'
      end
  | ArrayTy e n =>
      match flatType e with
      | ArrayTy a m => ArrayTy a (n * m)
      | e' => ArrayTy e' n
      end
  | FunctionTy r ps v => FunctionTy (flatType r) (map flatType ps) v
  | _ => t
  end.

Definition flatKind (t : type) : MAPPING_KIND :=
  match t with
  | PointerTy e => if isArrayTy (flatType e) then POINTER_FROM_ARRAY else IDENTICAL
  | ArrayTy e _ => if isArrayTy (flatType e) then FLATTENED_ARRAY else IDENTICAL
  | _ => IDENTICAL
  end.

Definition flatInfo (t : type) : TypeMappingInfo := mkInfo (flatType t) (flatKind t).

(** A memo table whose entries for such types are the expected ones. *)
Definition flatMemo (tm : gmap type TypeMappingInfo) : Prop :=
  forall k i, tm !! k = Some i -> structFree k = true -> i = flatInfo k.

Lemma flatKind_not_collapsing t : flatKind t <> COLLAPSING.
Proof. destruct t; simpl; try discriminate; destruct (isArrayTy _); discriminate. Qed.

Lemma flatMemo_insert tm t :
  flatMemo tm -> flatMemo (<[t := flatInfo t]> tm).
Proof.
  intros H k i Hk Hs. destruct (decide (t = k)) as [->|Hne].
  - rewrite lookup_insert_eq in Hk. now injection Hk as <-.
  - rewrite lookup_insert_ne in Hk by exact Hne. now apply H.
Qed.

Section Flat.

Variable isClientType : type -> bool.
Variable isJSExportedType : nat -> bool.
Variable getTypeAllocSize : type -> N.

Local Abbreviation rewriteType' := (rewriteType isClientType isJSExportedType getTypeAllocSize).

(** The outcome of a call on a type without structs. *)
Definition flatRun (fuel : nat) (t : type) (s : state) : Prop :=
  exists tm',
    rewriteType' fuel t s = Ok (flatInfo t) (set_typesMapping (fun _ => tm') s) /\
    typesMapping s ⊆ tm' /\ flatMemo tm' /\ tm' !! t = Some (flatInfo t).

Lemma state_eta s : set_typesMapping (fun _ => typesMapping s) s = s.
Proof. now destruct s. Qed.

Lemma flat_insert_sub (tm tm1 : gmap type TypeMappingInfo) t :
  tm ⊆ tm1 -> flatMemo tm1 -> structFree t = true -> tm ⊆ <[t := flatInfo t]> tm1.
Proof.
  intros Hsub Hm Hs. etransitivity; [exact Hsub|].
  destruct (tm1 !! t) as [i|] eqn:E.
  - rewrite (Hm t i E Hs) in E. now rewrite insert_id.
  - now apply insert_subseteq.
Qed.

Lemma cache_flat s tm1 t ret kind :
  typesMapping s ⊆ tm1 -> flatMemo tm1 -> structFree t = true ->
  flatInfo t = mkInfo ret kind ->
  exists tm',
    CacheAndReturn t ret kind (set_typesMapping (fun _ => tm1) s)
    = Ok (flatInfo t) (set_typesMapping (fun _ => tm') s) /\
    typesMapping s ⊆ tm' /\ flatMemo tm' /\ tm' !! t = Some (flatInfo t).
Proof.
  intros Hsub Hm Hs Hi. exists (<[t := flatInfo t]> tm1). rewrite Hi.
  split; [reflexivity|]. rewrite <- Hi. split; [|split].
  - now apply flat_insert_sub.
  - now apply flatMemo_insert.
  - apply lookup_insert_eq.
Qed.

Lemma flatRun_at fuel t s tm1 :
  flatRun fuel t (set_typesMapping (fun _ => tm1) s) ->
  exists tm',
    rewriteType' fuel t (set_typesMapping (fun _ => tm1) s)
    = Ok (flatInfo t) (set_typesMapping (fun _ => tm') s) /\
    tm1 ⊆ tm' /\ flatMemo tm' /\ tm' !! t = Some (flatInfo t).
Proof. intros (tm' & H1 & H2 & H3 & H4). exists tm'. auto. Qed.

Lemma mapM_flat fuel s :
  (forall t s, (depth t < fuel)%nat -> structFree t = true -> flatMemo (typesMapping s) ->
     flatRun fuel t s) ->
  forall ps tm1,
    Forall (fun p => (depth p < fuel)%nat /\ structFree p = true) ps -> flatMemo tm1 ->
    exists tm2,
      mapM' (fun p => r ← rewriteType' fuel p; mret (mappedType r)) ps
        (set_typesMapping (fun _ => tm1) s)
      = Ok (map flatType ps) (set_typesMapping (fun _ => tm2) s) /\
      tm1 ⊆ tm2 /\ flatMemo tm2.
Proof.
  intros IH ps. induction ps as [|p ps IHps]; intros tm1 Hps Hm; simpl.
  - exists tm1. split; [reflexivity|]. split; [reflexivity|exact Hm].
  - inversion Hps as [|? ? [Hd Hs] Hrest]; subst.
    destruct (flatRun_at fuel p s tm1
                (IH p (set_typesMapping (fun _ => tm1) s) Hd Hs Hm))
      as (tm' & Hrun & Hsub & Hm' & _).
    destruct (IHps tm' Hrest Hm') as (tm2 & Hrun2 & Hsub2 & Hm2).
    exists tm2. split; [|split; [now transitivity tm'|exact Hm2]].
    unfold mbind at 1, M_bind at 1. unfold mbind at 1, M_bind at 1.
    rewrite Hrun. simpl.
    unfold mbind, M_bind in Hrun2 |- *. now rewrite Hrun2.
Qed.

Lemma rewriteType_flat fuel : forall t s,
  (depth t < fuel)%nat -> structFree t = true -> flatMemo (typesMapping s) -> flatRun fuel t s.
Proof.
  induction fuel as [|fuel IH]; intros t s Hd Hs Hm; [lia|].
  unfold flatRun. simpl. unfold rewriteType_body.
  rewrite (bind_Ok get _ s s s eq_refl).
  assert (Ha : negb match t with
                    | StructTy id => bool_decide (id ∈ newStructTypes s)
                    | _ => false
                    end = true) by (destruct t; try reflexivity; discriminate).
  rewrite Ha. simpl.
  rewrite (bind_Ok (mret tt) _ s tt s eq_refl).
  destruct (typesMapping s !! t) as [found|] eqn:Hfound.
  - (* the memo table knows the type *)
    rewrite (Hm t found Hfound Hs).
    destruct (decide (elementMappingKind (flatInfo t) = COLLAPSING)) as [Hk|_];
      [now apply flatKind_not_collapsing in Hk|].
    exists (typesMapping s). rewrite state_eta.
    split; [reflexivity|]. split; [reflexivity|]. split; [exact Hm|].
    now rewrite <- (Hm t found Hfound Hs).
  - pose proof (cache_flat s (typesMapping s) t) as Hleaf. rewrite state_eta in Hleaf.
    specialize (fun ret kind => Hleaf ret kind (reflexivity _) Hm Hs).
    destruct t as [| | |b|e|e n|r ps v|id]; try (now apply Hleaf); [| | |discriminate].
    + (* pointers *)
      simpl in Hd, Hs.
      destruct (IH e s) as (tm1 & Hrun & Hsub & Hm1 & He); [lia|exact Hs|exact Hm|].
      rewrite (bind_Ok _ _ _ _ _ Hrun). simpl.
      pose proof (fun ret kind => cache_flat s tm1 (PointerTy e) ret kind Hsub Hm1 Hs) as Hc.
      unfold flatInfo in Hc |- *. simpl in Hc |- *.
      destruct (flatType e) as [| | |b'|e'|a m|r' ps' v'|id'] eqn:Hf; simpl in Hc |- *;
        try (destruct (decide _) as [Heq|_]; [subst e|]); now apply Hc.
    + (* arrays *)
      simpl in Hd, Hs.
      destruct (IH e s) as (tm1 & Hrun & Hsub & Hm1 & He); [lia|exact Hs|exact Hm|].
      rewrite (bind_Ok _ _ _ _ _ Hrun). simpl.
      pose proof (fun ret kind => cache_flat s tm1 (ArrayTy e n) ret kind Hsub Hm1 Hs) as Hc.
      unfold flatInfo in Hc |- *. simpl in Hc |- *.
      destruct (flatType e) as [| | |b'|e'|a m|r' ps' v'|id'] eqn:Hf; simpl in Hc |- *;
        try (destruct (decide _) as [Heq|_]; [subst e|]); now apply Hc.
    + (* function types *)
      simpl in Hd, Hs. apply andb_true_iff in Hs as [Hr Hps].
      destruct (IH r s) as (tm1 & Hrun & Hsub & Hm1 & _); [lia|exact Hr|exact Hm|].
      rewrite (bind_Ok _ _ _ _ _ Hrun). simpl.
      destruct (mapM_flat fuel s IH ps tm1) as (tm2 & Hrun2 & Hsub2 & Hm2); [|exact Hm1|].
      { rewrite forallb_forall in Hps. apply Forall_forall. intros p Hp. split.
        - assert (depth p <= list_max (map depth ps))%nat; [|lia].
          clear -Hp. induction ps as [|q ps IHps]; [destruct Hp|].
          simpl. destruct Hp as [->|Hp]; [lia|]. specialize (IHps Hp). lia.
        - now apply Hps. }
      rewrite (bind_Ok _ _ _ _ _ Hrun2).
      apply (cache_flat s tm2 (FunctionTy r ps v)); [now transitivity tm1|exact Hm2| |reflexivity].
      simpl. rewrite Hr. exact Hps.
Qed.

End Flat.

(** No array of arrays and no pointer to an array, at any depth. *)
Fixpoint wellFlat (t : type) : bool :=
  match t with
  | PointerTy e | ArrayTy e _ => negb (isArrayTy e) && wellFlat e
  | FunctionTy r ps _ => wellFlat r && forallb wellFlat ps
  | _ => true
  end.

(** The number of elements of the innermost element type in an array. *)
Fixpoint leafCount (t : type) : N :=
  match t with
  | ArrayTy e n => n * leafCount e
  | _ => 1
  end.

Lemma flatType_wellFlat t : structFree t = true -> wellFlat (flatType t) = true.
Proof.
  induction t as [| | |b|e IH|e n IH|r ps v IHr IHps|id] using type_ind_nested;
    simpl; intros Hs; try reflexivity; try discriminate.
  - specialize (IH Hs). destruct (flatType e); simpl in IH |- *; exact IH.
  - specialize (IH Hs). destruct (flatType e); simpl in IH |- *; exact IH.
  - apply andb_true_iff in Hs as [Hr Hps]. rewrite (IHr Hr). simpl.
    rewrite forallb_forall in Hps |- *. intros x Hx. apply in_map_iff in Hx.
    destruct Hx as (p & <- & Hp). rewrite Forall_forall in IHps. auto.
Qed.

Lemma flatType_leafCount t : leafCount (flatType t) = leafCount t.
Proof.
  induction t as [| | |b|e IH|e n IH|r ps v IHr IHps|id] using type_ind_nested;
    simpl; try reflexivity.
  - now destruct (flatType e).
  - rewrite <- IH. destruct (flatType e); simpl; try reflexivity. lia.
Qed.

(** X5. On a type built without structs, from a memo table whose entries
    for such types are the ones this theorem gives, [rewriteType] returns
    as soon as its fuel exceeds the depth of the type, with no failed
    assertion: an array of arrays is mapped to one array of the product
    length ([FLATTENED_ARRAY]), a pointer to what becomes an array to a
    pointer to the element ([POINTER_FROM_ARRAY]), every other type to
    itself with its components mapped ([IDENTICAL]).  The call only adds
    entries to the memo table, records its own result, and leaves the rest
    of the state alone. *)
Theorem rewriteType_struct_free
    (isClientType : type -> bool) (isJSExportedType : nat -> bool)
    (getTypeAllocSize : type -> N) (fuel : nat) (t : type) (s : state) :
  structFree t = true -> flatMemo (typesMapping s) -> (depth t < fuel)%nat ->
  exists tm',
    rewriteType isClientType isJSExportedType getTypeAllocSize fuel t s
    = Ok (mkInfo (flatType t) (flatKind t)) (set_typesMapping (fun _ => tm') s) /\
    typesMapping s ⊆ tm' /\ flatMemo tm' /\
    tm' !! t = Some (mkInfo (flatType t) (flatKind t)).
Proof. intros Hs Hm Hd. now apply rewriteType_flat. Qed.

Definition nestedArrays : type := ArrayTy (ArrayTy (PointerTy (ArrayTy i32 4)) 3) 2.

Lemma rewriteType_struct_free_witness :
  exists tm',
    rewriteTypeEx 5 nestedArrays (moduleState [])
    = Ok (mkInfo (ArrayTy (PointerTy i32) 6) FLATTENED_ARRAY)
         (set_typesMapping (fun _ => tm') (moduleState [])) /\
    typesMapping (moduleState []) ⊆ tm' /\ flatMemo tm' /\
    tm' !! nestedArrays = Some (mkInfo (ArrayTy (PointerTy i32) 6) FLATTENED_ARRAY).
Proof.
  apply (rewriteType_struct_free noClient notExported (exampleSize (fun _ => 0)) 5
           nestedArrays (moduleState [])).
  - reflexivity.
  - intros k i Hk. exact (match lookup_empty_Some k i Hk with end).
  - simpl. lia.
Defined.

Lemma rewriteType_flat_wp isClientType isJSExportedType getTypeAllocSize fuel : forall t s,
  structFree t = true -> flatMemo (typesMapping s) ->
  wp (rewriteType isClientType isJSExportedType getTypeAllocSize fuel t)
     (fun r s' => r = flatInfo t /\ flatMemo (typesMapping s')) s.
Proof.
  induction fuel as [|fuel IH]; intros t s Hs Hm; [exact I|].
  simpl. unfold rewriteType_body. wp_step. wp_step. wp_step. wp_step.
  destruct (typesMapping s !! t) as [found|] eqn:Hfound.
  - rewrite (Hm t found Hfound Hs).
    destruct (decide _) as [Hk|_]; [now apply flatKind_not_collapsing in Hk|].
    wp_step. auto.
  - assert (Hc : forall s1 ret kind, flatMemo (typesMapping s1) ->
              flatInfo t = mkInfo ret kind ->
              wp (CacheAndReturn t ret kind)
                 (fun r s' => r = flatInfo t /\ flatMemo (typesMapping s')) s1).
    { intros s1 ret kind Hm1 Hi. wp_step. rewrite <- Hi. split; [reflexivity|].
      simpl. now apply flatMemo_insert. }
    destruct t as [| | |b|e|e n|r ps v|id]; try (now apply Hc); [| | |discriminate].
    + simpl in Hs. wp_step. eapply wp_mono; [now apply IH|]. intros r1 s1 [-> Hm1].
      specialize (Hc s1). unfold flatInfo in Hc |- *. simpl in Hc |- *.
      destruct (flatType e) eqn:Hf; simpl in Hc |- *;
        try (destruct (decide _) as [Heq|_]; [subst e|]); now apply Hc.
    + simpl in Hs. wp_step. eapply wp_mono; [now apply IH|]. intros r1 s1 [-> Hm1].
      specialize (Hc s1). unfold flatInfo in Hc |- *. simpl in Hc |- *.
      destruct (flatType e) eqn:Hf; simpl in Hc |- *;
        try (destruct (decide _) as [Heq|_]; [subst e|]); now apply Hc.
    + simpl in Hs. apply andb_true_iff in Hs as [Hr Hps].
      wp_step. eapply wp_mono; [now apply IH|]. intros r1 s1 [-> Hm1].
      wp_step.
      apply (wp_mono _ (fun l s' => l = map flatType ps /\ flatMemo (typesMapping s'))).
      * clear Hc Hfound. revert s1 Hm1. rewrite forallb_forall in Hps.
        induction ps as [|p ps IHps]; intros s1 Hm1; simpl.
        -- wp_step. auto.
        -- wp_step. wp_step. eapply wp_mono; [apply IH; [apply Hps; now left|exact Hm1]|].
           intros r2 s2 [-> Hm2]. wp_step. wp_step.
           eapply wp_mono; [apply IHps; [intros x Hx; apply Hps; now right|exact Hm2]|].
           intros l s3 [-> Hm3]. wp_step. auto.
      * intros l s2 [-> Hm2]. apply Hc; [exact Hm2|reflexivity].
Qed.

(** X6. The type that [rewriteType] returns for a type built without
    structs holds no array of arrays and no pointer to an array, at any
    depth, and as many innermost elements as the type it stands for. *)
Theorem rewriteType_struct_free_shape
    (isClientType : type -> bool) (isJSExportedType : nat -> bool)
    (getTypeAllocSize : type -> N) (fuel : nat) (t : type) (s : state)
    (r : TypeMappingInfo) (s' : state) :
  structFree t = true -> flatMemo (typesMapping s) ->
  rewriteType isClientType isJSExportedType getTypeAllocSize fuel t s = Ok r s' ->
  wellFlat (mappedType r) = true /\ leafCount (mappedType r) = leafCount t.
Proof.
  intros Hs Hm Hrun.
  destruct (wp_run _ _ _ _ _
              (rewriteType_flat_wp isClientType isJSExportedType getTypeAllocSize fuel t s
                 Hs Hm) Hrun) as [-> _].
  simpl. split; [now apply flatType_wellFlat|apply flatType_leafCount].
Qed.

Lemma rewriteType_struct_free_shape_witness :
  wellFlat (mappedType (mkInfo (ArrayTy (PointerTy i32) 6) FLATTENED_ARRAY)) = true /\
  leafCount (mappedType (mkInfo (ArrayTy (PointerTy i32) 6) FLATTENED_ARRAY))
  = leafCount nestedArrays.
Proof.
  apply (rewriteType_struct_free_shape noClient notExported (exampleSize (fun _ => 0)) 5
           nestedArrays (moduleState [])
           (mkInfo (ArrayTy (PointerTy i32) 6) FLATTENED_ARRAY)
           (stateOf (rewriteTypeEx 5 nestedArrays (moduleState [])) (moduleState []))).
  - reflexivity.
  - intros k i Hk. exact (match lookup_empty_Some k i Hk with end).
  - vm_compute. reflexivity.
Defined.

(** ** Runs that return *)

(** [returns m Q s]: the run of [m] from [s] gives a result, and [Q] holds
    of it. *)
Definition returns {A} (m : M A) (Q : A -> state -> Prop) (s : state) : Prop :=
  match m s with
  | Ok a s' => Q a s'
  | _ => False
  end.

Lemma returns_run {A} (m : M A) Q s :
  returns m Q s -> exists a s', m s = Ok a s' /\ Q a s'.
Proof. unfold returns. destruct (m s) as [a s'| |]; [eauto|contradiction..]. Qed.

Lemma run_returns {A} (m : M A) (Q : A -> state -> Prop) s a s' :
  m s = Ok a s' -> Q a s' -> returns m Q s.
Proof. unfold returns. now intros ->. Qed.

Lemma returns_ret {A} (a : A) (Q : A -> state -> Prop) s : Q a s -> returns (mret a) Q s.
Proof. exact id. Qed.

Lemma returns_bind {A B} (m : M A) (f : A -> M B) (Q : B -> state -> Prop) s :
  returns m (fun a s' => returns (f a) Q s') s -> returns (m ≫= f) Q s.
Proof. unfold returns, mbind, M_bind. now destruct (m s). Qed.

Lemma returns_mono {A} (m : M A) (Q Q' : A -> state -> Prop) s :
  returns m Q s -> (forall a s', Q a s' -> Q' a s') -> returns m Q' s.
Proof. unfold returns. destruct (m s); auto. Qed.

Lemma returns_get (Q : state -> state -> Prop) s : Q s s -> returns get Q s.
Proof. exact id. Qed.

Lemma returns_modify f (Q : unit -> state -> Prop) s : Q tt (f s) -> returns (modify f) Q s.
Proof. exact id. Qed.

Lemma returns_assert b (Q : unit -> state -> Prop) s :
  b = true -> Q tt s -> returns (assert b) Q s.
Proof. now intros ->. Qed.

Lemma returns_liftOption {A} (o : option A) (Q : A -> state -> Prop) s a :
  o = Some a -> Q a s -> returns (liftOption o) Q s.
Proof. now intros ->. Qed.

Lemma returns_wp {A} (m : M A) (Q Q' : A -> state -> Prop) s :
  returns m Q s -> wp m Q' s -> returns m (fun a s' => Q a s' /\ Q' a s') s.
Proof. unfold returns, wp. destruct (m s); auto. Qed.

(** ** Addresses into arrays of arrays *)

(** The array type with the lengths [dims], outermost first, over [T]. *)
Fixpoint nest (T : type) (dims : list N) : type :=
  match dims with
  | [] => T
  | d :: ds => ArrayTy (nest T ds) d
  end.

Definition product (dims : list N) : N := fold_right N.mul 1 dims.

(** The position, counted in innermost elements, that the indexes [vs]
    select inside an array with the lengths [dims]. *)
Fixpoint linearTail (dims vs : list N) : N :=
  match dims, vs with
  | _ :: ds, v :: vs' => v * product ds + linearTail ds vs'
  | _, _ => 0
  end.

Lemma flatType_not_array T : isArrayTy T = false -> isArrayTy (flatType T) = false.
Proof. destruct T; simpl; try reflexivity; try discriminate. now destruct (flatType T). Qed.

Lemma flatType_nest T d ds :
  isArrayTy T = false ->
  flatType (nest T (d :: ds)) = ArrayTy (flatType T) (product (d :: ds)).
Proof.
  intros HT. revert d. induction ds as [|d' ds IH]; intros d.
  - simpl. pose proof (flatType_not_array T HT) as H.
    destruct (flatType T); try discriminate; now rewrite N.mul_1_r.
  - change (nest T (d :: d' :: ds)) with (ArrayTy (nest T (d' :: ds)) d).
    cbn [flatType]. now rewrite IH.
Qed.

Lemma structFree_nest T dims : structFree (nest T dims) = structFree T.
Proof. induction dims; simpl; auto. Qed.

Lemma depth_nest T dims : depth (nest T dims) = (length dims + depth T)%nat.
Proof. induction dims; simpl; auto. Qed.

Lemma product_pos dims : Forall (fun d => 0 < d) dims -> 0 < product dims.
Proof. induction 1; simpl; [lia|]. unfold product in *. simpl. nia. Qed.

Section Linear.

Variable isClientType : type -> bool.
Variable isJSExportedType : nat -> bool.
Variable getTypeAllocSize : type -> N.
Variable getElementOffset : nat -> nat -> N.
Variable fuel : nat.
Variable T : type.
Hypothesis T_free : structFree T = true.
Hypothesis T_scalar : isArrayTy T = false.
(** The layout of arrays: as many elements, each of the size of the
    element type, which is not zero. *)
Hypothesis array_size : forall e n, getTypeAllocSize (ArrayTy e n) = n * getTypeAllocSize e.
Hypothesis T_size : getTypeAllocSize (flatType T) <> 0.

Local Abbreviation rewriteType' :=
  (rewriteType isClientType isJSExportedType getTypeAllocSize fuel).
Local Abbreviation gepIndexes' :=
  (gepIndexes isClientType isJSExportedType getTypeAllocSize getElementOffset fuel false
     (flatType T)).
Local Abbreviation sz := (getTypeAllocSize (flatType T)).

Lemma returns_rewriteType_flat t s (Q : TypeMappingInfo -> state -> Prop) :
  (depth t < fuel)%nat -> structFree t = true -> flatMemo (typesMapping s) ->
  (forall s', flatMemo (typesMapping s') -> Q (flatInfo t) s') ->
  returns (rewriteType' t) Q s.
Proof.
  intros Hd Hs Hm HQ.
  destruct (rewriteType_flat isClientType isJSExportedType getTypeAllocSize fuel t s Hd Hs Hm)
    as (tm' & Hrun & _ & Hm' & _).
  eapply run_returns; [exact Hrun|]. now apply HQ.
Qed.

Lemma wrap32_small n : n < 2 ^ 32 -> wrap32 n = n.
Proof. apply N.mod_small. Qed.

Lemma size_small P : 0 < P -> P * sz < 2 ^ 32 -> P < 2 ^ 32 /\ sz < 2 ^ 32.
Proof. intros HP H. assert (0 < sz) by (pose proof T_size; lia). split; nia. Qed.

(** The multiplier of a flattened level. *)
Lemma multiplier P :
  0 < P -> P * sz < 2 ^ 32 ->
  wrap32 (getTypeAllocSize (ArrayTy (flatType T) P)) / wrap32 sz = P /\
  N.eqb (wrap32 (getTypeAllocSize (ArrayTy (flatType T) P)) mod wrap32 sz) 0 = true /\
  negb (N.eqb (wrap32 sz) 0) = true.
Proof.
  intros HP H. destruct (size_small P HP H) as [H1 H2].
  rewrite array_size, !wrap32_small by assumption.
  split; [now apply N.div_mul|]. split.
  - apply N.eqb_eq. now apply N.Div0.mod_mul.
  - apply negb_true_iff, N.eqb_neq. exact T_size.
Qed.

Lemma linear_step acc v P L :
  ((acc + (v * (P mod 2 ^ 32)) mod 2 ^ 32) mod 2 ^ 32 + L) mod 2 ^ 32
  = (acc + (v * P + L)) mod 2 ^ 32.
Proof.
  rewrite N.Div0.add_mod_idemp_l.
  replace (acc + (v * (P mod 2 ^ 32)) mod 2 ^ 32 + L)
    with ((v * (P mod 2 ^ 32)) mod 2 ^ 32 + (acc + L)) by lia.
  rewrite N.Div0.add_mod_idemp_l, <- N.Div0.add_mod_idemp_l, N.Div0.mul_mod_idemp_r.
  rewrite N.Div0.add_mod_idemp_l. f_equal. lia.
Qed.

(** The levels inside the array, once the index of the pointer has left
    [acc] as the only new index. *)
Lemma walk_levels : forall dims vs i acc b s,
  length vs = length dims -> Forall (fun d => 0 < d) dims ->
  product dims * sz < 2 ^ 32 -> (length dims + depth T < fuel)%nat ->
  (dims <> [] -> b = true) -> acc < 2 ^ 32 -> flatMemo (typesMapping s) ->
  returns (gepIndexes' (map (ConstantInt 32) vs) i
             (mkGEP [ConstantInt 32 acc] b 0 (nest T dims)))
          (fun r s' => r = ([ConstantInt 32 ((acc + linearTail dims vs) mod 2 ^ 32)], 0) /\
                       flatMemo (typesMapping s')) s.
Proof.
  induction dims as [|d ds IH]; intros vs i acc b s Hlen Hpos Hfit Hfuel Hb Hacc Hm.
  - destruct vs; [|discriminate]. simpl.
    apply returns_bind. unfold checkTarget. apply returns_bind.
    apply returns_rewriteType_flat; [simpl in *; lia|exact T_free|exact Hm|].
    intros s1 Hm1. apply returns_assert; [now apply bool_decide_eq_true|].
    apply returns_bind. unfold addZeroForArrayTarget.
    rewrite (flatType_not_array T T_scalar). apply returns_ret. apply returns_ret.
    simpl. rewrite N.add_0_r, N.mod_small by exact Hacc. auto.
  - destruct vs as [|v vs]; [discriminate|]. simpl in Hlen. injection Hlen as Hlen.
    inversion Hpos as [|? ? Hd Hpos']; subst.
    assert (Hfit' : product ds * sz < 2 ^ 32).
    { unfold product in *. simpl in Hfit. nia. }
    specialize (Hb ltac:(discriminate)). subst b.
    cbn [map gepIndexes nest]. apply returns_bind. cbn [curType].
    apply returns_rewriteType_flat;
      [cbn [depth]; rewrite depth_nest; simpl in *; lia
      |simpl; now rewrite structFree_nest|exact Hm|].
    intros s1 Hm1. unfold flatInfo at 1. cbn [elementMappingKind mappedType curType].
    destruct ds as [|d' ds].
    + (* the innermost array: the index is added as it is *)
      assert (Hk : flatKind (ArrayTy T d) = IDENTICAL).
      { simpl. now rewrite (flatType_not_array T T_scalar). }
      cbn [nest]. rewrite Hk. apply returns_bind.
      eapply returns_liftOption; [reflexivity|].
      apply returns_bind. unfold advanceType. cbn [curType].
      apply returns_bind. eapply returns_liftOption; [reflexivity|]. apply returns_ret.
      destruct vs; [|discriminate].
      eapply returns_mono.
      * apply (IH [] (S i) ((acc + v) mod 2 ^ 32) false s1); try assumption;
          try reflexivity; [simpl in *; lia|contradiction|].
        apply N.mod_lt. discriminate.
      * intros r s2 [-> Hm2]. split; [|exact Hm2]. do 3 f_equal.
        simpl. unfold product. simpl.
        rewrite !N.add_0_r, N.mul_1_r. now rewrite N.Div0.mod_mod.
    + (* an array of arrays: the index counts whole inner arrays *)
      set (ds1 := d' :: ds) in *.
      assert (Hf1 : flatType (nest T ds1) = ArrayTy (flatType T) (product ds1))
        by (apply flatType_nest; exact T_scalar).
      assert (Hf2 : flatType (ArrayTy (nest T ds1) d)
                    = ArrayTy (flatType T) (product (d :: ds1)))
        by (apply (flatType_nest T d ds1); exact T_scalar).
      assert (Hk : flatKind (ArrayTy (nest T ds1) d) = FLATTENED_ARRAY).
      { unfold flatKind. now rewrite Hf1. }
      rewrite Hk. unfold flatInfo. cbn [mappedType]. rewrite Hf2.
      apply returns_bind. eapply returns_liftOption; [reflexivity|].
      apply returns_bind.
      apply returns_rewriteType_flat;
        [rewrite depth_nest; simpl in *; lia|now rewrite structFree_nest|exact Hm1|].
      intros s2 Hm2. unfold flatInfo. cbn [mappedType]. rewrite Hf1.
      apply returns_bind. eapply returns_liftOption; [reflexivity|].
      destruct (multiplier (product ds1)) as (Hmul & Hmod & Hnz);
        [now apply product_pos|exact Hfit'|].
      apply returns_bind. apply returns_assert; [exact Hnz|].
      apply returns_bind. apply returns_assert; [exact Hmod|].
      rewrite Hmul.
      apply returns_bind. eapply returns_liftOption; [reflexivity|].
      apply returns_bind. unfold advanceType. cbn [curType setAddToLastIndex].
      apply returns_bind. eapply returns_liftOption; [reflexivity|]. apply returns_ret.
      eapply returns_mono.
      * apply (IH vs (S i) ((acc + (v * (product ds1 mod 2 ^ 32)) mod 2 ^ 32) mod 2 ^ 32)
                 true s2); try assumption; try reflexivity; [simpl in *; lia|].
        apply N.mod_lt. discriminate.
      * intros r s3 [-> Hm3]. split; [|exact Hm3]. do 3 f_equal.
        cbn [linearTail]. apply linear_step.
Qed.

Lemma linear_start v P L :
  ((v * (P mod 2 ^ 32)) mod 2 ^ 32 + L) mod 2 ^ 32 = (v * P + L) mod 2 ^ 32.
Proof.
  rewrite N.Div0.add_mod_idemp_l, <- N.Div0.add_mod_idemp_l, N.Div0.mul_mod_idemp_r.
  now rewrite N.Div0.add_mod_idemp_l.
Qed.

Lemma walk_pointer dims v0 vs s :
  length vs = length dims -> Forall (fun d => 0 < d) dims ->
  product dims * sz < 2 ^ 32 -> (S (length dims + depth T) < fuel)%nat ->
  v0 < 2 ^ 32 -> flatMemo (typesMapping s) ->
  returns (rewriteGEPIndexes isClientType isJSExportedType getTypeAllocSize getElementOffset
             fuel false (flatType T) (PointerTy (nest T dims))
             (map (ConstantInt 32) (v0 :: vs)))
          (fun r s' =>
             r = ([ConstantInt 32 ((v0 * product dims + linearTail dims vs) mod 2 ^ 32)], 0) /\
             flatMemo (typesMapping s')) s.
Proof.
  intros Hlen Hpos Hfit Hfuel Hv0 Hm. unfold rewriteGEPIndexes.
  cbn [map gepIndexes]. apply returns_bind. cbn [curType].
  apply returns_rewriteType_flat;
    [cbn [depth]; rewrite depth_nest; lia|simpl; now rewrite structFree_nest|exact Hm|].
  intros s1 Hm1.
  destruct dims as [|d ds].
  - (* a pointer to one element *)
    assert (Hk : flatKind (PointerTy T) = IDENTICAL).
    { unfold flatKind. now rewrite (flatType_not_array T T_scalar). }
    cbn [nest]. unfold flatInfo. cbn [elementMappingKind]. rewrite Hk.
    apply returns_bind. eapply returns_liftOption; [reflexivity|].
    apply returns_bind. unfold advanceType. cbn [curType].
    apply returns_bind. eapply returns_liftOption; [reflexivity|]. apply returns_ret.
    destruct vs; [|discriminate].
    eapply returns_mono.
    + apply (walk_levels [] [] 1%nat v0 false s1); try assumption; try reflexivity;
        [simpl in *; lia|contradiction].
    + intros r s2 [-> Hm2]. split; [|exact Hm2]. do 3 f_equal.
      unfold product. simpl. now rewrite N.mul_1_r.
  - set (ds1 := d :: ds) in *.
    assert (Hf1 : flatType (nest T ds1) = ArrayTy (flatType T) (product ds1))
      by (apply flatType_nest; exact T_scalar).
    assert (Hf2 : flatType (PointerTy (nest T ds1)) = PointerTy (flatType T)).
    { cbn [flatType]. now rewrite Hf1. }
    assert (Hk : flatKind (PointerTy (nest T ds1)) = POINTER_FROM_ARRAY).
    { unfold flatKind. now rewrite Hf1. }
    unfold flatInfo. cbn [elementMappingKind mappedType]. rewrite Hk, Hf2.
    apply returns_bind. apply returns_assert; [reflexivity|].
    apply returns_bind. eapply returns_liftOption; [reflexivity|].
    apply returns_bind.
    apply returns_rewriteType_flat;
      [rewrite depth_nest; lia|now rewrite structFree_nest|exact Hm1|].
    intros s2 Hm2. unfold flatInfo. cbn [mappedType]. rewrite Hf1.
    apply returns_bind. eapply returns_liftOption; [reflexivity|].
    destruct (multiplier (product ds1)) as (Hmul & Hmod & Hnz);
      [now apply product_pos|exact Hfit|].
    apply returns_bind. apply returns_assert; [exact Hnz|].
    apply returns_bind. apply returns_assert; [exact Hmod|].
    rewrite Hmul.
    apply returns_bind. eapply returns_liftOption; [reflexivity|].
    apply returns_bind. unfold advanceType. cbn [curType setAddToLastIndex].
    apply returns_bind. eapply returns_liftOption; [reflexivity|]. apply returns_ret.
    eapply returns_mono.
    + apply (walk_levels ds1 vs 1%nat ((v0 * (product ds1 mod 2 ^ 32)) mod 2 ^ 32) true s2);
        try assumption; try reflexivity; [lia|].
      apply N.mod_lt. discriminate.
    + intros r s3 [-> Hm3]. split; [|exact Hm3]. do 3 f_equal. apply linear_start.
Qed.

End Linear.

(** X7. An address into an array of arrays is rewritten to the position
    of the addressed element in the one array that replaces them.  Let
    [T] be a type built without structs that is no array, let the size of
    an array be the number of its elements times the size of one, the
    size of [T] as rewritten not zero, and the array of lengths [dims] (no
    length zero) smaller than 2^32 bytes.  Then the constant indexes
    [v0, v1, ..., vk] on a pointer to that array, one index for the
    pointer and one for each length, are rewritten to the single index
    [v0 * d1...dk + v1 * d2...dk + ... + vk] modulo 2^32, with the
    residual offset 0 and no failed assertion. *)
Theorem rewriteGEPIndexes_linearises
    (isClientType : type -> bool) (isJSExportedType : nat -> bool)
    (getTypeAllocSize : type -> N) (getElementOffset : nat -> nat -> N)
    (fuel : nat) (T : type) (dims : list N) (v0 : N) (vs : list N) (s : state) :
  structFree T = true -> isArrayTy T = false ->
  (forall e n, getTypeAllocSize (ArrayTy e n) = n * getTypeAllocSize e) ->
  getTypeAllocSize (flatType T) <> 0 ->
  length vs = length dims -> Forall (fun d => 0 < d) dims ->
  product dims * getTypeAllocSize (flatType T) < 2 ^ 32 ->
  (S (length dims + depth T) < fuel)%nat ->
  v0 < 2 ^ 32 -> flatMemo (typesMapping s) ->
  exists s',
    rewriteGEPIndexes isClientType isJSExportedType getTypeAllocSize getElementOffset
      fuel false (flatType T) (PointerTy (nest T dims)) (map (ConstantInt 32) (v0 :: vs)) s
    = Ok ([ConstantInt 32 ((v0 * product dims + linearTail dims vs) mod 2 ^ 32)], 0) s' /\
    flatMemo (typesMapping s').
Proof.
  intros HT HTa Hsize Hsz Hlen Hpos Hfit Hfuel Hv0 Hm.
  destruct (returns_run _ _ _
              (walk_pointer isClientType isJSExportedType getTypeAllocSize getElementOffset
                 fuel T HT HTa Hsize Hsz dims v0 vs s Hlen Hpos Hfit Hfuel Hv0 Hm))
    as (r & s' & Hrun & -> & Hm').
  now exists s'.
Qed.

Lemma rewriteGEPIndexes_linearises_witness :
  exists s',
    rewriteGEPIndexes noClient notExported (exampleSize (fun _ => 0)) noOffsets
      5 false (flatType i32) (PointerTy (nest i32 [2; 3])) (map (ConstantInt 32) [1; 1; 2])
      (moduleState [])
    = Ok ([ConstantInt 32 ((1 * product [2; 3] + linearTail [2; 3] [1; 2]) mod 2 ^ 32)], 0) s' /\
    flatMemo (typesMapping s').
Proof.
  apply (rewriteGEPIndexes_linearises noClient notExported (exampleSize (fun _ => 0)) noOffsets
           5 i32 [2; 3] 1 [1; 2] (moduleState [])).
  - reflexivity.
  - reflexivity.
  - reflexivity.
  - discriminate.
  - reflexivity.
  - repeat constructor.
  - vm_compute. reflexivity.
  - simpl. lia.
  - reflexivity.
  - intros k i Hk. exact (match lookup_empty_Some k i Hk with end).
Defined.

(** The element [1][2] of the second [[2 x [3 x i32]]]: the eleventh [i32]. *)
Example linearised_address :
  resultOf (rewriteGEPIndexesEx false i32 (PointerTy (nest i32 [2; 3]))
              (map (ConstantInt 32) [1; 1; 2]) (moduleState []))
  = Some ([ConstantInt 32 11], 0).
Proof. vm_compute. reflexivity. Qed.


(** ** The merging of the fields of a struct *)

(** The three outcomes of one iteration of the merging loop on a struct
    without the byte layout: the field gets a new field of its own, it
    extends the array found for its element type, or it is packed into an
    integer that has room left. *)
Inductive mergeStep (esc : gset (nat * nat)) (i : nat) (rt : type) (ms ms' : MergeState)
    : Prop :=
| step_push :
    newTypes ms' = newTypes ms ++ [rt] ->
    membersMapping ms' = membersMapping ms ++ [(length (newTypes ms), 0)] ->
    hasMergedArrays ms' = hasMergedArrays ms ->
    (arraysFound ms' = arraysFound ms /\ mergedInts ms' = mergedInts ms /\
     (forall e n, rt = ArrayTy e n -> False) /\
     (forall bw, rt = IntegerTy bw ->
        32 <= bw \/ exists base, curDirectBase ms = Some base /\ (base, i) ∈ esc)) \/
    (exists e n, rt = ArrayTy e n /\ arraysFound ms !! e = None /\
       arraysFound ms' = <[e := length (newTypes ms)]> (arraysFound ms) /\
       mergedInts ms' = mergedInts ms) \/
    (exists bw, rt = IntegerTy bw /\ bw < 32 /\
       (forall base, curDirectBase ms = Some base -> (base, i) ∉ esc) /\
       arraysFound ms' = arraysFound ms /\
       mergedInts ms' = mergedInts ms ++ [(length (newTypes ms), 32 - bw)]) ->
    mergeStep esc i rt ms ms'
| step_array e n typeIndex e0 prevNum :
    rt = ArrayTy e n -> arraysFound ms !! e = Some typeIndex ->
    newTypes ms !! typeIndex = Some (ArrayTy e0 prevNum) ->
    newTypes ms' = <[typeIndex := ArrayTy e (prevNum + n)]> (newTypes ms) ->
    membersMapping ms' = membersMapping ms ++ [(typeIndex, wrap32 prevNum)] ->
    arraysFound ms' = arraysFound ms -> mergedInts ms' = mergedInts ms ->
    mergeStep esc i rt ms ms'
| step_int bw m first second oldBw :
    rt = IntegerTy bw -> bw < 32 ->
    (forall base, curDirectBase ms = Some base -> (base, i) ∉ esc) ->
    mergedInts ms !! m = Some (first, second) -> bw <= second ->
    newTypes ms !! first = Some (IntegerTy oldBw) ->
    newTypes ms' = <[first := IntegerTy (oldBw + bw)]> (newTypes ms) ->
    membersMapping ms' = membersMapping ms ++ [(first, 32 - second)] ->
    arraysFound ms' = arraysFound ms ->
    mergedInts ms' = (if N.eqb (second - bw) 0 then delete m (mergedInts ms)
                      else <[m := (first, second - bw)]> (mergedInts ms)) ->
    mergeStep esc i rt ms ms'.

Lemma findMergedInt_Some bw l : forall k m mi,
  findMergedInt bw l k = Some (m, mi) ->
  exists j, m = (k + j)%nat /\ l !! j = Some mi /\ bw <= snd mi.
Proof.
  induction l as [|x l IH]; intros k m mi; simpl; [discriminate|].
  destruct (N.ltb_spec (snd x) bw) as [Hlt|Hge].
  - intros H. destruct (IH _ _ _ H) as (j & -> & Hj & Hb).
    exists (S j). split; [lia|]. split; [exact Hj|exact Hb].
  - intros [= <- <-]. exists 0%nat. split; [lia|]. split; [reflexivity|exact Hge].
Qed.

Lemma mergeField_step esc i rt ms ms' :
  mergeField false esc i rt ms = Some ms' -> mergeStep esc i rt ms ms'.
Proof.
  unfold mergeField.
  assert (Hplain : (forall e n, rt = ArrayTy e n -> False) ->
            (forall bw, rt = IntegerTy bw ->
               32 <= bw \/ exists base, curDirectBase ms = Some base /\ (base, i) ∈ esc) ->
            mergeStep esc i rt ms (pushField rt ms)).
  { intros H1 H2. apply step_push; try reflexivity. left. auto. }
  destruct rt as [| | |bw|e|e n|r ps v|id];
    try (intros [= <-]; apply Hplain; intros; discriminate).
  - (* an integer *)
    destruct (negb _ && N.ltb bw 32) eqn:Hc.
    + apply andb_true_iff in Hc as [Hesc Hbw]. apply N.ltb_lt in Hbw.
      assert (Hne : forall base, curDirectBase ms = Some base -> (base, i) ∉ esc).
      { intros base Hb. rewrite Hb in Hesc. apply negb_true_iff in Hesc.
        now apply bool_decide_eq_false in Hesc. }
      destruct (findMergedInt bw (mergedInts ms) 0) as [[m [first second]]|] eqn:Hf.
      * destruct (findMergedInt_Some _ _ _ _ _ Hf) as (j & -> & Hj & Hb). simpl in Hb.
        destruct (newTypes ms !! first) as [[| | |oldBw| | | |]|] eqn:Hn; try discriminate.
        intros [= <-]. eapply step_int; eauto; reflexivity.
      * intros [= <-]. apply step_push; try reflexivity.
        right. right. exists bw. auto 6.
    + intros [= <-]. apply Hplain; [discriminate|]. intros bw' [= <-].
      apply andb_false_iff in Hc as [Hc|Hc].
      * right. apply negb_false_iff in Hc. destruct (curDirectBase ms) as [base|]; [|discriminate].
        exists base. split; [reflexivity|]. now apply bool_decide_eq_true in Hc.
      * left. now apply N.ltb_ge in Hc.
  - (* an array *)
    destruct (arraysFound ms !! e) as [typeIndex|] eqn:Ha.
    + destruct (newTypes ms !! typeIndex) as [[| | | | |e0 prevNum| |]|] eqn:Hn;
        try discriminate.
      intros [= <-]. eapply step_array; eauto; reflexivity.
    + intros [= <-]. apply step_push; try reflexivity.
      right. left. exists e, n. auto.
Qed.

(** The reset at the limit of a direct base forgets the arrays and the
    integers that can still be extended, and nothing else. *)
Lemma resetAtBase_inv fuel sts st i ms ms1 :
  resetAtBase fuel sts st i ms = Some ms1 ->
  newTypes ms1 = newTypes ms /\ membersMapping ms1 = membersMapping ms /\
  hasMergedArrays ms1 = hasMergedArrays ms /\
  ((arraysFound ms1 = arraysFound ms /\ mergedInts ms1 = mergedInts ms /\
    curDirectBase ms1 = curDirectBase ms /\ directBaseLimit ms1 = directBaseLimit ms /\
    i <> directBaseLimit ms) \/
   (arraysFound ms1 = ∅ /\ mergedInts ms1 = [] /\ i = directBaseLimit ms /\
    exists curBase, findDirectBase fuel sts st i = Some curBase /\
      curDirectBase ms1 = Some curBase /\
      directBaseLimit ms1 = match sts !! curBase with
                            | Some binfo => length (elements binfo)
                            | None => 0%nat
                            end)).
Proof.
  unfold resetAtBase. destruct (Nat.eqb_spec i (directBaseLimit ms)) as [He|Hne].
  - destruct (findDirectBase _ _ _ _) as [curBase|] eqn:Hf; [|discriminate].
    intros [= <-]. simpl. repeat split. right. repeat split; eauto.
  - intros [= <-]. repeat split. left. auto.
Qed.

(** The merging states that the loop reaches on a struct without the
    byte layout, with the rewritten type of each field seen so far and
    the direct base the field was looked up in. *)
Inductive merged (esc : gset (nat * nat)) : list (type * option nat) -> MergeState -> Prop :=
| merged_init : merged esc [] initMerge
| merged_field fields ms fuel sts st ms1 rt ms2 :
    merged esc fields ms ->
    resetAtBase fuel sts st (length fields) ms = Some ms1 ->
    mergeField false esc (length fields) rt ms1 = Some ms2 ->
    merged esc (fields ++ [(rt, curDirectBase ms1)]) ms2.

(** *** The merging state is well formed *)

(** The integers that can still be filled are integers of the new struct,
    of the width that is used up; the arrays found are arrays of the new
    struct; every field is mapped into the new struct. *)
Record mergeCore (fields : list (type * option nat)) (ms : MergeState) : Prop := mkMergeCore {
  mc_length : length (membersMapping ms) = length fields;
  mc_range : forall i f o, membersMapping ms !! i = Some (f, o) ->
    (f < length (newTypes ms))%nat;
  mc_ints : forall m first second, mergedInts ms !! m = Some (first, second) ->
    second <= 32 /\ newTypes ms !! first = Some (IntegerTy (32 - second));
  mc_nodup : NoDup (map fst (mergedInts ms));
  mc_arrays : forall e idx, arraysFound ms !! e = Some idx ->
    exists n, newTypes ms !! idx = Some (ArrayTy e n)
}.

Lemma mergeCore_init : mergeCore [] initMerge.
Proof.
  constructor; simpl; try reflexivity; try (intros; discriminate); try constructor.
Qed.

Lemma mergeCore_reset fuel sts st i fields ms ms1 :
  resetAtBase fuel sts st i ms = Some ms1 -> mergeCore fields ms -> mergeCore fields ms1.
Proof.
  intros Hr [H1 H2 H3 H4 H5].
  destruct (resetAtBase_inv _ _ _ _ _ _ Hr) as (Hn & Hm & _ & [(Ha & Hi & _)|(Ha & Hi & _)]);
    constructor; rewrite ?Hn, ?Hm, ?Ha, ?Hi; try assumption.
  - intros m first second H. discriminate.
  - constructor.
  - intros e idx H. rewrite lookup_empty in H. discriminate.
Qed.

Lemma lookup_snoc_inv {A} (l : list A) x i y :
  (l ++ [x]) !! i = Some y ->
  (i < length l)%nat /\ l !! i = Some y \/ i = length l /\ y = x.
Proof.
  intros H. destruct (Nat.lt_ge_cases i (length l)) as [Hlt|Hge].
  - left. split; [exact Hlt|]. now rewrite lookup_app_l in H.
  - right. rewrite lookup_app_r in H by exact Hge.
    destruct (i - length l)%nat eqn:E; simpl in H; [|discriminate].
    injection H as <-. split; [lia|reflexivity].
Qed.

Lemma elem_fst_lookup {A B} (l : list (A * B)) m a b :
  l !! m = Some (a, b) -> a ∈ map fst l.
Proof.
  intros H. apply list_elem_of_fmap. exists (a, b). split; [reflexivity|].
  eapply list_elem_of_lookup_2. exact H.
Qed.

Lemma mergeCore_step esc i rt fields base ms ms' :
  mergeStep esc i rt ms ms' -> mergeCore fields ms -> mergeCore (fields ++ [(rt, base)]) ms'.
Proof.
  intros Hstep [H1 H2 H3 H4 H5].
  assert (Hlt : forall m first second, mergedInts ms !! m = Some (first, second) ->
            (first < length (newTypes ms))%nat).
  { intros m first second H. destruct (H3 _ _ _ H) as [_ H']. now apply lookup_lt_Some in H'. }
  destruct Hstep as [Hn Hm Hh Hk|e n typeIndex e0 prevNum -> Ha Hidx Hn Hm Haf Hmi
                    |bw m first second oldBw -> Hbw Hesc Hmi Hfit Hfirst Hn Hm Haf Hmi'].
  - (* a new field *)
    assert (Hold : forall k x, newTypes ms !! k = Some x -> newTypes ms' !! k = Some x).
    { intros k x Hx. rewrite Hn, lookup_app_l; [exact Hx|]. now apply lookup_lt_Some in Hx. }
    assert (Hnew : newTypes ms' !! length (newTypes ms) = Some rt).
    { rewrite Hn, lookup_app_r, Nat.sub_diag by lia. reflexivity. }
    constructor.
    + rewrite Hm, !length_app, H1. reflexivity.
    + intros k f o Hk'. rewrite Hm in Hk'. rewrite Hn, length_app. simpl.
      destruct (lookup_snoc_inv _ _ _ _ Hk') as [[_ Hl]|[_ [= -> ->]]]; [|lia].
      specialize (H2 _ _ _ Hl). lia.
    + intros k first second Hk'.
      destruct Hk as [(_ & Hi & _)|[(e & n & _ & _ & _ & Hi)|(bw & -> & Hbw & _ & _ & Hi)]];
        rewrite Hi in Hk'.
      * destruct (H3 _ _ _ Hk') as [Hs Hf]. auto.
      * destruct (H3 _ _ _ Hk') as [Hs Hf]. auto.
      * destruct (lookup_snoc_inv _ _ _ _ Hk') as [[_ Hl]|[_ [= -> ->]]].
        -- destruct (H3 _ _ _ Hl) as [Hs Hf]. auto.
        -- split; [lia|]. rewrite Hnew. do 2 f_equal. lia.
    + destruct Hk as [(_ & Hi & _)|[(e & n & _ & _ & _ & Hi)|(bw & -> & Hbw & _ & _ & Hi)]];
        rewrite Hi; try exact H4.
      rewrite map_app. simpl. apply list.NoDup_app. split; [exact H4|]. split.
      * intros x Hx Hx'. apply list_elem_of_singleton in Hx'. subst x.
        apply list_elem_of_fmap in Hx. destruct Hx as ([first second] & Hf & Hin).
        apply list_elem_of_lookup in Hin. destruct Hin as [k Hk'].
        specialize (Hlt _ _ _ Hk'). simpl in Hf. lia.
      * apply NoDup_singleton.
    + intros e idx He.
      destruct Hk as [(Ha & _)|[(e' & n & -> & _ & Ha & _)|(bw & _ & _ & _ & Ha & _)]];
        rewrite Ha in He.
      * destruct (H5 _ _ He) as [k Hk']. eauto.
      * destruct (decide (e' = e)) as [->|Hne].
        -- rewrite lookup_insert_eq in He. injection He as <-. eauto.
        -- rewrite lookup_insert_ne in He by exact Hne. destruct (H5 _ _ He) as [k Hk']. eauto.
      * destruct (H5 _ _ He) as [k Hk']. eauto.
  - (* an array is extended *)
    pose proof (lookup_lt_Some _ _ _ Hidx) as Hidx'.
    assert (Hother : forall k x, newTypes ms !! k = Some x -> isArrayTy x = false ->
              newTypes ms' !! k = Some x).
    { intros k x Hx Hnot. rewrite Hn, list_lookup_insert_ne; [exact Hx|].
      intros <-. rewrite Hidx in Hx. injection Hx as <-. discriminate. }
    constructor.
    + rewrite Hm, !length_app, H1. reflexivity.
    + intros k f o Hk'. rewrite Hm in Hk'. rewrite Hn, length_insert.
      destruct (lookup_snoc_inv _ _ _ _ Hk') as [[_ Hl]|[_ [= -> ->]]]; [|exact Hidx'].
      exact (H2 _ _ _ Hl).
    + intros k first second Hk'. rewrite Hmi in Hk'.
      destruct (H3 _ _ _ Hk') as [Hs Hf]. split; [exact Hs|]. now apply Hother.
    + now rewrite Hmi.
    + intros e' idx He. rewrite Haf in He. destruct (H5 _ _ He) as [k Hk'].
      destruct (decide (idx = typeIndex)) as [->|Hne].
      * rewrite Hidx in Hk'. injection Hk' as -> ->.
        destruct (H5 _ _ Ha) as [k' Hk'']. rewrite Hidx in Hk''. injection Hk'' as -> _.
        rewrite Hn, list_lookup_insert_eq by exact Hidx'. eauto.
      * rewrite Hn, list_lookup_insert_ne by congruence. eauto.
  - (* an integer is filled *)
    destruct (H3 _ _ _ Hmi) as [Hsecond Hfirst'].
    assert (oldBw = 32 - second) as -> by congruence.
    pose proof (lookup_lt_Some _ _ _ Hfirst) as Hlen.
    assert (Hother : forall k x, newTypes ms !! k = Some x -> k <> first ->
              newTypes ms' !! k = Some x).
    { intros k x Hx Hne. rewrite Hn, list_lookup_insert_ne; [exact Hx|congruence]. }
    assert (Hdistinct : forall k f2 s2, k <> m -> mergedInts ms !! k = Some (f2, s2) ->
              f2 <> first).
    { intros k f2 s2 Hne Hk' ->.
      apply Hne. eapply NoDup_lookup; [exact H4| |];
        rewrite list_lookup_fmap; [rewrite Hk'|rewrite Hmi]; reflexivity. }
    constructor.
    + rewrite Hm, !length_app, H1. reflexivity.
    + intros k f o Hk'. rewrite Hm in Hk'. rewrite Hn, length_insert.
      destruct (lookup_snoc_inv _ _ _ _ Hk') as [[_ Hl]|[_ [= -> ->]]]; [|exact Hlen].
      exact (H2 _ _ _ Hl).
    + intros k f2 s2 Hk'. rewrite Hmi' in Hk'.
      destruct (N.eqb_spec (second - bw) 0) as [Hz|Hnz].
      * destruct (Nat.lt_ge_cases k m) as [Hkm|Hkm].
        -- rewrite list_lookup_delete_lt in Hk' by exact Hkm.
           destruct (H3 _ _ _ Hk') as [Hs Hf]. split; [exact Hs|].
           apply Hother; [exact Hf|]. eapply Hdistinct; [|exact Hk']. lia.
        -- rewrite list_lookup_delete_ge in Hk' by exact Hkm.
           destruct (H3 _ _ _ Hk') as [Hs Hf]. split; [exact Hs|].
           apply Hother; [exact Hf|]. eapply Hdistinct; [|exact Hk']. lia.
      * destruct (decide (k = m)) as [->|Hne].
        -- rewrite list_lookup_insert_eq in Hk' by (now apply lookup_lt_Some in Hmi).
           injection Hk' as <- <-. split; [lia|].
           rewrite Hn, list_lookup_insert_eq by exact Hlen. do 2 f_equal. lia.
        -- rewrite list_lookup_insert_ne in Hk' by congruence.
           destruct (H3 _ _ _ Hk') as [Hs Hf]. split; [exact Hs|].
           apply Hother; [exact Hf|]. eapply Hdistinct; [|exact Hk']. congruence.
    + rewrite Hmi'. destruct (N.eqb (second - bw) 0).
      * rewrite <- (take_drop_middle _ _ _ Hmi) in H4.
        rewrite delete_take_drop. rewrite map_app in H4 |- *. simpl in H4.
        apply list.NoDup_app in H4 as (Ha & Hb & Hc). apply list.NoDup_cons in Hc as [_ Hc].
        apply list.NoDup_app. split; [exact Ha|]. split; [|exact Hc].
        intros x Hx Hx'. apply (Hb x Hx). now right.
      * replace (map fst (<[m := (first, second - bw)]> (mergedInts ms)))
          with (map fst (mergedInts ms)); [exact H4|].
        change (map fst) with (fmap (M := list) (@fst nat N)).
        rewrite list_fmap_insert. simpl. symmetry. apply list_insert_id.
        rewrite list_lookup_fmap, Hmi. reflexivity.
    + intros e idx He. rewrite Haf in He. destruct (H5 _ _ He) as [k Hk'].
      exists k. apply Hother; [exact Hk'|]. intros ->. congruence.
Qed.

Lemma merged_core esc fields ms : merged esc fields ms -> mergeCore fields ms.
Proof.
  induction 1 as [|fields ms fuel sts st ms1 rt ms2 _ IH Hr Hf].
  - exact mergeCore_init.
  - eapply mergeCore_step; [apply mergeField_step; exact Hf|].
    eapply mergeCore_reset; eauto.
Qed.

(** In a well formed merging state neither [cast<ArrayType>] nor
    [cast<IntegerType>] fails, whatever the rewritten type of the next
    field is. *)
Lemma mergeField_total byteLayout esc i rt fields ms :
  mergeCore fields ms -> is_Some (mergeField byteLayout esc i rt ms).
Proof.
  intros [_ _ H3 _ H5].
  unfold mergeField. destruct byteLayout; [eauto|].
  destruct rt as [| | |bw|e|e n|r ps v|id]; eauto.
  - destruct (negb _ && _); [|eauto].
    destruct (findMergedInt bw (mergedInts ms) 0) as [[m [first second]]|] eqn:Hf; [|eauto].
    destruct (findMergedInt_Some _ _ _ _ _ Hf) as (j & -> & Hj & _).
    destruct (H3 _ _ _ Hj) as [_ ->]. eauto.
  - destruct (arraysFound ms !! e) as [idx|] eqn:Ha; [|eauto].
    destruct (H5 _ _ Ha) as [k ->]. eauto.
Qed.

(** *** The integers packed into one *)

Lemma snoc_pair {A B} (l : list A) (k : list B) x y i a b :
  length l = length k -> (l ++ [x]) !! i = Some a -> (k ++ [y]) !! i = Some b ->
  (i < length l)%nat /\ l !! i = Some a /\ k !! i = Some b \/
  i = length l /\ a = x /\ b = y.
Proof.
  intros Hlen Ha Hb.
  destruct (lookup_snoc_inv _ _ _ _ Ha) as [[Hlt Hl]|[-> ->]].
  - left. split; [exact Hlt|]. split; [exact Hl|].
    rewrite lookup_app_l in Hb by lia. exact Hb.
  - right. split; [reflexivity|]. split; [reflexivity|].
    rewrite Hlen, lookup_app_r, Nat.sub_diag in Hb by lia. now injection Hb as <-.
Qed.

(** Every integer field lies inside the integer it is mapped to, which
    has at most 32 bits unless the field is alone in it; and the fields
    mapped to the same integer follow each other. *)
Record mergeInts (fields : list (type * option nat)) (ms : MergeState) : Prop := mkMergeInts {
  mi_fields : forall i f o bw base,
    membersMapping ms !! i = Some (f, o) -> fields !! i = Some (IntegerTy bw, base) ->
    exists w, newTypes ms !! f = Some (IntegerTy w) /\ o + bw <= w /\
              (w <= 32 \/ (w = bw /\ o = 0));
  mi_disjoint : forall i j f oi oj bi bj basei basej,
    (i < j)%nat ->
    membersMapping ms !! i = Some (f, oi) -> membersMapping ms !! j = Some (f, oj) ->
    fields !! i = Some (IntegerTy bi, basei) -> fields !! j = Some (IntegerTy bj, basej) ->
    oi + bi <= oj
}.

Lemma mergeInts_reset fuel sts st i fields ms ms1 :
  resetAtBase fuel sts st i ms = Some ms1 -> mergeInts fields ms -> mergeInts fields ms1.
Proof.
  intros Hr [H1 H2]. destruct (resetAtBase_inv _ _ _ _ _ _ Hr) as (Hn & Hm & _).
  constructor; rewrite ?Hn, ?Hm; assumption.
Qed.

Lemma mergeInts_step esc i rt fields base ms ms' :
  mergeStep esc i rt ms ms' -> mergeCore fields ms -> mergeInts fields ms ->
  mergeInts (fields ++ [(rt, base)]) ms'.
Proof.
  intros Hstep [C1 C2 C3 C4 C5] [I1 I2].
  destruct Hstep as [Hn Hm Hh Hk|e n typeIndex e0 prevNum -> Ha Hidx Hn Hm Haf Hmi
                    |bw m first second oldBw -> Hbw Hesc Hmi Hfit Hfirst Hn Hm Haf Hmi'].
  - (* a new field *)
    assert (Hold : forall k x, newTypes ms !! k = Some x -> newTypes ms' !! k = Some x).
    { intros k x Hx. rewrite Hn, lookup_app_l; [exact Hx|]. now apply lookup_lt_Some in Hx. }
    assert (Hnew : newTypes ms' !! length (newTypes ms) = Some rt).
    { rewrite Hn, lookup_app_r, Nat.sub_diag by lia. reflexivity. }
    constructor.
    + intros k f o bw' base' Hk1 Hk2. rewrite Hm in Hk1.
      destruct (snoc_pair _ _ _ _ _ _ _ C1 Hk1 Hk2) as [(_ & Hl1 & Hl2)|(_ & [= -> ->] & [= <- <-])].
      * destruct (I1 _ _ _ _ _ Hl1 Hl2) as (w & Hw & Hfit & Hw32). exists w. auto.
      * exists bw'. split; [exact Hnew|]. split; [lia|]. right. auto.
    + intros k j f oi oj bi bj basei basej Hlt Hk1 Hj1 Hk2 Hj2. rewrite Hm in Hk1, Hj1.
      destruct (snoc_pair _ _ _ _ _ _ _ C1 Hj1 Hj2)
        as [(_ & Hl1 & Hl2)|(-> & [= -> ->] & _)].
      * destruct (snoc_pair _ _ _ _ _ _ _ C1 Hk1 Hk2) as [(_ & Hl3 & Hl4)|(-> & _)].
        -- eapply I2; [exact Hlt|exact Hl3|exact Hl1|exact Hl4|exact Hl2].
        -- apply lookup_lt_Some in Hl1. lia.
      * rewrite lookup_app_l in Hk1 by lia. specialize (C2 _ _ _ Hk1). lia.
  - (* an array is extended *)
    assert (Hother : forall k x, newTypes ms !! k = Some x -> isArrayTy x = false ->
              newTypes ms' !! k = Some x).
    { intros k x Hx Hnot. rewrite Hn, list_lookup_insert_ne; [exact Hx|].
      intros <-. rewrite Hidx in Hx. injection Hx as <-. discriminate. }
    constructor.
    + intros k f o bw' base' Hk1 Hk2. rewrite Hm in Hk1.
      destruct (snoc_pair _ _ _ _ _ _ _ C1 Hk1 Hk2) as [(_ & Hl1 & Hl2)|(_ & _ & [=])].
      destruct (I1 _ _ _ _ _ Hl1 Hl2) as (w & Hw & Hfit & Hw32). exists w.
      split; [now apply Hother|auto].
    + intros k j f oi oj bi bj basei basej Hlt Hk1 Hj1 Hk2 Hj2. rewrite Hm in Hk1, Hj1.
      destruct (snoc_pair _ _ _ _ _ _ _ C1 Hj1 Hj2) as [(Hj & Hl1 & Hl2)|(_ & _ & [=])].
      destruct (snoc_pair _ _ _ _ _ _ _ C1 Hk1 Hk2) as [(_ & Hl3 & Hl4)|(-> & _)]; [|lia].
      eapply I2; [exact Hlt|exact Hl3|exact Hl1|exact Hl4|exact Hl2].
  - (* an integer is filled *)
    destruct (C3 _ _ _ Hmi) as [Hsecond Hfirst'].
    assert (oldBw = 32 - second) as -> by congruence.
    pose proof (lookup_lt_Some _ _ _ Hfirst) as Hlen.
    constructor.
    + intros k f o bw' base' Hk1 Hk2. rewrite Hm in Hk1.
      destruct (snoc_pair _ _ _ _ _ _ _ C1 Hk1 Hk2)
        as [(_ & Hl1 & Hl2)|(_ & [= -> ->] & [= -> ->])].
      * destruct (I1 _ _ _ _ _ Hl1 Hl2) as (w & Hw & Hfit' & Hw32).
        destruct (decide (f = first)) as [->|Hne].
        -- assert (w = 32 - second) as -> by congruence.
           exists (32 - second + bw). rewrite Hn, list_lookup_insert_eq by exact Hlen.
           split; [reflexivity|]. split; [lia|]. left. lia.
        -- exists w. rewrite Hn, list_lookup_insert_ne by congruence. auto.
      * exists (32 - second + bw). rewrite Hn, list_lookup_insert_eq by exact Hlen.
        split; [reflexivity|]. split; [lia|]. left. lia.
    + intros k j f oi oj bi bj basei basej Hlt Hk1 Hj1 Hk2 Hj2. rewrite Hm in Hk1, Hj1.
      destruct (snoc_pair _ _ _ _ _ _ _ C1 Hj1 Hj2)
        as [(_ & Hl1 & Hl2)|(-> & [= -> ->] & _)].
      * destruct (snoc_pair _ _ _ _ _ _ _ C1 Hk1 Hk2) as [(_ & Hl3 & Hl4)|(-> & _)].
        -- eapply I2; [exact Hlt|exact Hl3|exact Hl1|exact Hl4|exact Hl2].
        -- apply lookup_lt_Some in Hl1. lia.
      * rewrite lookup_app_l in Hk1 by lia. rewrite lookup_app_l in Hk2 by lia.
        destruct (I1 _ _ _ _ _ Hk1 Hk2) as (w & Hw & Hfit' & _).
        assert (w = 32 - second) as -> by congruence. exact Hfit'.
Qed.

Lemma merged_ints esc fields ms : merged esc fields ms -> mergeInts fields ms.
Proof.
  induction 1 as [|fields ms fuel sts st ms1 rt ms2 Hm IH Hr Hf].
  - constructor; intros; discriminate.
  - eapply mergeInts_step; [apply mergeField_step; exact Hf| |].
    + eapply mergeCore_reset; [exact Hr|]. now apply merged_core with (esc := esc).
    + eapply mergeInts_reset; eauto.
Qed.

(** *** The fields that keep a field of their own *)

(** A field is never merged when its rewritten type is no array and no
    integer, an integer of 32 bits or more, or an integer that escapes. *)
Definition keepsOwnField (esc : gset (nat * nat)) (i : nat) (rt : type) (base : option nat)
    : Prop :=
  isArrayTy rt = false /\
  forall bw, rt = IntegerTy bw -> 32 <= bw \/ exists b, base = Some b /\ (b, i) ∈ esc.

Record mergeOwn (esc : gset (nat * nat)) (fields : list (type * option nat))
    (ms : MergeState) : Prop := mkMergeOwn {
  mo_own : forall i f o rt base,
    membersMapping ms !! i = Some (f, o) -> fields !! i = Some (rt, base) ->
    keepsOwnField esc i rt base ->
    o = 0 /\ newTypes ms !! f = Some rt /\
    (forall j f' o', j <> i -> membersMapping ms !! j = Some (f', o') -> f' <> f) /\
    (f ∉ map fst (mergedInts ms)) /\ (forall e, arraysFound ms !! e <> Some f)
}.

Lemma mergeOwn_reset fuel sts st i esc fields ms ms1 :
  resetAtBase fuel sts st i ms = Some ms1 -> mergeOwn esc fields ms -> mergeOwn esc fields ms1.
Proof.
  intros Hr [H].
  destruct (resetAtBase_inv _ _ _ _ _ _ Hr) as (Hn & Hm & _ & [(Ha & Hi & _)|(Ha & Hi & _)]);
    constructor; rewrite ?Hn, ?Hm, ?Ha, ?Hi; try assumption.
  intros k f o rt base Hk1 Hk2 Hown. destruct (H _ _ _ _ _ Hk1 Hk2 Hown) as (H1 & H2 & H3 & _).
  split; [exact H1|]. split; [exact H2|]. split; [exact H3|]. split.
  - intros Hin. inversion Hin.
  - intros e He. rewrite lookup_empty in He. discriminate.
Qed.

Lemma mergeOwn_step esc rt fields ms ms' :
  mergeStep esc (length fields) rt ms ms' -> mergeCore fields ms -> mergeOwn esc fields ms ->
  mergeOwn esc (fields ++ [(rt, curDirectBase ms)]) ms'.
Proof.
  intros Hstep [C1 C2 C3 C4 C5] [O].
  assert (Hlt : forall m first second, mergedInts ms !! m = Some (first, second) ->
            (first < length (newTypes ms))%nat).
  { intros m first second H. destruct (C3 _ _ _ H) as [_ H']. now apply lookup_lt_Some in H'. }
  assert (Hlt' : forall x, x ∈ map fst (mergedInts ms) -> (x < length (newTypes ms))%nat).
  { intros x Hx. apply list_elem_of_fmap in Hx. destruct Hx as ([first second] & -> & Hin).
    apply list_elem_of_lookup in Hin. destruct Hin as [k Hk]. exact (Hlt _ _ _ Hk). }
  assert (Hlta : forall e idx, arraysFound ms !! e = Some idx ->
            (idx < length (newTypes ms))%nat).
  { intros e idx H. destruct (C5 _ _ H) as [k Hk]. now apply lookup_lt_Some in Hk. }
  assert (Hidx : forall k, (k < length (membersMapping ms))%nat ->
            (fields ++ [(rt, curDirectBase ms)]) !! k = fields !! k).
  { intros k Hk. apply lookup_app_l. lia. }
  destruct Hstep as [Hn Hm Hh Hk|e n typeIndex e0 prevNum -> Ha Hti Hn Hm Haf Hmi
                    |bw m first second oldBw -> Hbw Hesc Hmi Hfit Hfirst Hn Hm Haf Hmi'].
  - (* a new field *)
    assert (Hold : forall k x, newTypes ms !! k = Some x -> newTypes ms' !! k = Some x).
    { intros k x Hx. rewrite Hn, lookup_app_l; [exact Hx|]. now apply lookup_lt_Some in Hx. }
    assert (Hnew : newTypes ms' !! length (newTypes ms) = Some rt).
    { rewrite Hn, lookup_app_r, Nat.sub_diag by lia. reflexivity. }
    assert (Hints : forall x, x ∈ map fst (mergedInts ms') ->
              x ∈ map fst (mergedInts ms) \/
              x = length (newTypes ms) /\ exists bw, rt = IntegerTy bw /\ bw < 32 /\
                forall base, curDirectBase ms = Some base -> (base, length fields) ∉ esc).
    { intros x Hx.
      destruct Hk as [(_ & Hi & _)|[(e & n & _ & _ & _ & Hi)|(bw & -> & Hbw & Hne & _ & Hi)]];
        rewrite Hi in Hx; try (now left).
      rewrite map_app in Hx. apply elem_of_app in Hx as [Hx|Hx]; [now left|].
      apply list_elem_of_singleton in Hx. right. split; [exact Hx|]. eauto. }
    assert (Harr : forall e idx, arraysFound ms' !! e = Some idx ->
              arraysFound ms !! e = Some idx \/
              idx = length (newTypes ms) /\ isArrayTy rt = true).
    { intros e idx He.
      destruct Hk as [(Ha & _)|[(e' & n & -> & _ & Ha & _)|(bw & _ & _ & _ & Ha & _)]];
        rewrite Ha in He; try (now left).
      destruct (decide (e' = e)) as [->|Hne].
      - rewrite lookup_insert_eq in He. injection He as <-. now right.
      - rewrite lookup_insert_ne in He by exact Hne. now left. }
    constructor. intros k f o rt' base Hk1 Hk2 Hown. rewrite Hm in Hk1.
    destruct (snoc_pair _ _ _ _ _ _ _ C1 Hk1 Hk2)
      as [(Hkl & Hl1 & Hl2)|(-> & [= -> ->] & [= -> ->])].
    + destruct (O _ _ _ _ _ Hl1 Hl2 Hown) as (H1 & H2 & H3 & H4 & H5).
      pose proof (lookup_lt_Some _ _ _ H2) as Hf.
      split; [exact H1|]. split; [now apply Hold|]. split; [|split].
      * intros j f' o' Hne Hj. rewrite Hm in Hj.
        destruct (lookup_snoc_inv _ _ _ _ Hj) as [[_ Hl]|[_ [= -> ->]]]; [eauto|lia].
      * intros Hin. destruct (Hints _ Hin) as [Hin'|[-> _]]; [contradiction|lia].
      * intros e He. destruct (Harr _ _ He) as [He'|[-> _]]; [now apply (H5 e)|lia].
    + destruct Hown as [Hnot Hint].
      split; [reflexivity|]. split; [exact Hnew|]. split; [|split].
      * intros j f' o' Hne Hj. rewrite Hm in Hj.
        destruct (lookup_snoc_inv _ _ _ _ Hj) as [[_ Hl]|[-> _]]; [|congruence].
        specialize (C2 _ _ _ Hl). lia.
      * intros Hin. destruct (Hints _ Hin) as [Hin'|[_ (bw & -> & Hbw & Hne)]].
        -- specialize (Hlt' _ Hin'). lia.
        -- destruct (Hint bw eq_refl) as [H32|(b & Hb & Hin')]; [lia|].
           rewrite C1 in Hin'. exact (Hne b Hb Hin').
      * intros e He. destruct (Harr _ _ He) as [He'|[_ Harr']]; [|congruence].
        specialize (Hlta _ _ He'). lia.
  - (* an array is extended *)
    constructor. intros k f o rt' base Hk1 Hk2 Hown. rewrite Hm in Hk1.
    destruct (snoc_pair _ _ _ _ _ _ _ C1 Hk1 Hk2)
      as [(Hkl & Hl1 & Hl2)|(-> & [= -> ->] & [= -> ->])].
    + destruct (O _ _ _ _ _ Hl1 Hl2 Hown) as (H1 & H2 & H3 & H4 & H5).
      assert (Hne : f <> typeIndex) by (intros ->; now apply (H5 e)).
      split; [exact H1|]. split; [|split; [|split]].
      * rewrite Hn, list_lookup_insert_ne by congruence. exact H2.
      * intros j f' o' Hnej Hj. rewrite Hm in Hj.
        destruct (lookup_snoc_inv _ _ _ _ Hj) as [[_ Hl]|[_ [= -> ->]]]; [eauto|congruence].
      * now rewrite Hmi.
      * now rewrite Haf.
    + destruct Hown as [Hnot _]. discriminate.
  - (* an integer is filled *)
    assert (Hsub : forall x, x ∈ map fst (mergedInts ms') -> x ∈ map fst (mergedInts ms)).
    { intros x Hx. rewrite Hmi' in Hx. destruct (N.eqb (second - bw) 0).
      - apply list_elem_of_fmap in Hx. destruct Hx as (y & -> & Hy).
        apply list_elem_of_fmap. exists y. split; [reflexivity|].
        rewrite delete_take_drop in Hy. rewrite <- (take_drop m (mergedInts ms)).
        apply elem_of_app in Hy as [Hy|Hy]; apply elem_of_app; [now left|right].
        rewrite <- (take_drop 1 (drop m (mergedInts ms))), drop_drop.
        apply elem_of_app. right. now rewrite Nat.add_1_r.
      - apply list_elem_of_fmap in Hx. destruct Hx as (y & -> & Hy).
        apply list_elem_of_lookup in Hy. destruct Hy as [k Hk].
        destruct (decide (k = m)) as [->|Hne].
        + rewrite list_lookup_insert_eq in Hk by (now apply lookup_lt_Some in Hmi).
          injection Hk as <-. simpl. eapply elem_fst_lookup. exact Hmi.
        + rewrite list_lookup_insert_ne in Hk by congruence.
          apply list_elem_of_fmap. exists y. split; [reflexivity|].
          eapply list_elem_of_lookup_2. exact Hk. }
    constructor. intros k f o rt' base Hk1 Hk2 Hown. rewrite Hm in Hk1.
    destruct (snoc_pair _ _ _ _ _ _ _ C1 Hk1 Hk2)
      as [(Hkl & Hl1 & Hl2)|(-> & [= -> ->] & [= -> ->])].
    + destruct (O _ _ _ _ _ Hl1 Hl2 Hown) as (H1 & H2 & H3 & H4 & H5).
      assert (Hne : f <> first).
      { intros ->. apply H4. eapply elem_fst_lookup. exact Hmi. }
      split; [exact H1|]. split; [|split; [|split]].
      * rewrite Hn, list_lookup_insert_ne by congruence. exact H2.
      * intros j f' o' Hnej Hj. rewrite Hm in Hj.
        destruct (lookup_snoc_inv _ _ _ _ Hj) as [[_ Hl]|[_ [= -> ->]]]; [eauto|congruence].
      * intros Hin. apply H4. now apply Hsub.
      * now rewrite Haf.
    + destruct Hown as [_ Hint].
      destruct (Hint bw eq_refl) as [H32|(b & Hb & Hin)]; [lia|].
      rewrite C1 in Hin. now destruct (Hesc b Hb).
Qed.

Lemma merged_own esc fields ms : merged esc fields ms -> mergeOwn esc fields ms.
Proof.
  induction 1 as [|fields ms fuel sts st ms1 rt ms2 Hm IH Hr Hf].
  - constructor; intros; discriminate.
  - eapply mergeOwn_step; [apply mergeField_step; exact Hf| |].
    + eapply mergeCore_reset; [exact Hr|]. now apply merged_core with (esc := esc).
    + eapply mergeOwn_reset; eauto.
Qed.

(** *** The arrays merged into one field *)

(** Every array field is mapped into an array of the same element type;
    as long as the merged array has fewer than [2 ^ 32] elements, the
    field lies inside it, and the fields mapped to the same array follow
    each other. *)
Record mergeArrays (fields : list (type * option nat)) (ms : MergeState) : Prop :=
  mkMergeArrays {
  ma_fields : forall i f o e n base,
    membersMapping ms !! i = Some (f, o) -> fields !! i = Some (ArrayTy e n, base) ->
    exists num, newTypes ms !! f = Some (ArrayTy e num) /\ (num < 2 ^ 32 -> o + n <= num);
  ma_disjoint : forall i j f oi oj ei ni ej nj basei basej e num,
    (i < j)%nat ->
    membersMapping ms !! i = Some (f, oi) -> membersMapping ms !! j = Some (f, oj) ->
    fields !! i = Some (ArrayTy ei ni, basei) -> fields !! j = Some (ArrayTy ej nj, basej) ->
    newTypes ms !! f = Some (ArrayTy e num) -> num < 2 ^ 32 -> oi + ni <= oj
}.

Lemma mergeArrays_reset fuel sts st i fields ms ms1 :
  resetAtBase fuel sts st i ms = Some ms1 -> mergeArrays fields ms -> mergeArrays fields ms1.
Proof.
  intros Hr [H1 H2]. destruct (resetAtBase_inv _ _ _ _ _ _ Hr) as (Hn & Hm & _).
  constructor; rewrite ?Hn, ?Hm; assumption.
Qed.

Lemma mergeArrays_step esc i rt fields base ms ms' :
  mergeStep esc i rt ms ms' -> mergeCore fields ms -> mergeArrays fields ms ->
  mergeArrays (fields ++ [(rt, base)]) ms'.
Proof.
  intros Hstep [C1 C2 C3 C4 C5] [A1 A2].
  destruct Hstep as [Hn Hm Hh Hk|e n typeIndex e0 prevNum -> Ha Hidx Hn Hm Haf Hmi
                    |bw m first second oldBw -> Hbw Hesc Hmi Hfit Hfirst Hn Hm Haf Hmi'].
  - (* a new field *)
    assert (Hold : forall k x, (k < length (newTypes ms))%nat ->
              newTypes ms' !! k = Some x -> newTypes ms !! k = Some x).
    { intros k x Hlt Hx. now rewrite Hn, lookup_app_l in Hx. }
    assert (Hnew : newTypes ms' !! length (newTypes ms) = Some rt).
    { rewrite Hn, lookup_app_r, Nat.sub_diag by lia. reflexivity. }
    constructor.
    + intros k f o e n base' Hk1 Hk2. rewrite Hm in Hk1.
      destruct (snoc_pair _ _ _ _ _ _ _ C1 Hk1 Hk2)
        as [(_ & Hl1 & Hl2)|(_ & [= -> ->] & [= <- <-])].
      * destruct (A1 _ _ _ _ _ _ Hl1 Hl2) as (num & Hnum & Hfit). exists num.
        split; [|exact Hfit]. rewrite Hn, lookup_app_l; [exact Hnum|].
        now apply lookup_lt_Some in Hnum.
      * exists n. split; [exact Hnew|]. lia.
    + intros k j f oi oj ei ni ej nj basei basej e num Hlt Hk1 Hj1 Hk2 Hj2 Hf Hnum.
      rewrite Hm in Hk1, Hj1.
      destruct (snoc_pair _ _ _ _ _ _ _ C1 Hj1 Hj2)
        as [(_ & Hl1 & Hl2)|(-> & [= -> ->] & _)].
      * destruct (snoc_pair _ _ _ _ _ _ _ C1 Hk1 Hk2) as [(_ & Hl3 & Hl4)|(-> & _)].
        -- eapply A2; [exact Hlt|exact Hl3|exact Hl1|exact Hl4|exact Hl2| |exact Hnum].
           apply Hold; [|exact Hf]. exact (C2 _ _ _ Hl1).
        -- apply lookup_lt_Some in Hl1. lia.
      * rewrite lookup_app_l in Hk1 by lia. specialize (C2 _ _ _ Hk1). lia.
  - (* an array is extended *)
    destruct (C5 _ _ Ha) as [n0 Hn0].
    assert (e0 = e /\ n0 = prevNum) as [-> ->] by (split; congruence).
    pose proof (lookup_lt_Some _ _ _ Hidx) as Hlen.
    assert (Hsmall : prevNum + n < 2 ^ 32 -> wrap32 prevNum = prevNum).
    { intros H. unfold wrap32. apply N.mod_small. lia. }
    constructor.
    + intros k f o e' n' base' Hk1 Hk2. rewrite Hm in Hk1.
      destruct (snoc_pair _ _ _ _ _ _ _ C1 Hk1 Hk2)
        as [(_ & Hl1 & Hl2)|(_ & [= -> ->] & [= -> -> ->])].
      * destruct (A1 _ _ _ _ _ _ Hl1 Hl2) as (num & Hnum & Hfit).
        destruct (decide (f = typeIndex)) as [->|Hne].
        -- assert (e' = e /\ num = prevNum) as [-> ->] by (split; congruence).
           exists (prevNum + n). rewrite Hn, list_lookup_insert_eq by exact Hlen.
           split; [reflexivity|]. intros H. assert (prevNum < 2 ^ 32) by lia.
           specialize (Hfit H0). lia.
        -- exists num. rewrite Hn, list_lookup_insert_ne by congruence. auto.
      * exists (prevNum + n). rewrite Hn, list_lookup_insert_eq by exact Hlen.
        split; [reflexivity|]. intros H. rewrite (Hsmall H). lia.
    + intros k j f oi oj ei ni ej nj basei basej e' num Hlt Hk1 Hj1 Hk2 Hj2 Hf Hnum.
      rewrite Hm in Hk1, Hj1. rewrite Hn in Hf.
      destruct (snoc_pair _ _ _ _ _ _ _ C1 Hj1 Hj2)
        as [(_ & Hl1 & Hl2)|(-> & [= -> ->] & _)].
      * destruct (snoc_pair _ _ _ _ _ _ _ C1 Hk1 Hk2) as [(_ & Hl3 & Hl4)|(-> & _)].
        -- destruct (decide (f = typeIndex)) as [->|Hne].
           ++ rewrite list_lookup_insert_eq in Hf by exact Hlen. injection Hf as <- <-.
              eapply A2; [exact Hlt|exact Hl3|exact Hl1|exact Hl4|exact Hl2|exact Hidx|lia].
           ++ rewrite list_lookup_insert_ne in Hf by congruence.
              eapply A2; [exact Hlt|exact Hl3|exact Hl1|exact Hl4|exact Hl2|exact Hf|exact Hnum].
        -- apply lookup_lt_Some in Hl1. lia.
      * rewrite lookup_app_l in Hk1 by lia. rewrite lookup_app_l in Hk2 by lia.
        rewrite list_lookup_insert_eq in Hf by exact Hlen. injection Hf as <- <-.
        destruct (A1 _ _ _ _ _ _ Hk1 Hk2) as (num & Hnum' & Hfit).
        assert (num = prevNum) as -> by congruence.
        rewrite (Hsmall Hnum). apply Hfit. lia.
  - (* an integer is filled *)
    pose proof (lookup_lt_Some _ _ _ Hfirst) as Hlen.
    constructor.
    + intros k f o e n base' Hk1 Hk2. rewrite Hm in Hk1.
      destruct (snoc_pair _ _ _ _ _ _ _ C1 Hk1 Hk2) as [(_ & Hl1 & Hl2)|(_ & _ & [=])].
      destruct (A1 _ _ _ _ _ _ Hl1 Hl2) as (num & Hnum & Hfit'). exists num.
      split; [|exact Hfit']. rewrite Hn, list_lookup_insert_ne; [exact Hnum|].
      intros <-. congruence.
    + intros k j f oi oj ei ni ej nj basei basej e num Hlt Hk1 Hj1 Hk2 Hj2 Hf Hnum.
      rewrite Hm in Hk1, Hj1. rewrite Hn in Hf.
      destruct (snoc_pair _ _ _ _ _ _ _ C1 Hj1 Hj2) as [(Hj & Hl1 & Hl2)|(_ & _ & [=])].
      destruct (snoc_pair _ _ _ _ _ _ _ C1 Hk1 Hk2) as [(_ & Hl3 & Hl4)|(-> & _)]; [|lia].
      destruct (decide (f = first)) as [->|Hne].
      * rewrite list_lookup_insert_eq in Hf by exact Hlen. discriminate.
      * rewrite list_lookup_insert_ne in Hf by congruence.
        eapply A2; [exact Hlt|exact Hl3|exact Hl1|exact Hl4|exact Hl2|exact Hf|exact Hnum].
Qed.

Lemma merged_arrays_inv esc fields ms : merged esc fields ms -> mergeArrays fields ms.
Proof.
  induction 1 as [|fields ms fuel sts st ms1 rt ms2 Hm IH Hr Hf].
  - constructor; intros; discriminate.
  - eapply mergeArrays_step; [apply mergeField_step; exact Hf| |].
    + eapply mergeCore_reset; [exact Hr|]. now apply merged_core with (esc := esc).
    + eapply mergeArrays_reset; eauto.
Qed.

(** *** The loop of [rewriteType] reaches these states *)

(** The first component of [f] is what some call of [rec] gave for the
    element type [e]. *)
Definition rewrittenBy (rec : type -> M TypeMappingInfo) (e : type) (f : type * option nat)
    : Prop :=
  exists s1 r s2, rec e s1 = Ok r s2 /\ fst f = mappedType r.

Lemma mergeFields_merged fuel (rec : type -> M TypeMappingInfo) st esc :
  (forall t s, wp (rec t) (fun _ s' => escapingFields s' = escapingFields s) s) ->
  forall elts fields ms s ms' s',
  escapingFields s = esc -> merged esc fields ms ->
  mergeFields fuel rec st false elts (length fields) ms s = Ok ms' s' ->
  exists rts, merged esc (fields ++ rts) ms' /\ Forall2 (rewrittenBy rec) elts rts /\
    escapingFields s' = esc.
Proof.
  intros Hrec. induction elts as [|e elts IH]; intros fields ms s ms' s' Hesc Hm Hrun.
  - simpl in Hrun. unfold mret, M_ret in Hrun. injection Hrun as <- <-. exists [].
    rewrite app_nil_r. auto.
  - cbn [mergeFields] in Hrun. unfold mbind, M_bind, get in Hrun.
    destruct (resetAtBase fuel (structs s) st (length fields) ms) as [ms1|] eqn:Hr;
      [|discriminate].
    specialize (Hrec e s). unfold wp in Hrec.
    destruct (rec e s) as [r s1| |] eqn:Hre; try discriminate.
    destruct (mergeField false (escapingFields s1) (length fields) (mappedType r) ms1)
      as [ms2|] eqn:Hf; [|discriminate].
    rewrite Hrec, Hesc in Hf.
    pose proof (merged_field esc fields ms fuel (structs s) st ms1 (mappedType r) ms2
                  Hm Hr Hf) as Hm2.
    replace (S (length fields))
      with (length (fields ++ [(mappedType r, curDirectBase ms1)])) in Hrun
      by (rewrite length_app; simpl; lia).
    destruct (IH _ _ _ _ _ (eq_trans Hrec Hesc) Hm2 Hrun) as (rts & Hm' & Hall & Hesc').
    exists ((mappedType r, curDirectBase ms1) :: rts).
    rewrite <- app_assoc in Hm'. split; [exact Hm'|]. split; [|exact Hesc'].
    constructor; [|exact Hall]. exists s, r, s1. auto.
Qed.

(** The calls of [rec] that the loop makes, one after the other: the
    rewritten types of the elements and the state they leave. *)
Inductive rewrittenAlong (rec : type -> M TypeMappingInfo)
    : list type -> state -> list type -> state -> Prop :=
| along_nil s : rewrittenAlong rec [] s [] s
| along_cons e elts s r s1 rts s' :
    rec e s = Ok r s1 -> rewrittenAlong rec elts s1 rts s' ->
    rewrittenAlong rec (e :: elts) s (mappedType r :: rts) s'.

Lemma rewrittenAlong_functional rec elts s rts1 s1 rts2 s2 :
  rewrittenAlong rec elts s rts1 s1 -> rewrittenAlong rec elts s rts2 s2 ->
  rts1 = rts2 /\ s1 = s2.
Proof.
  intros H1. revert rts2 s2. induction H1 as [s|e elts s r sa rts s' Hr _ IH]; intros rts2 s2 H2.
  - inversion H2. auto.
  - inversion H2 as [|e' elts' s0 r' sb rts' s'' Hr' Hrest]; subst.
    rewrite Hr in Hr'. injection Hr' as <- <-.
    destruct (IH _ _ Hrest) as [-> ->]. auto.
Qed.

Lemma rewrittenAlong_length rec elts s rts s' :
  rewrittenAlong rec elts s rts s' -> length rts = length elts.
Proof. induction 1; simpl; congruence. Qed.

Lemma mergeFields_along fuel (rec : type -> M TypeMappingInfo) st esc :
  (forall t s, wp (rec t) (fun _ s' => escapingFields s' = escapingFields s) s) ->
  forall elts fields ms s ms' s',
  escapingFields s = esc -> merged esc fields ms ->
  mergeFields fuel rec st false elts (length fields) ms s = Ok ms' s' ->
  exists rts, merged esc (fields ++ rts) ms' /\ rewrittenAlong rec elts s (rts.*1) s' /\
    escapingFields s' = esc.
Proof.
  intros Hrec. induction elts as [|e elts IH]; intros fields ms s ms' s' Hesc Hm Hrun.
  - simpl in Hrun. unfold mret, M_ret in Hrun. injection Hrun as <- <-. exists [].
    rewrite app_nil_r. split; [exact Hm|]. split; [constructor|exact Hesc].
  - cbn [mergeFields] in Hrun. unfold mbind, M_bind, get in Hrun.
    destruct (resetAtBase fuel (structs s) st (length fields) ms) as [ms1|] eqn:Hr;
      [|discriminate].
    specialize (Hrec e s). unfold wp in Hrec.
    destruct (rec e s) as [r s1| |] eqn:Hre; try discriminate.
    destruct (mergeField false (escapingFields s1) (length fields) (mappedType r) ms1)
      as [ms2|] eqn:Hf; [|discriminate].
    rewrite Hrec, Hesc in Hf.
    pose proof (merged_field esc fields ms fuel (structs s) st ms1 (mappedType r) ms2
                  Hm Hr Hf) as Hm2.
    replace (S (length fields))
      with (length (fields ++ [(mappedType r, curDirectBase ms1)])) in Hrun
      by (rewrite length_app; simpl; lia).
    destruct (IH _ _ _ _ _ (eq_trans Hrec Hesc) Hm2 Hrun) as (rts & Hm' & Hall & Hesc').
    exists ((mappedType r, curDirectBase ms1) :: rts).
    rewrite <- app_assoc in Hm'. split; [exact Hm'|]. split; [|exact Hesc'].
    simpl. econstructor; [exact Hre|exact Hall].
Qed.

(** The loop fails at the first element whose rewriting fails. *)
Lemma mergeFields_byteLayout_prefix fuel (rec : type -> M TypeMappingInfo) st :
  forall elts i ms s, mergeFields fuel rec st true elts i ms s = Abort ->
  exists pre e post ms1 s1, elts = pre ++ e :: post /\
    mergeFields fuel rec st true pre i ms s = Ok ms1 s1 /\ rec e s1 = Abort.
Proof.
  induction elts as [|e elts IH]; intros i ms s Hrun; [discriminate|].
  cbn [mergeFields] in Hrun. unfold mbind, M_bind, get in Hrun.
  destruct (resetAtBase fuel (structs s) st i ms) as [ms1|] eqn:Hr; [|discriminate].
  destruct (rec e s) as [r s1| |] eqn:Hre; try discriminate.
  - destruct (IH _ _ _ Hrun) as (pre & e' & post & ms2 & s2 & -> & Hpre & He').
    exists (e :: pre), e', post, ms2, s2. split; [reflexivity|]. split; [|exact He'].
    cbn [mergeFields]. unfold mbind, M_bind, get. rewrite Hr, Hre. exact Hpre.
  - exists [], e, elts, ms, s. split; [reflexivity|]. split; [reflexivity|exact Hre].
Qed.

Lemma mergeFields_prefix fuel (rec : type -> M TypeMappingInfo) st :
  (forall t s, wp (rec t) (fun _ s' => escapingFields s' = escapingFields s) s) ->
  forall elts fields ms s,
  merged (escapingFields s) fields ms ->
  mergeFields fuel rec st false elts (length fields) ms s = Abort ->
  exists pre e post ms1 s1, elts = pre ++ e :: post /\
    mergeFields fuel rec st false pre (length fields) ms s = Ok ms1 s1 /\ rec e s1 = Abort.
Proof.
  intros Hrec. induction elts as [|e elts IH]; intros fields ms s Hm Hrun; [discriminate|].
  cbn [mergeFields] in Hrun. unfold mbind, M_bind, get in Hrun.
  destruct (resetAtBase fuel (structs s) st (length fields) ms) as [ms1|] eqn:Hr;
    [|discriminate].
  pose proof (Hrec e s) as Hesc. unfold wp in Hesc.
  destruct (rec e s) as [r s1| |] eqn:Hre; try discriminate.
  - destruct (mergeField_total false (escapingFields s1) (length fields) (mappedType r)
                fields ms1) as [ms2 Hf].
    { eapply mergeCore_reset; [exact Hr|]. eapply merged_core. exact Hm. }
    rewrite Hf in Hrun. pose proof Hf as Hf'. rewrite Hesc in Hf'.
    pose proof (merged_field _ fields ms fuel (structs s) st ms1 (mappedType r) ms2
                  Hm Hr Hf') as Hm2.
    assert (Hlen : length (fields ++ [(mappedType r, curDirectBase ms1)])
                   = S (length fields)) by (rewrite length_app; simpl; lia).
    rewrite <- Hlen in Hrun. rewrite <- Hesc in Hm2.
    destruct (IH _ _ _ Hm2 Hrun) as (pre & e' & post & ms3 & s3 & -> & Hpre & He').
    exists (e :: pre), e', post, ms3, s3. split; [reflexivity|]. split; [|exact He'].
    cbn [mergeFields]. unfold mbind, M_bind, get. rewrite Hr, Hre, Hf, <- Hlen. exact Hpre.
  - exists [], e, elts, ms, s. split; [reflexivity|]. split; [reflexivity|exact Hre].
Qed.

Lemma rewriteType_escaping isClientType isJSExportedType getTypeAllocSize fuel t s :
  wp (rewriteType isClientType isJSExportedType getTypeAllocSize fuel t)
     (fun _ s' => escapingFields s' = escapingFields s) s.
Proof.
  eapply wp_mono; [apply rewriteType_extends|]. intros r s' [[]]. assumption.
Qed.

Lemma lookup_fst_inv {A B} (l : list (A * B)) i a :
  l.*1 !! i = Some a -> exists b, l !! i = Some (a, b).
Proof.
  rewrite list_lookup_fmap. destruct (l !! i) as [[a' b]|]; simpl; [|discriminate].
  intros [= ->]. eauto.
Qed.

(** X8. The field-merging loop of [rewriteType] fails only where the
    rewriting of one of the element types fails: when the loop fails, it
    has gone through the elements before some element [e] without failing,
    and the call of [rewriteType] on [e] in the state reached there fails.
    The [cast<ArrayType>] on the field found for an array and the
    [cast<IntegerType>] on the field found for a small integer always
    succeed, with or without the byte layout. *)
Theorem mergeFields_aborts_only_in_rec (isClientType : type -> bool)
    (isJSExportedType : nat -> bool) (getTypeAllocSize : type -> N) (fuel st : nat)
    (byteLayout : bool) (elts : list type) (s : state) :
  mergeFields fuel (rewriteType isClientType isJSExportedType getTypeAllocSize fuel)
    st byteLayout elts 0 initMerge s = Abort ->
  exists pre e post ms1 s1,
    elts = pre ++ e :: post /\
    mergeFields fuel (rewriteType isClientType isJSExportedType getTypeAllocSize fuel)
      st byteLayout pre 0 initMerge s = Ok ms1 s1 /\
    rewriteType isClientType isJSExportedType getTypeAllocSize fuel e s1 = Abort.
Proof.
  destruct byteLayout.
  - apply mergeFields_byteLayout_prefix.
  - apply (mergeFields_prefix fuel _ st (rewriteType_escaping _ _ _ fuel) elts []).
    constructor.
Qed.

(** The second field is of a struct type that the module does not have. *)
Lemma mergeFields_aborts_only_in_rec_witness :
  exists pre e post ms1 s1,
    [i8; StructTy 7] = pre ++ e :: post /\
    mergeFields 10 (rewriteType noClient notExported (exampleSize (fun _ => 0)) 10)
      0 false pre 0 initMerge (moduleState [plainStruct [i8; StructTy 7]]) = Ok ms1 s1 /\
    rewriteType noClient notExported (exampleSize (fun _ => 0)) 10 e s1 = Abort.
Proof.
  apply (mergeFields_aborts_only_in_rec noClient notExported (exampleSize (fun _ => 0))
           10 0 false [i8; StructTy 7] (moduleState [plainStruct [i8; StructTy 7]])).
  vm_compute. reflexivity.
Defined.

(** X9. The small integers that the merging loop of [rewriteType] packs
    together get disjoint bit ranges.  Let [rts] be the rewritten types of
    the elements, as the calls of [rewriteType] that the loop makes one
    after the other return them.  After the loop every field whose
    rewritten type is an integer of [bw] bits is mapped, at bit offset [o],
    into a field of the new struct that is an integer of [w >= o + bw]
    bits; [w] is at most 32 unless the field is alone there; and of two
    integer fields mapped into the same new field the later one starts
    where the earlier one ends, or after. *)
Theorem packed_integers_disjoint (isClientType : type -> bool)
    (isJSExportedType : nat -> bool) (getTypeAllocSize : type -> N) (fuel st : nat)
    (elts : list type) (s : state) (ms : MergeState) (s' : state) :
  mergeFields fuel (rewriteType isClientType isJSExportedType getTypeAllocSize fuel)
    st false elts 0 initMerge s = Ok ms s' ->
  exists rts,
    rewrittenAlong (rewriteType isClientType isJSExportedType getTypeAllocSize fuel)
      elts s rts s' /\
    length (membersMapping ms) = length elts /\
    (forall i f o bw,
       membersMapping ms !! i = Some (f, o) -> rts !! i = Some (IntegerTy bw) ->
       exists w, newTypes ms !! f = Some (IntegerTy w) /\ o + bw <= w /\
                 (w <= 32 \/ (w = bw /\ o = 0))) /\
    (forall i j f oi oj bi bj,
       (i < j)%nat ->
       membersMapping ms !! i = Some (f, oi) -> membersMapping ms !! j = Some (f, oj) ->
       rts !! i = Some (IntegerTy bi) -> rts !! j = Some (IntegerTy bj) ->
       oi + bi <= oj).
Proof.
  intros Hrun.
  destruct (mergeFields_along fuel _ st (escapingFields s)
              (rewriteType_escaping _ _ _ fuel) elts [] initMerge s ms s' eq_refl
              (merged_init _) Hrun) as (fields & Hm & Hall & _).
  simpl in Hm. exists (fields.*1). split; [exact Hall|].
  destruct (merged_core _ _ _ Hm) as [Hlen _ _ _ _].
  destruct (merged_ints _ _ _ Hm) as [H1 H2].
  split; [|split].
  - rewrite Hlen, <- (rewrittenAlong_length _ _ _ _ _ Hall). now rewrite length_fmap.
  - intros i f o bw Hi Hrt. destruct (lookup_fst_inv _ _ _ Hrt) as [base Hf]. eauto.
  - intros i j f oi oj bi bj Hlt Hi Hj Hri Hrj.
    destruct (lookup_fst_inv _ _ _ Hri) as [basei Hfi].
    destruct (lookup_fst_inv _ _ _ Hrj) as [basej Hfj]. eauto.
Qed.

(** The merging state after the fields of [{i8, i8, i16}]. *)
Definition twoBytesAndShortMerged : MergeState :=
  mkMerge [i32] [(0%nat, 0); (0%nat, 8); (0%nat, 16)] ∅ [] 3 (Some 0%nat) true.

Definition twoBytesAndShortDone : state :=
  Eval vm_compute in
    stateOf (mergeFields 10 (rewriteType noClient notExported (exampleSize (fun _ => 0)) 10)
               0 false [i8; i8; i16] 0 initMerge twoBytesAndShort) twoBytesAndShort.

Lemma packed_integers_disjoint_witness :
  exists rts,
    rewrittenAlong (rewriteType noClient notExported (exampleSize (fun _ => 0)) 10)
      [i8; i8; i16] twoBytesAndShort rts twoBytesAndShortDone /\
    length (membersMapping twoBytesAndShortMerged) = length [i8; i8; i16] /\
    (forall i f o bw,
       membersMapping twoBytesAndShortMerged !! i = Some (f, o) ->
       rts !! i = Some (IntegerTy bw) ->
       exists w, newTypes twoBytesAndShortMerged !! f = Some (IntegerTy w) /\ o + bw <= w /\
                 (w <= 32 \/ (w = bw /\ o = 0))) /\
    (forall i j f oi oj bi bj,
       (i < j)%nat ->
       membersMapping twoBytesAndShortMerged !! i = Some (f, oi) ->
       membersMapping twoBytesAndShortMerged !! j = Some (f, oj) ->
       rts !! i = Some (IntegerTy bi) -> rts !! j = Some (IntegerTy bj) ->
       oi + bi <= oj).
Proof.
  apply (packed_integers_disjoint noClient notExported (exampleSize (fun _ => 0)) 10 0
           [i8; i8; i16] twoBytesAndShort twoBytesAndShortMerged twoBytesAndShortDone).
  vm_compute. reflexivity.
Defined.

(** X10. The merging loop of [rewriteType] never merges a field whose
    rewritten type is neither an array nor an integer, nor an integer of 32
    bits or more, nor an integer that escapes in the direct base the loop
    is in: such a field gets a field of the new struct of exactly its
    rewritten type, at offset 0, and no other field is mapped there. *)
Theorem unmerged_fields_keep_their_own (isClientType : type -> bool)
    (isJSExportedType : nat -> bool) (getTypeAllocSize : type -> N) (fuel st : nat)
    (elts : list type) (s : state) (ms : MergeState) (s' : state) :
  mergeFields fuel (rewriteType isClientType isJSExportedType getTypeAllocSize fuel)
    st false elts 0 initMerge s = Ok ms s' ->
  exists fields,
    merged (escapingFields s) fields ms /\
    Forall2 (rewrittenBy (rewriteType isClientType isJSExportedType getTypeAllocSize fuel))
      elts fields /\
    forall i f o rt base,
      membersMapping ms !! i = Some (f, o) -> fields !! i = Some (rt, base) ->
      keepsOwnField (escapingFields s) i rt base ->
      o = 0 /\ newTypes ms !! f = Some rt /\
      forall j f' o', j <> i -> membersMapping ms !! j = Some (f', o') -> f' <> f.
Proof.
  intros Hrun.
  destruct (mergeFields_merged fuel _ st (escapingFields s)
              (rewriteType_escaping _ _ _ fuel) elts [] initMerge s ms s' eq_refl
              (merged_init _) Hrun) as (fields & Hm & Hall & _).
  simpl in Hm. exists fields. split; [exact Hm|]. split; [exact Hall|].
  destruct (merged_own _ _ _ Hm) as [H].
  intros i f o rt base H1 H2 Hown.
  destruct (H _ _ _ _ _ H1 H2 Hown) as (Ho & Hf & Hother & _). auto.
Qed.

(** The merging state after the fields of [{i8, float, i8}]. *)
Definition byteFloatByte : state := moduleState [plainStruct [i8; FloatTy; i8]].
Definition byteFloatByteMerged : MergeState :=
  mkMerge [i16; FloatTy] [(0%nat, 0); (1%nat, 0); (0%nat, 8)] ∅ [(0%nat, 16)] 3
          (Some 0%nat) true.

Lemma unmerged_fields_keep_their_own_witness :
  exists fields,
    merged (escapingFields byteFloatByte) fields byteFloatByteMerged /\
    Forall2 (rewrittenBy (rewriteType noClient notExported (exampleSize (fun _ => 0)) 10))
      [i8; FloatTy; i8] fields /\
    forall i f o rt base,
      membersMapping byteFloatByteMerged !! i = Some (f, o) ->
      fields !! i = Some (rt, base) ->
      keepsOwnField (escapingFields byteFloatByte) i rt base ->
      o = 0 /\ newTypes byteFloatByteMerged !! f = Some rt /\
      forall j f' o', j <> i -> membersMapping byteFloatByteMerged !! j = Some (f', o') ->
        f' <> f.
Proof.
  eapply (unmerged_fields_keep_their_own noClient notExported (exampleSize (fun _ => 0))
            10 0 [i8; FloatTy; i8] byteFloatByte byteFloatByteMerged).
  vm_compute. reflexivity.
Defined.

(** X11. The arrays that the merging loop of [rewriteType] merges keep
    their elements apart.  Let [rts] be the rewritten types of the
    elements, as the calls of [rewriteType] that the loop makes one after
    the other return them.  After the loop every field whose rewritten type
    is an array of [n] elements of type [e] is mapped into a field of the
    new struct that is an array of [e]; as long as that array has fewer
    than [2 ^ 32] elements, the field lies inside it from its offset on,
    and of two array fields mapped into the same new field the later one
    starts where the earlier one ends, or after. *)
Theorem merged_arrays_disjoint (isClientType : type -> bool)
    (isJSExportedType : nat -> bool) (getTypeAllocSize : type -> N) (fuel st : nat)
    (elts : list type) (s : state) (ms : MergeState) (s' : state) :
  mergeFields fuel (rewriteType isClientType isJSExportedType getTypeAllocSize fuel)
    st false elts 0 initMerge s = Ok ms s' ->
  exists rts,
    rewrittenAlong (rewriteType isClientType isJSExportedType getTypeAllocSize fuel)
      elts s rts s' /\
    length (membersMapping ms) = length elts /\
    (forall i f o e n,
       membersMapping ms !! i = Some (f, o) -> rts !! i = Some (ArrayTy e n) ->
       exists num, newTypes ms !! f = Some (ArrayTy e num) /\
                   (num < 2 ^ 32 -> o + n <= num)) /\
    (forall i j f oi oj ei ni ej nj e num,
       (i < j)%nat ->
       membersMapping ms !! i = Some (f, oi) -> membersMapping ms !! j = Some (f, oj) ->
       rts !! i = Some (ArrayTy ei ni) -> rts !! j = Some (ArrayTy ej nj) ->
       newTypes ms !! f = Some (ArrayTy e num) -> num < 2 ^ 32 -> oi + ni <= oj).
Proof.
  intros Hrun.
  destruct (mergeFields_along fuel _ st (escapingFields s)
              (rewriteType_escaping _ _ _ fuel) elts [] initMerge s ms s' eq_refl
              (merged_init _) Hrun) as (fields & Hm & Hall & _).
  simpl in Hm. exists (fields.*1). split; [exact Hall|].
  destruct (merged_core _ _ _ Hm) as [Hlen _ _ _ _].
  destruct (merged_arrays_inv _ _ _ Hm) as [H1 H2].
  split; [|split].
  - rewrite Hlen, <- (rewrittenAlong_length _ _ _ _ _ Hall). now rewrite length_fmap.
  - intros i f o e n Hi Hrt. destruct (lookup_fst_inv _ _ _ Hrt) as [base Hf]. eauto.
  - intros i j f oi oj ei ni ej nj e num Hlt Hi Hj Hri Hrj.
    destruct (lookup_fst_inv _ _ _ Hri) as [basei Hfi].
    destruct (lookup_fst_inv _ _ _ Hrj) as [basej Hfj]. eauto.
Qed.

(** The merging state after the fields of [{[4 x i32], [4 x i32], float}]. *)
Definition twoArraysAndFloatMerged : MergeState :=
  mkMerge [ArrayTy i32 8; FloatTy] [(0%nat, 0); (0%nat, 4); (1%nat, 0)]
          {[ i32 := 0%nat ]} [] 3 (Some 0%nat) true.

Definition twoArraysAndFloatDone : state :=
  Eval vm_compute in
    stateOf (mergeFields 10 (rewriteType noClient notExported (exampleSize (fun _ => 0)) 10)
               0 false [ArrayTy i32 4; ArrayTy i32 4; FloatTy] 0 initMerge twoArraysAndFloat)
            twoArraysAndFloat.

Lemma merged_arrays_disjoint_witness :
  exists rts,
    rewrittenAlong (rewriteType noClient notExported (exampleSize (fun _ => 0)) 10)
      [ArrayTy i32 4; ArrayTy i32 4; FloatTy] twoArraysAndFloat rts twoArraysAndFloatDone /\
    length (membersMapping twoArraysAndFloatMerged)
    = length [ArrayTy i32 4; ArrayTy i32 4; FloatTy] /\
    (forall i f o e n,
       membersMapping twoArraysAndFloatMerged !! i = Some (f, o) ->
       rts !! i = Some (ArrayTy e n) ->
       exists num, newTypes twoArraysAndFloatMerged !! f = Some (ArrayTy e num) /\
                   (num < 2 ^ 32 -> o + n <= num)) /\
    (forall i j f oi oj ei ni ej nj e num,
       (i < j)%nat ->
       membersMapping twoArraysAndFloatMerged !! i = Some (f, oi) ->
       membersMapping twoArraysAndFloatMerged !! j = Some (f, oj) ->
       rts !! i = Some (ArrayTy ei ni) -> rts !! j = Some (ArrayTy ej nj) ->
       newTypes twoArraysAndFloatMerged !! f = Some (ArrayTy e num) -> num < 2 ^ 32 ->
       oi + ni <= oj).
Proof.
  apply (merged_arrays_disjoint noClient notExported (exampleSize (fun _ => 0)) 10 0
           [ArrayTy i32 4; ArrayTy i32 4; FloatTy] twoArraysAndFloat
           twoArraysAndFloatMerged twoArraysAndFloatDone).
  vm_compute. reflexivity.
Defined.

(** ** The direct base a field belongs to *)

(** [gatherAllTypesInfo] and the merging loop of [rewriteType] walk down
    the direct bases in the same way. *)
Lemma escapeBase_findDirectBase fuel sts : forall container i,
  escapeBase fuel sts container i = findDirectBase fuel sts container i.
Proof.
  induction fuel as [|fuel IH]; intros container i; simpl; [reflexivity|].
  destruct (sts !! container ≫= directBase) as [base|]; [|reflexivity].
  destruct (sts !! base) as [binfo|]; [|reflexivity].
  rewrite IH.
  destruct (Nat.leb_spec (length (elements binfo)) i), (Nat.ltb_spec i (length (elements binfo)));
    try lia; reflexivity.
Qed.

(** No struct has fewer elements than its direct base. *)
Definition baseIsShorter (sts : gmap nat StructInfo) (info : StructInfo) : bool :=
  match directBase info with
  | Some base =>
      match sts !! base with
      | Some binfo => Nat.leb (length (elements binfo)) (length (elements info))
      | None => true
      end
  | None => true
  end.

Definition basesAreShorter (sts : gmap nat StructInfo) : Prop :=
  map_Forall (fun _ info => baseIsShorter sts info = true) sts.

Lemma findDirectBase_shorter sts fuel :
  basesAreShorter sts ->
  forall c i b cinfo binfo,
  findDirectBase fuel sts c i = Some b -> sts !! c = Some cinfo -> sts !! b = Some binfo ->
  (length (elements binfo) <= length (elements cinfo))%nat.
Proof.
  intros Hsts. induction fuel as [|fuel IH]; intros c i b cinfo binfo; [discriminate|].
  simpl. intros Hrun Hc Hb. rewrite Hc in Hrun. simpl in Hrun.
  assert (Hstop : Some c = Some b ->
            (length (elements binfo) <= length (elements cinfo))%nat).
  { intros [= ->]. assert (cinfo = binfo) as -> by congruence. lia. }
  destruct (directBase cinfo) as [base|] eqn:Hbase; [|auto].
  destruct (sts !! base) as [binfo'|] eqn:Hbase'; [|auto].
  destruct (Nat.ltb i (length (elements binfo'))); [|auto].
  specialize (IH _ _ _ _ _ Hrun Hbase' Hb).
  specialize (Hsts _ _ Hc). unfold baseIsShorter in Hsts. rewrite Hbase, Hbase' in Hsts.
  apply Nat.leb_le in Hsts. lia.
Qed.

(** All the fields up to the end of a base are found in that base. *)
Lemma findDirectBase_segment sts fuel :
  basesAreShorter sts ->
  forall c i0 i b binfo,
  findDirectBase fuel sts c i0 = Some b -> sts !! b = Some binfo ->
  (i0 <= i < length (elements binfo))%nat ->
  findDirectBase fuel sts c i = Some b.
Proof.
  intros Hsts. induction fuel as [|fuel IH]; intros c i0 i b binfo; [discriminate|].
  simpl. intros Hrun Hb Hi.
  destruct (sts !! c ≫= directBase) as [base|]; [|exact Hrun].
  destruct (sts !! base) as [binfo'|] eqn:Hbase; [|exact Hrun].
  destruct (Nat.ltb_spec i0 (length (elements binfo'))) as [Hlt|Hge].
  - pose proof (findDirectBase_shorter sts fuel Hsts _ _ _ _ _ Hrun Hbase Hb) as Hlen.
    destruct (Nat.ltb_spec i (length (elements binfo'))) as [_|Hge]; [|lia].
    eapply IH; eauto.
  - destruct (Nat.ltb_spec i (length (elements binfo'))) as [Hlt|_]; [lia|exact Hrun].
Qed.

(** X12. An escaping field is looked up under the struct it was recorded
    under.  When no struct has fewer elements than its direct base, the
    direct base that the merging loop of [rewriteType] is in, from a reset
    at field [i0] up to the next one, is for each field [i] in between the
    struct under which [gatherAllTypesInfo] records an escaping access to
    field [i] of the same struct. *)
Theorem escaping_field_base_agrees (fuel : nat) (sts : gmap nat StructInfo) (st i0 i : nat)
    (ms ms1 : MergeState) :
  basesAreShorter sts ->
  i0 = directBaseLimit ms ->
  resetAtBase fuel sts st i0 ms = Some ms1 ->
  (i0 <= i < directBaseLimit ms1)%nat ->
  escapeBase fuel sts st i = curDirectBase ms1.
Proof.
  intros Hsts -> Hr Hi. unfold resetAtBase in Hr. rewrite Nat.eqb_refl in Hr.
  destruct (findDirectBase fuel sts st (directBaseLimit ms)) as [curBase|] eqn:Hf;
    [|discriminate].
  injection Hr as <-. simpl in *.
  destruct (sts !! curBase) as [binfo|] eqn:Hb; [|lia].
  rewrite escapeBase_findDirectBase.
  eapply findDirectBase_segment; eauto.
Qed.

(** A struct [{i8, i8, float}] whose direct base is [{i8}]. *)
Definition derivedModule : state :=
  moduleState [mkStruct [i8; i8; FloatTy] false (Some 1%nat) false false false;
               plainStruct [i8]].
Definition derivedStructs : gmap nat StructInfo := structs derivedModule.

Definition afterBase : MergeState :=
  mkMerge [i8] [(0%nat, 0)] ∅ [(0%nat, 24)] 1 (Some 1%nat) false.

Lemma escaping_field_base_agrees_witness :
  escapeBase 5 derivedStructs 0 2
  = curDirectBase (mkMerge [i8] [(0%nat, 0)] ∅ [] 3 (Some 0%nat) false).
Proof.
  apply (escaping_field_base_agrees 5 derivedStructs 0 1 2 afterBase).
  - refine (bool_decide_unpack (basesAreShorter derivedStructs) _). vm_compute. exact I.
  - reflexivity.
  - reflexivity.
  - simpl. lia.
Defined.

(** ** What [gatherAllTypesInfo] records, exactly *)

Lemma insertDest_not_nil d l : insertDest d l <> [].
Proof.
  unfold insertDest. destruct (decide (d ∈ l)) as [Hin|_].
  - intros ->. now apply not_elem_of_nil in Hin.
  - destruct l; discriminate.
Qed.

Lemma elem_of_insertDest x d l : x ∈ insertDest d l <-> x = d \/ x ∈ l.
Proof.
  unfold insertDest. destruct (decide (d ∈ l)) as [Hin|_].
  - split; [now right|]. now intros [->|H].
  - rewrite elem_of_app, list_elem_of_singleton. tauto.
Qed.

(** The effect of a run on the tables of the analysis, given which
    structs it has seen as sources of unsafe casts, which destinations of
    down-casts without offset and which escaping fields. *)
Definition gathered (unsafe : nat -> Prop) (dest : nat -> nat -> Prop)
    (esc : nat -> nat -> Prop) (s s' : state) : Prop :=
  structs s' = structs s /\
  (forall st, downcastSourceToDestinationsMapping s' !! st = Some [] <->
     downcastSourceToDestinationsMapping s !! st = Some [] \/ unsafe st) /\
  (forall st d,
     (exists l, downcastSourceToDestinationsMapping s' !! st = Some l /\ d ∈ l) <->
     ~ (downcastSourceToDestinationsMapping s !! st = Some [] \/ unsafe st) /\
     (dest st d \/ exists l, downcastSourceToDestinationsMapping s !! st = Some l /\ d ∈ l)) /\
  (forall b i, (b, i) ∈ escapingFields s' <-> (b, i) ∈ escapingFields s \/ esc b i).

Lemma gathered_same (unsafe : nat -> Prop) (dest esc : nat -> nat -> Prop) s s' :
  structs s' = structs s ->
  downcastSourceToDestinationsMapping s' = downcastSourceToDestinationsMapping s ->
  (forall st, ~ unsafe st) -> (forall st d, ~ dest st d) ->
  (forall b i, (b, i) ∈ escapingFields s' <-> (b, i) ∈ escapingFields s \/ esc b i) ->
  gathered unsafe dest esc s s'.
Proof.
  intros Hs HD Hu Hd He. unfold gathered. rewrite HD.
  split; [exact Hs|]. split; [|split; [|exact He]].
  - intros st. specialize (Hu st). tauto.
  - intros st d. specialize (Hu st). specialize (Hd st d). split.
    + intros (l & Hl & Hin). split; [|eauto]. intros [H|H]; [|tauto].
      rewrite H in Hl. injection Hl as <-. now apply not_elem_of_nil in Hin.
    + tauto.
Qed.

(** A source of an unsafe cast: its destinations are cleared. *)
Lemma gathered_clear (unsafe : nat -> Prop) (dest esc : nat -> nat -> Prop) src s :
  (forall st, unsafe st <-> src = st) -> (forall st d, ~ dest st d) ->
  (forall b i, ~ esc b i) ->
  gathered unsafe dest esc s (set_downcasts <[src := []]> s).
Proof.
  intros Hu Hd He. split; [reflexivity|]. simpl. split; [|split].
  - intros st. rewrite Hu. destruct (decide (src = st)) as [->|Hne].
    + rewrite lookup_insert_eq. tauto.
    + rewrite lookup_insert_ne by exact Hne. tauto.
  - intros st d. rewrite Hu. specialize (Hd st d). destruct (decide (src = st)) as [->|Hne].
    + rewrite lookup_insert_eq. split; [|tauto].
      intros (l & [= <-] & Hin). now apply not_elem_of_nil in Hin.
    + rewrite lookup_insert_ne by exact Hne. split; [|tauto].
      intros (l & Hl & Hin). split; [|eauto]. intros [H|H]; [|tauto].
      rewrite H in Hl. injection Hl as <-. now apply not_elem_of_nil in Hin.
  - intros b i. specialize (He b i). tauto.
Qed.

(** A down-cast without offset: its destination is added. *)
Lemma gathered_insert (unsafe : nat -> Prop) (dest esc : nat -> nat -> Prop) src dst l0 s :
  (forall st, ~ unsafe st) -> (forall st d, dest st d <-> src = st /\ dst = d) ->
  (forall b i, ~ esc b i) ->
  downcastSourceToDestinationsMapping s !! src <> Some [] ->
  l0 <> [] ->
  (forall d, d ∈ l0 <-> d = dst \/
     exists l, downcastSourceToDestinationsMapping s !! src = Some l /\ d ∈ l) ->
  gathered unsafe dest esc s (set_downcasts <[src := l0]> s).
Proof.
  intros Hu Hd He Hsrc Hl0 Hin0. split; [reflexivity|]. simpl. split; [|split].
  - intros st. specialize (Hu st). destruct (decide (src = st)) as [->|Hne].
    + rewrite lookup_insert_eq. split; [intros [= H]; contradiction|]. tauto.
    + rewrite lookup_insert_ne by exact Hne. tauto.
  - intros st d. specialize (Hu st). rewrite Hd. destruct (decide (src = st)) as [->|Hne].
    + rewrite lookup_insert_eq. split.
      * intros (l & [= <-] & Hin). apply Hin0 in Hin. split; [tauto|].
        destruct Hin as [->|H]; [left|right]; auto.
      * intros [_ [[_ <-]|H]]; (eexists; split; [reflexivity|]); apply Hin0; auto.
    + rewrite lookup_insert_ne by exact Hne. split.
      * intros (l & Hl & Hin). split; [|eauto]. intros [H|H]; [|tauto].
        rewrite H in Hl. injection Hl as <-. now apply not_elem_of_nil in Hin.
      * intros [_ [[H _]|H]]; [contradiction|exact H].
  - intros b i. specialize (He b i). tauto.
Qed.

Lemma gatherInstInfo_gathered fuel i s :
  wp (gatherInstInfo fuel i)
     (fun _ s' =>
        gathered (fun st => unsafeSource st i) (fun st d => i = Downcast st d true)
          (fun b k => exists c, i = EscapingGEP c k /\ escapeBase fuel (structs s) c k = Some b)
          s s') s.
Proof.
  destruct i as [src dst zero|src|srcElt destElt|container fieldIndex]; simpl.
  - destruct zero; simpl.
    + wp_step. wp_step.
      destruct (downcastSourceToDestinationsMapping s !! src) as [[|x l]|] eqn:Hsrc.
      * wp_step. split; [reflexivity|]. split; [|split].
        -- intros st. split; [auto|]. intros [H|[_ H]]; [exact H|discriminate].
        -- intros st d. split.
           ++ intros (l & Hl & Hin). split; [|eauto]. intros [H|[_ H]]; [|discriminate].
              rewrite H in Hl. injection Hl as <-. now apply not_elem_of_nil in Hin.
           ++ intros [Hn [[= -> ->]|H]]; [|exact H]. destruct Hn. now left.
        -- intros b k. split; [auto|]. intros [H|(c & [=] & _)]. exact H.
      * wp_step. apply (gathered_insert _ _ _ src dst).
        -- intros st [_ [=]].
        -- intros st d. split; [intros [= -> ->]; auto|intros [-> ->]; reflexivity].
        -- intros b k (c & [=] & _).
        -- rewrite Hsrc. discriminate.
        -- apply insertDest_not_nil.
        -- intros d. rewrite elem_of_insertDest, Hsrc. split.
           ++ intros [H|H]; [now left|right; eauto].
           ++ intros [H|(l' & [= <-] & H)]; auto.
      * wp_step. apply (gathered_insert _ _ _ src dst).
        -- intros st [_ [=]].
        -- intros st d. split; [intros [= -> ->]; auto|intros [-> ->]; reflexivity].
        -- intros b k (c & [=] & _).
        -- rewrite Hsrc. discriminate.
        -- discriminate.
        -- intros d. rewrite list_elem_of_singleton, Hsrc. split; [auto|].
           intros [H|(l' & [=] & _)]. exact H.
    + wp_step. apply gathered_clear.
      * intros st. split; [now intros [-> _]|now intros ->].
      * intros st d [=].
      * intros b k (c & [=] & _).
  - wp_step. apply gathered_clear.
    + intros st. reflexivity.
    + intros st d [=].
    + intros b k (c & [=] & _).
  - assert (Hsame : forall s',
              structs s' = structs s ->
              downcastSourceToDestinationsMapping s'
              = downcastSourceToDestinationsMapping s ->
              escapingFields s' = escapingFields s ->
              gathered (fun _ => False) (fun st d => BitCast srcElt destElt = Downcast st d true)
                (fun b k => exists c, BitCast srcElt destElt = EscapingGEP c k /\
                   escapeBase fuel (structs s) c k = Some b) s s').
    { intros s' H1 H2 H3.
      apply gathered_same; [exact H1|exact H2|auto|intros st d [=]|].
      intros b k. rewrite H3. split; [auto|]. intros [H|(c & [=] & _)]. exact H. }
    destruct srcElt; try (wp_step; now apply Hsame).
    wp_step. wp_step. destruct (hasByteLayout info); [|wp_step; now apply Hsame].
    apply wp_addAllBaseTypesForByteLayout. intros m. now apply Hsame.
  - wp_step. wp_step. destruct (escapeBase _ _ _ _) as [base|] eqn:Hbase; [|wp_step].
    wp_step. apply gathered_same; [reflexivity|reflexivity|auto|intros st d [=]|].
    intros b k. simpl. rewrite elem_of_union, elem_of_singleton. split.
    + intros [[= -> ->]|Hin]; [right|now left]. exists container. auto.
    + intros [Hin|(c & [= <- <-] & Hc)]; [now right|left]. congruence.
Qed.

Lemma gatherAllTypesInfo_gathered fuel insts s :
  wp (gatherAllTypesInfo fuel insts)
     (fun _ s' =>
        gathered (fun st => Exists (unsafeSource st) insts)
          (fun st d => In (Downcast st d true) insts)
          (fun b k => exists c, In (EscapingGEP c k) insts /\
             escapeBase fuel (structs s) c k = Some b)
          s s') s.
Proof.
  unfold gatherAllTypesInfo. generalize tt at 1. revert s.
  induction insts as [|i insts IH]; intros s u; simpl.
  - wp_step. apply gathered_same; try reflexivity.
    + intros st H. now apply Exists_nil in H.
    + intros st d [].
    + intros b k. split; [auto|]. intros [H|(c & [] & _)]. exact H.
  - wp_step. eapply wp_mono; [apply gatherInstInfo_gathered|]. intros u1 s1 (S1 & A1 & B1 & C1).
    eapply wp_mono; [apply IH|]. intros u2 s2 (S2 & A2 & B2 & C2).
    split; [congruence|]. split; [|split].
    + intros st. rewrite A2, A1, Exists_cons. tauto.
    + intros st d. rewrite B2, A1, B1, Exists_cons. split.
      * intros [Hn [H|[Hn' [H|H]]]]; (split; [tauto|]); auto.
      * intros [Hn [[H|H]|H]]; (split; [tauto|]); [right|left|right]; tauto.
    + intros b k. rewrite C2, C1, S1. split.
      * intros [[H|(c & -> & Hc)]|(c & Hin & Hc)]; [now left|right..].
        -- exists c. split; [now left|exact Hc].
        -- exists c. split; [now right|exact Hc].
      * intros [H|(c & [->|Hin] & Hc)]; [now left; left|left; right|right]; eauto.
Qed.

(** X13. The down-cast table that [gatherAllTypesInfo] leaves depends
    only on which casts there are, not on their order.  A struct ends with
    the empty list of destinations exactly when it had it before or is the
    source of a virtual cast or of a down-cast with an offset; otherwise
    its destinations are exactly the ones it had and the destinations of
    its down-casts without offset. *)
Theorem gatherAllTypesInfo_downcasts (fuel : nat) (insts : list gatherInst) (s s' : state) :
  gatherAllTypesInfo fuel insts s = Ok tt s' ->
  forall st,
    (downcastSourceToDestinationsMapping s' !! st = Some [] <->
     downcastSourceToDestinationsMapping s !! st = Some [] \/
     Exists (unsafeSource st) insts) /\
    (forall d,
       (exists l, downcastSourceToDestinationsMapping s' !! st = Some l /\ d ∈ l) <->
       ~ (downcastSourceToDestinationsMapping s !! st = Some [] \/
          Exists (unsafeSource st) insts) /\
       (In (Downcast st d true) insts \/
        exists l, downcastSourceToDestinationsMapping s !! st = Some l /\ d ∈ l)).
Proof.
  intros Hrun st.
  destruct (wp_run _ _ _ _ _ (gatherAllTypesInfo_gathered fuel insts s) Hrun)
    as (_ & A & B & _).
  split; [apply A|]. intros d. apply B.
Qed.

Lemma gatherAllTypesInfo_downcasts_witness :
  (downcastSourceToDestinationsMapping downcastAnalysed !! 2%nat = Some [] <->
   downcastSourceToDestinationsMapping downcastModule !! 2%nat = Some [] \/
   Exists (unsafeSource 2) downcastInsts) /\
  (forall d,
     (exists l, downcastSourceToDestinationsMapping downcastAnalysed !! 2%nat = Some l /\
                d ∈ l) <->
     ~ (downcastSourceToDestinationsMapping downcastModule !! 2%nat = Some [] \/
        Exists (unsafeSource 2) downcastInsts) /\
     (In (Downcast 2 d true) downcastInsts \/
      exists l, downcastSourceToDestinationsMapping downcastModule !! 2%nat = Some l /\
                d ∈ l)).
Proof.
  apply (gatherAllTypesInfo_downcasts 10 downcastInsts downcastModule downcastAnalysed).
  vm_compute. reflexivity.
Defined.

(** X14. [gatherAllTypesInfo] changes no struct, and the escaping fields
    it leaves are exactly the ones there were and, for each escaping
    access to a field of a struct, that field under the last direct base
    of the struct that still has it. *)
Theorem gatherAllTypesInfo_escaping (fuel : nat) (insts : list gatherInst) (s s' : state) :
  gatherAllTypesInfo fuel insts s = Ok tt s' ->
  structs s' = structs s /\
  forall b i,
    (b, i) ∈ escapingFields s' <->
    (b, i) ∈ escapingFields s \/
    exists c, In (EscapingGEP c i) insts /\ escapeBase fuel (structs s) c i = Some b.
Proof.
  intros Hrun.
  destruct (wp_run _ _ _ _ _ (gatherAllTypesInfo_gathered fuel insts s) Hrun)
    as (Hs & _ & _ & He).
  split; [exact Hs|exact He].
Qed.

(** The first and the last field of the derived struct escape. *)
Definition derivedInsts : list gatherInst := [EscapingGEP 0 0; EscapingGEP 0 2].
Definition derivedAnalysed : state :=
  Eval vm_compute in stateOf (gatherAllTypesInfo 5 derivedInsts derivedModule) derivedModule.

Lemma gatherAllTypesInfo_escaping_witness :
  structs derivedAnalysed = structs derivedModule /\
  forall b i,
    (b, i) ∈ escapingFields derivedAnalysed <->
    (b, i) ∈ escapingFields derivedModule \/
    exists c, In (EscapingGEP c i) derivedInsts /\
              escapeBase 5 (structs derivedModule) c i = Some b.
Proof.
  apply (gatherAllTypesInfo_escaping 5 derivedInsts derivedModule derivedAnalysed).
  vm_compute. reflexivity.
Defined.

(** The first field is recorded under the base, the last one under the
    derived struct. *)
Example derived_escaping_fields :
  escapingFields derivedAnalysed = {[ (1%nat, 0%nat); (0%nat, 2%nat) ]}.
Proof.
  refine (bool_decide_unpack
            (escapingFields derivedAnalysed = {[ (1%nat, 0%nat); (0%nat, 2%nat) ]}) _).
  vm_compute. exact I.
Qed.

(** ** Escaping fields are not packed *)

(** The structs and their direct bases are numbered below [n]. *)
Definition structsBelow (n : nat) (sts : gmap nat StructInfo) : Prop :=
  map_Forall (fun id info =>
                Nat.ltb id n && match directBase info with
                                | Some b => Nat.ltb b n
                                | None => true
                                end = true) sts.

Lemma findDirectBase_below n sts fuel :
  structsBelow n sts ->
  forall c i b, (c < n)%nat -> findDirectBase fuel sts c i = Some b -> (b < n)%nat.
Proof.
  intros Hsts. induction fuel as [|fuel IH]; intros c i b Hc; [discriminate|].
  simpl. destruct (sts !! c) as [cinfo|] eqn:Hcinfo; simpl; [|now intros [= <-]].
  destruct (directBase cinfo) as [base|] eqn:Hbase; [|now intros [= <-]].
  destruct (sts !! base) as [binfo|]; [|now intros [= <-]].
  destruct (Nat.ltb i (length (elements binfo))); [|now intros [= <-]].
  apply IH. specialize (Hsts _ _ Hcinfo). simpl in Hsts. rewrite Hbase in Hsts.
  apply andb_true_iff in Hsts as [_ Hsts]. now apply Nat.ltb_lt in Hsts.
Qed.

(** The walk does not see the structs that are created later. *)
Lemma findDirectBase_agree n sts sts' fuel :
  structsBelow n sts -> (forall id, (id < n)%nat -> sts' !! id = sts !! id) ->
  forall c i, (c < n)%nat -> findDirectBase fuel sts' c i = findDirectBase fuel sts c i.
Proof.
  intros Hsts Hsame. induction fuel as [|fuel IH]; intros c i Hc; [reflexivity|].
  simpl. rewrite (Hsame c Hc).
  destruct (sts !! c) as [cinfo|] eqn:Hcinfo; simpl; [|reflexivity].
  destruct (directBase cinfo) as [base|] eqn:Hbase; [|reflexivity].
  assert (Hb : (base < n)%nat).
  { specialize (Hsts _ _ Hcinfo). simpl in Hsts. rewrite Hbase in Hsts.
    apply andb_true_iff in Hsts as [_ Hsts]. now apply Nat.ltb_lt in Hsts. }
  rewrite (Hsame base Hb). destruct (sts !! base) as [binfo|]; [|reflexivity].
  now rewrite IH.
Qed.

Lemma resetAtBase_agree n sts sts' fuel st i ms :
  structsBelow n sts -> (forall id, (id < n)%nat -> sts' !! id = sts !! id) -> (st < n)%nat ->
  resetAtBase fuel sts' st i ms = resetAtBase fuel sts st i ms.
Proof.
  intros Hsts Hsame Hst. unfold resetAtBase.
  destruct (Nat.eqb i (directBaseLimit ms)); [|reflexivity].
  rewrite (findDirectBase_agree n sts sts' fuel Hsts Hsame st i Hst).
  destruct (findDirectBase fuel sts st i) as [curBase|] eqn:Hf; [|reflexivity].
  rewrite (Hsame curBase); [reflexivity|].
  eapply findDirectBase_below; eauto.
Qed.

(** The walk ends in a struct that has the field. *)
Lemma findDirectBase_has sts fuel : forall c i b cinfo,
  sts !! c = Some cinfo -> (i < length (elements cinfo))%nat ->
  findDirectBase fuel sts c i = Some b ->
  exists binfo, sts !! b = Some binfo /\ (i < length (elements binfo))%nat.
Proof.
  induction fuel as [|fuel IH]; intros c i b cinfo Hc Hi; [discriminate|].
  simpl. rewrite Hc. simpl.
  assert (Hstop : Some c = Some b ->
            exists binfo, sts !! b = Some binfo /\ (i < length (elements binfo))%nat).
  { intros [= <-]. eauto. }
  destruct (directBase cinfo) as [base|]; [|exact Hstop].
  destruct (sts !! base) as [binfo'|] eqn:Hbase; [|exact Hstop].
  destruct (Nat.ltb_spec i (length (elements binfo'))) as [Hlt|_]; [|exact Hstop].
  eapply IH; eauto.
Qed.

Lemma mergeField_base byteLayout esc i rt ms ms' :
  mergeField byteLayout esc i rt ms = Some ms' ->
  curDirectBase ms' = curDirectBase ms /\ directBaseLimit ms' = directBaseLimit ms.
Proof.
  unfold mergeField, pushField. destruct byteLayout; [now intros [= <-]|].
  destruct rt as [| | |bw|e|e n|r ps v|id]; try (now intros [= <-]).
  - destruct (negb _ && _); [|now intros [= <-]].
    destruct (findMergedInt bw (mergedInts ms) 0) as [[m [first second]]|];
      [|now intros [= <-]].
    destruct (newTypes ms !! first) as [[]|]; try discriminate. now intros [= <-].
  - destruct (arraysFound ms !! e) as [idx|]; [|now intros [= <-]].
    destruct (newTypes ms !! idx) as [[]|]; try discriminate. now intros [= <-].
Qed.

(** Where the loop is when it comes to field [i] of the struct [st]: at
    the start, or inside the base found at an earlier field. *)
Definition inBase (fuel : nat) (sts : gmap nat StructInfo) (st i : nat) (ms : MergeState)
    : Prop :=
  (i = 0%nat /\ directBaseLimit ms = 0%nat) \/
  exists i0 b binfo,
    (i0 < i <= length (elements binfo))%nat /\
    directBaseLimit ms = length (elements binfo) /\ curDirectBase ms = Some b /\
    sts !! b = Some binfo /\ findDirectBase fuel sts st i0 = Some b.

Lemma inBase_step fuel sts st info i ms ms1 :
  basesAreShorter sts -> sts !! st = Some info -> (i < length (elements info))%nat ->
  inBase fuel sts st i ms -> resetAtBase fuel sts st i ms = Some ms1 ->
  curDirectBase ms1 = findDirectBase fuel sts st i /\
  forall byteLayout esc rt ms2,
    mergeField byteLayout esc i rt ms1 = Some ms2 -> inBase fuel sts st (S i) ms2.
Proof.
  intros Hsts Hst Hi Hin Hr. unfold resetAtBase in Hr.
  destruct (Nat.eqb_spec i (directBaseLimit ms)) as [Heq|Hne].
  - destruct (findDirectBase fuel sts st i) as [curBase|] eqn:Hf; [|discriminate].
    injection Hr as <-. simpl. split; [reflexivity|].
    intros byteLayout esc rt ms2 Hm. destruct (mergeField_base _ _ _ _ _ _ Hm) as [Hb Hl].
    simpl in Hb, Hl. destruct (findDirectBase_has _ _ _ _ _ _ Hst Hi Hf) as (binfo & Hbi & Hlt).
    rewrite Hbi in Hl. right. exists i, curBase, binfo. repeat split; auto; lia.
  - injection Hr as <-. destruct Hin as [[-> H0]|(i0 & b & binfo & Hr & Hl & Hb & Hbi & Hf)].
    { now rewrite H0 in Hne. }
    assert (Hlt : (i < length (elements binfo))%nat) by lia.
    split.
    + rewrite Hb. symmetry. eapply findDirectBase_segment; eauto. lia.
    + intros byteLayout esc rt ms2 Hm.
      destruct (mergeField_base _ _ _ _ _ _ Hm) as [Hb' Hl'].
      right. exists i0, b, binfo. repeat split; try congruence; lia.
Qed.

(** What a call of [rewriteType] keeps of the structs and of the escaping
    fields. *)
Definition framed (s s' : state) : Prop :=
  escapingFields s' = escapingFields s /\ (nextStruct s <= nextStruct s')%nat /\
  forall id, (id < nextStruct s)%nat -> structs s' !! id = structs s !! id.

Lemma rewriteType_framed isClientType isJSExportedType getTypeAllocSize fuel t s :
  wp (rewriteType isClientType isJSExportedType getTypeAllocSize fuel t)
     (fun _ s' => framed s s') s.
Proof.
  eapply wp_mono; [apply rewriteType_extends|]. intros r s' [[] _]. repeat split; assumption.
Qed.

Lemma mergeFields_bases_along fuel (rec : type -> M TypeMappingInfo) st info n0 sts0 esc :
  (forall t s, wp (rec t) (fun _ s' => framed s s') s) ->
  basesAreShorter sts0 -> structsBelow n0 sts0 -> (st < n0)%nat -> sts0 !! st = Some info ->
  forall elts fields ms s ms' s',
  (length fields + length elts <= length (elements info))%nat ->
  (n0 <= nextStruct s)%nat -> (forall id, (id < n0)%nat -> structs s !! id = sts0 !! id) ->
  escapingFields s = esc ->
  merged esc fields ms -> inBase fuel sts0 st (length fields) ms ->
  (forall j rt base, fields !! j = Some (rt, base) -> base = findDirectBase fuel sts0 st j) ->
  mergeFields fuel rec st false elts (length fields) ms s = Ok ms' s' ->
  exists rts, merged esc (fields ++ rts) ms' /\ rewrittenAlong rec elts s (rts.*1) s' /\
    forall j rt base, (fields ++ rts) !! j = Some (rt, base) ->
      base = findDirectBase fuel sts0 st j.
Proof.
  intros Hrec Hshort Hbelow Hst Hinfo.
  induction elts as [|e elts IH];
    intros fields ms s ms' s' Hlen Hn0 Hsame Hesc Hm Hin Hbases Hrun.
  - simpl in Hrun. unfold mret, M_ret in Hrun. injection Hrun as <- <-. exists [].
    rewrite app_nil_r. split; [exact Hm|]. split; [constructor|exact Hbases].
  - cbn [mergeFields] in Hrun. unfold mbind, M_bind, get in Hrun.
    rewrite (resetAtBase_agree n0 sts0 (structs s) fuel st _ ms Hbelow Hsame Hst) in Hrun.
    destruct (resetAtBase fuel sts0 st (length fields) ms) as [ms1|] eqn:Hr; [|discriminate].
    simpl in Hlen.
    destruct (inBase_step fuel sts0 st info (length fields) ms ms1 Hshort Hinfo
                ltac:(lia) Hin Hr) as [Hbase Hnext].
    specialize (Hrec e s). unfold wp in Hrec.
    destruct (rec e s) as [r s1| |] eqn:Hre; try discriminate.
    destruct Hrec as (Hesc1 & Hnext1 & Hstructs1).
    destruct (mergeField false (escapingFields s1) (length fields) (mappedType r) ms1)
      as [ms2|] eqn:Hf; [|discriminate].
    specialize (Hnext _ _ _ _ Hf). rewrite Hesc1, Hesc in Hf.
    pose proof (merged_field esc fields ms fuel sts0 st ms1 (mappedType r) ms2
                  Hm Hr Hf) as Hm2.
    assert (Hlen2 : length (fields ++ [(mappedType r, curDirectBase ms1)])
                    = S (length fields)) by (rewrite length_app; simpl; lia).
    rewrite <- Hlen2 in Hrun, Hnext.
    destruct (IH (fields ++ [(mappedType r, curDirectBase ms1)]) ms2 s1 ms' s')
      as (rts & Hm' & Hall & Hbases'); try assumption.
    + rewrite Hlen2. lia.
    + lia.
    + intros id Hid. rewrite Hstructs1 by lia. now apply Hsame.
    + congruence.
    + intros j rt base Hj. destruct (lookup_snoc_inv _ _ _ _ Hj) as [[_ Hl]|[-> [= -> ->]]].
      * eapply Hbases. exact Hl.
      * exact Hbase.
    + exists ((mappedType r, curDirectBase ms1) :: rts).
      rewrite <- app_assoc in Hm', Hbases'. split; [exact Hm'|]. split; [|exact Hbases'].
      simpl. econstructor; [exact Hre|exact Hall].
Qed.

(** X15. A field that is recorded as escaping is not packed.  Let no
    struct have fewer elements than its direct base, and let [(b, i)] be
    an escaping field, where [b] is the struct under which
    [gatherAllTypesInfo] records an escaping access to field [i] of the
    struct [st].  Let [rts] be the rewritten types of the elements of
    [st], as the calls of [rewriteType] that the merging loop makes one
    after the other return them.  Unless the rewritten type of field [i]
    is an array, the loop gives the field a field of the new struct of
    exactly its rewritten type, at offset 0, and maps no other field
    there. *)
Theorem escaping_field_never_packed (isClientType : type -> bool)
    (isJSExportedType : nat -> bool) (getTypeAllocSize : type -> N) (fuel st : nat)
    (info : StructInfo) (s : state) (ms : MergeState) (s' : state) (i b f : nat) (o : N) :
  basesAreShorter (structs s) -> structsBelow (nextStruct s) (structs s) ->
  structs s !! st = Some info ->
  escapeBase fuel (structs s) st i = Some b -> (b, i) ∈ escapingFields s ->
  mergeFields fuel (rewriteType isClientType isJSExportedType getTypeAllocSize fuel)
    st false (elements info) 0 initMerge s = Ok ms s' ->
  membersMapping ms !! i = Some (f, o) ->
  exists rts rt,
    rewrittenAlong (rewriteType isClientType isJSExportedType getTypeAllocSize fuel)
      (elements info) s rts s' /\
    rts !! i = Some rt /\
    (isArrayTy rt = false ->
     o = 0 /\ newTypes ms !! f = Some rt /\
     forall j f' o', j <> i -> membersMapping ms !! j = Some (f', o') -> f' <> f).
Proof.
  intros Hshort Hbelow Hinfo Hb Hesc Hrun Hi.
  assert (Hst : (st < nextStruct s)%nat).
  { specialize (Hbelow _ _ Hinfo). simpl in Hbelow.
    apply andb_true_iff in Hbelow as [Hlt _]. now apply Nat.ltb_lt in Hlt. }
  destruct (mergeFields_bases_along fuel _ st info (nextStruct s) (structs s) (escapingFields s)
              (rewriteType_framed isClientType isJSExportedType getTypeAllocSize fuel)
              Hshort Hbelow Hst Hinfo
              (elements info) [] initMerge s ms s')
    as (rts & Hm & Hall & Hbases); simpl; auto.
  - constructor.
  - left. auto.
  - intros j rt base Hj. discriminate.
  - simpl in Hm, Hbases.
    destruct (merged_core _ _ _ Hm) as [Hlen _ _ _ _].
    destruct (lookup_lt_is_Some_2 rts i) as [[rt base] Hrt].
    { rewrite <- Hlen. now apply lookup_lt_Some in Hi. }
    exists (rts.*1), rt. split; [exact Hall|]. split.
    { rewrite list_lookup_fmap, Hrt. reflexivity. }
    intros Harr. destruct (merged_own _ _ _ Hm) as [Hown].
    destruct (Hown _ _ _ _ _ Hi Hrt) as (Ho & Hf & Hother & _); [|auto].
    split; [exact Harr|]. intros bw _. right. exists b. split; [|exact Hesc].
    rewrite (Hbases _ _ _ Hrt), <- escapeBase_findDirectBase. exact Hb.
Qed.

(** The second of three bytes escapes: the other two are packed. *)
Definition threeBytesInsts : list gatherInst := [EscapingGEP 0 1].
Definition threeBytesAnalysed : state :=
  Eval vm_compute in
    stateOf (gatherAllTypesInfo 5 threeBytesInsts (moduleState [plainStruct [i8; i8; i8]]))
            (moduleState [plainStruct [i8; i8; i8]]).
Definition threeBytesMerged : MergeState :=
  mkMerge [i16; i8] [(0%nat, 0); (1%nat, 0); (0%nat, 8)] ∅ [(0%nat, 16)] 3 (Some 0%nat) true.
Definition threeBytesDone : state :=
  Eval vm_compute in
    stateOf (mergeFields 10 (rewriteType noClient notExported (exampleSize (fun _ => 0)) 10)
               0 false [i8; i8; i8] 0 initMerge threeBytesAnalysed) threeBytesAnalysed.

Lemma escaping_field_never_packed_witness :
  exists rts rt,
    rewrittenAlong (rewriteType noClient notExported (exampleSize (fun _ => 0)) 10)
      (elements (plainStruct [i8; i8; i8])) threeBytesAnalysed rts threeBytesDone /\
    rts !! 1%nat = Some rt /\
    (isArrayTy rt = false ->
     0 = 0 /\ newTypes threeBytesMerged !! 1%nat = Some rt /\
     forall j f' o', j <> 1%nat -> membersMapping threeBytesMerged !! j = Some (f', o') ->
       f' <> 1%nat).
Proof.
  apply (escaping_field_never_packed noClient notExported (exampleSize (fun _ => 0)) 10 0
           (plainStruct [i8; i8; i8]) threeBytesAnalysed threeBytesMerged threeBytesDone
           1 0 1 0).
  - refine (bool_decide_unpack (basesAreShorter (structs threeBytesAnalysed)) _).
    vm_compute. exact I.
  - refine (bool_decide_unpack (structsBelow 1 (structs threeBytesAnalysed)) _).
    vm_compute. exact I.
  - reflexivity.
  - reflexivity.
  - refine (bool_decide_unpack ((0%nat, 1%nat) ∈ escapingFields threeBytesAnalysed) _).
    vm_compute. exact I.
  - vm_compute. reflexivity.
  - reflexivity.
Defined.

(** ** The table of the leaf types of the byte layout structs *)

(** [leafOf sts ty l]: [l] is one of the types that
    [addAllBaseTypesForByteLayout] reaches from [ty], through arrays and
    through the elements of structs. *)
Inductive leafOf (sts : gmap nat StructInfo) : type -> type -> Prop :=
| leaf_array e n l : leafOf sts e l -> leafOf sts (ArrayTy e n) l
| leaf_struct id info e l :
    sts !! id = Some info -> e ∈ elements info -> leafOf sts e l ->
    leafOf sts (StructTy id) l
| leaf_self ty : isArrayTy ty = false -> isStructTy ty = false -> leafOf sts ty ty.

(** What the leaf types [L] do to the table, for the struct [st]: the
    entries of the other structs stay; the entry of [st] names a type
    exactly when it was missing or named that type and all of [L] are
    that type; it is missing exactly when it was and [L] is empty. *)
Definition tableStep (st : nat) (L : type -> Prop) (m m' : gmap nat (option type)) : Prop :=
  (forall st', st' <> st -> m' !! st' = m !! st') /\
  (forall T, m' !! st = Some (Some T) <->
     (m !! st = None \/ m !! st = Some (Some T)) /\ (forall l, L l -> l = T) /\
     (m !! st = Some (Some T) \/ exists l, L l)) /\
  (m' !! st = None <-> m !! st = None /\ ~ exists l, L l).

Lemma entry_cases (m : gmap nat (option type)) st :
  m !! st = None \/ m !! st = Some None \/ exists T, m !! st = Some (Some T).
Proof. destruct (m !! st) as [[T|]|]; eauto. Qed.

Lemma tableStep_refl st (L : type -> Prop) m : (forall l, ~ L l) -> tableStep st L m m.
Proof.
  intros HL. split; [reflexivity|]. split.
  - intros T. split.
    + intros H. split; [now right|]. split; [|now left]. intros l Hl. now destruct (HL l).
    + intros [[H|H] [_ [H'|[l Hl]]]]; try congruence; now destruct (HL l).
  - split; [|tauto]. intros H. split; [exact H|]. intros [l Hl]. now destruct (HL l).
Qed.

Lemma tableStep_ext st (L L' : type -> Prop) m m' :
  (forall l, L l <-> L' l) -> tableStep st L m m' -> tableStep st L' m m'.
Proof.
  intros HL (H1 & H2 & H3). split; [exact H1|]. split.
  - intros T. rewrite H2. split.
    + intros (A & B & C). split; [exact A|]. split.
      * intros l Hl. apply B. now apply HL.
      * destruct C as [C|[l Hl]]; [now left|right]. exists l. now apply HL.
    + intros (A & B & C). split; [exact A|]. split.
      * intros l Hl. apply B. now apply HL.
      * destruct C as [C|[l Hl]]; [now left|right]. exists l. now apply HL.
  - rewrite H3. split; intros [A B]; (split; [exact A|]); intros [l Hl]; apply B;
      exists l; now apply HL.
Qed.

Lemma tableStep_leaf st ty m : tableStep st (eq ty) m (addBaseType st ty m).
Proof.
  unfold addBaseType, tableStep. destruct (m !! st) as [known|] eqn:Hm.
  - destruct (decide (known = Some ty)) as [->|Hne].
    + split; [reflexivity|]. rewrite Hm. split.
      * intros T. split.
        -- intros [= <-]. split; [now right|]. split; [|now left]. now intros l <-.
        -- intros [_ [H _]]. now rewrite (H ty eq_refl).
      * split; [discriminate|]. now intros [[=] _].
    + split; [intros st' Hst'; now rewrite lookup_insert_ne|].
      rewrite lookup_insert_eq. split.
      * intros T. split; [discriminate|]. intros [[Hx|Hx] [Hy _]]; [discriminate|].
        injection Hx as ->. destruct Hne. now rewrite (Hy ty eq_refl).
      * split; [discriminate|]. now intros [[=] _].
  - split; [intros st' Hst'; now rewrite lookup_insert_ne|].
    rewrite lookup_insert_eq. split.
    + intros T. split.
      * intros [= <-]. split; [now left|]. split; [now intros l <-|]. right. now exists ty.
      * intros [_ [H _]]. now rewrite (H ty eq_refl).
    + split; [discriminate|]. intros [_ H]. destruct H. now exists ty.
Qed.

Lemma tableStep_trans st (L1 L2 : type -> Prop) m m1 m2 :
  tableStep st L1 m m1 -> tableStep st L2 m1 m2 ->
  tableStep st (fun l => L1 l \/ L2 l) m m2.
Proof.
  intros (A1 & A2 & A3) (B1 & B2 & B3). split.
  { intros st' Hst'. rewrite B1, A1 by exact Hst'. reflexivity. }
  split.
  - intros T. rewrite B2. split.
    + intros ([H|H] & HL2 & Hex).
      * apply A3 in H as [H HL1]. split; [now left|]. split.
        -- intros l [Hl|Hl]; [|now apply HL2]. destruct HL1. now exists l.
        -- destruct Hex as [Hex|[l Hl]]; [|right; exists l; now right].
           apply A2 in Hex as (_ & _ & [Hex|[l Hl]]); [now left|right; exists l; now left].
      * apply A2 in H as (H & HL1 & Hex1). split; [exact H|]. split.
        -- intros l [Hl|Hl]; [now apply HL1|now apply HL2].
        -- destruct Hex1 as [Hex1|[l Hl]]; [now left|right; exists l; now left].
    + intros (H & HL & Hex).
      assert (HL1 : forall l, L1 l -> l = T) by (intros l Hl; apply HL; now left).
      assert (HL2 : forall l, L2 l -> l = T) by (intros l Hl; apply HL; now right).
      split; [|split; [exact HL2|]].
      * destruct (entry_cases m1 st) as [Hm1|[Hm1|[T' Hm1]]]; [now left|exfalso|right].
        -- destruct H as [H|H].
           ++ assert (Hno : ~ exists l, L1 l).
              { intros Hsome. assert (m1 !! st = Some (Some T)); [|congruence].
                apply A2. split; [now left|]. split; [exact HL1|]. now right. }
              assert (m1 !! st = None); [|congruence]. apply A3. auto.
           ++ assert (m1 !! st = Some (Some T)); [|congruence].
              apply A2. split; [now right|]. split; [exact HL1|]. now left.
        -- apply A2 in Hm1 as Hm1'. destruct Hm1' as (Hx & HL1' & Hex').
           assert (T' = T) as ->; [|exact Hm1].
           destruct Hex' as [Hex'|[l Hl]].
           ++ destruct H as [H|H]; congruence.
           ++ rewrite <- (HL1' l Hl). now apply HL1.
      * destruct (entry_cases m1 st) as [Hm1|Hm1].
        -- right. apply A3 in Hm1 as [Hm Hno]. destruct Hex as [Hex|[l [Hl|Hl]]].
           ++ congruence.
           ++ destruct Hno. now exists l.
           ++ now exists l.
        -- destruct Hex as [Hex|[l [Hl|Hl]]].
           ++ left. apply A2. split; [now right|]. split; [exact HL1|]. now left.
           ++ left. apply A2. split; [exact H|]. split; [exact HL1|]. right. now exists l.
           ++ right. now exists l.
  - rewrite B3, A3. split.
    + intros [[H Hno1] Hno2]. split; [exact H|]. intros [l [Hl|Hl]]; [apply Hno1|apply Hno2];
        now exists l.
    + intros [H Hno]. split; [split; [exact H|]|]; intros [l Hl]; apply Hno; exists l; auto.
Qed.

Lemma leafOf_array sts e n l : leafOf sts (ArrayTy e n) l <-> leafOf sts e l.
Proof.
  split; [|apply leaf_array]. intros H. inversion H; subst; [assumption|discriminate].
Qed.

Lemma leafOf_struct sts id info l :
  sts !! id = Some info ->
  leafOf sts (StructTy id) l <-> exists e, e ∈ elements info /\ leafOf sts e l.
Proof.
  intros Hinfo. split.
  - intros H. inversion H; subst; [|discriminate]. exists e. split; congruence.
  - intros (e & Hin & He). eapply leaf_struct; eauto.
Qed.

Lemma leafOf_self sts ty l :
  isArrayTy ty = false -> isStructTy ty = false -> ty = l <-> leafOf sts ty l.
Proof.
  intros Ha Hs. split; [intros <-; now apply leaf_self|].
  intros H. inversion H; subst; try discriminate. reflexivity.
Qed.

Lemma addAllBaseTypes_table sts st : forall fuel ty m m',
  addAllBaseTypes fuel sts st ty m = Some m' -> tableStep st (leafOf sts ty) m m'.
Proof.
  induction fuel as [|fuel IH]; intros ty m m' Hrun; [discriminate|].
  assert (Hleaf : isArrayTy ty = false -> isStructTy ty = false ->
            Some (addBaseType st ty m) = Some m' -> tableStep st (leafOf sts ty) m m').
  { intros Ha Hs [= <-]. eapply tableStep_ext; [|apply tableStep_leaf].
    intros l. now apply leafOf_self. }
  destruct ty as [| | |bw|e|e n|r ps v|id]; simpl in Hrun; try (now apply Hleaf).
  - eapply tableStep_ext; [|exact (IH _ _ _ Hrun)]. intros l. symmetry. apply leafOf_array.
  - destruct (sts !! id) as [info|] eqn:Hinfo.
    + apply (tableStep_ext st (fun l => exists e, e ∈ elements info /\ leafOf sts e l));
        [intros l; symmetry; now apply leafOf_struct|].
      clear Hleaf. revert m Hrun. generalize (elements info). intros elts.
      induction elts as [|e elts IHe]; intros m Hrun; simpl in Hrun.
      * injection Hrun as <-. apply tableStep_refl. intros l (e & Hin & _).
        now apply not_elem_of_nil in Hin.
      * destruct (addAllBaseTypes fuel sts st e m) as [m1|] eqn:He; simpl in Hrun.
        -- eapply tableStep_ext; [|exact (tableStep_trans _ _ _ _ _ _ (IH _ _ _ He)
                                          (IHe _ Hrun))].
           intros l. split.
           ++ intros [H|(e' & Hin & H)]; [exists e|exists e']; split; auto.
              ** apply list_elem_of_here.
              ** now apply list_elem_of_further.
           ++ intros (e' & Hin & H). apply elem_of_cons in Hin as [->|Hin]; [now left|right].
              eauto.
        -- exfalso. clear -Hrun. induction elts as [|x elts IHl]; [discriminate|auto].
    + injection Hrun as <-. apply tableStep_refl. intros l H.
      inversion H; subst; [congruence|discriminate].
Qed.

(** X16. [addAllBaseTypesForByteLayout] keeps for each byte layout struct
    the one type that all its leaves have.  A call for the struct [st] and
    a type leaves the entries of the other structs alone.  Afterwards the
    entry of [st] names a type [T] exactly when it was missing or named
    [T] before and every leaf reached from the type, through arrays and
    the elements of structs, is [T]; it is missing exactly when it was
    missing and there is no leaf; in every other case it is [NULL]. *)
Theorem addAllBaseTypesForByteLayout_uniform (fuel st : nat) (ty : type) (s s' : state) :
  addAllBaseTypesForByteLayout fuel st ty s = Ok tt s' ->
  (forall st', st' <> st ->
     baseTypesForByteLayout s' !! st' = baseTypesForByteLayout s !! st') /\
  (forall T, baseTypesForByteLayout s' !! st = Some (Some T) <->
     (baseTypesForByteLayout s !! st = None \/
      baseTypesForByteLayout s !! st = Some (Some T)) /\
     (forall l, leafOf (structs s) ty l -> l = T) /\
     (baseTypesForByteLayout s !! st = Some (Some T) \/ exists l, leafOf (structs s) ty l)) /\
  (baseTypesForByteLayout s' !! st = None <->
     baseTypesForByteLayout s !! st = None /\ ~ exists l, leafOf (structs s) ty l).
Proof.
  unfold addAllBaseTypesForByteLayout.
  destruct (addAllBaseTypes fuel (structs s) st ty (baseTypesForByteLayout s)) as [m'|] eqn:Hrun;
    [|discriminate].
  intros [= <-]. simpl. exact (addAllBaseTypes_table _ _ _ _ _ _ Hrun).
Qed.

Lemma addAllBaseTypesForByteLayout_uniform_witness :
  (forall st', st' <> 0%nat ->
     baseTypesForByteLayout threeDoublesTwoViews !! st'
     = baseTypesForByteLayout threeDoublesViewed !! st') /\
  (forall T, baseTypesForByteLayout threeDoublesTwoViews !! 0%nat = Some (Some T) <->
     (baseTypesForByteLayout threeDoublesViewed !! 0%nat = None \/
      baseTypesForByteLayout threeDoublesViewed !! 0%nat = Some (Some T)) /\
     (forall l, leafOf (structs threeDoublesViewed) i32 l -> l = T) /\
     (baseTypesForByteLayout threeDoublesViewed !! 0%nat = Some (Some T) \/
      exists l, leafOf (structs threeDoublesViewed) i32 l)) /\
  (baseTypesForByteLayout threeDoublesTwoViews !! 0%nat = None <->
     baseTypesForByteLayout threeDoublesViewed !! 0%nat = None /\
     ~ exists l, leafOf (structs threeDoublesViewed) i32 l).
Proof.
  apply (addAllBaseTypesForByteLayout_uniform 10 0 i32 threeDoublesViewed
           threeDoublesTwoViews).
  vm_compute. reflexivity.
Defined.

(** * The order in which [rewriteFunction] visits the blocks *)

(** Blocks are numbered; [successors BB] are the successors of the
    terminator of [BB], in order.  The state of the loops is the vector
    [blocksInDFSOrder] with the set [usedBlocks]. *)
Section BlockOrder.

Variable successors : nat -> list nat.

(** [if(usedBlocks.insert(BB).second) blocksInDFSOrder.push_back(BB)]. *)
Definition pushUnused (st : list nat * gset nat) (BB : nat) : list nat * gset nat :=
  if decide (BB ∈ snd st) then st else (fst st ++ [BB], {[BB]} ∪ snd st).

(** The loop over the vector, which grows while it is walked. *)
Fixpoint visitBlocks (fuel i : nat) (st : list nat * gset nat)
    : option (list nat * gset nat) :=
  match fuel with
  | O => None
  | S fuel' =>
      match fst st !! i with
      | Some BB => visitBlocks fuel' (S i) (fold_left pushUnused (successors BB) st)
      | None => Some st
      end
  end.

Definition blocksInDFSOrder (fuel entry : nat) (blocks : list nat) : option (list nat) :=
  match visitBlocks fuel 0 ([entry], {[entry]}) with
  | Some st => Some (fst (fold_left pushUnused blocks st))
  | None => None
  end.

(** [reachable entry b]: there is a path from the entry block to [b]. *)
Definition reachable (entry : nat) : nat -> Prop :=
  rtc (fun p b => b ∈ successors p) entry.

(** The vector and the set hold the same blocks, once each. *)
Definition orderOK (st : list nat * gset nat) : Prop :=
  NoDup (fst st) /\ forall x, x ∈ snd st <-> x ∈ fst st.

Lemma pushUnused_fold l : forall st,
  orderOK st ->
  exists news,
    fst (fold_left pushUnused l st) = fst st ++ news /\
    orderOK (fold_left pushUnused l st) /\
    (forall x, x ∈ news -> x ∈ l) /\
    (forall x, x ∈ l -> x ∈ fst st ++ news).
Proof.
  induction l as [|b l IH]; intros st [Hnd Hset]; simpl.
  - exists []. rewrite app_nil_r. split; [reflexivity|]. split; [now split|].
    split; intros x Hx; now apply not_elem_of_nil in Hx.
  - destruct (decide (b ∈ snd st)) as [Hin|Hnin].
    + assert (pushUnused st b = st) as ->
        by (unfold pushUnused; now rewrite decide_True).
      destruct (IH st (conj Hnd Hset)) as (news & Heq & Hok & Hnew & Hall).
      exists news. split; [exact Heq|]. split; [exact Hok|]. split.
      * intros x Hx. apply list_elem_of_further. now apply Hnew.
      * intros x Hx. apply elem_of_cons in Hx as [->|Hx]; [|now apply Hall].
        apply elem_of_app. left. now apply Hset.
    + assert (pushUnused st b = (fst st ++ [b], {[b]} ∪ snd st)) as ->
        by (unfold pushUnused; now rewrite decide_False).
      destruct (IH (fst st ++ [b], {[b]} ∪ snd st)) as (news & Heq & Hok & Hnew & Hall).
      { split; simpl.
        - apply list.NoDup_app. split; [exact Hnd|]. split; [|apply NoDup_singleton].
          intros x Hx Hb. apply list_elem_of_singleton in Hb as ->. apply Hnin.
          now apply Hset.
        - intros x. rewrite elem_of_union, elem_of_singleton, elem_of_app,
            list_elem_of_singleton, Hset. tauto. }
      simpl in Heq, Hall. exists (b :: news). rewrite <- app_assoc in Heq, Hall.
      split; [exact Heq|]. split; [exact Hok|]. split.
      * intros x Hx. apply elem_of_cons in Hx as [->|Hx]; [apply list_elem_of_here|].
        apply list_elem_of_further. now apply Hnew.
      * intros x Hx. apply elem_of_cons in Hx as [->|Hx]; [|now apply Hall].
        apply elem_of_app. right. apply list_elem_of_here.
Qed.

(** What holds of the vector when the loop is at index [i]. *)
Record visited (entry i : nat) (st : list nat * gset nat) : Prop := mkVisited {
  vs_ok : orderOK st;
  vs_entry : fst st !! 0%nat = Some entry;
  vs_parent : forall k b, fst st !! k = Some b -> (0 < k)%nat ->
    exists j p, (j < k)%nat /\ (j < i)%nat /\ fst st !! j = Some p /\ b ∈ successors p;
  vs_closed : forall j p b, (j < i)%nat -> fst st !! j = Some p -> b ∈ successors p ->
    b ∈ fst st;
  vs_reachable : forall b, b ∈ fst st -> reachable entry b
}.

Lemma visited_start entry : visited entry 0 ([entry], {[entry]}).
Proof.
  constructor; simpl.
  - split; simpl; [apply NoDup_singleton|]. intros x.
    now rewrite elem_of_singleton, list_elem_of_singleton.
  - reflexivity.
  - intros [|k] b Hk Hpos; [lia|discriminate].
  - intros j p b Hj. lia.
  - intros b Hb. apply list_elem_of_singleton in Hb as ->. apply rtc_refl.
Qed.

Lemma visited_step entry i st BB :
  visited entry i st -> fst st !! i = Some BB ->
  visited entry (S i) (fold_left pushUnused (successors BB) st).
Proof.
  intros [Hok Hentry Hparent Hclosed Hreach] Hi.
  destruct (pushUnused_fold (successors BB) st Hok) as (news & Heq & Hok' & Hnew & Hall).
  pose proof (lookup_lt_Some _ _ _ Hi) as Hlt.
  constructor.
  - exact Hok'.
  - rewrite Heq, lookup_app_l; [exact Hentry|]. apply lookup_lt_Some in Hentry. exact Hentry.
  - intros k b Hk Hpos. rewrite Heq in Hk |- *.
    destruct (Nat.lt_ge_cases k (length (fst st))) as [Hk'|Hk'].
    + rewrite lookup_app_l in Hk by exact Hk'.
      destruct (Hparent k b Hk Hpos) as (j & p & Hjk & Hji & Hj & Hb).
      exists j, p. split; [exact Hjk|]. split; [lia|]. split; [|exact Hb].
      rewrite lookup_app_l; [exact Hj|]. lia.
    + exists i, BB. split; [lia|]. split; [lia|]. split.
      * rewrite lookup_app_l; [exact Hi|exact Hlt].
      * apply Hnew. rewrite lookup_app_r in Hk by exact Hk'.
        eapply list_elem_of_lookup_2. exact Hk.
  - intros j p b Hj Hp Hb. rewrite Heq in Hp |- *.
    destruct (decide (j = i)) as [->|Hne].
    + rewrite lookup_app_l in Hp by exact Hlt.
      assert (p = BB) as -> by congruence. now apply Hall.
    + assert (Hji : (j < i)%nat) by lia.
      rewrite lookup_app_l in Hp by lia. apply elem_of_app. left. eapply Hclosed; eauto.
  - intros b Hb. rewrite Heq in Hb. apply elem_of_app in Hb as [Hb|Hb]; [now apply Hreach|].
    eapply rtc_r; [|exact (Hnew b Hb)]. apply Hreach. eapply list_elem_of_lookup_2. exact Hi.
Qed.

Lemma visitBlocks_visited entry : forall fuel i st st',
  visited entry i st -> visitBlocks fuel i st = Some st' ->
  visited entry (length (fst st')) st'.
Proof.
  induction fuel as [|fuel IH]; intros i st st' Hv; [discriminate|].
  simpl. destruct (fst st !! i) as [BB|] eqn:Hi.
  - apply IH. now apply visited_step.
  - intros [= <-]. apply lookup_ge_None in Hi.
    destruct Hv as [Hok Hentry Hparent Hclosed Hreach]. constructor; auto.
    + intros k b Hk Hpos. destruct (Hparent k b Hk Hpos) as (j & p & Hjk & _ & Hj & Hb).
      exists j, p. split; [exact Hjk|]. split; [|auto]. now apply lookup_lt_Some in Hj.
    + intros j p b _ Hp Hb. destruct (Nat.lt_ge_cases j i) as [Hji|Hji]; [eauto|].
      apply lookup_lt_Some in Hp. lia.
Qed.

(** When the loop is over the vector holds every block that can be
    reached. *)
Lemma visited_all entry st b :
  visited entry (length (fst st)) st -> reachable entry b -> b ∈ fst st.
Proof.
  intros [Hok Hentry Hparent Hclosed Hreach] Hb. unfold reachable in Hb.
  revert b Hb. apply rtc_ind_r.
  - eapply list_elem_of_lookup_2. exact Hentry.
  - intros p b _ Hpb IH. apply list_elem_of_lookup in IH as [j Hj].
    eapply Hclosed; [|exact Hj|exact Hpb]. now apply lookup_lt_Some in Hj.
Qed.

Lemma visitBlocks_total blocks :
  Forall (fun b => Forall (fun x => x ∈ blocks) (successors b)) blocks ->
  forall fuel i st,
  orderOK st -> (forall x, x ∈ fst st -> x ∈ blocks) -> (length blocks - i < fuel)%nat ->
  exists st', visitBlocks fuel i st = Some st' /\ forall x, x ∈ fst st' -> x ∈ blocks.
Proof.
  intros Hsucc. induction fuel as [|fuel IH]; intros i st Hok Hsub Hfuel; [lia|].
  simpl. destruct (fst st !! i) as [BB|] eqn:Hi; [|eauto].
  assert (Hlen : (length (fst st) <= length blocks)%nat).
  { apply submseteq_length, NoDup_submseteq; [apply Hok|exact Hsub]. }
  pose proof (lookup_lt_Some _ _ _ Hi) as Hlt.
  destruct (pushUnused_fold (successors BB) st Hok) as (news & Heq & Hok' & Hnew & _).
  apply IH; [exact Hok'| |lia].
  intros x Hx. rewrite Heq in Hx. apply elem_of_app in Hx as [Hx|Hx]; [now apply Hsub|].
  assert (HBB : BB ∈ blocks) by (apply Hsub; eapply list_elem_of_lookup_2; exact Hi).
  rewrite list.Forall_forall in Hsucc. specialize (Hsucc BB HBB). rewrite list.Forall_forall in Hsucc.
  apply Hsucc. now apply Hnew.
Qed.

(** X17. [rewriteFunction] visits every block of the function exactly
    once, the entry block first.  When the blocks of the function are
    distinct, the entry block is one of them and every successor of a
    block is a block of the function, the loop over the growing vector
    ends within as many rounds as there are blocks, and the order it
    builds is a permutation of the blocks that starts with the entry
    block. *)
Theorem blocksInDFSOrder_permutation (fuel entry : nat) (blocks : list nat) :
  NoDup blocks -> entry ∈ blocks ->
  Forall (fun b => Forall (fun x => x ∈ blocks) (successors b)) blocks ->
  (length blocks < fuel)%nat ->
  exists order,
    blocksInDFSOrder fuel entry blocks = Some order /\ order ≡ₚ blocks /\
    order !! 0%nat = Some entry.
Proof.
  intros Hnd Hentry Hsucc Hfuel. unfold blocksInDFSOrder.
  destruct (visitBlocks_total blocks Hsucc fuel 0 ([entry], {[entry]})) as (st & Hrun & Hsub).
  - apply (visited_start entry).
  - simpl. intros x Hx. now apply list_elem_of_singleton in Hx as ->.
  - lia.
  - rewrite Hrun. eexists. split; [reflexivity|].
    pose proof (visitBlocks_visited entry _ _ _ _ (visited_start entry) Hrun) as Hv.
    destruct (pushUnused_fold blocks st (vs_ok _ _ _ Hv)) as (news & Heq & [Hnd' _] & Hnew & Hall).
    split.
    + apply NoDup_Permutation; [exact Hnd'|exact Hnd|]. intros x. rewrite Heq. split.
      * intros Hx. apply elem_of_app in Hx as [Hx|Hx]; [now apply Hsub|now apply Hnew].
      * apply Hall.
    + rewrite Heq, lookup_app_l; [apply (vs_entry _ _ _ Hv)|].
      eapply lookup_lt_Some. apply (vs_entry _ _ _ Hv).
Qed.

(** X18. In the order in which [rewriteFunction] visits the blocks, every
    block that can be reached from the entry block, other than the entry
    block itself, comes after one of its predecessors that can be reached
    as well; and the blocks that can be reached come before the ones that
    cannot. *)
Theorem blocksInDFSOrder_predecessor_first (fuel entry : nat) (blocks order : list nat) :
  blocksInDFSOrder fuel entry blocks = Some order ->
  (forall k b, order !! k = Some b -> reachable entry b -> b <> entry ->
     exists j p, (j < k)%nat /\ order !! j = Some p /\ reachable entry p /\
                 b ∈ successors p) /\
  (forall j k a b, order !! j = Some a -> order !! k = Some b ->
     reachable entry a -> ~ reachable entry b -> (j < k)%nat).
Proof.
  unfold blocksInDFSOrder.
  destruct (visitBlocks fuel 0 ([entry], {[entry]})) as [st|] eqn:Hrun; [|discriminate].
  intros [= <-].
  pose proof (visitBlocks_visited entry _ _ _ _ (visited_start entry) Hrun) as Hv.
  destruct (pushUnused_fold blocks st (vs_ok _ _ _ Hv)) as (news & Heq & [Hnd _] & _ & _).
  rewrite Heq in Hnd |- *.
  assert (Hfirst : forall k b, (fst st ++ news) !! k = Some b -> reachable entry b ->
            fst st !! k = Some b).
  { intros k b Hk Hb. pose proof (visited_all entry st b Hv Hb) as Hin.
    apply list_elem_of_lookup in Hin as [k' Hk'].
    assert (Hk'' : (fst st ++ news) !! k' = Some b).
    { rewrite lookup_app_l; [exact Hk'|]. now apply lookup_lt_Some in Hk'. }
    now rewrite (NoDup_lookup _ _ _ _ Hnd Hk Hk''). }
  split.
  - intros k b Hk Hb Hne. pose proof (Hfirst k b Hk Hb) as Hk'.
    assert (Hpos : (0 < k)%nat).
    { destruct k; [|lia]. rewrite (vs_entry _ _ _ Hv) in Hk'. congruence. }
    destruct (vs_parent _ _ _ Hv k b Hk' Hpos) as (j & p & Hjk & _ & Hj & Hp).
    exists j, p. split; [exact Hjk|]. split; [|split; [|exact Hp]].
    + rewrite lookup_app_l; [exact Hj|]. now apply lookup_lt_Some in Hj.
    + apply (vs_reachable _ _ _ Hv). eapply list_elem_of_lookup_2. exact Hj.
  - intros j k a b Hj Hk Ha Hb. pose proof (Hfirst j a Hj Ha) as Hj'.
    apply lookup_lt_Some in Hj'.
    destruct (Nat.lt_ge_cases k (length (fst st))) as [Hlt|Hge]; [|lia].
    rewrite lookup_app_l in Hk by exact Hlt. destruct Hb.
    apply (vs_reachable _ _ _ Hv). eapply list_elem_of_lookup_2. exact Hk.
Qed.

End BlockOrder.

(** A loop between the blocks 1 and 3, entered from the entry block
    through 2 as well, and a block that cannot be reached. *)
Definition loopSuccessors (b : nat) : list nat :=
  match b with
  | 0 => [2; 1]
  | 1 => [3]
  | 2 => [3]
  | 3 => [1]
  | _ => []
  end%nat.

Lemma blocksInDFSOrder_permutation_witness :
  exists order,
    blocksInDFSOrder loopSuccessors 6 0 [0; 1; 2; 3; 4]%nat = Some order /\
    order ≡ₚ [0; 1; 2; 3; 4]%nat /\ order !! 0%nat = Some 0%nat.
Proof.
  apply (blocksInDFSOrder_permutation loopSuccessors 6 0 [0; 1; 2; 3; 4]%nat).
  - refine (bool_decide_unpack (NoDup [0; 1; 2; 3; 4]%nat) _). vm_compute. exact I.
  - refine (bool_decide_unpack (0%nat ∈ [0; 1; 2; 3; 4]%nat) _). vm_compute. exact I.
  - refine (bool_decide_unpack
              (Forall (fun b => Forall (fun x => x ∈ [0; 1; 2; 3; 4]%nat) (loopSuccessors b))
                 [0; 1; 2; 3; 4]%nat) _).
    vm_compute. exact I.
  - simpl. lia.
Defined.

Lemma blocksInDFSOrder_predecessor_first_witness :
  (forall k b, [0; 2; 1; 3; 4]%nat !! k = Some b -> reachable loopSuccessors 0 b ->
     b <> 0%nat ->
     exists j p, (j < k)%nat /\ [0; 2; 1; 3; 4]%nat !! j = Some p /\
                 reachable loopSuccessors 0 p /\ b ∈ loopSuccessors p) /\
  (forall j k a b, [0; 2; 1; 3; 4]%nat !! j = Some a -> [0; 2; 1; 3; 4]%nat !! k = Some b ->
     reachable loopSuccessors 0 a -> ~ reachable loopSuccessors 0 b -> (j < k)%nat).
Proof.
  apply (blocksInDFSOrder_predecessor_first loopSuccessors 6 0 [0; 1; 2; 3; 4]%nat).
  reflexivity.
Defined.

(** * The common base of a PHI of pointers: [PHIVisitor::findBase] *)

(** A value is an instruction or something else (an argument, a global);
    of the instructions only the GEPs with a single index and the PHIs
    matter here. *)
Inductive operand : Type :=
| OpInst (id : nat)
| OpValue (id : nat).

#[global] Instance operand_eq_decision : EqDecision operand.
Proof. solve_decision. Defined.

Inductive instKind : Type :=
| SingleIndexGEP (ptr : operand)
| PHINode (incoming : list operand)
| OtherInstruction.

Section PHIVisitor.

Variable insts : nat -> instKind.

(** [visited.count(v)], where [v] may be [NULL]; only PHIs are ever
    inserted. *)
Definition isVisited (visited : gset nat) (v : option operand) : bool :=
  match v with
  | Some (OpInst id) => bool_decide (id ∈ visited)
  | _ => false
  end.

(** The loop over the incoming values of a PHI; [ret] is [NULL] at first,
    and a [break] returns at once. *)
Fixpoint phiLoop (rec : nat -> gset nat -> option (option operand * gset nat))
    (incoming : list operand) (ret : option operand) (visited : gset nat)
    : option (option operand * gset nat) :=
  match incoming with
  | [] => Some (ret, visited)
  | incomingValue :: rest =>
      match (match incomingValue with
             | OpInst incomingInst => rec incomingInst visited
             | OpValue _ => Some (Some incomingValue, visited)
             end) with
      | None => None
      | Some (baseCandidate, visited') =>
          if isVisited visited' baseCandidate then phiLoop rec rest ret visited'
          else
            match baseCandidate with
            | None => Some (None, visited')
            | Some c =>
                match ret with
                | None => phiLoop rec rest (Some c) visited'
                | Some r =>
                    if decide (r = c) then phiLoop rec rest ret visited'
                    else Some (None, visited')
                end
            end
      end
  end.

(** The result is the base, or [None] for [NULL], with the set [visited]
    as the call leaves it. *)
Fixpoint findBase (fuel : nat) (I : nat) (visited : gset nat)
    : option (option operand * gset nat) :=
  match fuel with
  | O => None
  | S fuel' =>
      match insts I with
      | SingleIndexGEP ptr =>
          match ptr with
          | OpInst ptrI =>
              match findBase fuel' ptrI visited with
              | Some (Some base, visited') => Some (Some base, visited')
              | Some (None, visited') => Some (Some (OpInst I), visited')
              | None => None
              end
          | OpValue _ => Some (Some ptr, visited)
          end
      | PHINode incoming =>
          if decide (I ∈ visited) then Some (Some (OpInst I), visited)
          else
            match phiLoop (findBase fuel') incoming None ({[I]} ∪ visited) with
            | Some (ret, visited') => Some (ret, visited' ∖ {[I]})
            | None => None
            end
      | OtherInstruction => Some (Some (OpInst I), visited)
      end
  end.

Definition isPHI (v : option operand) : Prop :=
  match v with
  | Some (OpInst p) => exists incoming, insts p = PHINode incoming
  | _ => False
  end.

(** What [findBase] promises: the set is as it was, and a PHI is
    returned only while it is being visited. *)
Definition findBaseOK (visited : gset nat) (r : option operand * gset nat) : Prop :=
  snd r = visited /\ (isPHI (fst r) -> isVisited visited (fst r) = true).

Lemma phiLoop_OK (rec : nat -> gset nat -> option (option operand * gset nat)) :
  (forall I visited r, rec I visited = Some r -> findBaseOK visited r) ->
  forall incoming ret visited r,
  ~ isPHI ret -> phiLoop rec incoming ret visited = Some r ->
  snd r = visited /\ ~ isPHI (fst r).
Proof.
  intros Hrec. induction incoming as [|v incoming IH]; intros ret visited r Hret; simpl.
  - intros [= <-]. auto.
  - assert (Hcand : forall c, match v with
                              | OpInst incomingInst => rec incomingInst visited
                              | OpValue _ => Some (Some v, visited)
                              end = Some c -> findBaseOK visited c).
    { intros c. destruct v as [i|x]; [apply Hrec|].
      intros [= <-]. split; [reflexivity|]. simpl. contradiction. }
    destruct (match v with
              | OpInst incomingInst => rec incomingInst visited
              | OpValue _ => Some (Some v, visited)
              end) as [[baseCandidate visited']|]; [|discriminate].
    destruct (Hcand _ eq_refl) as [Hv Hphi]. simpl in Hv, Hphi. subst visited'.
    destruct (isVisited visited baseCandidate) eqn:Hvis; [now apply IH|].
    destruct baseCandidate as [c|]; [|intros [= <-]; auto].
    assert (Hc : ~ isPHI (Some c)) by (intros H; apply Hphi in H; congruence).
    destruct ret as [r0|]; [|now apply IH].
    destruct (decide (r0 = c)); [now apply IH|]. intros [= <-]. auto.
Qed.

Lemma findBase_OK : forall fuel I visited r,
  findBase fuel I visited = Some r -> findBaseOK visited r.
Proof.
  induction fuel as [|fuel IH]; intros I visited r; [discriminate|].
  simpl. destruct (insts I) as [ptr|incoming|] eqn:HI.
  - destruct ptr as [ptrI|x].
    + destruct (findBase fuel ptrI visited) as [[[base|] visited']|] eqn:Hrun;
        [| |discriminate]; intros [= <-]; destruct (IH _ _ _ Hrun) as [Hv Hphi].
      * split; assumption.
      * split; [exact Hv|]. simpl. intros [inc Hinc]. congruence.
    + intros [= <-]. split; [reflexivity|]. simpl. contradiction.
  - destruct (decide (I ∈ visited)) as [Hin|Hnin].
    + intros [= <-]. split; [reflexivity|]. intros _. simpl. now apply bool_decide_eq_true.
    + destruct (phiLoop (findBase fuel) incoming None ({[I]} ∪ visited))
        as [[ret visited']|] eqn:Hloop; [|discriminate].
      intros [= <-]. destruct (phiLoop_OK _ IH incoming None _ _ (fun H => H) Hloop) as [Hv Hphi].
      simpl in Hv, Hphi. subst visited'. split; [|contradiction].
      simpl. apply set_eq. intros x. rewrite elem_of_difference, elem_of_union,
        elem_of_singleton. split; [tauto|]. intros Hx. split; [now right|]. congruence.
  - intros [= <-]. split; [reflexivity|]. simpl. intros [inc Hinc]. congruence.
Qed.

(** X19. [PHIVisitor::findBase] leaves the set of the PHIs under visit as
    it found it, and the base it returns is a PHI only if that PHI is
    under visit: the base that [visitPHI] gets, starting with no PHI under
    visit, is never a PHI. *)
Theorem findBase_restores_visited (fuel I : nat) (visited : gset nat)
    (base : option operand) (visited' : gset nat) :
  findBase fuel I visited = Some (base, visited') ->
  visited' = visited /\
  (forall p incoming, base = Some (OpInst p) -> insts p = PHINode incoming -> p ∈ visited) /\
  (visited = ∅ -> ~ isPHI base).
Proof.
  intros Hrun. destruct (findBase_OK _ _ _ _ Hrun) as [Hv Hphi]. simpl in Hv, Hphi.
  split; [exact Hv|]. split.
  - intros p incoming -> Hp. simpl in Hphi.
    specialize (Hphi (ex_intro _ incoming Hp)). now apply bool_decide_eq_true in Hphi.
  - intros -> H. specialize (Hphi H). destruct base as [[p|x]|]; simpl in Hphi;
      discriminate.
Qed.

End PHIVisitor.

(** A pointer that walks an array in a loop: the PHI 1 takes the global 7
    on entry and the GEP 2 on itself from the latch. *)
Definition loopInsts (I : nat) : instKind :=
  match I with
  | 1 => PHINode [OpValue 7; OpInst 2]
  | 2 => SingleIndexGEP (OpInst 1)
  | _ => OtherInstruction
  end%nat.

Lemma findBase_restores_visited_witness :
  (∅ : gset nat) = ∅ /\
  (forall p incoming, Some (OpValue 7) = Some (OpInst p) ->
     loopInsts p = PHINode incoming -> p ∈ (∅ : gset nat)) /\
  ((∅ : gset nat) = ∅ -> ~ isPHI loopInsts (Some (OpValue 7))).
Proof.
  apply (findBase_restores_visited loopInsts 5 1 ∅ (Some (OpValue 7)) ∅).
  vm_compute. reflexivity.
Defined.

(** * Constant arrays of arrays *)

(** [nested bits dims C]: [C] is a constant array of arrays with the
    lengths [dims], outermost first, of integers of [bits] bits, every
    array written out with all its elements. *)
Fixpoint nested (bits : N) (dims : list N) (C : constant) : Prop :=
  match dims with
  | [] => exists v, C = ConstantIntC bits v
  | d :: ds =>
      exists ops,
        C = ConstantArray (nest (IntegerTy bits) (d :: ds)) ops /\
        length ops = N.to_nat d /\ Forall (nested bits ds) ops
  end.

(** The integers of such a constant, in the order of the memory. *)
Fixpoint leaves (C : constant) : list constant :=
  match C with
  | ConstantArray _ ops => concat (map leaves ops)
  | _ => [C]
  end.

(** The element that the indexes [vs] select. *)
Fixpoint elementAt (C : constant) (vs : list N) : option constant :=
  match vs with
  | [] => Some C
  | v :: vs' =>
      match C with
      | ConstantArray _ ops =>
          match ops !! N.to_nat v with
          | Some c => elementAt c vs'
          | None => None
          end
      | _ => None
      end
  end.

Lemma nested_getType bits dims C : nested bits dims C -> getType C = nest (IntegerTy bits) dims.
Proof. destruct dims; [intros [v ->]|intros (ops & -> & _)]; reflexivity. Qed.

Lemma concat_length_uniform {A} (blocks : list (list A)) (P : nat) :
  Forall (fun b => length b = P) blocks -> length (concat blocks) = (length blocks * P)%nat.
Proof.
  induction 1 as [|b blocks Hb _ IH]; [reflexivity|].
  simpl. rewrite length_app, IH, Hb. reflexivity.
Qed.

Lemma concat_lookup_uniform {A} (blocks : list (list A)) (P i j : nat) :
  Forall (fun b => length b = P) blocks -> (j < P)%nat ->
  concat blocks !! (i * P + j)%nat = blocks !! i ≫= (fun b => b !! j).
Proof.
  intros Hall Hj. revert i. induction Hall as [|b blocks Hb _ IH]; intros i; [reflexivity|].
  destruct i as [|i]; simpl.
  - rewrite lookup_app_l by lia. reflexivity.
  - rewrite lookup_app_r by lia. rewrite <- IH. f_equal. lia.
Qed.

Lemma nested_leaves_length bits dims C :
  nested bits dims C -> length (leaves C) = N.to_nat (product dims).
Proof.
  revert C. induction dims as [|d ds IH]; intros C HC.
  - destruct HC as [v ->]. reflexivity.
  - destruct HC as (ops & -> & Hlen & Hall).
    cbn [leaves product fold_right]. rewrite (concat_length_uniform _ (N.to_nat (product ds))).
    + rewrite length_map, N2Nat.inj_mul. unfold product. congruence.
    + apply Forall_map. eapply list.Forall_impl; [exact Hall|]. intros c Hc. now apply IH.
Qed.

Lemma linearTail_bound dims : forall vs,
  Forall2 (fun v d => v < d) vs dims -> linearTail dims vs < product dims.
Proof.
  induction dims as [|d ds IH]; intros vs Hvs; inversion Hvs as [|v d' vs' ds' Hv Hvs']; subst;
    simpl; [lia|].
  specialize (IH _ Hvs'). unfold product in *. nia.
Qed.

(** The element at the indexes [vs] is the leaf at the position that the
    indexes are linearised to. *)
Lemma nested_leaves_lookup bits dims : forall C vs,
  nested bits dims C -> Forall2 (fun v d => v < d) vs dims ->
  leaves C !! N.to_nat (linearTail dims vs) = elementAt C vs.
Proof.
  induction dims as [|d ds IH]; intros C vs HC Hvs;
    inversion Hvs as [|v d' vs' ds' Hv Hvs']; subst.
  - destruct HC as [v ->]. reflexivity.
  - destruct HC as (ops & -> & Hlen & Hall). cbn [leaves linearTail elementAt].
    pose proof (linearTail_bound ds vs' Hvs') as Hb.
    rewrite N2Nat.inj_add, N2Nat.inj_mul.
    rewrite (concat_lookup_uniform _ (N.to_nat (product ds))).
    + rewrite list_lookup_fmap. destruct (ops !! N.to_nat v) as [c|] eqn:Hc; simpl.
      * apply IH; [|exact Hvs']. rewrite list.Forall_forall in Hall. apply Hall.
        eapply list_elem_of_lookup_2. exact Hc.
      * apply lookup_ge_None in Hc. lia.
    + apply Forall_map. eapply list.Forall_impl; [exact Hall|]. intros c Hc.
      eapply nested_leaves_length. exact Hc.
    + lia.
Qed.

Lemma leaves_integers bits ops :
  Forall (nested bits []) ops -> concat (map leaves ops) = ops.
Proof.
  induction 1 as [|c ops [v ->] _ IH]; [reflexivity|]. simpl. now rewrite IH.
Qed.

Section FlattenConstant.

Variable isClientType : type -> bool.
Variable isJSExportedType : nat -> bool.
Variable getTypeAllocSize : type -> N.
Variable getElementOffset : nat -> nat -> N.
Variable globalsMapping : gmap nat constant.
Variable globalTypeMapping : gmap nat type.
Variable bits : N.

Local Abbreviation rewriteConstant' :=
  (rewriteConstant isClientType isJSExportedType getTypeAllocSize getElementOffset).

(** The result for a constant with the lengths [dims]. *)
Definition flattened (dims : list N) (C : constant) (r : constant * N) (s' : state) : Prop :=
  r = (ConstantArray (ArrayTy (IntegerTy bits) (product dims)) (leaves C), 0) /\
  flatMemo (typesMapping s').

Lemma foldM_flattens (rec : constant -> M (constant * N)) (info : TypeMappingInfo)
    (ds : list N) :
  elementMappingKind info = FLATTENED_ARRAY ->
  forall ops acc s,
  Forall (nested bits ds) ops ->
  (forall c s0, c ∈ ops -> flatMemo (typesMapping s0) -> returns (rec c) (flattened ds c) s0) ->
  flatMemo (typesMapping s) ->
  returns
    (foldM (fun acc element =>
              newElement ← rewriteOperand rec element;
              if decide (elementMappingKind info = FLATTENED_ARRAY) then
                elts ← liftOption (pushAllArrayConstantElements newElement);
                mret (acc ++ elts)
              else mret (acc ++ [newElement])) ops acc)
    (fun r s' => r = acc ++ concat (map leaves ops) /\ flatMemo (typesMapping s')) s.
Proof.
  intros Hk. induction ops as [|c ops IH]; intros acc s Hall Hrec Hm; simpl.
  - apply returns_ret. rewrite app_nil_r. auto.
  - apply list.Forall_cons in Hall as [Hc Hall].
    apply returns_bind. apply returns_bind. unfold rewriteOperand. apply returns_bind.
    eapply returns_mono; [apply Hrec; [apply list_elem_of_here|exact Hm]|].
    intros r s1 [-> Hm1]. apply returns_bind. apply returns_assert; [reflexivity|].
    apply returns_ret. rewrite decide_True by exact Hk.
    apply returns_bind. eapply returns_liftOption.
    { unfold pushAllArrayConstantElements. cbn [getType fst]. rewrite take_ge; [reflexivity|].
      rewrite (nested_leaves_length bits ds c Hc). lia. }
    apply returns_ret. eapply returns_mono.
    + apply IH; [exact Hall| |exact Hm1]. intros c' s0 Hin. apply Hrec.
      now apply list_elem_of_further.
    + intros r s2 [-> Hm2]. rewrite <- app_assoc. auto.
Qed.

Lemma rewriteConstant_nested : forall dims fuel C s,
  nested bits dims C -> dims <> [] -> (S (length dims) < fuel)%nat ->
  flatMemo (typesMapping s) ->
  returns (rewriteConstant' fuel globalsMapping globalTypeMapping C) (flattened dims C) s.
Proof.
  induction dims as [|d ds IH]; intros fuel C s HC Hne Hfuel Hm; [congruence|].
  destruct fuel as [|fuel]; [lia|].
  destruct HC as (ops & -> & Hlen & Hall).
  assert (Hflat : flatType (nest (IntegerTy bits) (d :: ds))
                  = ArrayTy (IntegerTy bits) (product (d :: ds))).
  { now rewrite flatType_nest. }
  cbn [rewriteConstant]. unfold rewriteConstant_body. apply returns_bind.
  apply returns_rewriteType_flat.
  - cbn [getType]. rewrite depth_nest. simpl in *. lia.
  - cbn [getType]. now rewrite structFree_nest.
  - exact Hm.
  - intros s1 Hm1. unfold flatInfo. cbn [mappedType getType]. rewrite Hflat.
    destruct ds as [|d' ds].
    + rewrite decide_True.
      * apply returns_ret. split; [|exact Hm1]. cbn [leaves].
        rewrite (leaves_integers bits ops Hall). simpl. unfold product. simpl.
        now rewrite N.mul_1_r.
      * simpl. unfold product. simpl. now rewrite N.mul_1_r.
    + rewrite decide_False by discriminate.
      unfold rewriteRetypedConstant. apply returns_bind.
      apply returns_assert; [reflexivity|]. apply returns_bind.
      eapply returns_mono.
      * apply (foldM_flattens _ _ (d' :: ds)); [| exact Hall | | exact Hm1].
        -- cbn [elementMappingKind flatKind nest].
           change (ArrayTy (nest (IntegerTy bits) ds) d')
             with (nest (IntegerTy bits) (d' :: ds)).
           now rewrite flatType_nest.
        -- intros c s0 Hin Hm0. apply IH; [|discriminate|simpl in *; lia|exact Hm0].
           rewrite list.Forall_forall in Hall. now apply Hall.
      * intros r s2 [-> Hm2]. apply returns_ret. split; [|exact Hm2]. reflexivity.
Qed.

End FlattenConstant.

(** X20. The initialiser of an array of arrays is flattened in the order
    in which the addresses are linearised.  A constant array of arrays of
    integers with the lengths [dims], all elements written out, is
    rewritten to one constant array of the product length, with residual
    offset 0 and no failed assertion; the element that the indexes [vs]
    select in the constant is, in the rewritten one, at the position to
    which [rewriteGEPIndexes] linearises these indexes. *)
Theorem rewriteConstant_flattens_nested
    (isClientType : type -> bool) (isJSExportedType : nat -> bool)
    (getTypeAllocSize : type -> N) (getElementOffset : nat -> nat -> N)
    (fuel : nat) (globalsMapping : gmap nat constant) (globalTypeMapping : gmap nat type)
    (bits : N) (dims : list N) (C : constant) (s : state) :
  nested bits dims C -> dims <> [] -> (S (length dims) < fuel)%nat ->
  flatMemo (typesMapping s) ->
  exists elts s',
    rewriteConstant isClientType isJSExportedType getTypeAllocSize getElementOffset
      fuel globalsMapping globalTypeMapping C s
    = Ok (ConstantArray (ArrayTy (IntegerTy bits) (product dims)) elts, 0) s' /\
    flatMemo (typesMapping s') /\
    length elts = N.to_nat (product dims) /\
    forall vs, Forall2 (fun v d => v < d) vs dims ->
      elts !! N.to_nat (linearTail dims vs) = elementAt C vs.
Proof.
  intros HC Hne Hfuel Hm.
  destruct (returns_run _ _ _
              (rewriteConstant_nested isClientType isJSExportedType getTypeAllocSize
                 getElementOffset globalsMapping globalTypeMapping bits dims fuel C s
                 HC Hne Hfuel Hm)) as (r & s' & Hrun & -> & Hm').
  exists (leaves C), s'. split; [exact Hrun|]. split; [exact Hm'|]. split.
  - now apply (nested_leaves_length bits).
  - intros vs Hvs. now apply (nested_leaves_lookup bits).
Qed.

(** Two rows of three [i32]. *)
Definition twoRows : constant :=
  ConstantArray (ArrayTy (ArrayTy i32 3) 2)
    [ConstantArray (ArrayTy i32 3) [ConstantIntC 32 1; ConstantIntC 32 2; ConstantIntC 32 3];
     ConstantArray (ArrayTy i32 3) [ConstantIntC 32 4; ConstantIntC 32 5; ConstantIntC 32 6]].

Lemma rewriteConstant_flattens_nested_witness :
  exists elts s',
    rewriteConstant noClient notExported (exampleSize (fun _ => 0)) noOffsets
      5 ∅ ∅ twoRows (moduleState [])
    = Ok (ConstantArray (ArrayTy (IntegerTy 32) (product [2; 3])) elts, 0) s' /\
    flatMemo (typesMapping s') /\
    length elts = N.to_nat (product [2; 3]) /\
    forall vs, Forall2 (fun v d => v < d) vs [2; 3] ->
      elts !! N.to_nat (linearTail [2; 3] vs) = elementAt twoRows vs.
Proof.
  apply (rewriteConstant_flattens_nested noClient notExported (exampleSize (fun _ => 0))
           noOffsets 5 ∅ ∅ 32 [2; 3] twoRows (moduleState [])).
  - exists [ConstantArray (ArrayTy i32 3)
              [ConstantIntC 32 1; ConstantIntC 32 2; ConstantIntC 32 3];
            ConstantArray (ArrayTy i32 3)
              [ConstantIntC 32 4; ConstantIntC 32 5; ConstantIntC 32 6]].
    split; [reflexivity|]. split; [reflexivity|].
    repeat constructor; (eexists; split; [reflexivity|]; split; [reflexivity|]);
      repeat constructor; eexists; reflexivity.
  - discriminate.
  - simpl. lia.
  - intros k i Hk. exact (match lookup_empty_Some k i Hk with end).
Defined.

(** The element at [1][1] is the fifth of the rewritten array. *)
Example flattened_rows :
  resultOf (rewriteConstant noClient notExported (exampleSize (fun _ => 0)) noOffsets
              5 ∅ ∅ twoRows (moduleState []))
  = Some (ConstantArray (ArrayTy i32 6)
            [ConstantIntC 32 1; ConstantIntC 32 2; ConstantIntC 32 3;
             ConstantIntC 32 4; ConstantIntC 32 5; ConstantIntC 32 6], 0) /\
  elementAt twoRows [1; 1] = Some (ConstantIntC 32 5) /\ linearTail [2; 3] [1; 1] = 4.
Proof. repeat split; vm_compute; reflexivity. Qed.

(** * Struct constants with packed integers *)

Lemma small_from_bits X k : (forall n, k <= n -> N.testbit X n = false) -> X < 2 ^ k.
Proof.
  intros H. assert (Hmod : X mod 2 ^ k = X).
  { apply N.bits_inj. intros n. rewrite testbit_mod_pow2.
    destruct (N.ltb_spec n k) as [Hlt|Hge]; [reflexivity|]. simpl. symmetry. now apply H. }
  rewrite <- Hmod. apply N.mod_lt. apply N.pow_nonzero. lia.
Qed.

Lemma wrap32_id x k : x < 2 ^ k -> k <= 32 -> wrap32 x = x.
Proof.
  intros Hx Hk. apply N.mod_small. eapply N.lt_le_trans; [exact Hx|].
  apply N.pow_le_mono_r; lia.
Qed.

(** The value that [rewriteConstant] gives a shared integer when a further
    field is packed into it: the old bits stay, the new ones follow. *)
Lemma packed_value_bits V v o b w' :
  V < 2 ^ o -> v < 2 ^ b -> o + b <= 32 -> o + b <= w' ->
  N.lor (wrap32 V) (wrap32 (N.shiftl (wrap32 v) o)) mod 2 ^ w' < 2 ^ (o + b) /\
  forall n, N.testbit (N.lor (wrap32 V) (wrap32 (N.shiftl (wrap32 v) o)) mod 2 ^ w') n
            = if n <? o then N.testbit V n else N.testbit v (n - o).
Proof.
  intros HV Hv H32 Hw.
  assert (Hshift : N.shiftl v o < 2 ^ (o + b)).
  { rewrite N.shiftl_mul_pow2, N.pow_add_r, N.mul_comm.
    apply N.mul_lt_mono_pos_l; [|exact Hv]. apply N.neq_0_lt_0, N.pow_nonzero. lia. }
  rewrite (wrap32_id V o), (wrap32_id v b), (wrap32_id _ (o + b)) by (assumption || lia).
  assert (Hbits : forall n, N.testbit (N.lor V (N.shiftl v o)) n
                            = if n <? o then N.testbit V n else N.testbit v (n - o)).
  { intros n. rewrite N.lor_spec, testbit_shiftl.
    destruct (N.ltb_spec n o) as [Hlt|Hge].
    - destruct (N.leb_spec o n); [lia|]. simpl. now rewrite orb_false_r.
    - rewrite (testbit_small V o n HV Hge). destruct (N.leb_spec o n); [|lia]. reflexivity. }
  assert (Hsmall : N.lor V (N.shiftl v o) < 2 ^ (o + b)).
  { apply small_from_bits. intros n Hn. rewrite Hbits.
    destruct (N.ltb_spec n o); [lia|]. apply (testbit_small v b); [exact Hv|lia]. }
  rewrite N.mod_small.
  - split; [exact Hsmall|exact Hbits].
  - eapply N.lt_le_trans; [exact Hsmall|]. apply N.pow_le_mono_r; lia.
Qed.

(** The value that a rewritten load reads from such an integer. *)
Lemma loadedValue_packed V v w b o :
  o + b <= w -> 0 < b -> v < 2 ^ b ->
  (forall n, n < b -> N.testbit V (o + n) = N.testbit v n) ->
  loadedValue V b w o = v.
Proof.
  intros Hfit Hb Hv Hbits. apply N.bits_inj. intros n.
  rewrite loadedValue_bit by assumption.
  destruct (N.ltb_spec n b) as [Hlt|Hge]; simpl.
  - rewrite N.add_comm. now apply Hbits.
  - symmetry. now apply (testbit_small v b).
Qed.

(** [grown ms ms']: what the later state [ms'] has kept of [ms]: the
    fields are mapped as they were and no integer has become narrower. *)
Definition grown (ms ms' : MergeState) : Prop :=
  (forall i mm, membersMapping ms !! i = Some mm -> membersMapping ms' !! i = Some mm) /\
  (forall f w, newTypes ms !! f = Some (IntegerTy w) ->
     exists w', newTypes ms' !! f = Some (IntegerTy w') /\ w <= w').

Lemma grown_refl ms : grown ms ms.
Proof. split; [auto|]. intros f w H. exists w. split; [exact H|lia]. Qed.

Lemma grown_trans ms1 ms2 ms3 : grown ms1 ms2 -> grown ms2 ms3 -> grown ms1 ms3.
Proof.
  intros [A1 A2] [B1 B2]. split; [auto|]. intros f w H.
  destruct (A2 f w H) as (w1 & H1 & Hle1). destruct (B2 f w1 H1) as (w2 & H2 & Hle2).
  exists w2. split; [exact H2|lia].
Qed.

Lemma grown_reset fuel sts st i ms ms1 :
  resetAtBase fuel sts st i ms = Some ms1 -> grown ms ms1.
Proof.
  intros Hr. destruct (resetAtBase_inv _ _ _ _ _ _ Hr) as (Hn & Hm & _).
  split; rewrite ?Hn, ?Hm; [auto|]. intros f w H. exists w. split; [exact H|lia].
Qed.

Lemma grown_step esc i rt ms ms' : mergeStep esc i rt ms ms' -> grown ms ms'.
Proof.
  intros [Hn Hm _ _|e n typeIndex e0 prevNum _ _ Hidx Hn Hm _ _
         |bw m first second oldBw _ _ _ _ _ Hfirst Hn Hm _ _]; split.
  - intros k mm Hk. rewrite Hm, lookup_app_l; [exact Hk|]. now apply lookup_lt_Some in Hk.
  - intros f w H. exists w. split; [|lia]. rewrite Hn, lookup_app_l; [exact H|].
    now apply lookup_lt_Some in H.
  - intros k mm Hk. rewrite Hm, lookup_app_l; [exact Hk|]. now apply lookup_lt_Some in Hk.
  - intros f w H. exists w. split; [|lia]. rewrite Hn, list_lookup_insert_ne; [exact H|].
    intros <-. congruence.
  - intros k mm Hk. rewrite Hm, lookup_app_l; [exact Hk|]. now apply lookup_lt_Some in Hk.
  - intros f w H. destruct (decide (f = first)) as [->|Hne].
    + exists (oldBw + bw). rewrite Hn, list_lookup_insert_eq by (now apply lookup_lt_Some in H).
      split; [reflexivity|]. assert (w = oldBw) by congruence. lia.
    + exists w. split; [|lia]. rewrite Hn, list_lookup_insert_ne by congruence. exact H.
Qed.

(** The integer constant of a field, given by its width and its value. *)
Definition intConstant (bv : N * N) : constant := ConstantIntC (fst bv) (snd bv).

Definition intField (bv : N * N) (f : type * option nat) : Prop :=
  fst f = IntegerTy (fst bv) /\ 0 < fst bv /\ snd bv < 2 ^ fst bv.

(** [packed ms ints acc]: the elements [acc] of the new constant after the
    fields with the values [ints], when the merging loop was in the state
    [ms] after the same fields: one element for each field of the new
    struct; an integer field of the new struct holds a value that fits the
    bits used so far; and every old field finds its bits at its offset. *)
Record packed (ms : MergeState) (ints : list (N * N)) (acc : list constant) : Prop :=
  mkPacked {
  pk_length : length acc = length (newTypes ms);
  pk_words : forall f w, newTypes ms !! f = Some (IntegerTy w) ->
    exists bits V, acc !! f = Some (ConstantIntC bits V) /\ V < 2 ^ w;
  pk_fields : forall i f o b v,
    membersMapping ms !! i = Some (f, o) -> ints !! i = Some (b, v) ->
    exists bits V, acc !! f = Some (ConstantIntC bits V) /\
      forall n, n < b -> N.testbit V (o + n) = N.testbit v n
}.

Lemma packed_reset fuel sts st i ms ms1 ints acc :
  resetAtBase fuel sts st i ms = Some ms1 -> packed ms ints acc -> packed ms1 ints acc.
Proof.
  intros Hr [H1 H2 H3]. destruct (resetAtBase_inv _ _ _ _ _ _ Hr) as (Hn & Hm & _).
  constructor; rewrite ?Hn, ?Hm; assumption.
Qed.

(** A field that gets a field of its own. *)
Lemma packed_push fields ms ms' ints acc b v :
  mergeCore fields ms -> length ints = length fields -> packed ms ints acc ->
  newTypes ms' = newTypes ms ++ [IntegerTy b] ->
  membersMapping ms' = membersMapping ms ++ [(length (newTypes ms), 0)] ->
  v < 2 ^ b ->
  packed ms' (ints ++ [(b, v)]) (acc ++ [ConstantIntC b v]).
Proof.
  intros [C1 C2 _ _ _] Hlen [P1 P2 P3] Hn Hm Hv. constructor.
  - rewrite Hn, !length_app, P1. reflexivity.
  - intros f w Hf. rewrite Hn in Hf.
    destruct (lookup_snoc_inv _ _ _ _ Hf) as [[Hlt Hl]|[-> [= ->]]].
    + destruct (P2 f w Hl) as (bits & V & HV & Hsmall). exists bits, V.
      split; [|exact Hsmall]. rewrite lookup_app_l; [exact HV|]. now apply lookup_lt_Some in HV.
    + exists b, v. split; [|exact Hv].
      rewrite <- P1, lookup_app_r, Nat.sub_diag by lia. reflexivity.
  - intros i f o b' v' Hi Hint. rewrite Hm in Hi.
    assert (Hlen' : length (membersMapping ms) = length ints) by congruence.
    destruct (snoc_pair _ _ _ _ _ _ _ Hlen' Hi Hint)
      as [(_ & Hl1 & Hl2)|(_ & [= -> ->] & [= -> ->])].
    + destruct (P3 _ _ _ _ _ Hl1 Hl2) as (bits & V & HV & Hbits). exists bits, V.
      split; [|exact Hbits]. rewrite lookup_app_l; [exact HV|]. now apply lookup_lt_Some in HV.
    + exists b, v. split; [|intros n _; now rewrite N.add_0_l].
      rewrite <- P1, lookup_app_r, Nat.sub_diag by lia. reflexivity.
Qed.

(** A field that is packed into an integer with room left. *)
Lemma packed_merge fields ms ms' ints acc bw v first second bits V w' :
  mergeCore fields ms -> mergeInts fields ms -> Forall2 intField ints fields ->
  packed ms ints acc ->
  bw <= second -> second <= 32 ->
  newTypes ms !! first = Some (IntegerTy (32 - second)) ->
  newTypes ms' = <[first := IntegerTy (32 - second + bw)]> (newTypes ms) ->
  membersMapping ms' = membersMapping ms ++ [(first, 32 - second)] ->
  acc !! first = Some (ConstantIntC bits V) -> v < 2 ^ bw -> 32 - second + bw <= w' ->
  packed ms' (ints ++ [(bw, v)])
    (<[first := ConstantIntC w'
                  (N.lor (wrap32 V) (wrap32 (N.shiftl (wrap32 v) (32 - second))) mod 2 ^ w')]>
       acc).
Proof.
  intros [C1 C2 _ _ _] [I1 _] Hints [P1 P2 P3] Hbw Hsecond Hfirst Hn Hm Hacc Hv Hw'.
  pose proof (Forall2_length Hints) as Hlen.
  pose proof (lookup_lt_Some _ _ _ Hacc) as Hlt.
  destruct (P2 _ _ Hfirst) as (bits0 & V0 & Hacc0 & HV).
  assert (bits0 = bits /\ V0 = V) as [-> ->] by (split; congruence).
  destruct (packed_value_bits V v (32 - second) bw w' HV Hv ltac:(lia) Hw')
    as [Hsmall Hbits].
  constructor.
  - rewrite Hn, !length_insert. exact P1.
  - intros f w Hf. rewrite Hn in Hf. destruct (decide (f = first)) as [->|Hne].
    + rewrite list_lookup_insert_eq in Hf by (now apply lookup_lt_Some in Hfirst).
      injection Hf as <-. eexists _, _. rewrite list_lookup_insert_eq by exact Hlt.
      split; [reflexivity|exact Hsmall].
    + rewrite list_lookup_insert_ne in Hf by congruence.
      destruct (P2 f w Hf) as (bits1 & V1 & HV1 & Hs1). exists bits1, V1.
      split; [|exact Hs1]. rewrite list_lookup_insert_ne by congruence. exact HV1.
  - intros i f o b' v' Hi Hint. rewrite Hm in Hi.
    assert (Hlen' : length (membersMapping ms) = length ints) by congruence.
    destruct (snoc_pair _ _ _ _ _ _ _ Hlen' Hi Hint)
      as [(_ & Hl1 & Hl2)|(_ & [= -> ->] & [= -> ->])].
    + destruct (P3 _ _ _ _ _ Hl1 Hl2) as (bits1 & V1 & HV1 & Hb1).
      destruct (decide (f = first)) as [->|Hne].
      * assert (bits1 = bits /\ V1 = V) as [-> ->] by (split; congruence).
        eexists _, _. rewrite list_lookup_insert_eq by exact Hlt.
        split; [reflexivity|]. intros n Hn'. rewrite Hbits.
        destruct (Forall2_lookup_l _ _ _ _ _ Hints Hl2) as ([rt base] & Hfield & Hrt & _).
        simpl in Hrt. subst rt.
        destruct (I1 _ _ _ _ _ Hl1 Hfield) as (w & Hw & Hfit & _).
        assert (w = 32 - second) as -> by congruence.
        destruct (N.ltb_spec (o + n) (32 - second)); [now apply Hb1|lia].
      * exists bits1, V1. split; [|exact Hb1].
        rewrite list_lookup_insert_ne by congruence. exact HV1.
    + eexists _, _. rewrite list_lookup_insert_eq by exact Hlt.
      split; [reflexivity|]. intros n Hn'. rewrite Hbits.
      destruct (N.ltb_spec (32 - second + n) (32 - second)); [lia|]. f_equal. lia.
Qed.

Lemma foldM_snoc {A B} (f : B -> A -> M B) (l : list A) (x : A) : forall b s,
  foldM f (l ++ [x]) b s = (foldM f l b ≫= (fun b' => f b' x)) s.
Proof.
  induction l as [|a l IH]; intros b s; simpl; unfold mbind, M_bind.
  - unfold mret, M_ret. now destruct (f b x s).
  - destruct (f b a s) as [b1 s1| |]; [|reflexivity..]. rewrite IH. reflexivity.
Qed.

Lemma returns_foldM_snoc {A B} (f : B -> A -> M B) (l : list A) (x : A) b
    (Q : B -> state -> Prop) s :
  returns (foldM f l b ≫= (fun b' => f b' x)) Q s -> returns (foldM f (l ++ [x]) b) Q s.
Proof. unfold returns. now rewrite foldM_snoc. Qed.

Section PackedConstant.

Variable isClientType : type -> bool.
Variable isJSExportedType : nat -> bool.
Variable getTypeAllocSize : type -> N.
Variable getElementOffset : nat -> nat -> N.
Variable globalsMapping : gmap nat constant.
Variable globalTypeMapping : gmap nat type.
Variable fuel : nat.
Hypothesis fuel_enough : (1 < fuel)%nat.

Local Abbreviation rec :=
  (rewriteConstant isClientType isJSExportedType getTypeAllocSize getElementOffset
     fuel globalsMapping globalTypeMapping).

(** An integer constant is left as it is; only the memo table may grow. *)
Lemma rewriteConstant_integer b v s :
  flatMemo (typesMapping s) ->
  returns (rec (ConstantIntC b v))
    (fun r s' => r = (ConstantIntC b v, 0) /\ structs s' = structs s /\
                 flatMemo (typesMapping s')) s.
Proof.
  intros Hm. destruct fuel as [|fuel']; [lia|].
  cbn [rewriteConstant]. unfold rewriteConstant_body. apply returns_bind.
  destruct (rewriteType_flat isClientType isJSExportedType getTypeAllocSize fuel'
              (IntegerTy b) s ltac:(simpl; lia) eq_refl Hm) as (tm' & Hrun & _ & Hm' & _).
  eapply run_returns; [exact Hrun|]. simpl. rewrite decide_True by reflexivity.
  apply returns_ret. auto.
Qed.

Variable newTypeInfo : TypeMappingInfo.
Variable newSt : nat.
Variable newInfo : StructInfo.
Variable msF : MergeState.
Hypothesis mapped_struct : mappedType newTypeInfo = StructTy newSt.
Hypothesis kind_merged : elementMappingKind newTypeInfo = MERGED_MEMBER_ARRAYS.
Hypothesis new_body : elements newInfo = newTypes msF.

Lemma packed_fold esc fields ms :
  merged esc fields ms ->
  forall ints s,
  Forall2 intField ints fields -> grown ms msF ->
  structs s !! newSt = Some newInfo -> flatMemo (typesMapping s) ->
  returns
    (foldM (rewriteStructElement rec newTypeInfo (Some (membersMapping msF)) true)
       (map intConstant ints) ([], 0%nat))
    (fun r s' => snd r = length fields /\ packed ms ints (fst r) /\
                 structs s' = structs s /\ flatMemo (typesMapping s')) s.
Proof.
  induction 1 as [|fields ms fuel0 sts st ms1 rt ms2 Hmerged IH Hr Hf];
    intros ints s Hints Hgrown Hnew Hm.
  - apply Forall2_nil_inv_r in Hints as ->. apply returns_ret. simpl.
    split; [reflexivity|]. split; [|auto]. constructor; simpl; try reflexivity;
      intros; discriminate.
  - apply Forall2_app_inv_r in Hints as (ints0 & last & Hints0 & Hlast & ->).
    apply Forall2_cons_inv_r in Hlast as ([b v] & rest & (Hrt & Hb & Hv) & Hrest & ->).
    apply Forall2_nil_inv_r in Hrest as ->. simpl in Hrt, Hb, Hv. subst rt.
    pose proof (mergeField_step _ _ _ _ _ Hf) as Hstep.
    pose proof (merged_core _ _ _ Hmerged) as Hcore.
    pose proof (mergeCore_reset _ _ _ _ _ _ _ Hr Hcore) as Hcore1.
    pose proof (mergeInts_reset _ _ _ _ _ _ _ Hr (merged_ints _ _ _ Hmerged)) as Hints1.
    pose proof (Forall2_length Hints0) as Hlen.
    assert (Hgrown0 : grown ms msF).
    { eapply grown_trans; [eapply grown_reset; exact Hr|].
      eapply grown_trans; [eapply grown_step; exact Hstep|exact Hgrown]. }
    rewrite map_app. apply returns_foldM_snoc. apply returns_bind.
    eapply returns_mono; [apply (IH ints0 s Hints0 Hgrown0 Hnew Hm)|].
    intros [acc k] s1 (Hk & Hpacked & Hs1 & Hm1). simpl in Hk, Hpacked. subst k.
    pose proof (packed_reset _ _ _ _ _ _ _ _ Hr Hpacked) as Hpacked1.
    unfold rewriteStructElement. apply returns_bind. unfold rewriteOperand.
    apply returns_bind. eapply returns_mono; [apply (rewriteConstant_integer b v s1 Hm1)|].
    intros r s2 (-> & Hs2 & Hm2). apply returns_bind.
    apply returns_assert; [reflexivity|]. apply returns_ret. cbn [fst].
    assert (Hmm : forall mm, membersMapping ms2 !! length fields = Some mm ->
              membersMapping msF !! length fields = Some mm).
    { intros mm. apply Hgrown. }
    destruct Hcore1 as [C1 C2 C3 C4 C5]. destruct Hpacked1 as [P1 P2 P3].
    destruct Hstep as [Hn Hmap _ _|e n typeIndex e0 prevNum Harr _ _ _ _ _ _
                      |bw m first second oldBw Hbw Hlt32 _ Hmi Hfit Hfirst Hn Hmap _ _].
    + (* a field of its own *)
      cbn [mbind option_bind]. simpl.
      rewrite (Hmm (length (newTypes ms1), 0))
        by (rewrite Hmap, lookup_app_r, C1, Nat.sub_diag by lia; reflexivity).
      cbn [fst]. rewrite <- P1, Nat.eqb_refl. apply returns_ret. cbn [fst snd].
      split; [rewrite length_app; simpl; lia|]. split; [|split; [congruence|exact Hm2]].
      eapply (packed_push fields ms1 ms2); eauto.
      * constructor; assumption.
      * constructor; assumption.
    + discriminate.
    + (* a field packed into an integer *)
      injection Hbw as <-.
      destruct (C3 _ _ _ Hmi) as [Hsecond Hfirst'].
      assert (oldBw = 32 - second) as -> by congruence.
      destruct (P2 _ _ Hfirst) as (bits & V & Hacc & HV).
      pose proof (lookup_lt_Some _ _ _ Hacc) as Hlt.
      destruct (proj2 Hgrown first (32 - second + b)) as (w' & Hw' & Hle).
      { rewrite Hn. apply list_lookup_insert_eq. now apply lookup_lt_Some in Hfirst. }
      simpl.
      rewrite (Hmm (first, 32 - second))
        by (rewrite Hmap, lookup_app_r, C1, Nat.sub_diag by lia; reflexivity).
      cbn [fst]. destruct (Nat.eqb_spec first (length acc)) as [Heq|_]; [lia|].
      apply returns_bind. apply returns_assert; [reflexivity|].
      apply returns_bind. eapply returns_liftOption; [exact Hacc|].
      cbn [getType]. apply returns_bind.
      rewrite decide_False by (rewrite kind_merged; discriminate).
      rewrite mapped_struct. apply returns_bind.
      assert (Hget : getStruct newSt s2 = Ok newInfo s2).
      { unfold getStruct. now rewrite Hs2, Hs1, Hnew. }
      eapply run_returns; [exact Hget|].
      eapply returns_liftOption; [rewrite new_body; exact Hw'|].
      apply returns_ret. cbn [fst snd].
      split; [rewrite length_app; simpl; lia|]. split; [|split; [congruence|exact Hm2]].
      eapply (packed_merge fields ms1 ms2); eauto.
      * constructor; assumption.
      * constructor; assumption.
Qed.

End PackedConstant.

(** X21. The integers packed into the initialiser of a struct are the
    ones that the rewritten loads read.  Let the merging loop have ended
    in the state [ms] on a struct [st] whose fields are all integers, let
    [st] be mapped to the new struct with these fields and this member
    mapping (kind [MERGED_MEMBER_ARRAYS]), and take a constant of [st] with
    the value [v] of [b] bits for a field that is mapped to the field [f]
    at bit offset [o].  Then [rewriteConstant] returns a constant of the
    new struct, with no failed assertion, whose element [f] is an integer
    from which the rewritten load of the field (load the [w] bits, shift
    right by [o], truncate to [b] bits) reads [v] again. *)
Theorem packed_constant_loads
    (isClientType : type -> bool) (isJSExportedType : nat -> bool)
    (getTypeAllocSize : type -> N) (getElementOffset : nat -> nat -> N)
    (fuel : nat) (globalsMapping : gmap nat constant) (globalTypeMapping : gmap nat type)
    (esc : gset (nat * nat)) (fields : list (type * option nat)) (ms : MergeState)
    (ints : list (N * N)) (st newSt : nat) (newInfo : StructInfo) (s : state) :
  merged esc fields ms -> Forall2 intField ints fields ->
  typesMapping s !! StructTy st = Some (mkInfo (StructTy newSt) MERGED_MEMBER_ARRAYS) ->
  st ∉ newStructTypes s -> st <> newSt ->
  membersMappingData s !! st = Some (membersMapping ms) ->
  structs s !! newSt = Some newInfo -> elements newInfo = newTypes ms ->
  flatMemo (typesMapping s) -> (2 < fuel)%nat ->
  exists newElements s',
    rewriteConstant isClientType isJSExportedType getTypeAllocSize getElementOffset
      fuel globalsMapping globalTypeMapping
      (ConstantStruct (StructTy st) (map intConstant ints)) s
    = Ok (ConstantStruct (StructTy newSt) newElements, 0) s' /\
    forall i b v f o,
      ints !! i = Some (b, v) -> membersMapping ms !! i = Some (f, o) ->
      exists w bits V,
        newTypes ms !! f = Some (IntegerTy w) /\ o + b <= w /\
        newElements !! f = Some (ConstantIntC bits V) /\
        forall mem locals ptr, mem ptr = V ->
          evalValue mem locals (rewriteMergedLoad b w ptr o) = v.
Proof.
  intros Hmerged Hints Hmemo Hnot Hne Hmembers Hnew Hbody Hm Hfuel.
  destruct fuel as [|[|fuel2]]; [lia..|].
  assert (Hrun : returns
            (rewriteConstant isClientType isJSExportedType getTypeAllocSize getElementOffset
               (S (S fuel2)) globalsMapping globalTypeMapping
               (ConstantStruct (StructTy st) (map intConstant ints)))
            (fun r s' => exists newElements,
               r = (ConstantStruct (StructTy newSt) newElements, 0) /\
               packed ms ints newElements) s).
  { cbn [rewriteConstant]. unfold rewriteConstant_body. apply returns_bind.
    eapply run_returns.
    { cbn [getType]. apply rewriteType_hit; [exact Hmemo|discriminate|].
      intros id [= <-]. exact Hnot. }
    cbn [getType mappedType]. rewrite decide_False by congruence.
    unfold rewriteRetypedConstant, rewriteConstantStruct. cbn [elementMappingKind mappedType].
    rewrite !decide_False by discriminate. apply returns_bind. apply returns_get.
    rewrite Hmembers. apply returns_bind. apply returns_assert; [reflexivity|].
    apply returns_bind. eapply returns_mono.
    - apply (packed_fold isClientType isJSExportedType getTypeAllocSize getElementOffset
               globalsMapping globalTypeMapping (S fuel2) ltac:(lia)
               (mkInfo (StructTy newSt) MERGED_MEMBER_ARRAYS) newSt newInfo ms
               eq_refl eq_refl Hbody esc fields ms Hmerged ints s Hints (grown_refl ms)
               Hnew Hm).
    - intros [newElements k] s1 (_ & Hpacked & _ & _). simpl in Hpacked.
      rewrite decide_False by discriminate. apply returns_bind.
      apply returns_assert; [reflexivity|]. apply returns_ret. eauto. }
  destruct (returns_run _ _ _ Hrun) as (r & s' & Hrun' & newElements & -> & [_ _ P3]).
  exists newElements, s'. split; [exact Hrun'|].
  intros i b v f o Hi Hmap.
  destruct (Forall2_lookup_l _ _ _ _ _ Hints Hi) as ([rt base] & Hfield & Hrt & Hb & Hv).
  simpl in Hrt, Hb, Hv. subst rt.
  destruct (merged_ints _ _ _ Hmerged) as [I1 _].
  destruct (I1 _ _ _ _ _ Hmap Hfield) as (w & Hw & Hfit & _).
  destruct (P3 _ _ _ _ _ Hmap Hi) as (bits & V & HV & Hbits).
  exists w, bits, V. split; [exact Hw|]. split; [exact Hfit|]. split; [exact HV|].
  intros mem locals ptr Hptr. rewrite evalValue_rewriteMergedLoad, Hptr.
  now apply loadedValue_packed.
Qed.

(** A struct [{i8, i8, i32}]: the bytes share an [i16]. *)
Definition bytesAndWord : state := moduleState [plainStruct [i8; i8; i32]].
Definition bytesAndWordRewritten : state :=
  Eval vm_compute in stateOf (rewriteTypeEx 10 (StructTy 0) bytesAndWord) bytesAndWord.
Definition bytesAndWordMerged : MergeState :=
  mkMerge [i16; i32] [(0%nat, 0); (0%nat, 8); (1%nat, 0)] ∅ [(0%nat, 16)] 3 (Some 0%nat) true.

Lemma bytesAndWordMerged_merged :
  merged ∅ ((([] ++ [(i8, Some 0%nat)]) ++ [(i8, Some 0%nat)]) ++ [(i32, Some 0%nat)])
    bytesAndWordMerged.
Proof.
  apply (merged_field ∅ (([] ++ [(i8, Some 0%nat)]) ++ [(i8, Some 0%nat)])
           (mkMerge [i16] [(0%nat, 0); (0%nat, 8)] ∅ [(0%nat, 16)] 3 (Some 0%nat) true)
           1 (structs bytesAndWord) 0%nat
           (mkMerge [i16] [(0%nat, 0); (0%nat, 8)] ∅ [(0%nat, 16)] 3 (Some 0%nat) true)
           i32 bytesAndWordMerged); [|reflexivity|reflexivity].
  apply (merged_field ∅ ([] ++ [(i8, Some 0%nat)])
           (mkMerge [i8] [(0%nat, 0)] ∅ [(0%nat, 24)] 3 (Some 0%nat) false)
           1 (structs bytesAndWord) 0%nat
           (mkMerge [i8] [(0%nat, 0)] ∅ [(0%nat, 24)] 3 (Some 0%nat) false)
           i8 (mkMerge [i16] [(0%nat, 0); (0%nat, 8)] ∅ [(0%nat, 16)] 3 (Some 0%nat) true));
    [|reflexivity|reflexivity].
  apply (merged_field ∅ [] initMerge 1 (structs bytesAndWord) 0%nat
           (mkMerge [] [] ∅ [] 3 (Some 0%nat) false) i8
           (mkMerge [i8] [(0%nat, 0)] ∅ [(0%nat, 24)] 3 (Some 0%nat) false));
    [constructor|vm_compute; reflexivity|reflexivity].
Qed.

Lemma packed_constant_loads_witness :
  exists newElements s',
    rewriteConstant noClient notExported (exampleSize (fun _ => 0)) noOffsets 5 ∅ ∅
      (ConstantStruct (StructTy 0) (map intConstant [(8, 0x12); (8, 0x34); (32, 7)]))
      bytesAndWordRewritten
    = Ok (ConstantStruct (StructTy 1) newElements, 0) s' /\
    forall i b v f o,
      [(8, 0x12); (8, 0x34); (32, 7)] !! i = Some (b, v) ->
      membersMapping bytesAndWordMerged !! i = Some (f, o) ->
      exists w bits V,
        newTypes bytesAndWordMerged !! f = Some (IntegerTy w) /\ o + b <= w /\
        newElements !! f = Some (ConstantIntC bits V) /\
        forall mem locals ptr, mem ptr = V ->
          evalValue mem locals (rewriteMergedLoad b w ptr o) = v.
Proof.
  apply (packed_constant_loads noClient notExported (exampleSize (fun _ => 0)) noOffsets
           5 ∅ ∅ ∅ _ bytesAndWordMerged [(8, 0x12); (8, 0x34); (32, 7)] 0 1
           (mkStruct [i16; i32] false None false false false) bytesAndWordRewritten
           bytesAndWordMerged_merged).
  - repeat constructor; simpl; lia.
  - vm_compute. reflexivity.
  - refine (bool_decide_unpack (0%nat ∉ newStructTypes bytesAndWordRewritten) _).
    vm_compute. exact I.
  - discriminate.
  - vm_compute. reflexivity.
  - vm_compute. reflexivity.
  - reflexivity.
  - refine (bool_decide_unpack
              (map_Forall (fun k i => structFree k = true -> i = flatInfo k)
                 (typesMapping bytesAndWordRewritten)) _).
    vm_compute. exact I.
  - lia.
Defined.

(** The two bytes [0x12] and [0x34] become the [i16] [0x3412]. *)
Example packed_initialiser :
  resultOf (rewriteConstant noClient notExported (exampleSize (fun _ => 0)) noOffsets 5 ∅ ∅
              (ConstantStruct (StructTy 0)
                 (map intConstant [(8, 0x12); (8, 0x34); (32, 7)]))
              bytesAndWordRewritten)
  = Some (ConstantStruct (StructTy 1) [ConstantIntC 16 0x3412; ConstantIntC 32 7], 0).
Proof. vm_compute. reflexivity. Qed.

(** * The address of a packed field *)

Lemma returns_getStruct st info (Q : StructInfo -> state -> Prop) s :
  structs s !! st = Some info -> Q info s -> returns (getStruct st) Q s.
Proof. intros H HQ. unfold returns, getStruct. now rewrite H. Qed.

(** X22. The address of an integer field of a struct with merged members
    is rewritten to the field of the new struct it is mapped to, with its
    bit offset as the residual offset.  In a state that holds the memo
    entries of the pointer, of the struct (kind [MERGED_MEMBER_ARRAYS]) and
    of the integer, and the member mapping that the merging loop has left,
    the indexes [V0, i] on a pointer to the struct become [V0, f], where
    field [i] is mapped to the field [f] at bit offset [o], and the
    residual offset is [o]; the state is not changed.  The [b] bits of the
    field lie inside the [w] bits of the new field, which are at most 32
    unless the field is alone in it. *)
Theorem packed_field_address
    (isClientType : type -> bool) (isJSExportedType : nat -> bool)
    (getTypeAllocSize : type -> N) (getElementOffset : nat -> nat -> N)
    (fuel : nat) (insertionPoint : bool)
    (esc : gset (nat * nat)) (fields : list (type * option nat)) (ms : MergeState)
    (st newSt : nat) (info : StructInfo) (s : state) (i f : nat) (b o : N)
    (base : option nat) (V0 : value) :
  merged esc fields ms ->
  fields !! i = Some (IntegerTy b, base) -> membersMapping ms !! i = Some (f, o) ->
  structs s !! st = Some info -> elements info !! i = Some (IntegerTy b) ->
  typesMapping s !! PointerTy (StructTy st)
  = Some (mkInfo (PointerTy (StructTy newSt)) IDENTICAL) ->
  typesMapping s !! StructTy st = Some (mkInfo (StructTy newSt) MERGED_MEMBER_ARRAYS) ->
  typesMapping s !! IntegerTy b = Some (mkInfo (IntegerTy b) IDENTICAL) ->
  st ∉ newStructTypes s ->
  membersMappingData s !! st = Some (membersMapping ms) ->
  rewriteGEPIndexes isClientType isJSExportedType getTypeAllocSize getElementOffset
    (S fuel) insertionPoint (IntegerTy b) (PointerTy (StructTy st))
    [V0; ConstantInt 32 (N.of_nat i)] s
  = Ok ([V0; ConstantInt_get 32 (N.of_nat f)], o) s /\
  exists w, newTypes ms !! f = Some (IntegerTy w) /\ o + b <= w /\
            (w <= 32 \/ (w = b /\ o = 0)).
Proof.
  intros Hmerged Hfield Hmap Hinfo Helt Hptr Hst Hint Hnot Hmembers.
  destruct (merged_ints _ _ _ Hmerged) as [I1 _].
  destruct (I1 _ _ _ _ _ Hmap Hfield) as (w & Hw & Hfit & Hw32).
  split; [|eauto].
  assert (Ho : wrap8 (wrap32 (0 + o)) = o).
  { unfold wrap8, wrap32. rewrite N.add_0_l.
    assert (o < 2 ^ 8) by (change (2 ^ 8) with 256; lia).
    assert (o < 2 ^ 32) by (change (2 ^ 32) with 4294967296; lia).
    rewrite (N.mod_small o (2 ^ 32)) by assumption.
    now apply N.mod_small. }
  assert (Hhit : forall t j, typesMapping s !! t = Some j ->
            elementMappingKind j <> COLLAPSING ->
            (forall id, t = StructTy id -> id ∉ newStructTypes s) ->
            forall (Q : TypeMappingInfo -> state -> Prop), Q j s ->
            returns (rewriteType isClientType isJSExportedType getTypeAllocSize (S fuel) t)
              Q s).
  { intros t j Hj Hk Hn Q HQ. eapply run_returns; [|exact HQ].
    exact (rewriteType_hit isClientType isJSExportedType getTypeAllocSize fuel t s j Hj Hk Hn). }
  assert (Hrun : returns
            (rewriteGEPIndexes isClientType isJSExportedType getTypeAllocSize
               getElementOffset (S fuel) insertionPoint (IntegerTy b)
               (PointerTy (StructTy st)) [V0; ConstantInt 32 (N.of_nat i)])
            (fun r s' => r = ([V0; ConstantInt_get 32 (N.of_nat f)], o) /\ s' = s) s).
  { unfold rewriteGEPIndexes. cbn [gepIndexes curType]. apply returns_bind.
    apply (Hhit _ _ Hptr); [discriminate|discriminate|].
    cbn -[rewriteType wrap32 wrap8 N.of_nat]. apply returns_bind.
    apply returns_bind. apply returns_ret. apply returns_ret.
    cbn -[rewriteType wrap32 wrap8 N.of_nat]. apply returns_bind.
    apply (Hhit _ _ Hst); [discriminate| |].
    { intros id [= <-]. exact Hnot. }
    cbn -[rewriteType wrap32 wrap8 N.of_nat]. rewrite Nat2N.id.
    apply returns_bind. apply (returns_getStruct st info); [exact Hinfo|].
    apply returns_bind. apply returns_ret. apply returns_bind. apply returns_get.
    apply returns_bind. eapply returns_liftOption; [exact Hmembers|].
    apply returns_bind. eapply returns_liftOption; [exact Hmap|].
    apply returns_bind. apply returns_ret.
    apply returns_bind. eapply returns_liftOption; [exact Helt|].
    apply returns_bind. apply (Hhit _ _ Hint); [discriminate|discriminate|].
    cbn -[rewriteType wrap32 wrap8 N.of_nat]. apply returns_bind. apply returns_ret.
    apply returns_bind. unfold advanceType.
    cbn -[rewriteType wrap32 wrap8 N.of_nat]. rewrite Nat2N.id.
    apply returns_bind. apply (returns_getStruct st info); [exact Hinfo|].
    apply returns_bind. apply returns_ret.
    apply returns_bind. eapply returns_liftOption; [exact Helt|]. apply returns_ret.
    apply returns_bind. unfold checkTarget.
    cbn -[rewriteType wrap32 wrap8 N.of_nat]. apply returns_bind.
    apply (Hhit _ _ Hint); [discriminate|discriminate|].
    apply returns_assert; [now apply bool_decide_eq_true|].
    apply returns_bind. apply returns_ret. apply returns_ret.
    cbn -[wrap32 wrap8 N.of_nat]. rewrite Ho. auto. }
  destruct (returns_run _ _ _ Hrun) as (r & s' & Hrun' & -> & ->). exact Hrun'.
Qed.

(** The state after the type of a pointer to [{i8, i8, i32}] is rewritten. *)
Definition bytesAndWordPointer : state :=
  Eval vm_compute in
    stateOf (rewriteTypeEx 10 (PointerTy (StructTy 0)) bytesAndWord) bytesAndWord.

Lemma packed_field_address_witness :
  rewriteGEPIndexes noClient notExported (exampleSize (fun _ => 0)) noOffsets 1 true i8
    (PointerTy (StructTy 0)) [Local 32 7; ConstantInt 32 (N.of_nat 1)]
    bytesAndWordPointer
  = Ok ([Local 32 7; ConstantInt_get 32 (N.of_nat 0)], 8) bytesAndWordPointer /\
  exists w, newTypes bytesAndWordMerged !! 0%nat = Some (IntegerTy w) /\ 8 + 8 <= w /\
            (w <= 32 \/ (w = 8 /\ 8 = 0)).
Proof.
  apply (packed_field_address noClient notExported (exampleSize (fun _ => 0)) noOffsets
           0 true ∅ _ bytesAndWordMerged 0 1 (plainStruct [i8; i8; i32])
           bytesAndWordPointer 1 0 8 8 (Some 0%nat) (Local 32 7)
           bytesAndWordMerged_merged).
  - reflexivity.
  - reflexivity.
  - vm_compute. reflexivity.
  - reflexivity.
  - vm_compute. reflexivity.
  - vm_compute. reflexivity.
  - vm_compute. reflexivity.
  - refine (bool_decide_unpack (0%nat ∉ newStructTypes bytesAndWordPointer) _).
    vm_compute. exact I.
  - vm_compute. reflexivity.
Defined.

(** * FreeAndDeleteRemoval: erasing a call and its unused operands *)

(** The body of a function: its instructions, each with its operands.  An
    operand [OpInst x] is a use of the instruction [x]. *)
Definition body : Type := list (nat * list operand).

Fixpoint operandsOf (f : body) (I : nat) : option (list operand) :=
  match f with
  | [] => None
  | i :: f' => if decide (i.1 = I) then Some i.2 else operandsOf f' I
  end.

(** The uses of [x] among some operands, and in the whole body. *)
Fixpoint countUses (x : nat) (ops : list operand) : nat :=
  match ops with
  | [] => 0
  | op :: ops' => (if decide (op = OpInst x) then 1 else 0) + countUses x ops'
  end.

Fixpoint numUses (f : body) (x : nat) : nat :=
  match f with
  | [] => 0
  | i :: f' => countUses x i.2 + numUses f' x
  end.

Definition hasOneUse (f : body) (x : nat) : bool := bool_decide (numUses f x = 1%nat).

Fixpoint erase (I : nat) (f : body) : body :=
  match f with
  | [] => []
  | i :: f' => if decide (i.1 = I) then erase I f' else i :: erase I f'
  end.

(** What a deletion comes to: the new body, the use of an instruction that
    was erased before, or the destruction of a value that still has uses
    (the assertion of [Value::~Value]). *)
Inductive outcome : Type :=
| Erased (f : body)
| UseAfterFree
| UsesRemain
| NoFuel.

(** [I->eraseFromParent()]. *)
Definition eraseFromParent (I : nat) (f : body) : outcome :=
  if decide (I ∈ f.*1) then
    if decide (numUses f I = 0%nat) then Erased (erase I f) else UsesRemain
  else UseAfterFree.

(** The first loop: the operands that are instructions with one use. *)
Fixpoint operandsToErase (f : body) (ops : list operand) : list nat :=
  match ops with
  | [] => []
  | OpInst opI :: ops' =>
      if hasOneUse f opI then opI :: operandsToErase f ops' else operandsToErase f ops'
  | OpValue _ :: ops' => operandsToErase f ops'
  end.

(** The second loop. *)
Fixpoint eraseAll (del : nat -> body -> outcome) (l : list nat) (f : body) : outcome :=
  match l with
  | [] => Erased f
  | opI :: l' =>
      match del opI f with
      | Erased f' => eraseAll del l' f'
      | e => e
      end
  end.

Fixpoint deleteInstructionAndUnusedOperands (fuel : nat) (I : nat) (f : body) : outcome :=
  match fuel with
  | O => NoFuel
  | S fuel' =>
      match operandsOf f I with
      | None => UseAfterFree
      | Some ops =>
          let toErase := operandsToErase f ops in
          match eraseFromParent I f with
          | Erased f1 => eraseAll (deleteInstructionAndUnusedOperands fuel') toErase f1
          | e => e
          end
      end
  end.

(** Every instruction that is used is in the body, and no instruction is
    there twice. *)
Definition usesAreLive (f : body) : Prop :=
  NoDup f.*1 /\ forall i x, i ∈ f -> OpInst x ∈ i.2 -> x ∈ f.*1.

Lemma elem_of_erase i I f : i ∈ erase I f <-> i ∈ f /\ i.1 <> I.
Proof.
  induction f as [|j f IH]; simpl.
  - split; [intros H|intros [H _]]; now apply elem_of_nil in H.
  - destruct (decide (j.1 = I)) as [E|E]; rewrite ?elem_of_cons, IH.
    + split; [tauto|]. intros [[->|H] Hne]; [contradiction|tauto].
    + split; [intros [->|H]; tauto|tauto].
Qed.

Lemma live_erase y I f : y ∈ (erase I f).*1 <-> y ∈ f.*1 /\ y <> I.
Proof.
  rewrite !list_elem_of_fmap. split.
  - intros (i & -> & Hi). apply elem_of_erase in Hi as [Hi Hne]. eauto.
  - intros [(i & -> & Hi) Hne]. exists i. split; [reflexivity|]. now apply elem_of_erase.
Qed.

Lemma erase_not_live I f : I ∉ f.*1 -> erase I f = f.
Proof.
  induction f as [|j f IH]; simpl; [reflexivity|]. intros Hn.
  apply not_elem_of_cons in Hn as [Hne Hn].
  destruct (decide (j.1 = I)) as [E|E]; [now symmetry in E|]. now rewrite IH.
Qed.

Lemma NoDup_erase I f : NoDup f.*1 -> NoDup (erase I f).*1.
Proof.
  induction f as [|j f IH]; simpl; [auto|]. intros Hnd.
  apply list.NoDup_cons in Hnd as [Hj Hnd].
  destruct (decide (j.1 = I)) as [E|E]; [auto|]. simpl. apply list.NoDup_cons. split; [|auto].
  intros Hin. apply live_erase in Hin. tauto.
Qed.

Lemma erase_length I f : (length (erase I f) <= length f)%nat.
Proof.
  induction f as [|j f IH]; simpl; [lia|]. destruct (decide (j.1 = I)); simpl; lia.
Qed.

Lemma erase_length_lt I f : I ∈ f.*1 -> (length (erase I f) < length f)%nat.
Proof.
  induction f as [|j f IH]; simpl; [intros H; now apply elem_of_nil in H|].
  intros Hin. destruct (decide (j.1 = I)) as [E|E].
  - pose proof (erase_length I f). lia.
  - apply elem_of_cons in Hin as [Hin|Hin]; [now symmetry in Hin|].
    simpl. specialize (IH Hin). lia.
Qed.

Lemma operandsOf_live I f : I ∈ f.*1 -> exists ops, operandsOf f I = Some ops /\ (I, ops) ∈ f.
Proof.
  induction f as [|j f IH]; simpl; [intros H; now apply elem_of_nil in H|].
  intros Hin. destruct (decide (j.1 = I)) as [E|E].
  - exists j.2. split; [reflexivity|]. destruct j; simpl in *; subst. apply elem_of_cons; auto.
  - apply elem_of_cons in Hin as [Hin|Hin]; [now symmetry in Hin|].
    destruct (IH Hin) as (ops & H1 & H2). exists ops. split; [exact H1|].
    apply elem_of_cons; auto.
Qed.

Lemma operandsOf_erase y I f : y <> I -> operandsOf (erase I f) y = operandsOf f y.
Proof.
  intros Hne. induction f as [|j f IH]; simpl; [reflexivity|].
  destruct (decide (j.1 = I)) as [E|E].
  - rewrite IH. destruct (decide (j.1 = y)); [congruence|reflexivity].
  - simpl. now rewrite IH.
Qed.

Lemma numUses_erase_le I f x : (numUses (erase I f) x <= numUses f x)%nat.
Proof.
  induction f as [|j f IH]; simpl; [lia|]. destruct (decide (j.1 = I)); simpl; lia.
Qed.

Lemma numUses_erase I f ops x :
  NoDup f.*1 -> operandsOf f I = Some ops ->
  numUses f x = (countUses x ops + numUses (erase I f) x)%nat.
Proof.
  induction f as [|j f IH]; simpl; [discriminate|]. intros Hnd Hops.
  apply list.NoDup_cons in Hnd as [Hj Hnd]. destruct (decide (j.1 = I)) as [E|E].
  - injection Hops as <-. rewrite erase_not_live; [reflexivity|now rewrite <- E].
  - simpl. rewrite (IH Hnd Hops). lia.
Qed.

Lemma countUses_elem_of x ops : OpInst x ∈ ops <-> countUses x ops <> 0%nat.
Proof.
  induction ops as [|op ops IH]; simpl.
  - split; [intros H; now apply elem_of_nil in H|congruence].
  - rewrite elem_of_cons, IH. destruct (decide (op = OpInst x)) as [E|E].
    + split; [lia|auto].
    + split; [intros [H|H]; [now symmetry in H|exact H]|auto].
Qed.

Lemma countUses_numUses i f x : i ∈ f -> (countUses x i.2 <= numUses f x)%nat.
Proof.
  induction f as [|j f IH]; simpl; [intros H; now apply elem_of_nil in H|].
  intros Hin. apply elem_of_cons in Hin as [->|Hin]; [lia|]. specialize (IH Hin). lia.
Qed.

Lemma numUses_used f x : numUses f x <> 0%nat -> exists i, i ∈ f /\ OpInst x ∈ i.2.
Proof.
  induction f as [|j f IH]; simpl; [congruence|]. intros Hn.
  destruct (decide (countUses x j.2 = 0%nat)) as [E|E].
  - destruct IH as (i & Hi & Hx); [lia|]. exists i. split; [apply elem_of_cons; auto|exact Hx].
  - exists j. split; [apply elem_of_cons; auto|now apply countUses_elem_of].
Qed.

Lemma elem_of_operandsToErase f ops y :
  y ∈ operandsToErase f ops <-> OpInst y ∈ ops /\ numUses f y = 1%nat.
Proof.
  induction ops as [|op ops IH]; simpl.
  - split; [intros H|intros [H _]]; now apply elem_of_nil in H.
  - destruct op as [opI|v].
    + unfold hasOneUse. destruct (bool_decide_reflect (numUses f opI = 1%nat)) as [E|E];
        rewrite ?elem_of_cons, IH, ?elem_of_cons.
      * split; [intros [->|[H1 H2]]; auto|]. intros [[[= ->]|H1] H2]; auto.
      * split; [tauto|]. intros [[[= ->]|H1] H2]; [contradiction|auto].
    + rewrite IH, elem_of_cons. split; [tauto|]. intros [[[=]|H1] H2]. auto.
Qed.

Lemma NoDup_operandsToErase f ops :
  (forall y, y ∈ operandsToErase f ops -> (countUses y ops <= 1)%nat) ->
  NoDup (operandsToErase f ops).
Proof.
  induction ops as [|op ops IH]; simpl; [intros; apply NoDup_nil_2|].
  destruct op as [opI|v].
  - destruct (hasOneUse f opI) eqn:E; intros Hc.
    + apply list.NoDup_cons. split.
      * intros Hin. specialize (Hc opI (proj2 (elem_of_cons _ _ _) (or_introl eq_refl))).
        apply elem_of_operandsToErase in Hin as [Hin _].
        apply countUses_elem_of in Hin. rewrite decide_True in Hc by reflexivity. lia.
      * apply IH. intros y Hy. specialize (Hc y (proj2 (elem_of_cons _ _ _) (or_intror Hy))).
        lia.
    + apply IH. intros y Hy. specialize (Hc y Hy). lia.
  - intros Hc. apply IH. intros y Hy. specialize (Hc y Hy).
    rewrite decide_False in Hc by discriminate. exact Hc.
Qed.

Lemma usesAreLive_erase I f :
  usesAreLive f -> numUses f I = 0%nat -> usesAreLive (erase I f).
Proof.
  intros [Hnd Hlive] Hunused. split; [now apply NoDup_erase|].
  intros i x Hi Hx. apply elem_of_erase in Hi as [Hi Hne]. apply live_erase.
  split; [now apply (Hlive i)|]. intros ->.
  pose proof (countUses_numUses i f I Hi). apply countUses_elem_of in Hx. lia.
Qed.

(** [f'] is what is left of [f] after the instructions [roots] and
    operands of erased instructions were erased: the body is still closed
    under uses, the instructions left keep their operands, and an
    instruction that went was a root or had a use. *)
Record deleted (roots : list nat) (f f' : body) : Prop := mkDeleted {
  del_live : usesAreLive f';
  del_sub : forall y, y ∈ f'.*1 -> y ∈ f.*1;
  del_ops : forall y, y ∈ f'.*1 -> operandsOf f' y = operandsOf f y;
  del_uses : forall x, (numUses f' x <= numUses f x)%nat;
  del_length : (length f' <= length f)%nat;
  del_gone : forall y, y ∈ f.*1 -> y ∉ f'.*1 -> y ∈ roots \/ numUses f y <> 0%nat;
  del_roots : forall y, y ∈ roots -> y ∉ f'.*1
}.

Lemma deleted_refl f : usesAreLive f -> deleted [] f f.
Proof.
  intros Hl. constructor; auto; intros y Hy; try (intros Hn; contradiction).
  now apply elem_of_nil in Hy.
Qed.

Lemma deleted_erase I f :
  usesAreLive f -> numUses f I = 0%nat -> deleted [I] f (erase I f).
Proof.
  intros Hl Hunused. constructor.
  - now apply usesAreLive_erase.
  - intros y Hy. now apply live_erase in Hy.
  - intros y Hy. apply live_erase in Hy as [_ Hne]. now apply operandsOf_erase.
  - intros x. apply numUses_erase_le.
  - apply erase_length.
  - intros y Hy Hn. left. apply list_elem_of_singleton.
    destruct (decide (y = I)) as [E|E]; [exact E|]. exfalso. apply Hn, live_erase. auto.
  - intros y Hy Hin. apply list_elem_of_singleton in Hy. apply live_erase in Hin. tauto.
Qed.

Lemma deleted_trans r1 r2 f g h : deleted r1 f g -> deleted r2 g h -> deleted (r1 ++ r2) f h.
Proof.
  intros [A1 A2 A3 A4 A5 A6 A7] [B1 B2 B3 B4 B5 B6 B7]. constructor.
  - exact B1.
  - auto.
  - intros y Hy. rewrite B3 by exact Hy. auto.
  - intros x. specialize (A4 x). specialize (B4 x). lia.
  - lia.
  - intros y Hy Hn. destruct (decide (y ∈ g.*1)) as [Hg|Hg].
    + destruct (B6 y Hg Hn) as [H|H]; [left; apply elem_of_app; auto|].
      right. specialize (A4 y). lia.
    + destruct (A6 y Hy Hg) as [H|H]; [left; apply elem_of_app; auto|auto].
  - intros y Hy Hin. apply elem_of_app in Hy as [Hy|Hy]; [|exact (B7 y Hy Hin)].
    exact (A7 y Hy (B2 y Hin)).
Qed.

Lemma deleted_roots r r' f f' :
  (forall y, y ∈ r' -> y ∈ r) ->
  (forall y, y ∈ r -> y ∈ r' \/ numUses f y <> 0%nat) -> deleted r f f' -> deleted r' f f'.
Proof.
  intros Hsub Hr [A1 A2 A3 A4 A5 A6 A7]. constructor; auto.
  intros y Hy Hn. destruct (A6 y Hy Hn) as [H|H]; auto.
Qed.

(** The second loop, given what the recursive calls do. *)
Lemma eraseAll_deleted (del : nat -> body -> outcome) (fuel : nat) :
  (forall I f, usesAreLive f -> I ∈ f.*1 -> numUses f I = 0%nat -> (length f <= fuel)%nat ->
     exists f', del I f = Erased f' /\ deleted [I] f f') ->
  forall l g, usesAreLive g -> NoDup l ->
    (forall y, y ∈ l -> y ∈ g.*1 /\ numUses g y = 0%nat) -> (length g <= fuel)%nat ->
    exists g', eraseAll del l g = Erased g' /\ deleted l g g'.
Proof.
  intros Hdel l. induction l as [|x l IH]; intros g Hl Hnd Hroots Hlen; simpl.
  - exists g. split; [reflexivity|now apply deleted_refl].
  - apply list.NoDup_cons in Hnd as [Hx Hnd].
    destruct (Hroots x) as [Hxl Hxu]; [apply elem_of_cons; auto|].
    destruct (Hdel x g Hl Hxl Hxu Hlen) as (g1 & -> & D1).
    destruct (IH g1) as (g' & -> & D2).
    + exact (del_live _ _ _ D1).
    + exact Hnd.
    + intros y Hy. destruct (Hroots y) as [Hyl Hyu]; [apply elem_of_cons; auto|].
      split.
      * destruct (decide (y ∈ g1.*1)) as [Hg|Hg]; [exact Hg|].
        destruct (del_gone _ _ _ D1 y Hyl Hg) as [H|H]; [|contradiction].
        apply list_elem_of_singleton in H. subst y. contradiction.
      * pose proof (del_uses _ _ _ D1 y). lia.
    + pose proof (del_length _ _ _ D1). lia.
    + exists g'. split; [reflexivity|]. exact (deleted_trans [x] l g g1 g' D1 D2).
Qed.

(** An instruction without uses can be deleted: nothing that is used and
    nothing that is gone is erased, and the recursion ends. *)
Lemma delete_deleted fuel :
  forall I f, usesAreLive f -> I ∈ f.*1 -> numUses f I = 0%nat -> (length f <= fuel)%nat ->
    exists f', deleteInstructionAndUnusedOperands fuel I f = Erased f' /\ deleted [I] f f'.
Proof.
  induction fuel as [|fuel IH]; intros I f Hl HI Hunused Hlen.
  - destruct f; [now apply elem_of_nil in HI|simpl in Hlen; lia].
  - simpl. destruct (operandsOf_live I f HI) as (ops & Hops & Hin). rewrite Hops.
    unfold eraseFromParent. rewrite decide_True by exact HI.
    rewrite decide_True by exact Hunused.
    assert (Hone : forall y, y ∈ operandsToErase f ops ->
                     y <> I /\ y ∈ f.*1 /\ countUses y ops = 1%nat /\ numUses f y = 1%nat).
    { intros y Hy. apply elem_of_operandsToErase in Hy as [Hy Hu].
      pose proof (countUses_numUses (I, ops) f y Hin) as Hle. simpl in Hle.
      pose proof (proj1 (countUses_elem_of y ops) Hy) as Hpos.
      repeat split; [congruence|exact (proj2 Hl (I, ops) y Hin Hy)|lia|exact Hu]. }
    destruct (eraseAll_deleted (deleteInstructionAndUnusedOperands fuel) fuel IH
                (operandsToErase f ops) (erase I f)) as (f' & -> & D).
    + now apply usesAreLive_erase.
    + apply NoDup_operandsToErase. intros y Hy. destruct (Hone y Hy) as (_ & _ & Hc & _). lia.
    + intros y Hy. destruct (Hone y Hy) as (Hne & Hy' & Hc & Hu). split.
      * apply live_erase. auto.
      * pose proof (numUses_erase I f ops y (proj1 Hl) Hops). lia.
    + pose proof (erase_length_lt I f HI). lia.
    + exists f'. split; [reflexivity|].
      apply (deleted_roots ([I] ++ operandsToErase f ops)).
      * intros y Hy. apply elem_of_app. auto.
      * intros y Hy. apply elem_of_app in Hy as [Hy|Hy]; [auto|].
        right. destruct (Hone y Hy) as (_ & _ & _ & Hu). lia.
      * eapply deleted_trans; [now apply deleted_erase|exact D].
Qed.

(** X23. [deleteInstructionAndUnusedOperands] on an instruction without
    uses, in a body where every used instruction is present, ends when the
    fuel is at least the number of instructions, and erases neither an
    instruction that still has uses nor one that is gone already.  What is
    left is closed under uses again and has lost [I]; the instructions
    left were there before and keep their operands, and an instruction
    other than [I] that went had a use before. *)
Theorem deleteInstructionAndUnusedOperands_safe (fuel I : nat) (f : body) :
  usesAreLive f -> I ∈ f.*1 -> numUses f I = 0%nat -> (length f <= fuel)%nat ->
  exists f',
    deleteInstructionAndUnusedOperands fuel I f = Erased f' /\
    usesAreLive f' /\ (I ∉ f'.*1) /\
    (forall y, y ∈ f'.*1 -> y ∈ f.*1 /\ operandsOf f' y = operandsOf f y) /\
    (forall y, y ∈ f.*1 -> y ∉ f'.*1 -> y = I \/ numUses f y <> 0%nat).
Proof.
  intros Hl HI Hunused Hlen.
  destruct (delete_deleted fuel I f Hl HI Hunused Hlen) as (f' & Hrun & D).
  exists f'. split; [exact Hrun|]. split; [exact (del_live _ _ _ D)|].
  split; [apply (del_roots _ _ _ D), list_elem_of_singleton; reflexivity|]. split.
  - intros y Hy. split; [exact (del_sub _ _ _ D y Hy)|exact (del_ops _ _ _ D y Hy)].
  - intros y Hy Hn. destruct (del_gone _ _ _ D y Hy Hn) as [H|H]; [|auto].
    left. now apply list_elem_of_singleton in H.
Qed.

(** [%0 = bitcast %a; %1 = gep %0; %2 = load %0; %3 = gep %1; free(%3, %1)]:
    with the call go [%3], whose one use is the call, and then [%1], whose
    last use is [%3]; [%0] stays, since the load uses it. *)
Definition freeOfGep : body :=
  [(0%nat, [OpValue 0]); (1%nat, [OpInst 0]); (2%nat, [OpInst 0]);
   (3%nat, [OpInst 1]); (4%nat, [OpInst 3; OpInst 1])].

Lemma freeOfGep_usesAreLive : usesAreLive freeOfGep.
Proof.
  split.
  - refine (bool_decide_unpack (NoDup freeOfGep.*1) _). vm_compute. exact I.
  - intros i x Hi Hx. unfold freeOfGep in Hi.
    repeat (apply elem_of_cons in Hi as [->|Hi]); simpl in Hx;
      repeat (apply elem_of_cons in Hx as [Hx|Hx]; [try discriminate; injection Hx as ->|]);
      try (now apply elem_of_nil in Hx); try (now apply elem_of_nil in Hi);
      refine (bool_decide_unpack (_ ∈ freeOfGep.*1) _); vm_compute; exact I.
Qed.

Lemma deleteInstructionAndUnusedOperands_safe_witness :
  exists f',
    deleteInstructionAndUnusedOperands 5 4 freeOfGep = Erased f' /\
    usesAreLive f' /\ (4%nat ∉ f'.*1) /\
    (forall y, y ∈ f'.*1 -> y ∈ freeOfGep.*1 /\ operandsOf f' y = operandsOf freeOfGep y) /\
    (forall y, y ∈ freeOfGep.*1 -> y ∉ f'.*1 -> y = 4%nat \/ numUses freeOfGep y <> 0%nat).
Proof.
  apply (deleteInstructionAndUnusedOperands_safe 5 4 freeOfGep freeOfGep_usesAreLive).
  - refine (bool_decide_unpack (4%nat ∈ freeOfGep.*1) _). vm_compute. exact I.
  - reflexivity.
  - simpl. lia.
Defined.

Example freeOfGep_deleted :
  deleteInstructionAndUnusedOperands 5 4 freeOfGep
  = Erased [(0%nat, [OpValue 0]); (2%nat, [OpInst 0])].
Proof. vm_compute. reflexivity. Qed.

(** * The global variables *)

Definition getPointerElementType (t : type) : option type :=
  match t with PointerTy e => Some e | _ => None end.

(** [ConstantExpr::getGetElementPtr]: the type of the expression is a
    pointer to the type that the indexes select. *)
Definition getGetElementPtr (sts : gmap nat StructInfo) (C : constant) (idxs : list value)
    : option constant :=
  match indexedType sts (getType C) idxs, sequenceOptions (map valueToConstant idxs) with
  | Some elt, Some cs => Some (ConstantExpr GetElementPtr (PointerTy elt) (C :: cs))
  | _, _ => None
  end.

(** [std::map::insert] keeps an entry that is there. *)
Definition insertNew {A} (k : nat) (a : A) (m : gmap nat A) : gmap nat A :=
  match m !! k with
  | Some _ => m
  | None => <[k := a]> m
  end.

Section Globals.

Variable isClientType : type -> bool.
Variable isJSExportedType : nat -> bool.
Variable getTypeAllocSize : type -> N.
Variable fuel : nat.

Local Abbreviation rewriteType' :=
  (rewriteType isClientType isJSExportedType getTypeAllocSize fuel).

(** [rewriteGlobal] on the global [id] of type [ty]: the constant that
    stands for the global from now on, which holds the global with its new
    type, and [globalTypeMapping] with the old type of the global. *)
Definition rewriteGlobal (id : nat) (ty : type) (globalTypeMapping : gmap nat type)
    : M (constant * gmap nat type) :=
  newInfo ← rewriteType' ty;
  let globalTypeMapping := <[id := ty]> globalTypeMapping in
  if decide (ty = mappedType newInfo) then
    elt ← liftOption (getPointerElementType ty);
    _ ← assert (negb (isArrayTy elt));
    mret (GlobalVariable id ty, globalTypeMapping)
  else if decide (elementMappingKind newInfo = POINTER_FROM_ARRAY) then
    elt ← liftOption (getPointerElementType ty);
    newAllocatedType ← rewriteType' elt;
    let newPtrType := PointerTy (mappedType newAllocatedType) in
    s ← get;
    gep ← liftOption (getGetElementPtr (structs s) (GlobalVariable id newPtrType)
                        [Int32Zero; Int32Zero]);
    mret (gep, globalTypeMapping)
  else mret (GlobalVariable id (mappedType newInfo), globalTypeMapping).

(** The loop over the globals in [runOnModule]. *)
Fixpoint rewriteGlobals (globals : list (nat * type)) (globalsMapping : gmap nat constant)
    (globalTypeMapping : gmap nat type) : M (gmap nat constant * gmap nat type) :=
  match globals with
  | [] => mret (globalsMapping, globalTypeMapping)
  | GV :: globals' =>
      r ← rewriteGlobal GV.1 GV.2 globalTypeMapping;
      rewriteGlobals globals' (insertNew GV.1 r.1 globalsMapping) r.2
  end.

End Globals.

(** What stands for a global of a type without structs: the global with a
    pointer to the flat type, or the address of its first element when
    that type is an array. *)
Definition flatGlobal (id : nat) (e : type) : constant :=
  if isArrayTy (flatType e) then
    ConstantExpr GetElementPtr (flatType (PointerTy e))
      [GlobalVariable id (PointerTy (flatType e)); ConstantIntC 32 0; ConstantIntC 32 0]
  else GlobalVariable id (PointerTy (flatType e)).

Lemma flatGlobal_getType id e : getType (flatGlobal id e) = flatType (PointerTy e).
Proof.
  unfold flatGlobal. destruct (isArrayTy (flatType e)) eqn:E; [reflexivity|].
  simpl. destruct (flatType e); try reflexivity. discriminate.
Qed.

Lemma flatType_array e n : isArrayTy (flatType (ArrayTy e n)) = true.
Proof. simpl. now destruct (flatType e). Qed.

Lemma flat_element_not_array e a n :
  structFree e = true -> flatType e = ArrayTy a n -> isArrayTy e = true /\ isArrayTy a = false.
Proof.
  intros Hs Hf. split.
  - destruct (isArrayTy e) eqn:E; [reflexivity|].
    apply flatType_not_array in E. rewrite Hf in E. discriminate.
  - pose proof (flatType_wellFlat e Hs) as Hw. rewrite Hf in Hw. simpl in Hw.
    apply andb_true_iff in Hw as [Hw _]. now apply negb_true_iff in Hw.
Qed.

Lemma rewriteGlobal_flat isClientType isJSExportedType getTypeAllocSize fuel id e gtm s :
  structFree e = true -> (depth (PointerTy e) < fuel)%nat -> flatMemo (typesMapping s) ->
  returns (rewriteGlobal isClientType isJSExportedType getTypeAllocSize fuel id
             (PointerTy e) gtm)
    (fun r s' => r = (flatGlobal id e, <[id := PointerTy e]> gtm) /\
                 flatMemo (typesMapping s')) s.
Proof.
  intros Hs Hd Hm. unfold rewriteGlobal. apply returns_bind.
  apply returns_rewriteType_flat; [exact Hd|exact Hs|exact Hm|]. intros s1 Hm1.
  unfold flatInfo, flatGlobal. cbn [mappedType elementMappingKind flatKind].
  destruct (isArrayTy (flatType e)) eqn:Harr.
  - destruct (flatType e) as [| | | | |a n| |] eqn:Hflat; try discriminate.
    destruct (flat_element_not_array e a n Hs Hflat) as [He Ha].
    cbn [flatType]. rewrite Hflat.
    rewrite decide_False by (intros [= ->]; congruence).
    rewrite decide_True by reflexivity.
    apply returns_bind. eapply returns_liftOption; [reflexivity|].
    apply returns_bind. apply returns_rewriteType_flat; [simpl in Hd; lia|exact Hs|exact Hm1|].
    intros s2 Hm2. apply returns_bind. apply returns_get.
    apply returns_bind. eapply returns_liftOption.
    { unfold getGetElementPtr, flatInfo. cbn. rewrite Hflat. reflexivity. }
    apply returns_ret. auto.
  - assert (He : isArrayTy e = false).
    { destruct e; try reflexivity. now rewrite flatType_array in Harr. }
    assert (Hp : flatType (PointerTy e) = PointerTy (flatType e)).
    { simpl. destruct (flatType e); try reflexivity. discriminate. }
    rewrite Hp. destruct (decide (PointerTy e = PointerTy (flatType e))) as [E|E].
    + apply returns_bind. eapply returns_liftOption; [reflexivity|].
      apply returns_bind. apply returns_assert; [now rewrite He|].
      apply returns_ret. split; [|exact Hm1]. now rewrite <- E.
    + rewrite decide_False by discriminate. apply returns_ret. auto.
Qed.

Lemma rewriteGlobals_flat isClientType isJSExportedType getTypeAllocSize fuel :
  forall globals gm gtm s,
    NoDup globals.*1 ->
    Forall (fun GV => exists e, GV.2 = PointerTy e /\ structFree e = true /\
                                (depth GV.2 < fuel)%nat) globals ->
    (forall id, id ∈ globals.*1 -> gm !! id = None) ->
    flatMemo (typesMapping s) ->
    returns (rewriteGlobals isClientType isJSExportedType getTypeAllocSize fuel globals gm gtm)
      (fun r s' =>
         flatMemo (typesMapping s') /\
         (forall id e, (id, PointerTy e) ∈ globals ->
            r.1 !! id = Some (flatGlobal id e) /\ r.2 !! id = Some (PointerTy e)) /\
         (forall id, id ∉ globals.*1 -> r.1 !! id = gm !! id /\ r.2 !! id = gtm !! id)) s.
Proof.
  induction globals as [|[id0 ty0] globals IH]; intros gm gtm s Hnd Hall Hnew Hm.
  - apply returns_ret. split; [exact Hm|]. split; [|auto].
    intros id e Hin. now apply elem_of_nil in Hin.
  - apply list.NoDup_cons in Hnd as [Hid0 Hnd].
    apply list.Forall_cons in Hall as [(e0 & Hty & Hs & Hd) Hall]. simpl in Hty, Hd. subst ty0.
    cbn [rewriteGlobals fst snd]. apply returns_bind.
    eapply returns_mono; [apply rewriteGlobal_flat; [exact Hs|exact Hd|exact Hm]|].
    intros r s1 [-> Hm1]. cbn [fst snd].
    assert (Hins : insertNew id0 (flatGlobal id0 e0) gm = <[id0 := flatGlobal id0 e0]> gm).
    { unfold insertNew. rewrite (Hnew id0); [reflexivity|]. apply elem_of_cons. auto. }
    rewrite Hins.
    eapply returns_mono; [apply (IH _ _ s1 Hnd Hall); [|exact Hm1]|].
    + intros id Hid. rewrite lookup_insert_ne by (intros ->; contradiction).
      apply Hnew. apply elem_of_cons. auto.
    + intros [gm' gtm'] s2 (Hm2 & Hin & Hout). cbn [fst snd] in *.
      split; [exact Hm2|]. split.
      * intros id e Hid. apply elem_of_cons in Hid as [[= -> ->]|Hid].
        -- destruct (Hout id0 Hid0) as [-> ->]. now rewrite !lookup_insert_eq.
        -- now apply Hin.
      * intros id Hid. apply not_elem_of_cons in Hid as [Hne Hid]. simpl in Hne.
        destruct (Hout id Hid) as [-> ->]. now rewrite !lookup_insert_ne by congruence.
Qed.

(** X24. The loop of [runOnModule] over the global variables, on globals
    of types without structs and from a memo table with the expected
    entries for such types, returns without a failed assertion.  It leaves
    in [globalTypeMapping] the old type of every global, and in
    [globalsMapping] a constant of the type that [rewriteType] gives to
    that old type: the global itself, now a pointer to the flattened
    pointee, or, when the pointee is an array, the address of its first
    element. *)
Theorem rewriteGlobals_struct_free
    (isClientType : type -> bool) (isJSExportedType : nat -> bool)
    (getTypeAllocSize : type -> N) (fuel : nat) (globals : list (nat * type)) (s : state) :
  NoDup globals.*1 ->
  Forall (fun GV => exists e, GV.2 = PointerTy e /\ structFree e = true /\
                              (depth GV.2 < fuel)%nat) globals ->
  flatMemo (typesMapping s) ->
  exists globalsMapping globalTypeMapping s',
    rewriteGlobals isClientType isJSExportedType getTypeAllocSize fuel globals ∅ ∅ s
    = Ok (globalsMapping, globalTypeMapping) s' /\
    forall id e, (id, PointerTy e) ∈ globals ->
      globalTypeMapping !! id = Some (PointerTy e) /\
      exists C, globalsMapping !! id = Some C /\
        getType C = flatType (PointerTy e) /\
        C = if isArrayTy (flatType e)
            then ConstantExpr GetElementPtr (flatType (PointerTy e))
                   [GlobalVariable id (PointerTy (flatType e));
                    ConstantIntC 32 0; ConstantIntC 32 0]
            else GlobalVariable id (PointerTy (flatType e)).
Proof.
  intros Hnd Hall Hm.
  pose proof (rewriteGlobals_flat isClientType isJSExportedType getTypeAllocSize fuel
                globals ∅ ∅ s Hnd Hall (fun id _ => lookup_empty id) Hm) as Hrun.
  destruct (returns_run _ _ _ Hrun) as ([gm gtm] & s' & Hrun' & _ & Hin & _).
  exists gm, gtm, s'. split; [exact Hrun'|]. intros id e Hid.
  destruct (Hin id e Hid) as [H1 H2]. cbn [fst snd] in *. split; [exact H2|].
  exists (flatGlobal id e). split; [exact H1|]. split; [apply flatGlobal_getType|reflexivity].
Qed.

(** [int a[3][4]] and [int *p]. *)
Definition matrixAndPointer : list (nat * type) :=
  [(0%nat, PointerTy (ArrayTy (ArrayTy i32 4) 3)); (1%nat, PointerTy (PointerTy i32))].

Lemma rewriteGlobals_struct_free_witness :
  exists globalsMapping globalTypeMapping s',
    rewriteGlobals noClient notExported (exampleSize (fun _ => 0)) 4 matrixAndPointer ∅ ∅
      (moduleState [])
    = Ok (globalsMapping, globalTypeMapping) s' /\
    forall id e, (id, PointerTy e) ∈ matrixAndPointer ->
      globalTypeMapping !! id = Some (PointerTy e) /\
      exists C, globalsMapping !! id = Some C /\
        getType C = flatType (PointerTy e) /\
        C = if isArrayTy (flatType e)
            then ConstantExpr GetElementPtr (flatType (PointerTy e))
                   [GlobalVariable id (PointerTy (flatType e));
                    ConstantIntC 32 0; ConstantIntC 32 0]
            else GlobalVariable id (PointerTy (flatType e)).
Proof.
  apply (rewriteGlobals_struct_free noClient notExported (exampleSize (fun _ => 0)) 4
           matrixAndPointer (moduleState [])).
  - refine (bool_decide_unpack (NoDup matrixAndPointer.*1) _). vm_compute. exact I.
  - repeat constructor; eexists; (split; [reflexivity|split; [reflexivity|simpl; lia]]).
  - intros k i Hk. exact (match lookup_empty_Some k i Hk with end).
Defined.

(** The matrix becomes [[12 x i32]] and is used through the address of
    its first element. *)
Example matrixAndPointer_rewritten :
  fst <$> resultOf (rewriteGlobals noClient notExported (exampleSize (fun _ => 0)) 4
                      matrixAndPointer ∅ ∅ (moduleState []))
  = Some (<[0%nat := ConstantExpr GetElementPtr (PointerTy i32)
                       [GlobalVariable 0 (PointerTy (ArrayTy i32 12));
                        ConstantIntC 32 0; ConstantIntC 32 0]]>
            (<[1%nat := GlobalVariable 1 (PointerTy (PointerTy i32))]> ∅)).
Proof. vm_compute. reflexivity. Qed.

(** * The constants of the byte layout structs *)

(** A constant that initialises its type all the way down, within [n]
    levels: an array, a data array or a struct holds at least one element
    of the right type for each element of its type, and a zero initialiser
    stands for the null values of the elements. *)
Fixpoint initialiser (n : nat) (sts : gmap nat StructInfo) (C : constant) : bool :=
  match getType C with
  | ArrayTy e num =>
      match n with
      | O => false
      | S n' =>
          match C with
          | ConstantArray _ ops | ConstantDataSequential _ ops =>
              (N.to_nat num <=? length ops)%nat &&
              forallb (fun c => bool_decide (getType c = e) && initialiser n' sts c)
                (take (N.to_nat num) ops)
          | ConstantAggregateZero _ => initialiser n' sts (getNullValue e)
          | _ => false
          end
      end
  | StructTy st =>
      match n with
      | O => false
      | S n' =>
          match sts !! st with
          | Some info =>
              match C with
              | ConstantStruct _ ops =>
                  (length (elements info) <=? length ops)%nat &&
                  forallb (fun ce => bool_decide (getType ce.1 = ce.2) &&
                                     initialiser n' sts ce.1)
                    (zip ops (elements info))
              | ConstantAggregateZero _ =>
                  forallb (fun e => initialiser n' sts (getNullValue e)) (elements info)
              | _ => false
              end
          | None => false
          end
      end
  | _ => true
  end.

(** The number of leaves of a type, within [n] levels. *)
Fixpoint numLeaves (n : nat) (sts : gmap nat StructInfo) (t : type) : nat :=
  match t with
  | ArrayTy e num =>
      match n with
      | O => 0
      | S n' => N.to_nat num * numLeaves n' sts e
      end
  | StructTy st =>
      match n with
      | O => 0
      | S n' =>
          match sts !! st with
          | Some info => sum_list (numLeaves n' sts <$> elements info)
          | None => 0
          end
      end
  | _ => 1
  end.

Lemma getNullValue_getType ty : getType (getNullValue ty) = ty.
Proof. now destruct ty. Qed.

(** The loop [pushAll] over elements that each give their leaves. *)
Lemma returns_pushAll (g : constant -> M (list constant)) (R : constant -> list constant -> Prop)
    (s : state) : forall cs acc,
  Forall (fun c => returns (g c) (fun r s' => s' = s /\ R c r) s) cs ->
  returns (foldM (fun acc c => r ← g c; mret (acc ++ r)) cs acc)
    (fun r s' => s' = s /\ exists rs, Forall2 R cs rs /\ r = acc ++ concat rs) s.
Proof.
  induction cs as [|c cs IH]; intros acc Hall.
  - apply returns_ret. split; [reflexivity|]. exists []. split; [constructor|].
    now rewrite app_nil_r.
  - apply list.Forall_cons in Hall as [Hc Hall]. cbn [foldM]. apply returns_bind.
    apply returns_bind. eapply returns_mono; [exact Hc|]. intros r s1 [-> HR].
    apply returns_ret. eapply returns_mono; [apply IH; exact Hall|].
    intros r' s2 (-> & rs & Hrs & ->). split; [reflexivity|]. exists (r :: rs).
    split; [now constructor|]. simpl. now rewrite app_assoc.
Qed.

Lemma concat_leaves (P : constant -> Prop) (f : type -> nat) cs : forall rs es,
  Forall2 (fun c r => Forall P r /\ length r = f (getType c)) cs rs ->
  Forall2 (fun c e => getType c = e) cs es ->
  Forall P (concat rs) /\ length (concat rs) = sum_list (f <$> es).
Proof.
  induction cs as [|c cs IH]; intros rs es Hrs Hes.
  - apply Forall2_nil_inv_l in Hrs as ->. apply Forall2_nil_inv_l in Hes as ->.
    split; [constructor|reflexivity].
  - apply Forall2_cons_inv_l in Hrs as (r & rs' & [Hr Hlen] & Hrs & ->).
    apply Forall2_cons_inv_l in Hes as (e & es' & He & Hes & ->).
    destruct (IH rs' es' Hrs Hes) as [H1 H2]. simpl. split.
    + apply Forall_app. auto.
    + rewrite length_app, Hlen, H2, He. reflexivity.
Qed.

Section BaseElements.

Variable baseType : type.
Hypothesis baseType_not_array : isArrayTy baseType = false.
Hypothesis baseType_not_struct : isStructTy baseType = false.

Local Abbreviation ofBaseType := (fun c : constant => getType c = baseType).

(** The elements of an aggregate, given what the calls on them do. *)
Lemma pushAll_leaves (n fuel : nat) (s : state) (cs : list constant) (es : list type) :
  (forall C, initialiser n (structs s) C = true ->
     (forall l, leafOf (structs s) (getType C) l -> l = baseType) ->
     returns (pushAllBaseConstantElements fuel C baseType)
       (fun r s' => s' = s /\ Forall ofBaseType r /\
                    length r = numLeaves n (structs s) (getType C)) s) ->
  Forall2 (fun c e => getType c = e) cs es ->
  Forall (fun c => initialiser n (structs s) c = true) cs ->
  (forall e l, e ∈ es -> leafOf (structs s) e l -> l = baseType) ->
  returns (foldM (fun acc c => r ← pushAllBaseConstantElements fuel c baseType;
                               mret (acc ++ r)) cs [])
    (fun r s' => s' = s /\ Forall ofBaseType r /\
                 length r = sum_list (numLeaves n (structs s) <$> es)) s.
Proof.
  intros IH Hes Hinit Hleaves.
  eapply returns_mono.
  - apply (returns_pushAll _ (fun c r => Forall ofBaseType r /\
                                length r = numLeaves n (structs s) (getType c))).
    apply list.Forall_forall. intros c Hc. apply IH.
    + now apply (proj1 (list.Forall_forall _ _) Hinit).
    + intros l Hl. apply list_elem_of_lookup in Hc as [i Hi].
      destruct (Forall2_lookup_l _ _ _ _ _ Hes Hi) as (e & He & Hty). subst e.
      eapply Hleaves; [|exact Hl]. eapply list_elem_of_lookup_2. exact He.
  - intros r s' (-> & rs & Hrs & ->). split; [reflexivity|]. simpl.
    exact (concat_leaves _ _ cs rs es Hrs Hes).
Qed.

Lemma initialiser_elements n sts e cs :
  forallb (fun c => bool_decide (getType c = e) && initialiser n sts c) cs = true ->
  Forall2 (fun c e => getType c = e) cs (replicate (length cs) e) /\
  Forall (fun c => initialiser n sts c = true) cs.
Proof.
  induction cs as [|c cs IH]; simpl; [split; constructor|]. intros H.
  apply andb_true_iff in H as [H1 H]. apply andb_true_iff in H1 as [Hty Hc].
  apply bool_decide_eq_true in Hty. destruct (IH H) as [I1 I2].
  split; constructor; auto.
Qed.

Lemma initialiser_fields n sts : forall ops es,
  (length es <= length ops)%nat ->
  forallb (fun ce => bool_decide (getType ce.1 = ce.2) && initialiser n sts ce.1)
    (zip ops es) = true ->
  Forall2 (fun c e => getType c = e) (take (length es) ops) es /\
  Forall (fun c => initialiser n sts c = true) (take (length es) ops).
Proof.
  induction ops as [|c ops IH]; intros [|e es] Hlen H; simpl in *;
    try (split; constructor); try lia.
  - apply andb_true_iff in H as [H1 H]. apply andb_true_iff in H1 as [Hty Hc].
    now apply bool_decide_eq_true in Hty.
  - apply andb_true_iff in H as [_ H]. apply (IH es); [lia|exact H].
  - apply andb_true_iff in H as [H1 H]. now apply andb_true_iff in H1 as [_ Hc].
  - apply andb_true_iff in H as [_ H]. apply (IH es); [lia|exact H].
Qed.

Lemma initialiser_zeros n sts es :
  forallb (fun e => initialiser n sts (getNullValue e)) es = true ->
  Forall2 (fun c e => getType c = e) (map getNullValue es) es /\
  Forall (fun c => initialiser n sts c = true) (map getNullValue es).
Proof.
  induction es as [|e es IH]; simpl; [split; constructor|]. intros H.
  apply andb_true_iff in H as [H1 H]. destruct (IH H) as [I1 I2].
  split; constructor; auto. apply getNullValue_getType.
Qed.

End BaseElements.

Lemma pushAllBaseConstantElements_leaves (baseType : type) (s : state) :
  isArrayTy baseType = false -> isStructTy baseType = false ->
  forall n fuel C,
    (n < fuel)%nat -> initialiser n (structs s) C = true ->
    (forall l, leafOf (structs s) (getType C) l -> l = baseType) ->
    returns (pushAllBaseConstantElements fuel C baseType)
      (fun r s' => s' = s /\ Forall (fun c => getType c = baseType) r /\
                   length r = numLeaves n (structs s) (getType C)) s.
Proof.
  intros Harr Hstr. induction n as [|n IH]; intros [|fuel] C Hfuel Hinit Hleaves; try lia.
  - cbn [pushAllBaseConstantElements]. destruct (decide (getType C = baseType)) as [E|E].
    + apply returns_ret. split; [reflexivity|]. split; [now repeat constructor|].
      rewrite E. destruct baseType; try reflexivity; discriminate.
    + exfalso. simpl in Hinit.
      destruct (getType C) eqn:Hty; try discriminate; apply E, Hleaves; now constructor.
  - cbn [pushAllBaseConstantElements]. destruct (decide (getType C = baseType)) as [E|E].
    + apply returns_ret. split; [reflexivity|]. split; [now repeat constructor|].
      rewrite E. destruct baseType; try reflexivity; discriminate.
    + assert (Hrec : forall C', initialiser n (structs s) C' = true ->
                (forall l, leafOf (structs s) (getType C') l -> l = baseType) ->
                returns (pushAllBaseConstantElements fuel C' baseType)
                  (fun r s' => s' = s /\ Forall (fun c => getType c = baseType) r /\
                               length r = numLeaves n (structs s) (getType C')) s).
      { intros C' H1 H2. apply IH; [lia|exact H1|exact H2]. }
      cbn [initialiser] in Hinit.
      destruct (getType C) as [| | | | |e num| |st] eqn:Hty;
        try (exfalso; apply E, Hleaves; now constructor).
      * assert (Helt : forall e' l, e' ∈ replicate (N.to_nat num) e ->
                         leafOf (structs s) e' l -> l = baseType).
        { intros e' l He' Hl. apply elem_of_replicate in He' as [-> _].
          apply Hleaves. now constructor. }
        cbn [numLeaves].
        assert (Hsum : sum_list (numLeaves n (structs s) <$> replicate (N.to_nat num) e)
                       = (N.to_nat num * numLeaves n (structs s) e)%nat).
        { now rewrite fmap_replicate, sum_list_replicate. }
        rewrite <- Hsum.
        destruct C; try discriminate.
        -- apply (pushAll_leaves baseType n fuel s _ _ Hrec); [| |exact Helt].
           ++ generalize (N.to_nat num). intros k.
              induction k as [|k IHk]; simpl; constructor;
                [apply getNullValue_getType|exact IHk].
           ++ apply list.Forall_forall. intros c Hc.
              apply elem_of_replicate in Hc as [-> _]. exact Hinit.
        -- apply andb_true_iff in Hinit as [Hlen Hinit]. apply Nat.leb_le in Hlen.
           destruct (initialiser_elements _ _ _ _ Hinit) as [I1 I2].
           rewrite length_take, Nat.min_l in I1 by exact Hlen.
           now apply (pushAll_leaves baseType n fuel s _ _ Hrec I1 I2).
        -- apply andb_true_iff in Hinit as [Hlen Hinit]. apply Nat.leb_le in Hlen.
           destruct (initialiser_elements _ _ _ _ Hinit) as [I1 I2].
           rewrite length_take, Nat.min_l in I1 by exact Hlen.
           now apply (pushAll_leaves baseType n fuel s _ _ Hrec I1 I2).
      * destruct (structs s !! st) as [info|] eqn:Hst; [|discriminate].
        apply returns_bind. apply (returns_getStruct st info); [exact Hst|].
        assert (Helt : forall e' l, e' ∈ elements info ->
                         leafOf (structs s) e' l -> l = baseType).
        { intros e' l He' Hl. apply Hleaves. now apply (leaf_struct _ st info e'). }
        cbn [numLeaves]. rewrite Hst.
        destruct C; try discriminate.
        -- destruct (initialiser_zeros _ _ _ Hinit) as [I1 I2].
           now apply (pushAll_leaves baseType n fuel s _ _ Hrec I1 I2).
        -- apply andb_true_iff in Hinit as [Hlen Hinit]. apply Nat.leb_le in Hlen.
           destruct (initialiser_fields _ _ _ _ Hlen Hinit) as [I1 I2].
           now apply (pushAll_leaves baseType n fuel s _ _ Hrec I1 I2).
Qed.

(** X25. The initialiser of a byte layout struct becomes the array of its
    leaves.  For a struct that is mapped with kind [BYTE_LAYOUT_TO_ARRAY],
    whose entry in [baseTypesForByteLayout] is a type [baseType] that is
    no aggregate, and whose leaves all have that type, [rewriteConstant] on
    a struct constant that initialises the type all the way down returns
    without a failed assertion and leaves the state as it is.  Its result
    holds constants of type [baseType] only, as many as the type has
    leaves, so that every constant of the struct gets the same array type;
    a single leaf is returned as it is. *)
Theorem byte_layout_constant
    (isClientType : type -> bool) (isJSExportedType : nat -> bool)
    (getTypeAllocSize : type -> N) (getElementOffset : nat -> nat -> N)
    (fuel n : nat) (globalsMapping : gmap nat constant) (globalTypeMapping : gmap nat type)
    (st : nat) (newTy baseType : type) (ops : list constant) (s : state) :
  isArrayTy baseType = false -> isStructTy baseType = false ->
  typesMapping s !! StructTy st = Some (mkInfo newTy BYTE_LAYOUT_TO_ARRAY) ->
  st ∉ newStructTypes s -> StructTy st <> newTy ->
  baseTypesForByteLayout s !! st = Some (Some baseType) ->
  (forall l, leafOf (structs s) (StructTy st) l -> l = baseType) ->
  initialiser n (structs s) (ConstantStruct (StructTy st) ops) = true ->
  (n < fuel)%nat ->
  exists newElements,
    Forall (fun c => getType c = baseType) newElements /\
    length newElements = numLeaves n (structs s) (StructTy st) /\
    rewriteConstant isClientType isJSExportedType getTypeAllocSize getElementOffset
      (S fuel) globalsMapping globalTypeMapping (ConstantStruct (StructTy st) ops) s
    = Ok (match newElements with
          | [single] => single
          | _ => ConstantArray (ArrayTy baseType (N.of_nat (length newElements))) newElements
          end, 0) s.
Proof.
  intros Harr Hstr Hmemo Hnot Hne Hbase Hleaves Hinit Hfuel.
  destruct fuel as [|fuel']; [lia|].
  assert (Hrun : returns
            (rewriteConstant isClientType isJSExportedType getTypeAllocSize getElementOffset
               (S (S fuel')) globalsMapping globalTypeMapping
               (ConstantStruct (StructTy st) ops))
            (fun r s' => s' = s /\ exists newElements,
               Forall (fun c => getType c = baseType) newElements /\
               length newElements = numLeaves n (structs s) (StructTy st) /\
               r = (match newElements with
                    | [single] => single
                    | _ => ConstantArray (ArrayTy baseType (N.of_nat (length newElements)))
                             newElements
                    end, 0)) s).
  { cbn [rewriteConstant]. unfold rewriteConstant_body. apply returns_bind.
    eapply run_returns.
    { cbn [getType]. apply rewriteType_hit; [exact Hmemo|discriminate|].
      intros id [= <-]. exact Hnot. }
    cbn [getType mappedType]. rewrite decide_False by exact Hne.
    unfold rewriteRetypedConstant, rewriteConstantStruct. cbn [elementMappingKind mappedType].
    rewrite decide_True by reflexivity. apply returns_bind. apply returns_get.
    rewrite Hbase. apply returns_bind. eapply returns_mono.
    - apply (pushAllBaseConstantElements_leaves baseType s Harr Hstr n (S fuel')
               (ConstantStruct (StructTy st) ops) Hfuel Hinit Hleaves).
    - intros r s1 (-> & Hall & Hlen). cbn [getType] in Hlen.
      destruct r as [|single [|second r]]; apply returns_ret;
        (split; [reflexivity|]); eexists; (split; [exact Hall|]);
        (split; [exact Hlen|reflexivity]). }
  destruct (returns_run _ _ _ Hrun) as (r & s' & Hrun' & -> & newElements & H1 & H2 & ->).
  exists newElements. auto.
Qed.

(** The union of three doubles after its type is rewritten, and a
    constant of it. *)
Definition threeDoublesFlattened : state :=
  Eval vm_compute in
    stateOf (rewriteType noClient notExported size24 6 (StructTy 0) threeDoublesViewed)
      threeDoublesViewed.
Definition threeDoublesConstant : constant :=
  ConstantStruct (StructTy 0) [ConstantFP DoubleTy 1; ConstantFP DoubleTy 2; ConstantFP DoubleTy 3].

Lemma threeDoubles_leaves l :
  leafOf (structs threeDoublesFlattened) (StructTy 0) l -> l = DoubleTy.
Proof.
  intros H. inversion H as [|id info e l' Hinfo He Hl|ty Ha Hs]; subst; [|discriminate].
  vm_compute in Hinfo. injection Hinfo as <-. simpl in He.
  assert (e = DoubleTy) as ->.
  { repeat (apply elem_of_cons in He as [He|He]; [exact He|]). now apply elem_of_nil in He. }
  inversion Hl; subst. reflexivity.
Qed.

Lemma byte_layout_constant_witness :
  exists newElements,
    Forall (fun c => getType c = DoubleTy) newElements /\
    length newElements = numLeaves 1 (structs threeDoublesFlattened) (StructTy 0) /\
    rewriteConstant noClient notExported size24 noOffsets 3 ∅ ∅ threeDoublesConstant
      threeDoublesFlattened
    = Ok (match newElements with
          | [single] => single
          | _ => ConstantArray (ArrayTy DoubleTy (N.of_nat (length newElements))) newElements
          end, 0) threeDoublesFlattened.
Proof.
  apply (byte_layout_constant noClient notExported size24 noOffsets 2 1 ∅ ∅ 0
           (ArrayTy DoubleTy 3) DoubleTy
           [ConstantFP DoubleTy 1; ConstantFP DoubleTy 2; ConstantFP DoubleTy 3]
           threeDoublesFlattened).
  - reflexivity.
  - reflexivity.
  - vm_compute. reflexivity.
  - refine (bool_decide_unpack (0%nat ∉ newStructTypes threeDoublesFlattened) _).
    vm_compute. exact I.
  - discriminate.
  - vm_compute. reflexivity.
  - exact threeDoubles_leaves.
  - vm_compute. reflexivity.
  - lia.
Defined.

Example threeDoublesConstant_rewritten :
  resultOf (rewriteConstant noClient notExported size24 noOffsets 3 ∅ ∅ threeDoublesConstant
              threeDoublesFlattened)
  = Some (ConstantArray (ArrayTy DoubleTy 3)
            [ConstantFP DoubleTy 1; ConstantFP DoubleTy 2; ConstantFP DoubleTy 3], 0).
Proof. vm_compute. reflexivity. Qed.

(** * The collapse of a struct left with a single field *)

Section CollapseSteps.

Variable isClientType : type -> bool.
Variable isJSExportedType : nat -> bool.
Variable fuel : nat.
Variable rec : type -> M TypeMappingInfo.

Local Abbreviation collapseSingleField' := (collapseSingleField isClientType isJSExportedType rec).
Local Abbreviation setM := (fun t i => set_typesMapping <[t := i]>).

(** The kind of a collapsed struct. *)
Definition collapsedKind (newStructKind : MAPPING_KIND) : MAPPING_KIND :=
  if decide (newStructKind = MERGED_MEMBER_ARRAYS)
  then MERGED_MEMBER_ARRAYS_AND_COLLAPSED else COLLAPSED.

(** The test fails: the field is rewritten and the struct is kept. *)
Lemma collapse_not_tried st newSt info field kind s r s' :
  mayCollapse isClientType isJSExportedType st info field = false ->
  rec field s = Ok r s' ->
  collapseSingleField' st newSt info field kind s = Ok (inr [mappedType r]) s'.
Proof.
  intros Hmay Hrec. unfold collapseSingleField. rewrite Hmay.
  unfold mbind, M_bind. rewrite Hrec. reflexivity.
Qed.

(** The struct is the source of a down-cast that is not safe. *)
Lemma collapse_unsafe st newSt info field kind s sU r s' :
  mayCollapse isClientType isJSExportedType st info field = true ->
  isUnsafeDowncastSource rec st s = Ok true sU ->
  rec field sU = Ok r s' ->
  collapseSingleField' st newSt info field kind s = Ok (inr [mappedType r]) s'.
Proof.
  intros Hmay Hun Hrec. unfold collapseSingleField. rewrite Hmay.
  unfold mbind at 1. unfold M_bind at 1. rewrite Hun. simpl.
  unfold mbind, M_bind. rewrite Hrec. reflexivity.
Qed.

(** The collapse goes through: the entry of the struct is still the
    [COLLAPSING] marker when the field has been rewritten. *)
Lemma collapse_done st newSt info field kind s sU c s3 cur :
  mayCollapse isClientType isJSExportedType st info field = true ->
  isUnsafeDowncastSource rec st s = Ok false sU ->
  rec field (setM (StructTy st) (mkInfo field COLLAPSING) sU) = Ok c s3 ->
  typesMapping s3 !! StructTy st = Some cur -> elementMappingKind cur = COLLAPSING ->
  collapseSingleField' st newSt info field kind s
  = Ok (inl (mkInfo (mappedType c) (collapsedKind kind)))
       (setM (StructTy st) (mkInfo (mappedType c) (collapsedKind kind)) s3).
Proof.
  intros Hmay Hun Hrec Hcur Hk. unfold collapseSingleField. rewrite Hmay.
  unfold mbind at 1. unfold M_bind at 1. rewrite Hun. simpl.
  unfold setMapping, modify, mbind, M_bind. rewrite Hrec.
  unfold lookupMapping. rewrite Hcur.
  destruct (decide (elementMappingKind cur = COLLAPSING_BUT_USED)) as [H|_]; [congruence|].
  rewrite Hk. simpl. reflexivity.
Qed.

(** The marker was promoted: the wrapper is kept and the field rewritten
    once more. *)
Lemma collapse_abandoned st newSt info field kind s sU c s3 cur r s4 :
  mayCollapse isClientType isJSExportedType st info field = true ->
  isUnsafeDowncastSource rec st s = Ok false sU ->
  rec field (setM (StructTy st) (mkInfo field COLLAPSING) sU) = Ok c s3 ->
  typesMapping s3 !! StructTy st = Some cur ->
  elementMappingKind cur = COLLAPSING_BUT_USED ->
  rec field (setM (StructTy st) (mkInfo (StructTy newSt) IDENTICAL) s3) = Ok r s4 ->
  collapseSingleField' st newSt info field kind s = Ok (inr [mappedType r]) s4.
Proof.
  intros Hmay Hun Hrec Hcur Hk Hrec2. unfold collapseSingleField. rewrite Hmay.
  unfold mbind at 1. unfold M_bind at 1. rewrite Hun. simpl.
  unfold setMapping, modify, mbind, M_bind. rewrite Hrec.
  unfold lookupMapping. rewrite Hcur.
  destruct (decide (elementMappingKind cur = COLLAPSING_BUT_USED)) as [_|H]; [|congruence].
  rewrite Hrec2. reflexivity.
Qed.

Lemma no_downcast_safe st s :
  downcastSourceToDestinationsMapping s !! st = None ->
  isUnsafeDowncastSource rec st s = Ok false s.
Proof. intros H. unfold isUnsafeDowncastSource, mbind, M_bind, get. now rewrite H. Qed.

End CollapseSteps.

Section StructSteps.

Variable isClientType : type -> bool.
Variable isJSExportedType : nat -> bool.
Variable getTypeAllocSize : type -> N.
Variable fuel : nat.
Variable rec : type -> M TypeMappingInfo.

Local Abbreviation setM := (fun t i => set_typesMapping <[t := i]>).

(** The state in which the fields of the struct [st] are rewritten: the
    new struct is created and [st] is mapped to it. *)
Definition entered (st : nat) (s : state) : state :=
  setM (StructTy st) (mkInfo (StructTy (nextStruct s)) IDENTICAL) (snd (createStruct s)).

(** A struct that is neither a client type, nor opaque, nor of the byte
    layout, nor asm.js. *)
Definition plain (st : nat) (info : StructInfo) : Prop :=
  isClientType (StructTy st) = false /\ isOpaque info = false /\
  hasByteLayout info = false /\ hasAsmJS info = false.

Lemma rewriteType_body_struct st s :
  st ∉ newStructTypes s -> typesMapping s !! StructTy st = None ->
  rewriteType_body isClientType isJSExportedType getTypeAllocSize fuel rec (StructTy st) s
  = rewriteStruct isClientType isJSExportedType getTypeAllocSize fuel rec st s.
Proof.
  intros Hnew Hmiss. unfold rewriteType_body, mbind, M_bind, get, assert.
  rewrite (bool_decide_eq_false_2 _ Hnew). simpl. now rewrite Hmiss.
Qed.

(** A struct with one element whose collapse goes through. *)
Lemma rewriteStruct_single_collapsed st info field s r s' :
  structs s !! st = Some info -> plain st info -> elements info = [field] ->
  collapseSingleField isClientType isJSExportedType rec st (nextStruct s) info field IDENTICAL
    (entered st s) = Ok (inl r) s' ->
  rewriteStruct isClientType isJSExportedType getTypeAllocSize fuel rec st s = Ok r s'.
Proof.
  intros Hinfo (Hc & Ho & Hb & Ha) Hel Hrun.
  unfold rewriteStruct, getStruct, mbind at 1. unfold M_bind at 1. rewrite Hinfo.
  rewrite Hc, Ho, Hb, Ha, Hel. simpl.
  unfold mbind, M_bind, newStruct, setMapping, modify. simpl.
  unfold entered in Hrun. simpl in Hrun. rewrite Hrun. reflexivity.
Qed.

End StructSteps.

Section Wrappers.

Variable isClientType : type -> bool.
Variable isJSExportedType : nat -> bool.
Variable getTypeAllocSize : type -> N.

Local Abbreviation rewriteType' := (rewriteType isClientType isJSExportedType getTypeAllocSize).
Local Abbreviation setM := (fun t i => set_typesMapping <[t := i]>).

Lemma setM_id t i s : typesMapping s !! t = Some i -> setM t i s = s.
Proof.
  intros H. destruct s. unfold set_typesMapping. simpl in *. f_equal. now apply insert_id.
Qed.

(** A type without components is mapped to itself. *)
Definition isScalarTy (t : type) : bool :=
  match t with VoidTy | FloatTy | DoubleTy | IntegerTy _ => true | _ => false end.

Lemma rewriteType_scalar fuel t s :
  isScalarTy t = true ->
  (forall i, typesMapping s !! t = Some i -> i = mkInfo t IDENTICAL) ->
  rewriteType' (S fuel) t s = Ok (mkInfo t IDENTICAL) (setM t (mkInfo t IDENTICAL) s).
Proof.
  intros Ht Hm. destruct (typesMapping s !! t) as [i|] eqn:Hi.
  - rewrite (Hm i eq_refl) in Hi. rewrite (setM_id _ _ _ Hi).
    apply rewriteType_hit; [exact Hi|discriminate|]. intros id ->. discriminate.
  - simpl. unfold rewriteType_body, mbind, M_bind, get, assert.
    destruct t; try discriminate; simpl; rewrite Hi; reflexivity.
Qed.

(** The collapse of a struct with one element, given the run on the
    element. *)
Lemma rewriteType_wrapper fuel st info field s c s3 cur :
  structs s !! st = Some info -> plain isClientType st info -> elements info = [field] ->
  mayCollapse isClientType isJSExportedType st info field = true ->
  downcastSourceToDestinationsMapping s !! st = None ->
  st ∉ newStructTypes s -> typesMapping s !! StructTy st = None ->
  rewriteType' fuel field (setM (StructTy st) (mkInfo field COLLAPSING) (entered st s))
  = Ok c s3 ->
  typesMapping s3 !! StructTy st = Some cur -> elementMappingKind cur = COLLAPSING ->
  rewriteType' (S fuel) (StructTy st) s
  = Ok (mkInfo (mappedType c) COLLAPSED)
       (setM (StructTy st) (mkInfo (mappedType c) COLLAPSED) s3).
Proof.
  intros Hinfo Hplain Hel Hmay Hdown Hnew Hmiss Hrec Hcur Hk.
  cbn [rewriteType]. rewrite rewriteType_body_struct by assumption.
  eapply rewriteStruct_single_collapsed; [exact Hinfo|exact Hplain|exact Hel|].
  eapply (collapse_done isClientType isJSExportedType (rewriteType' fuel) st (nextStruct s)
            info field IDENTICAL (entered st s) (entered st s) c s3 cur Hmay).
  - apply no_downcast_safe. exact Hdown.
  - exact Hrec.
  - exact Hcur.
  - exact Hk.
Qed.

End Wrappers.

(** ** A struct wrapping a struct wrapping an [i32], in any module *)

Section NestedWrapper.

Variable isClientType : type -> bool.
Variable isJSExportedType : nat -> bool.
Variable getTypeAllocSize : type -> N.
Variable getElementOffset : nat -> nat -> N.

Local Abbreviation rewriteType' := (rewriteType isClientType isJSExportedType getTypeAllocSize).
Local Abbreviation setM := (fun t i => set_typesMapping <[t := i]>).

(** A pointer whose pointee changes without becoming an array. *)
Lemma rewriteType_pointer fuel elt s r s1 :
  typesMapping s !! PointerTy elt = None ->
  rewriteType' fuel elt s = Ok r s1 ->
  isArrayTy (mappedType r) = false -> mappedType r <> elt ->
  rewriteType' (S fuel) (PointerTy elt) s
  = Ok (mkInfo (PointerTy (mappedType r)) IDENTICAL)
       (setM (PointerTy elt) (mkInfo (PointerTy (mappedType r)) IDENTICAL) s1).
Proof.
  intros Hmiss Hrun Harr Hne. cbn [rewriteType].
  unfold rewriteType_body, mbind, M_bind, get, assert. simpl. rewrite Hmiss, Hrun.
  destruct (mappedType r) eqn:Hm; try discriminate;
    (destruct (decide _) as [H|_]; [congruence|reflexivity]).
Qed.

(** The two levels of wrappers, outermost first, and the integer inside. *)
Record nestedWrappers (st0 st1 : nat) (s : state) : Prop := mkNested {
  nw_outer : exists info, structs s !! st0 = Some info /\ plain isClientType st0 info /\
                          elements info = [StructTy st1];
  nw_inner : exists info, structs s !! st1 = Some info /\ plain isClientType st1 info /\
                          elements info = [IntegerTy 32];
  nw_exported : isJSExportedType st0 = false /\ isJSExportedType st1 = false;
  nw_casts : downcastSourceToDestinationsMapping s !! st0 = None /\
             downcastSourceToDestinationsMapping s !! st1 = None;
  nw_old : (st0 < nextStruct s)%nat /\ (st1 < nextStruct s)%nat /\
           (st0 ∉ newStructTypes s) /\ (st1 ∉ newStructTypes s)
}.

(** What the memo table holds of the wrappers once they are rewritten. *)
Definition wrappersCollapsed (st0 st1 : nat) (s : state) : Prop :=
  typesMapping s !! StructTy st0 = Some (mkInfo (IntegerTy 32) COLLAPSED) /\
  typesMapping s !! StructTy st1 = Some (mkInfo (IntegerTy 32) COLLAPSED) /\
  typesMapping s !! IntegerTy 32 = Some (mkInfo (IntegerTy 32) IDENTICAL).

Lemma mayCollapse_plain st info field :
  isJSExportedType st = false -> hasByteLayout info = false ->
  isPointerTy field = false -> isIntegerTyN 8 field = false ->
  mayCollapse isClientType isJSExportedType st info field = true.
Proof.
  intros He Hb Hp Hi. unfold mayCollapse. rewrite He, Hb, Hp, Hi. simpl.
  now destruct field.
Qed.

Lemma nested_rewriteType fuel st0 st1 s :
  nestedWrappers st0 st1 s ->
  typesMapping s !! StructTy st0 = None -> typesMapping s !! StructTy st1 = None ->
  (forall i, typesMapping s !! IntegerTy 32 = Some i -> i = mkInfo (IntegerTy 32) IDENTICAL) ->
  exists s1,
    rewriteType' (S (S (S fuel))) (StructTy st0) s = Ok (mkInfo (IntegerTy 32) COLLAPSED) s1 /\
    nestedWrappers st0 st1 s1 /\ wrappersCollapsed st0 st1 s1 /\
    (forall t, t <> StructTy st0 -> t <> StructTy st1 -> t <> IntegerTy 32 ->
       typesMapping s1 !! t = typesMapping s !! t).
Proof.
  intros [(info0 & Hi0 & Hp0 & He0) (info1 & Hi1 & Hp1 & He1) [Hx0 Hx1] [Hd0 Hd1]
            (Hlt0 & Hlt1 & Hn0 & Hn1)] Hm0 Hm1 Hm32.
  assert (Hne : st0 <> st1).
  { intros ->. rewrite Hi0 in Hi1. injection Hi1 as ->. rewrite He0 in He1. discriminate. }
  set (sa := setM (StructTy st0) (mkInfo (StructTy st1) COLLAPSING) (entered st0 s)).
  set (sb := setM (StructTy st1) (mkInfo (IntegerTy 32) COLLAPSING) (entered st1 sa)).
  set (sc := setM (IntegerTy 32) (mkInfo (IntegerTy 32) IDENTICAL) sb).
  set (sd := setM (StructTy st1) (mkInfo (IntegerTy 32) COLLAPSED) sc).
  assert (Hint : rewriteType' (S fuel) (IntegerTy 32) sb
                 = Ok (mkInfo (IntegerTy 32) IDENTICAL) sc).
  { apply rewriteType_scalar; [reflexivity|]. intros i. unfold sb, sa, entered. simpl.
    rewrite !lookup_insert_ne by discriminate. apply Hm32. }
  assert (Hin : rewriteType' (S (S fuel)) (StructTy st1) sa
                = Ok (mkInfo (IntegerTy 32) COLLAPSED) sd).
  { eapply (rewriteType_wrapper isClientType isJSExportedType getTypeAllocSize (S fuel) st1
              info1 (IntegerTy 32) sa (mkInfo (IntegerTy 32) IDENTICAL) sc
              (mkInfo (IntegerTy 32) COLLAPSING)).
    - unfold sa, entered. simpl. rewrite lookup_insert_ne by lia. exact Hi1.
    - exact Hp1.
    - exact He1.
    - destruct Hp1 as (_ & _ & Hb & _). now apply mayCollapse_plain.
    - exact Hd1.
    - unfold sa, entered. simpl. apply not_elem_of_union. split; [|exact Hn1].
      apply not_elem_of_singleton. lia.
    - unfold sa, entered. simpl. rewrite !lookup_insert_ne by congruence. exact Hm1.
    - exact Hint.
    - unfold sc, sb. simpl. rewrite lookup_insert_ne by discriminate.
      now rewrite lookup_insert_eq.
    - reflexivity. }
  exists (setM (StructTy st0) (mkInfo (IntegerTy 32) COLLAPSED) sd). split; [|split; [|split]].
  - eapply (rewriteType_wrapper isClientType isJSExportedType getTypeAllocSize (S (S fuel)) st0
              info0 (StructTy st1) s (mkInfo (IntegerTy 32) COLLAPSED) sd
              (mkInfo (StructTy st1) COLLAPSING)).
    + exact Hi0.
    + exact Hp0.
    + exact He0.
    + destruct Hp0 as (_ & _ & Hb & _). now apply mayCollapse_plain.
    + exact Hd0.
    + exact Hn0.
    + exact Hm0.
    + exact Hin.
    + unfold sd, sc, sb, sa. simpl. rewrite !lookup_insert_ne by congruence.
      now rewrite lookup_insert_eq.
    + reflexivity.
  - unfold sd, sc, sb, sa, entered. simpl. constructor; simpl.
    + exists info0. rewrite !lookup_insert_ne by lia. auto.
    + exists info1. rewrite !lookup_insert_ne by lia. auto.
    + auto.
    + auto.
    + repeat split; try lia;
        repeat (apply not_elem_of_union; split; [apply not_elem_of_singleton; lia|]);
        assumption.
  - unfold wrappersCollapsed, sd, sc, sb, sa, entered. simpl. repeat split.
    + now rewrite lookup_insert_eq.
    + rewrite lookup_insert_ne by congruence. now rewrite lookup_insert_eq.
    + rewrite !lookup_insert_ne by congruence. now rewrite lookup_insert_eq.
  - intros t H0 H1 H32. unfold sd, sc, sb, sa, entered. simpl.
    now rewrite !lookup_insert_ne by congruence.
Qed.


(** The indexes after the one of the pointer: both levels are collapsed
    and emit nothing. *)
Lemma nested_gep_fields fuel insertionPoint st0 st1 s (V0 : value) :
  nestedWrappers st0 st1 s -> wrappersCollapsed st0 st1 s ->
  gepIndexes isClientType isJSExportedType getTypeAllocSize getElementOffset (S fuel)
    insertionPoint (IntegerTy 32) [ConstantInt 32 0; ConstantInt 32 0] 1
    (mkGEP [V0] false 0 (StructTy st0)) s
  = Ok ([V0], 0) s.
Proof.
  intros [(info0 & Hi0 & Hp0 & He0) (info1 & Hi1 & Hp1 & He1) _ _ (_ & _ & Hn0 & Hn1)]
         (Hc0 & Hc1 & Hc32).
  assert (Hhit : forall t j, typesMapping s !! t = Some j ->
            elementMappingKind j <> COLLAPSING ->
            (forall id, t = StructTy id -> id ∉ newStructTypes s) ->
            forall (Q : TypeMappingInfo -> state -> Prop), Q j s ->
            returns (rewriteType' (S fuel) t) Q s).
  { intros t j Hj Hk Hn Q HQ. eapply run_returns; [|exact HQ].
    exact (rewriteType_hit isClientType isJSExportedType getTypeAllocSize fuel t s j Hj Hk Hn). }
  assert (Hrun : returns
            (gepIndexes isClientType isJSExportedType getTypeAllocSize getElementOffset
               (S fuel) insertionPoint (IntegerTy 32) [ConstantInt 32 0; ConstantInt 32 0] 1
               (mkGEP [V0] false 0 (StructTy st0)))
            (fun r s' => r = ([V0], 0) /\ s' = s) s).
  { cbn [gepIndexes curType]. apply returns_bind.
    apply (Hhit _ _ Hc0); [discriminate| |].
    { intros id [= <-]. exact Hn0. }
    cbn -[rewriteType wrap32 wrap8]. apply returns_bind. unfold advanceType.
    cbn -[rewriteType wrap32 wrap8].
    apply returns_bind. apply (returns_getStruct st0 info0); [exact Hi0|].
    apply returns_bind. apply returns_ret.
    apply returns_bind. eapply returns_liftOption; [rewrite He0; reflexivity|].
    apply returns_ret.
    cbn -[rewriteType wrap32 wrap8]. apply returns_bind.
    apply (Hhit _ _ Hc1); [discriminate| |].
    { intros id [= <-]. exact Hn1. }
    cbn -[rewriteType wrap32 wrap8]. apply returns_bind. unfold advanceType.
    cbn -[rewriteType wrap32 wrap8].
    apply returns_bind. apply (returns_getStruct st1 info1); [exact Hi1|].
    apply returns_bind. apply returns_ret.
    apply returns_bind. eapply returns_liftOption; [rewrite He1; reflexivity|].
    apply returns_ret.
    apply returns_bind. unfold checkTarget.
    cbn -[rewriteType wrap32 wrap8]. apply returns_bind.
    apply (Hhit _ _ Hc32); [discriminate|discriminate|].
    apply returns_assert; [now apply bool_decide_eq_true|].
    apply returns_bind. apply returns_ret. apply returns_ret.
    cbn. auto. }
  destruct (returns_run _ _ _ Hrun) as (r & s' & Hrun' & -> & ->). exact Hrun'.
Qed.

End NestedWrapper.

(** C9 (as amended). A struct wrapping a single-field struct wrapping one
    [i32], in any state of the pass in which the two structs are plain (no
    client type, not opaque, no byte layout, not asm.js), not exported, no
    source of a down-cast and not rewritten yet: [rewriteType] returns
    [i32] with kind [COLLAPSED] for the outer struct, and records that
    kind for both structs.  [rewriteGEPIndexes] on a pointer to the outer
    struct with the indexes [V0, 0, 0] (the index of the pointer, then one
    index per struct) returns the indexes [V0] with the residual offset 0:
    the two collapsed levels emit nothing and the index of the pointer is
    kept.  It does so from the state before the structs are rewritten and
    from the state it leaves. *)
Theorem nested_wrapper_collapses
    (isClientType : type -> bool) (isJSExportedType : nat -> bool)
    (getTypeAllocSize : type -> N) (getElementOffset : nat -> nat -> N)
    (fuel : nat) (insertionPoint : bool) (st0 st1 : nat) (s : state) (V0 : value) :
  nestedWrappers isClientType isJSExportedType st0 st1 s ->
  typesMapping s !! StructTy st0 = None -> typesMapping s !! StructTy st1 = None ->
  typesMapping s !! PointerTy (StructTy st0) = None ->
  (forall i, typesMapping s !! IntegerTy 32 = Some i -> i = mkInfo (IntegerTy 32) IDENTICAL) ->
  exists s1 s2,
    rewriteType isClientType isJSExportedType getTypeAllocSize (S (S (S fuel))) (StructTy st0) s
    = Ok (mkInfo (IntegerTy 32) COLLAPSED) s1 /\
    typesMapping s1 !! StructTy st0 = Some (mkInfo (IntegerTy 32) COLLAPSED) /\
    typesMapping s1 !! StructTy st1 = Some (mkInfo (IntegerTy 32) COLLAPSED) /\
    rewriteGEPIndexes isClientType isJSExportedType getTypeAllocSize getElementOffset
      (S (S (S (S fuel)))) insertionPoint (IntegerTy 32) (PointerTy (StructTy st0))
      [V0; ConstantInt 32 0; ConstantInt 32 0] s
    = Ok ([V0], 0) s2 /\
    typesMapping s2 !! PointerTy (StructTy st0)
    = Some (mkInfo (PointerTy (IntegerTy 32)) IDENTICAL) /\
    rewriteGEPIndexes isClientType isJSExportedType getTypeAllocSize getElementOffset
      (S fuel) insertionPoint (IntegerTy 32) (PointerTy (StructTy st0))
      [V0; ConstantInt 32 0; ConstantInt 32 0] s2
    = Ok ([V0], 0) s2.
Proof.
  intros Hnw Hm0 Hm1 Hmp Hm32.
  destruct (nested_rewriteType isClientType isJSExportedType getTypeAllocSize fuel st0 st1 s
              Hnw Hm0 Hm1 Hm32) as (s1 & Hrun & Hnw1 & Hc & Hother).
  set (P := mkInfo (PointerTy (IntegerTy 32)) IDENTICAL).
  set (s2 := set_typesMapping <[PointerTy (StructTy st0) := P]> s1).
  assert (Hptr : rewriteType isClientType isJSExportedType getTypeAllocSize
                   (S (S (S (S fuel)))) (PointerTy (StructTy st0)) s = Ok P s2).
  { apply (rewriteType_pointer isClientType isJSExportedType getTypeAllocSize
             (S (S (S fuel))) (StructTy st0) s _ s1 Hmp Hrun); [reflexivity|discriminate]. }
  assert (Hnw2 : nestedWrappers isClientType isJSExportedType st0 st1 s2).
  { destruct Hnw1. constructor; assumption. }
  assert (Hc2 : wrappersCollapsed st0 st1 s2).
  { destruct Hc as (H0 & H1 & H32). unfold wrappersCollapsed, s2. simpl.
    rewrite !lookup_insert_ne by discriminate. auto. }
  assert (Hp2 : typesMapping s2 !! PointerTy (StructTy st0) = Some P).
  { unfold s2. simpl. now rewrite lookup_insert_eq. }
  destruct Hc as (H0 & H1 & H32).
  exists s1, s2. repeat split; try assumption.
  - unfold rewriteGEPIndexes. cbn [gepIndexes curType]. unfold mbind at 1. unfold M_bind at 1.
    rewrite Hptr. cbn -[rewriteType wrap32 wrap8 gepIndexes].
    apply (nested_gep_fields isClientType isJSExportedType getTypeAllocSize getElementOffset
             (S (S (S fuel))) insertionPoint st0 st1 s2 V0 Hnw2 Hc2).
  - unfold rewriteGEPIndexes. cbn [gepIndexes curType]. unfold mbind at 1. unfold M_bind at 1.
    rewrite (rewriteType_hit isClientType isJSExportedType getTypeAllocSize fuel _ s2 P Hp2)
      by (try discriminate; intros id [=]).
    cbn -[rewriteType wrap32 wrap8 gepIndexes].
    apply (nested_gep_fields isClientType isJSExportedType getTypeAllocSize getElementOffset
             fuel insertionPoint st0 st1 s2 V0 Hnw2 Hc2).
Qed.

Lemma nestedWrapper_nested : nestedWrappers noClient notExported 0 1 nestedWrapper.
Proof.
  constructor.
  - exists (plainStruct [StructTy 1]). repeat split; reflexivity.
  - exists (plainStruct [i32]). repeat split; reflexivity.
  - split; reflexivity.
  - split; reflexivity.
  - unfold nestedWrapper, moduleState. simpl. repeat split; try lia; set_solver.
Qed.

Lemma nested_wrapper_collapses_witness :
  exists s1 s2,
    rewriteType noClient notExported (exampleSize (fun _ => 0)) 3 (StructTy 0) nestedWrapper
    = Ok (mkInfo (IntegerTy 32) COLLAPSED) s1 /\
    typesMapping s1 !! StructTy 0 = Some (mkInfo (IntegerTy 32) COLLAPSED) /\
    typesMapping s1 !! StructTy 1 = Some (mkInfo (IntegerTy 32) COLLAPSED) /\
    rewriteGEPIndexes noClient notExported (exampleSize (fun _ => 0)) noOffsets 4 true
      (IntegerTy 32) (PointerTy (StructTy 0))
      [Local 32 7; ConstantInt 32 0; ConstantInt 32 0] nestedWrapper
    = Ok ([Local 32 7], 0) s2 /\
    typesMapping s2 !! PointerTy (StructTy 0)
    = Some (mkInfo (PointerTy (IntegerTy 32)) IDENTICAL) /\
    rewriteGEPIndexes noClient notExported (exampleSize (fun _ => 0)) noOffsets 1 true
      (IntegerTy 32) (PointerTy (StructTy 0))
      [Local 32 7; ConstantInt 32 0; ConstantInt 32 0] s2
    = Ok ([Local 32 7], 0) s2.
Proof.
  apply (nested_wrapper_collapses noClient notExported (exampleSize (fun _ => 0)) noOffsets
           0 true 0 1 nestedWrapper (Local 32 7) nestedWrapper_nested).
  - reflexivity.
  - reflexivity.
  - reflexivity.
  - intros i H. discriminate H.
Defined.

(** The claim C9 fails as stated: the callers of [rewriteGEPIndexes] pass
    the type of the pointer and, first, the index of the pointer; that
    index is kept, so that the indexes [0, 0, 0] on a pointer to the outer
    struct become [0], not the empty list. *)
Lemma nested_wrapper_counterexample :
  resultOf (rewriteGEPIndexesEx false i32 (PointerTy (StructTy 0))
              [ConstantInt 32 0; ConstantInt 32 0; ConstantInt 32 0] nestedWrapper)
  = Some ([ConstantInt 32 0], 0) /\
  resultOf (rewriteGEPIndexesEx true i32 (PointerTy (StructTy 0))
              [Local 32 7; ConstantInt 32 0; ConstantInt 32 0] nestedWrapper)
  = Some ([Local 32 7], 0).
Proof. split; vm_compute; reflexivity. Qed.


(** * When a struct collapses, exactly *)

Section CollapsePath.

Variable isClientType : type -> bool.
Variable isJSExportedType : nat -> bool.
Variable getTypeAllocSize : type -> N.
Variable fuel : nat.

Local Abbreviation rec := (rewriteType isClientType isJSExportedType getTypeAllocSize fuel).
Local Abbreviation setM := (fun t i => set_typesMapping <[t := i]>).

(** The attempt to replace a byte layout struct by an array. *)
Definition flattenPhase (st : nat) (info : StructInfo) : M (option TypeMappingInfo) :=
  if hasByteLayout info then byteLayoutToArray getTypeAllocSize fuel rec st info
  else mret None.

(** The fields of the new struct before the block that collapses it, and
    the kind of the new struct. *)
Definition remainingFields (st : nat) (info : StructInfo) : M (list type * MAPPING_KIND) :=
  if hasAsmJS info then
    tys ← mapM' (fun elTy => r ← rec elTy; mret (mappedType r)) (elements info);
    mret (tys, IDENTICAL)
  else if Nat.ltb 1 (length (elements info)) then
    ms ← mergeFields fuel rec st (hasByteLayout info) (elements info) 0 initMerge;
    _ ← assert (bool_decide (length (membersMapping ms) = length (elements info))
                || hasByteLayout info);
    if hasMergedArrays ms then
      _ ← assert (negb (bool_decide (newTypes ms = [])));
      _ ← modify (set_membersMappingData (fun m =>
             match m !! st with
             | Some _ => m
             | None => <[st := membersMapping ms]> m
             end));
      mret (newTypes ms, MERGED_MEMBER_ARRAYS)
    else mret (newTypes ms, IDENTICAL)
  else mret (elements info, IDENTICAL).

(** What remains of the struct case after the fields. *)
Definition finishStruct (st newSt : nat) (info : StructInfo)
    (tys : list type) (newStructKind : MAPPING_KIND) : M TypeMappingInfo :=
  collapsed ←
    (match tys with
     | [field] =>
         if negb (hasAsmJS info)
         then collapseSingleField isClientType isJSExportedType rec st newSt info field
                newStructKind
         else mret (inr tys)
     | _ => mret (inr tys)
     end);
  match collapsed with
  | inl r => mret r
  | inr tys' =>
      newDirectBase ←
        (match directBase info with
         | Some base =>
             r ← rec (StructTy base);
             mret (match mappedType r with StructTy b => Some b | _ => None end)
         | None => mret None
         end);
      _ ← setBody newSt tys' (isPacked info) newDirectBase
            (hasByteLayout info) (hasAsmJS info);
      CacheAndReturn (StructTy st) (StructTy newSt) newStructKind
  end.

Lemma rewriteStruct_phases st :
  rewriteStruct isClientType isJSExportedType getTypeAllocSize fuel rec st
  = (info ← getStruct st;
     if isClientType (StructTy st) then CacheAndReturn (StructTy st) (StructTy st) IDENTICAL
     else if isOpaque info then CacheAndReturn (StructTy st) (StructTy st) IDENTICAL
     else
       flattened ← flattenPhase st info;
       match flattened with
       | Some r => mret r
       | None =>
           newSt ← newStruct;
           _ ← setMapping (StructTy st) (mkInfo (StructTy newSt) IDENTICAL);
           '(tys, newStructKind) ← remainingFields st info;
           finishStruct st newSt info tys newStructKind
       end).
Proof. reflexivity. Qed.

(** The run of [rewriteType] on the struct [st] that ends in a collapse:
    the struct is no client type, not opaque and not asm.js, it is not
    flattened, exactly one field remains, the test of the code passes, the
    struct is no unsafe source of a down-cast, and the marker is still
    [COLLAPSING] when the field has been rewritten. *)
Definition collapsePath (st : nat) (s : state) (r : TypeMappingInfo) (s' : state) : Prop :=
  exists info sB field kind sF sU c s3 cur,
    structs s !! st = Some info /\
    isClientType (StructTy st) = false /\ isOpaque info = false /\ hasAsmJS info = false /\
    flattenPhase st info s = Ok None sB /\
    remainingFields st info (entered st sB) = Ok ([field], kind) sF /\
    mayCollapse isClientType isJSExportedType st info field = true /\
    isUnsafeDowncastSource rec st sF = Ok false sU /\
    rec field (setM (StructTy st) (mkInfo field COLLAPSING) sU) = Ok c s3 /\
    typesMapping s3 !! StructTy st = Some cur /\ elementMappingKind cur = COLLAPSING /\
    r = mkInfo (mappedType c) (collapsedKind kind) /\
    s' = setM (StructTy st) r s3.

Lemma getStruct_inv st s info s' :
  getStruct st s = Ok info s' -> structs s !! st = Some info /\ s' = s.
Proof.
  unfold getStruct. destruct (structs s !! st); [|discriminate]. now intros [= <- <-].
Qed.

Lemma collapseSingleField_inv st newSt info field kind s r s' :
  collapseSingleField isClientType isJSExportedType rec st newSt info field kind s
  = Ok (inl r) s' ->
  exists sU c s3 cur,
    mayCollapse isClientType isJSExportedType st info field = true /\
    isUnsafeDowncastSource rec st s = Ok false sU /\
    rec field (setM (StructTy st) (mkInfo field COLLAPSING) sU) = Ok c s3 /\
    typesMapping s3 !! StructTy st = Some cur /\ elementMappingKind cur = COLLAPSING /\
    r = mkInfo (mappedType c) (collapsedKind kind) /\
    s' = setM (StructTy st) r s3.
Proof.
  unfold collapseSingleField. intros Hrun.
  assert (Hmember : forall s1,
            (rewrittenType ← rec field;
             (mret (inr [mappedType rewrittenType]) : M (TypeMappingInfo + list type))) s1
            <> Ok (inl r) s').
  { intros s1 H. apply bind_Ok_inv in H as (x & s2 & _ & H). discriminate. }
  destruct (mayCollapse isClientType isJSExportedType st info field); [|now apply Hmember in Hrun].
  apply bind_Ok_inv in Hrun as (unsafe & sU & Hun & Hrun).
  destruct unsafe; simpl in Hrun; [now apply Hmember in Hrun|].
  apply bind_Ok_inv in Hrun as ([] & s1 & Hset & Hrun). injection Hset as <-.
  apply bind_Ok_inv in Hrun as (c & s3 & Hc & Hrun).
  apply bind_Ok_inv in Hrun as (cur & s4 & Hcur & Hrun).
  unfold lookupMapping in Hcur. injection Hcur as <- <-.
  destruct (typesMapping s3 !! StructTy st) as [cur|] eqn:Hlook; [|discriminate].
  destruct (decide (elementMappingKind cur = COLLAPSING_BUT_USED)) as [Hk|Hk].
  - apply bind_Ok_inv in Hrun as ([] & s5 & _ & Hrun). now apply Hmember in Hrun.
  - apply bind_Ok_inv in Hrun as ([] & s5 & Hassert & Hrun).
    unfold assert in Hassert. destruct (bool_decide _) eqn:Hb; [|discriminate].
    apply bool_decide_eq_true in Hb. injection Hassert as <-.
    apply bind_Ok_inv in Hrun as (r' & s6 & Hcache & Hret).
    injection Hret as <- <-. unfold CacheAndReturn, setMapping, modify, mbind, M_bind in Hcache.
    injection Hcache as <- <-.
    exists sU, c, s3, cur. repeat split; auto.
Qed.


Lemma remainingFields_kind st info s tys kind s' :
  remainingFields st info s = Ok (tys, kind) s' ->
  kind = IDENTICAL \/ kind = MERGED_MEMBER_ARRAYS.
Proof.
  unfold remainingFields. intros Hrun. destruct (hasAsmJS info).
  - apply bind_Ok_inv in Hrun as (x & s1 & _ & Hrun). injection Hrun as _ <- _. now left.
  - destruct (Nat.ltb 1 (length (elements info))).
    + apply bind_Ok_inv in Hrun as (ms & s1 & _ & Hrun).
      apply bind_Ok_inv in Hrun as ([] & s2 & _ & Hrun).
      destruct (hasMergedArrays ms).
      * apply bind_Ok_inv in Hrun as ([] & s3 & _ & Hrun).
        apply bind_Ok_inv in Hrun as ([] & s4 & _ & Hrun).
        injection Hrun as _ <- _. now right.
      * injection Hrun as _ <- _. now left.
    + injection Hrun as _ <- _. now left.
Qed.

Lemma flattenPhase_kind st info s r s' :
  flattenPhase st info s = Ok (Some r) s' -> elementMappingKind r = BYTE_LAYOUT_TO_ARRAY.
Proof.
  unfold flattenPhase. destruct (hasByteLayout info) eqn:Hb; [|discriminate].
  intros Hrun.
  destruct (wp_run _ _ _ _ _
              (byteLayoutToArray_inv isClientType isJSExportedType getTypeAllocSize
                 fuel st info s Hb) Hrun r eq_refl) as (leaf & s2 & _ & -> & _).
  reflexivity.
Qed.

Lemma collapsedKind_collapsed kind : isCollapsedStruct (collapsedKind kind) = true.
Proof. unfold collapsedKind. now destruct (decide _). Qed.

(** The run that collapses the struct, and nothing else, ends in a
    collapsed kind. *)
Lemma collapsePath_run st s r s' :
  st ∉ newStructTypes s -> typesMapping s !! StructTy st = None ->
  rewriteType isClientType isJSExportedType getTypeAllocSize (S fuel) (StructTy st) s
  = Ok r s' /\ isCollapsedStruct (elementMappingKind r) = true <->
  collapsePath st s r s'.
Proof.
  intros Hnew Hmiss. cbn [rewriteType]. rewrite rewriteType_body_struct by assumption.
  rewrite rewriteStruct_phases. split.
  - intros [Hrun Hcol].
    apply bind_Ok_inv in Hrun as (info & s0 & Hget & Hrun).
    apply getStruct_inv in Hget as [Hinfo ->].
    destruct (isClientType (StructTy st)) eqn:Hclient.
    { injection Hrun as <- _. discriminate. }
    destruct (isOpaque info) eqn:Hopaque.
    { injection Hrun as <- _. discriminate. }
    apply bind_Ok_inv in Hrun as (flattened & sB & Hflat & Hrun).
    destruct flattened as [r0|].
    { injection Hrun as <- <-. rewrite (flattenPhase_kind _ _ _ _ _ Hflat) in Hcol.
      discriminate. }
    apply bind_Ok_inv in Hrun as (newSt & s1 & Hnext & Hrun).
    unfold newStruct in Hnext. injection Hnext as <- <-.
    apply bind_Ok_inv in Hrun as ([] & s2 & Hset & Hrun). injection Hset as <-.
    apply bind_Ok_inv in Hrun as ([tys kind] & sF & Hfields & Hrun).
    unfold finishStruct in Hrun.
    apply bind_Ok_inv in Hrun as (collapsed & s3 & Hcollapse & Hrun).
    destruct collapsed as [r1|tys'].
    + injection Hrun as <- <-.
      destruct tys as [|field [|]]; try discriminate.
      destruct (hasAsmJS info) eqn:Hasm; [discriminate|]. simpl in Hcollapse.
      apply collapseSingleField_inv in Hcollapse
        as (sU & c & s4 & cur & Hmay & Hun & Hc & Hcur & Hk & Hr & Hs).
      exists info, sB, field, kind, sF, sU, c, s4, cur. repeat split; assumption.
    + apply bind_Ok_inv in Hrun as (base & s4 & _ & Hrun).
      apply bind_Ok_inv in Hrun as ([] & s5 & _ & Hrun).
      injection Hrun as <- _.
      destruct (remainingFields_kind _ _ _ _ _ _ Hfields) as [-> | ->]; discriminate.
  - intros (info & sB & field & kind & sF & sU & c & s3 & cur & Hinfo & Hclient & Hopaque &
            Hasm & Hflat & Hfields & Hmay & Hun & Hc & Hcur & Hk & -> & ->).
    split; [|apply collapsedKind_collapsed].
    unfold mbind at 1. unfold M_bind at 1. unfold getStruct. rewrite Hinfo, Hclient, Hopaque.
    rewrite (bind_Ok _ _ _ _ _ Hflat).
    unfold mbind at 1. unfold M_bind at 1. unfold newStruct. simpl.
    unfold mbind at 1. unfold M_bind at 1. unfold setMapping, modify.
    unfold entered in Hfields. simpl in Hfields.
    rewrite (bind_Ok _ _ _ _ _ Hfields). unfold finishStruct. rewrite Hasm. simpl.
    rewrite (bind_Ok _ _ _ _ _
               (collapse_done isClientType isJSExportedType rec st _ info field kind sF sU
                  c s3 cur Hmay Hun Hc Hcur Hk)).
    reflexivity.
Qed.

End CollapsePath.

Section CollapseTest.

Variable isClientType : type -> bool.
Variable isJSExportedType : nat -> bool.
Variable getTypeAllocSize : type -> N.

Local Abbreviation rewriteType' := (rewriteType isClientType isJSExportedType getTypeAllocSize).
Local Abbreviation setM := (fun t i => set_typesMapping <[t := i]>).

(** The test of the code, in words. *)
Lemma mayCollapse_spec st info field :
  mayCollapse isClientType isJSExportedType st info field = true <->
  (exists e, field = PointerTy e /\ isClientType e = true) \/
  (field <> IntegerTy 8 /\ isPointerTy field = false /\
   isJSExportedType st = false /\ hasByteLayout info = false).
Proof.
  unfold mayCollapse. rewrite orb_true_iff, !andb_true_iff, !negb_true_iff. split.
  - intros [H|(((H8 & Hp) & He) & Hb)].
    + left. destruct field; try discriminate. eauto.
    + right. repeat split; try assumption. intros ->. discriminate.
  - intros [(e & -> & He)|(H8 & Hp & He & Hb)]; [now left|right].
    repeat split; try assumption. destruct field; try reflexivity. simpl.
    apply N.eqb_neq. congruence.
Qed.

(** A struct with one element that is kept: the test fails. *)
Lemma rewriteType_single_kept fuel st info field s r' s2 :
  structs s !! st = Some info -> plain isClientType st info -> elements info = [field] ->
  directBase info = None ->
  st ∉ newStructTypes s -> typesMapping s !! StructTy st = None ->
  mayCollapse isClientType isJSExportedType st info field = false ->
  rewriteType' fuel field (entered st s) = Ok r' s2 ->
  rewriteType' (S fuel) (StructTy st) s
  = Ok (mkInfo (StructTy (nextStruct s)) IDENTICAL)
       (setM (StructTy st) (mkInfo (StructTy (nextStruct s)) IDENTICAL)
          (set_structs <[nextStruct s := mkStruct [mappedType r'] false None false false
                                            (isPacked info)]> s2)).
Proof.
  intros Hinfo (Hc & Ho & Hb & Ha) Hel Hbase Hnew Hmiss Hmay Hrec.
  cbn [rewriteType]. rewrite rewriteType_body_struct by assumption.
  rewrite rewriteStruct_phases.
  unfold mbind at 1. unfold M_bind at 1. unfold getStruct. rewrite Hinfo, Hc, Ho.
  unfold flattenPhase. rewrite Hb.
  unfold mbind at 1. unfold M_bind at 1. simpl.
  unfold mbind at 1. unfold M_bind at 1. unfold newStruct. simpl.
  unfold mbind at 1. unfold M_bind at 1. unfold setMapping, modify.
  unfold remainingFields. rewrite Ha, Hel. simpl.
  unfold mbind at 1. unfold M_bind at 1. simpl.
  unfold finishStruct. rewrite Ha, Hbase, Hb. simpl.
  unfold entered in Hrec. simpl in Hrec.
  rewrite (bind_Ok _ _ _ _ _
             (collapse_not_tried isClientType isJSExportedType (rewriteType' fuel) st _ info
                field IDENTICAL _ r' s2 Hmay Hrec)).
  reflexivity.
Qed.

End CollapseTest.

Section CollapseInstances.

Variable isClientType : type -> bool.
Variable isJSExportedType : nat -> bool.
Variable getTypeAllocSize : type -> N.

Local Abbreviation rewriteType' := (rewriteType isClientType isJSExportedType getTypeAllocSize).
Local Abbreviation setM := (fun t i => set_typesMapping <[t := i]>).

(** A struct around a scalar that is no 8-bit integer collapses. *)
Lemma scalar_wrapper_collapses fuel st info t s :
  structs s !! st = Some info -> plain isClientType st info -> elements info = [t] ->
  isScalarTy t = true -> t <> IntegerTy 8 -> isJSExportedType st = false ->
  downcastSourceToDestinationsMapping s !! st = None ->
  st ∉ newStructTypes s -> typesMapping s !! StructTy st = None ->
  (forall i, typesMapping s !! t = Some i -> i = mkInfo t IDENTICAL) ->
  exists s',
    rewriteType' (S (S fuel)) (StructTy st) s = Ok (mkInfo t COLLAPSED) s' /\
    typesMapping s' !! StructTy st = Some (mkInfo t COLLAPSED).
Proof.
  intros Hinfo Hplain Hel Ht H8 Hx Hd Hnew Hmiss Hmt.
  set (sa := setM (StructTy st) (mkInfo t COLLAPSING) (entered st s)).
  set (sb := setM t (mkInfo t IDENTICAL) sa).
  assert (Hts : t <> StructTy st) by (intros ->; discriminate).
  assert (Hrec : rewriteType' (S fuel) t sa = Ok (mkInfo t IDENTICAL) sb).
  { apply rewriteType_scalar; [exact Ht|]. intros i. unfold sa, entered. simpl.
    rewrite !lookup_insert_ne by congruence. apply Hmt. }
  exists (setM (StructTy st) (mkInfo t COLLAPSED) sb). split.
  - apply (rewriteType_wrapper isClientType isJSExportedType getTypeAllocSize (S fuel) st info
             t s (mkInfo t IDENTICAL) sb (mkInfo t COLLAPSING)); try assumption.
    + apply mayCollapse_spec. right. destruct Hplain as (_ & _ & Hb & _).
      repeat split; try assumption. now destruct t.
    + unfold sb, sa. simpl. rewrite lookup_insert_ne by congruence.
      now rewrite lookup_insert_eq.
    + reflexivity.
  - simpl. now rewrite lookup_insert_eq.
Qed.

(** A struct around an 8-bit integer, the placeholder of an empty struct,
    is kept. *)
Lemma placeholder_wrapper_kept fuel st info s :
  structs s !! st = Some info -> plain isClientType st info ->
  elements info = [IntegerTy 8] -> directBase info = None ->
  st ∉ newStructTypes s -> typesMapping s !! StructTy st = None ->
  (forall i, typesMapping s !! IntegerTy 8 = Some i -> i = mkInfo (IntegerTy 8) IDENTICAL) ->
  exists s',
    rewriteType' (S (S fuel)) (StructTy st) s
    = Ok (mkInfo (StructTy (nextStruct s)) IDENTICAL) s' /\
    structs s' !! nextStruct s
    = Some (mkStruct [IntegerTy 8] false None false false (isPacked info)).
Proof.
  intros Hinfo Hplain Hel Hbase Hnew Hmiss Hmt.
  assert (Hrec : rewriteType' (S fuel) (IntegerTy 8) (entered st s)
                 = Ok (mkInfo (IntegerTy 8) IDENTICAL)
                      (setM (IntegerTy 8) (mkInfo (IntegerTy 8) IDENTICAL) (entered st s))).
  { apply rewriteType_scalar; [reflexivity|]. intros i. unfold entered. simpl.
    rewrite !lookup_insert_ne by congruence. apply Hmt. }
  eexists. split.
  - eapply (rewriteType_single_kept isClientType isJSExportedType getTypeAllocSize (S fuel) st
              info (IntegerTy 8) s); try eassumption. reflexivity.
  - simpl. now rewrite lookup_insert_eq.
Qed.

(** A client struct is mapped to itself. *)
Lemma rewriteType_client fuel c cinfo s :
  structs s !! c = Some cinfo -> isClientType (StructTy c) = true ->
  c ∉ newStructTypes s -> typesMapping s !! StructTy c = None ->
  rewriteType' (S fuel) (StructTy c) s
  = Ok (mkInfo (StructTy c) IDENTICAL) (setM (StructTy c) (mkInfo (StructTy c) IDENTICAL) s).
Proof.
  intros Hinfo Hclient Hnew Hmiss. cbn [rewriteType].
  rewrite rewriteType_body_struct by assumption.
  unfold rewriteStruct, mbind, M_bind, getStruct. now rewrite Hinfo, Hclient.
Qed.

(** A struct around a pointer to a client struct collapses, exported or
    not. *)
Lemma client_pointer_wrapper_collapses fuel st info c cinfo s :
  structs s !! st = Some info -> plain isClientType st info ->
  elements info = [PointerTy (StructTy c)] ->
  structs s !! c = Some cinfo -> isClientType (StructTy c) = true ->
  downcastSourceToDestinationsMapping s !! st = None ->
  st ∉ newStructTypes s -> c ∉ newStructTypes s -> (c < nextStruct s)%nat ->
  typesMapping s !! StructTy st = None -> typesMapping s !! StructTy c = None ->
  typesMapping s !! PointerTy (StructTy c) = None ->
  exists s',
    rewriteType' (S (S (S fuel))) (StructTy st) s
    = Ok (mkInfo (PointerTy (StructTy c)) COLLAPSED) s' /\
    typesMapping s' !! StructTy st = Some (mkInfo (PointerTy (StructTy c)) COLLAPSED).
Proof.
  intros Hinfo Hplain Hel Hcinfo Hclient Hd Hnew Hcnew Hclt Hmiss Hcmiss Hpmiss.
  assert (Hne : st <> c).
  { intros ->. destruct Hplain as (Hc & _). congruence. }
  set (P := PointerTy (StructTy c)).
  set (sa := setM (StructTy st) (mkInfo P COLLAPSING) (entered st s)).
  set (sb := setM (StructTy c) (mkInfo (StructTy c) IDENTICAL) sa).
  set (sc := setM P (mkInfo P IDENTICAL) sb).
  assert (Hc : rewriteType' (S fuel) (StructTy c) sa = Ok (mkInfo (StructTy c) IDENTICAL) sb).
  { apply (rewriteType_client fuel c cinfo sa); [|exact Hclient| |].
    - unfold sa, entered. simpl. rewrite lookup_insert_ne by lia. exact Hcinfo.
    - unfold sa, entered. simpl. apply not_elem_of_union. split; [|exact Hcnew].
      apply not_elem_of_singleton. lia.
    - unfold sa, entered. simpl. rewrite !lookup_insert_ne by congruence. exact Hcmiss. }
  assert (Hp : rewriteType' (S (S fuel)) P sa = Ok (mkInfo P IDENTICAL) sc).
  { cbn [rewriteType]. unfold rewriteType_body at 1. unfold mbind, M_bind, get, assert. simpl.
    assert (Hpm : typesMapping sa !! P = None).
    { unfold sa, entered, P. simpl. rewrite !lookup_insert_ne by discriminate. exact Hpmiss. }
    simpl in Hpm. rewrite Hpm. cbn [rewriteType] in Hc. rewrite Hc. simpl.
    destruct (decide (StructTy c = StructTy c)) as [_|H]; [reflexivity|contradiction]. }
  exists (setM (StructTy st) (mkInfo P COLLAPSED) sc). split.
  - apply (rewriteType_wrapper isClientType isJSExportedType getTypeAllocSize (S (S fuel)) st
             info P s (mkInfo P IDENTICAL) sc (mkInfo P COLLAPSING)); try assumption.
    + apply mayCollapse_spec. left. exists (StructTy c). auto.
    + unfold sc, sb, sa, P. simpl. rewrite !lookup_insert_ne by congruence.
      now rewrite lookup_insert_eq.
    + reflexivity.
  - simpl. now rewrite lookup_insert_eq.
Qed.

Lemma unsafe_when_offset fuel st s :
  downcastSourceToDestinationsMapping s !! st = Some [] ->
  isUnsafeDowncastSource (rewriteType' fuel) st s = Ok true s.
Proof. intros H. unfold isUnsafeDowncastSource, mbind, M_bind, get. now rewrite H. Qed.

End CollapseInstances.

(** C8 (as amended). When exactly one field remains of a struct,
    [rewriteType] collapses the struct onto the rewritten field exactly
    along the following path.  The struct is no client type, not opaque
    and not asm.js, and it is not flattened as a byte layout struct; one
    field remains (the only element, or the single field that the merging
    loop leaves of several elements); the test of the code passes: the
    field is a pointer to a client type, or it is no 8-bit integer and no
    pointer, and the struct is neither exported nor of the byte layout;
    the struct is no unsafe source of a down-cast (a source without
    recorded casts is safe, one with a cast at an offset is not); and the
    [COLLAPSING] marker has not been promoted while the field was
    rewritten.  The result is then the rewritten field, with kind
    [COLLAPSED], or [MERGED_MEMBER_ARRAYS_AND_COLLAPSED] after a merge.
    This holds of every call that misses the memo table; at every call
    the pass makes, a collapsed kind comes with the conditions on the
    struct.  In particular a struct around a scalar other than an 8-bit
    integer (a 32-bit integer, say) collapses, a struct around an 8-bit
    integer is kept, and a struct around a pointer to a client struct
    collapses, exported or not. *)
Theorem collapse_conditions
    (isClientType : type -> bool) (isJSExportedType : nat -> bool)
    (getTypeAllocSize : type -> N) :
  (forall fuel0 insts s0 s1 s fuel st r s',
      initialState s0 ->
      gatherAllTypesInfo fuel0 insts s0 = Ok tt s1 ->
      rewrites isClientType isJSExportedType getTypeAllocSize s1 s ->
      rewriteType isClientType isJSExportedType getTypeAllocSize fuel (StructTy st) s
      = Ok r s' ->
      isCollapsedStruct (elementMappingKind r) = true ->
      exists info,
        structs s0 !! st = Some info /\
        isClientType (StructTy st) = false /\ isOpaque info = false /\
        hasAsmJS info = false /\
        downcastSourceToDestinationsMapping s1 !! st <> Some [] /\
        (elementMappingKind r = COLLAPSED ->
         exists field, elements info = [field] /\
           mayCollapse isClientType isJSExportedType st info field = true) /\
        (elementMappingKind r = MERGED_MEMBER_ARRAYS_AND_COLLAPSED ->
         (1 < length (elements info))%nat /\
         isJSExportedType st = false /\ hasByteLayout info = false)) /\
  (forall fuel st s r s',
      st ∉ newStructTypes s -> typesMapping s !! StructTy st = None ->
      rewriteType isClientType isJSExportedType getTypeAllocSize (S fuel) (StructTy st) s
      = Ok r s' /\ isCollapsedStruct (elementMappingKind r) = true <->
      collapsePath isClientType isJSExportedType getTypeAllocSize fuel st s r s') /\
  (forall st info field,
      mayCollapse isClientType isJSExportedType st info field = true <->
      (exists e, field = PointerTy e /\ isClientType e = true) \/
      (field <> IntegerTy 8 /\ isPointerTy field = false /\
       isJSExportedType st = false /\ hasByteLayout info = false)) /\
  (forall fuel st s,
      (downcastSourceToDestinationsMapping s !! st = None ->
       isUnsafeDowncastSource
         (rewriteType isClientType isJSExportedType getTypeAllocSize fuel) st s = Ok false s) /\
      (downcastSourceToDestinationsMapping s !! st = Some [] ->
       isUnsafeDowncastSource
         (rewriteType isClientType isJSExportedType getTypeAllocSize fuel) st s = Ok true s)) /\
  (forall fuel st info t s,
      structs s !! st = Some info -> plain isClientType st info -> elements info = [t] ->
      isScalarTy t = true -> t <> IntegerTy 8 -> isJSExportedType st = false ->
      downcastSourceToDestinationsMapping s !! st = None ->
      st ∉ newStructTypes s -> typesMapping s !! StructTy st = None ->
      (forall i, typesMapping s !! t = Some i -> i = mkInfo t IDENTICAL) ->
      exists s',
        rewriteType isClientType isJSExportedType getTypeAllocSize (S (S fuel)) (StructTy st) s
        = Ok (mkInfo t COLLAPSED) s' /\
        typesMapping s' !! StructTy st = Some (mkInfo t COLLAPSED)) /\
  (forall fuel st info s,
      structs s !! st = Some info -> plain isClientType st info ->
      elements info = [IntegerTy 8] -> directBase info = None ->
      st ∉ newStructTypes s -> typesMapping s !! StructTy st = None ->
      (forall i, typesMapping s !! IntegerTy 8 = Some i -> i = mkInfo (IntegerTy 8) IDENTICAL) ->
      exists s',
        rewriteType isClientType isJSExportedType getTypeAllocSize (S (S fuel)) (StructTy st) s
        = Ok (mkInfo (StructTy (nextStruct s)) IDENTICAL) s' /\
        structs s' !! nextStruct s
        = Some (mkStruct [IntegerTy 8] false None false false (isPacked info))) /\
  (forall fuel st info c cinfo s,
      structs s !! st = Some info -> plain isClientType st info ->
      elements info = [PointerTy (StructTy c)] ->
      structs s !! c = Some cinfo -> isClientType (StructTy c) = true ->
      downcastSourceToDestinationsMapping s !! st = None ->
      st ∉ newStructTypes s -> c ∉ newStructTypes s -> (c < nextStruct s)%nat ->
      typesMapping s !! StructTy st = None -> typesMapping s !! StructTy c = None ->
      typesMapping s !! PointerTy (StructTy c) = None ->
      exists s',
        rewriteType isClientType isJSExportedType getTypeAllocSize (S (S (S fuel)))
          (StructTy st) s
        = Ok (mkInfo (PointerTy (StructTy c)) COLLAPSED) s' /\
        typesMapping s' !! StructTy st = Some (mkInfo (PointerTy (StructTy c)) COLLAPSED)).
Proof.
  split; [|split; [|split; [|split; [|split; [|split]]]]].
  - intros fuel0 insts s0 s1 s fuel st r s' Hinit Hgather Hrw Hrun Hcol.
    destruct (collapsed_struct_entry isClientType isJSExportedType getTypeAllocSize
                _ _ _ _ _ _ _ _ _ Hinit Hgather Hrw Hrun Hcol)
      as (_ & _ & _ & [(info & field & H1 & H2 & H3 & H4 & H5 & H6 & H7 & H8) Hsafe _]).
    exists info. repeat (split; [assumption|]).
    split.
    { intros Hk. exists field. split; [|exact H5].
      destruct H7 as [H7|[H7 _]]; [rewrite Hk; discriminate|exact H7|].
      rewrite Hk in H7. discriminate. }
    intros Hk. destruct (H8 Hk) as [Hlen Hfield]. split; [exact Hlen|].
    apply mayCollapse_spec in H5 as [(e & -> & _)|(_ & _ & Hx & Hb)]; [|auto].
    destruct Hfield; discriminate.
  - intros fuel st s r s'. apply collapsePath_run.
  - apply mayCollapse_spec.
  - intros fuel st s. split; [apply no_downcast_safe|apply unsafe_when_offset].
  - apply scalar_wrapper_collapses.
  - apply placeholder_wrapper_kept.
  - apply client_pointer_wrapper_collapses.
Qed.

Lemma collapse_conditions_witness :
  (exists info,
     structs downcastModule !! 0%nat = Some info /\
     noClient (StructTy 0) = false /\ isOpaque info = false /\ hasAsmJS info = false /\
     downcastSourceToDestinationsMapping downcastAnalysed !! 0%nat <> Some [] /\
     (elementMappingKind (mkInfo i32 COLLAPSED) = COLLAPSED ->
      exists field, elements info = [field] /\
        mayCollapse noClient notExported 0 info field = true) /\
     (elementMappingKind (mkInfo i32 COLLAPSED) = MERGED_MEMBER_ARRAYS_AND_COLLAPSED ->
      (1 < length (elements info))%nat /\
      notExported 0 = false /\ hasByteLayout info = false)) /\
  (exists s',
     rewriteTypeEx 2 (StructTy 0) (singleField i32) = Ok (mkInfo i32 COLLAPSED) s' /\
     typesMapping s' !! StructTy 0 = Some (mkInfo i32 COLLAPSED)) /\
  collapsePath noClient notExported (exampleSize (fun _ => 0)) 1 0 (singleField i32)
    (mkInfo i32 COLLAPSED)
    (stateOf (rewriteTypeEx 2 (StructTy 0) (singleField i32)) (singleField i32)).
Proof.
  destruct (collapse_conditions noClient notExported (exampleSize (fun _ => 0)))
    as (Hcall & Hpath & _ & _ & Hscalar & _).
  split; [|split].
  - apply (Hcall 10%nat downcastInsts downcastModule downcastAnalysed downcastAnalysed
             10%nat 0%nat
             (mkInfo i32 COLLAPSED) downcastRewritten).
    + exact downcastModule_initial.
    + vm_compute. reflexivity.
    + apply rewrites_refl.
    + vm_compute. reflexivity.
    + reflexivity.
  - apply (Hscalar 0%nat 0%nat (plainStruct [i32]) i32 (singleField i32)).
    + reflexivity.
    + repeat split; reflexivity.
    + reflexivity.
    + reflexivity.
    + discriminate.
    + reflexivity.
    + reflexivity.
    + unfold singleField, moduleState. simpl. set_solver.
    + reflexivity.
    + intros i H. discriminate H.
  - apply (Hpath 1%nat 0%nat (singleField i32)).
    + unfold singleField, moduleState. simpl. set_solver.
    + reflexivity.
    + split; [vm_compute; reflexivity|reflexivity].
Defined.

(** * The walk of [rewriteGEPIndexes], turn by turn *)

Section GEPWalk.

Variable isClientType : type -> bool.
Variable isJSExportedType : nat -> bool.
Variable getTypeAllocSize : type -> N.
Variable getElementOffset : nat -> nat -> N.
Variable fuel : nat.
Variable insertionPoint : bool.
Variable targetType : type.

Local Abbreviation rewriteType' := (rewriteType isClientType isJSExportedType getTypeAllocSize fuel).
Local Abbreviation addZero := (addZeroForArrayTarget insertionPoint targetType).
Local Abbreviation checkTarget' :=
  (checkTarget isClientType isJSExportedType getTypeAllocSize fuel targetType).
Local Abbreviation byteLayoutIndexes' :=
  (byteLayoutIndexes getTypeAllocSize getElementOffset insertionPoint).

(** One turn of the loop over the indexes, for the index [idx] followed by
    [idxs']: [inl] is the state in which the next turn starts, [inr] a
    [return] from inside the loop. *)
Definition gepTurn (idx : value) (idxs' : list value) (i : nat) (gs : GEPState)
    : M (GEPState + list value * N) :=
  curTypeMappingInfo ← rewriteType' (curType gs);
  let continue (gs1 : GEPState) : M (GEPState + list value * N) :=
    gs2 ← advanceType idx gs1; mret (inl gs2) in
  let flattened : M (GEPState + list value * N) :=
    elt ← liftOption (getSequentialElementType (curType gs));
    oldInfo ← rewriteType' elt;
    let oldTypeSize := wrap32 (getTypeAllocSize (mappedType oldInfo)) in
    newElt ← liftOption (getSequentialElementType (mappedType curTypeMappingInfo));
    let elementSize := wrap32 (getTypeAllocSize newElt) in
    _ ← assert (negb (N.eqb elementSize 0));
    _ ← assert (N.eqb (oldTypeSize mod elementSize) 0);
    gs1 ← liftOption (AddMultipliedIndex insertionPoint idx
                        (oldTypeSize / elementSize) gs);
    continue (setAddToLastIndex gs1) in
  match elementMappingKind curTypeMappingInfo with
  | IDENTICAL =>
      gs1 ← liftOption (AddIndex insertionPoint idx gs);
      continue gs1
  | COLLAPSED => continue gs
  | BYTE_LAYOUT_TO_ARRAY =>
      _ ← assert (N.eqb (integerOffset gs) 0);
      match curType gs with
      | StructTy st =>
          if decide (mappedType curTypeMappingInfo = targetType) then
            gs' ← addZero gs;
            mret (inr (newIndexes gs', 0))
          else
            s ← get;
            match baseTypesForByteLayout s !! st with
            | Some (Some baseType) =>
                if negb (isArrayTy (mappedType curTypeMappingInfo)) then
                  _ ← assert (bool_decide (mappedType curTypeMappingInfo = baseType));
                  mret (inr (newIndexes gs, 0))
                else
                  let baseTypeSize := wrap32 (getTypeAllocSize baseType) in
                  gs1 ← byteLayoutIndexes' baseTypeSize (idx :: idxs') gs;
                  _ ← checkTarget' gs1;
                  gs2 ← addZero gs1;
                  mret (inr (newIndexes gs2, 0))
            | _ => abort
            end
      | _ => abort
      end
  | POINTER_FROM_ARRAY =>
      _ ← assert (Nat.eqb i 0);
      flattened
  | FLATTENED_ARRAY => flattened
  | MERGED_MEMBER_ARRAYS | MERGED_MEMBER_ARRAYS_AND_COLLAPSED =>
      match curType gs with
      | StructTy oldStruct =>
          info ← getStruct oldStruct;
          elementIndex ← liftOption (constantIndex idx);
          s ← get;
          mapping ← liftOption (membersMappingData s !! oldStruct);
          mappedMember ← liftOption (mapping !! elementIndex);
          gs1 ←
            (if decide (elementMappingKind curTypeMappingInfo = MERGED_MEMBER_ARRAYS)
             then liftOption (AddIndex insertionPoint
                                (ConstantInt_get 32 (N.of_nat (fst mappedMember))) gs)
             else _ ← assert (Nat.eqb (fst mappedMember) 0); mret gs);
          elementType ← liftOption (elements info !! elementIndex);
          mappedElementType ← rewriteType' elementType;
          gs2 ←
            (if isIntegerTy (mappedType mappedElementType)
             then mret (addIntegerOffset (snd mappedMember) gs1)
             else if negb (N.eqb (snd mappedMember) 0) then
               gs' ← liftOption (AddIndex insertionPoint
                                   (ConstantInt_get 32 (snd mappedMember)) gs1);
               mret (setAddToLastIndex gs')
             else mret gs1);
          continue gs2
      | _ => abort
      end
  | COLLAPSING | COLLAPSING_BUT_USED => abort
  end.

(** The turns for all the indexes. *)
Fixpoint gepWalk (idxs : list value) (i : nat) (gs : GEPState)
    : M (GEPState + list value * N) :=
  match idxs with
  | [] => mret (inl gs)
  | idx :: idxs' =>
      r ← gepTurn idx idxs' i gs;
      match r with
      | inl gs2 => gepWalk idxs' (S i) gs2
      | inr res => mret (inr res)
      end
  end.

(** What follows the loop. *)
Definition gepEnd (gs : GEPState) : M (list value * N) :=
  _ ← checkTarget' gs;
  gs' ← addZero gs;
  mret (newIndexes gs', wrap8 (integerOffset gs')).

Definition afterWalk (r : GEPState + list value * N) : M (list value * N) :=
  match r with inl gs => gepEnd gs | inr res => mret res end.

Lemma bind_assoc_run {A B C} (m : M A) (f : A -> M B) (g : B -> M C) s :
  ((m ≫= f) ≫= g) s = (m ≫= (fun a => f a ≫= g)) s.
Proof. unfold mbind, M_bind. now destruct (m s). Qed.

Lemma bind_ext_run {A B} (m : M A) (f g : A -> M B) s :
  (forall a s', f a s' = g a s') -> (m ≫= f) s = (m ≫= g) s.
Proof. intros H. unfold mbind, M_bind. destruct (m s); auto. Qed.

Lemma gepIndexes_walk idxs : forall i gs s,
  gepIndexes isClientType isJSExportedType getTypeAllocSize getElementOffset fuel
    insertionPoint targetType idxs i gs s
  = (gepWalk idxs i gs ≫= afterWalk) s.
Proof.
  induction idxs as [|idx idxs IH]; intros i gs s; [reflexivity|].
  assert (Hcont : forall gs1 s1,
            (gs2 ← advanceType idx gs1;
             gepIndexes isClientType isJSExportedType getTypeAllocSize getElementOffset fuel
               insertionPoint targetType idxs (S i) gs2) s1
            = (r ← (gs2 ← advanceType idx gs1; mret (inl gs2));
               (match r with
                | inl gs2 => gepWalk idxs (S i) gs2
                | inr res => mret (inr res)
                end) ≫= afterWalk) s1).
  { intros gs1 s1. rewrite bind_assoc_run. apply bind_ext_run. intros gs2 s2.
    unfold mbind at 2. unfold M_bind at 2. simpl. apply IH. }
  cbn [gepIndexes gepWalk]. rewrite bind_assoc_run. unfold gepTurn.
  rewrite bind_assoc_run. apply bind_ext_run. intros info s1.
  destruct (elementMappingKind info) eqn:Hk.
  - rewrite !bind_assoc_run. apply bind_ext_run. intros gs1 s2. rewrite Hcont.
    now rewrite bind_assoc_run.
  - rewrite Hcont. now rewrite bind_assoc_run.
  - reflexivity.
  - reflexivity.
  - rewrite !bind_assoc_run. apply bind_ext_run. intros _ s2.
    destruct (curType gs); try reflexivity.
    destruct (decide _).
    + rewrite !bind_assoc_run. apply bind_ext_run. intros gs1 s3. reflexivity.
    + rewrite !bind_assoc_run. apply bind_ext_run. intros s3 s4.
      destruct (baseTypesForByteLayout s3 !! id) as [[baseType|]|]; try reflexivity.
      destruct (negb _).
      * rewrite !bind_assoc_run. apply bind_ext_run. intros _ s5. reflexivity.
      * rewrite !bind_assoc_run. apply bind_ext_run. intros gs1 s5.
        rewrite !bind_assoc_run. apply bind_ext_run. intros _ s6.
        rewrite !bind_assoc_run. apply bind_ext_run. intros gs2 s7. reflexivity.
  - rewrite !bind_assoc_run. apply bind_ext_run. intros _ s2.
    rewrite !bind_assoc_run. apply bind_ext_run. intros elt s3.
    rewrite !bind_assoc_run. apply bind_ext_run. intros oldInfo s4. cbv zeta.
    rewrite !bind_assoc_run. apply bind_ext_run. intros newElt s5.
    rewrite !bind_assoc_run. apply bind_ext_run. intros _ s6.
    rewrite !bind_assoc_run. apply bind_ext_run. intros _ s7.
    rewrite !bind_assoc_run. apply bind_ext_run. intros gs1 s8.
    rewrite Hcont. now rewrite bind_assoc_run.
  - rewrite !bind_assoc_run. apply bind_ext_run. intros elt s3.
    rewrite !bind_assoc_run. apply bind_ext_run. intros oldInfo s4. cbv zeta.
    rewrite !bind_assoc_run. apply bind_ext_run. intros newElt s5.
    rewrite !bind_assoc_run. apply bind_ext_run. intros _ s6.
    rewrite !bind_assoc_run. apply bind_ext_run. intros _ s7.
    rewrite !bind_assoc_run. apply bind_ext_run. intros gs1 s8.
    rewrite Hcont. now rewrite bind_assoc_run.
  - destruct (curType gs); try reflexivity.
    rewrite !bind_assoc_run. apply bind_ext_run. intros sinfo s2.
    rewrite !bind_assoc_run. apply bind_ext_run. intros elementIndex s3.
    rewrite !bind_assoc_run. apply bind_ext_run. intros s4 s5.
    rewrite !bind_assoc_run. apply bind_ext_run. intros mapping s6.
    rewrite !bind_assoc_run. apply bind_ext_run. intros mappedMember s7.
    rewrite !bind_assoc_run. apply bind_ext_run. intros gs1 s8.
    rewrite !bind_assoc_run. apply bind_ext_run. intros elementType s9.
    rewrite !bind_assoc_run. apply bind_ext_run. intros mappedElementType s10.
    rewrite !bind_assoc_run. apply bind_ext_run. intros gs2 s11.
    rewrite Hcont. now rewrite bind_assoc_run.
  - destruct (curType gs); try reflexivity.
    rewrite !bind_assoc_run. apply bind_ext_run. intros sinfo s2.
    rewrite !bind_assoc_run. apply bind_ext_run. intros elementIndex s3.
    rewrite !bind_assoc_run. apply bind_ext_run. intros s4 s5.
    rewrite !bind_assoc_run. apply bind_ext_run. intros mapping s6.
    rewrite !bind_assoc_run. apply bind_ext_run. intros mappedMember s7.
    rewrite !bind_assoc_run. apply bind_ext_run. intros gs1 s8.
    rewrite !bind_assoc_run. apply bind_ext_run. intros elementType s9.
    rewrite !bind_assoc_run. apply bind_ext_run. intros mappedElementType s10.
    rewrite !bind_assoc_run. apply bind_ext_run. intros gs2 s11.
    rewrite Hcont. now rewrite bind_assoc_run.
Qed.


(** [V] is emitted after the indexes [l]: as a new last index, or, when an
    index is pending, added to that index. *)
Definition emitted (pending : bool) (V : value) (l out : list value) : Prop :=
  if pending then
    exists pre back sum,
      l = pre ++ [back] /\ combine insertionPoint Add back V = Some sum /\ out = pre ++ [sum]
  else out = l ++ [V].

Lemma updateBack_snoc f pre (back v : value) :
  f back = Some v -> updateBack f (pre ++ [back]) = Some (pre ++ [v]).
Proof.
  intros Hf. induction pre as [|x pre IH]; simpl; [now rewrite Hf|].
  rewrite IH. now destruct (pre ++ [back]) eqn:E; [destruct pre; discriminate|].
Qed.

Lemma AddIndex_emitted V gs gs' :
  AddIndex insertionPoint V gs = Some gs' <->
  emitted (addToLastIndex gs) V (newIndexes gs) (newIndexes gs') /\
  addToLastIndex gs' = false /\ integerOffset gs' = integerOffset gs /\
  curType gs' = curType gs.
Proof.
  unfold AddIndex, emitted. destruct (addToLastIndex gs); split.
  - destruct (updateBack _ _) as [idxs|] eqn:E; [|discriminate]. intros [= <-]. simpl.
    destruct (updateBack_Some _ _ _ E) as (pre & back & v & Hl & Hf & ->).
    repeat split; auto. now exists pre, back, v.
  - intros ((pre & back & v & Hl & Hf & Hout) & Ha & Ho & Hc). rewrite Hl.
    rewrite (updateBack_snoc _ pre back v Hf). destruct gs'. simpl in *. congruence.
  - intros [= <-]. simpl. auto.
  - intros (Hout & Ha & Ho & Hc). destruct gs'. simpl in *. congruence.
Qed.

(** The end of a walk towards an array. *)
Lemma gepEnd_array gs s out off s' :
  isArrayTy targetType = true ->
  gepEnd gs s = Ok (out, off) s' <->
  checkTarget' gs s = Ok tt s' /\
  emitted (addToLastIndex gs) Int32Zero (newIndexes gs) out /\
  off = wrap8 (integerOffset gs).
Proof.
  intros Harr. unfold gepEnd, addZeroForArrayTarget, mbind, M_bind. rewrite Harr. split.
  - destruct (checkTarget' gs s) as [[] s1| |]; try discriminate.
    destruct (AddIndex insertionPoint Int32Zero gs) as [gs'|] eqn:E; [|discriminate].
    simpl. intros [= <- <- <-]. apply AddIndex_emitted in E as (He & _ & Ho & _).
    rewrite Ho. auto.
  - intros (Hc & He & ->). rewrite Hc.
    assert (E : AddIndex insertionPoint Int32Zero gs
                = Some (mkGEP out false (integerOffset gs) (curType gs))).
    { apply AddIndex_emitted. simpl. auto. }
    rewrite E. reflexivity.
Qed.

(** What a turn leaves behind, by the kind of the level it goes through. *)
Definition turnSpec (idx : value) (idxs' : list value) (gs : GEPState) (s : state)
    (r : GEPState + list value * N) (s' : state) : Prop :=
  exists info s1, rewriteType' (curType gs) s = Ok info s1 /\
  match r with
  | inl gs' =>
      match elementMappingKind info with
      | IDENTICAL =>
          emitted (addToLastIndex gs) idx (newIndexes gs) (newIndexes gs') /\
          addToLastIndex gs' = false
      | COLLAPSED =>
          newIndexes gs' = newIndexes gs /\ addToLastIndex gs' = addToLastIndex gs
      | POINTER_FROM_ARRAY | FLATTENED_ARRAY =>
          (exists prod, emitted (addToLastIndex gs) prod (newIndexes gs) (newIndexes gs')) /\
          addToLastIndex gs' = true
      | MERGED_MEMBER_ARRAYS =>
          exists st sinfo mapping e f o rt r2 s2,
            curType gs = StructTy st /\ constantIndex idx = Some e /\
            membersMappingData s1 !! st = Some mapping /\ mapping !! e = Some (f, o) /\
            structs s1 !! st = Some sinfo /\ elements sinfo !! e = Some rt /\
            rewriteType' rt s1 = Ok r2 s2 /\
            addToLastIndex gs'
            = negb (isIntegerTy (mappedType r2)) && negb (N.eqb o 0)
      | MERGED_MEMBER_ARRAYS_AND_COLLAPSED =>
          exists st sinfo mapping e o rt r2 s2,
            curType gs = StructTy st /\ constantIndex idx = Some e /\
            membersMappingData s1 !! st = Some mapping /\ mapping !! e = Some (0%nat, o) /\
            structs s1 !! st = Some sinfo /\ elements sinfo !! e = Some rt /\
            rewriteType' rt s1 = Ok r2 s2 /\
            addToLastIndex gs'
            = if isIntegerTy (mappedType r2) || N.eqb o 0
              then addToLastIndex gs else true
      | _ => False
      end
  | inr (out, off) =>
      elementMappingKind info = BYTE_LAYOUT_TO_ARRAY /\ off = 0 /\
      ((mappedType info = targetType /\ s' = s1 /\
        if isArrayTy targetType
        then emitted (addToLastIndex gs) Int32Zero (newIndexes gs) out
        else out = newIndexes gs) \/
       (mappedType info <> targetType /\ isArrayTy (mappedType info) = false /\
        s' = s1 /\ out = newIndexes gs) \/
       (mappedType info <> targetType /\ isArrayTy (mappedType info) = true /\
        exists baseTypeSize gs1 s2,
          byteLayoutIndexes' baseTypeSize (idx :: idxs') gs s1 = Ok gs1 s2 /\
          addToLastIndex gs1 = true /\ checkTarget' gs1 s2 = Ok tt s' /\
          if isArrayTy targetType
          then emitted true Int32Zero (newIndexes gs1) out
          else out = newIndexes gs1))
  end.


Lemma byteLayoutIndexes_pending baseTypeSize : forall idxs gs s gs1 s1,
  byteLayoutIndexes' baseTypeSize idxs gs s = Ok gs1 s1 ->
  idxs <> [] \/ addToLastIndex gs = true -> addToLastIndex gs1 = true.
Proof.
  induction idxs as [|idx idxs IH]; intros gs s gs1 s1 Hrun Hp.
  - injection Hrun as <- <-. destruct Hp as [H|H]; [contradiction|exact H].
  - cbn [byteLayoutIndexes] in Hrun. apply bind_Ok_inv in Hrun as (gs2 & s2 & _ & Hrun).
    apply (IH _ _ _ _ Hrun). now right.
Qed.

Lemma advanceType_keeps idx gs s :
  wp (advanceType idx gs)
     (fun gs' s' => s' = s /\ newIndexes gs' = newIndexes gs /\
                    addToLastIndex gs' = addToLastIndex gs /\
                    integerOffset gs' = integerOffset gs) s.
Proof.
  unfold advanceType. destruct (curType gs); repeat wp_step; simpl; auto.
Qed.

Lemma gepTurn_spec idx idxs' i gs s :
  wp (gepTurn idx idxs' i gs) (turnSpec idx idxs' gs s) s.
Proof.
  unfold gepTurn. wp_step. apply run_wp. intros info s1 Hinfo.
  assert (Hcont : forall gs1 (P : GEPState -> Prop) s2,
            (forall gs', newIndexes gs' = newIndexes gs1 ->
                         addToLastIndex gs' = addToLastIndex gs1 -> P gs') ->
            wp (gs2 ← advanceType idx gs1;
                (mret (inl gs2) : M (GEPState + list value * N)))
               (fun r s' => match r with inl gs' => P gs' | inr _ => False end) s2).
  { intros gs1 P s2 HP. wp_step. eapply wp_mono; [apply advanceType_keeps|].
    intros gs' s' (_ & Hn & Ha & _). wp_step. now apply HP. }
  destruct (elementMappingKind info) eqn:Hk.
  - wp_step. wp_step. eapply wp_mono; [apply Hcont|].
    2:{ intros [gs'|[out off]] s' HP; [|contradiction]. exists info, s1.
        split; [exact Hinfo|]. rewrite Hk. exact HP. }
    intros gs' Hn Ha. apply AddIndex_emitted in H as (He & Hf & _). rewrite Hn, Ha. auto.
  - eapply wp_mono; [apply Hcont|].
    2:{ intros [gs'|[out off]] s' HP; [|contradiction]. exists info, s1.
        split; [exact Hinfo|]. rewrite Hk. exact HP. }
    intros gs' Hn Ha. split; assumption.
  - wp_step.
  - wp_step.
  - wp_step. wp_step. destruct (curType gs) as [| | | | | | |st] eqn:Hcur; try wp_step.
    destruct (decide (mappedType info = targetType)) as [Ht|Ht].
    + wp_step. unfold addZeroForArrayTarget. destruct (isArrayTy targetType) eqn:Harr.
      * wp_step. wp_step. exists info, s1. split; [rewrite Hcur; exact Hinfo|]. split; [exact Hk|].
        split; [reflexivity|]. left. rewrite Harr.
        apply AddIndex_emitted in H0 as (He & _). auto.
      * wp_step. wp_step. exists info, s1. split; [rewrite Hcur; exact Hinfo|]. split; [exact Hk|].
        split; [reflexivity|]. left. rewrite Harr. auto.
    + wp_step. wp_step. destruct (baseTypesForByteLayout s1 !! st) as [[baseType|]|];
        try wp_step.
      destruct (isArrayTy (mappedType info)) eqn:Ha; cbn [negb].
      * wp_step. apply run_wp. intros gs1 s2 Hbl. wp_step. apply run_wp. intros [] s3 Hct.
        assert (Hp : addToLastIndex gs1 = true).
        { apply (byteLayoutIndexes_pending _ _ _ _ _ _ Hbl). now left. }
        unfold addZeroForArrayTarget. destruct (isArrayTy targetType) eqn:Harr.
        -- wp_step. wp_step. wp_step. exists info, s1. split; [rewrite Hcur; exact Hinfo|].
           split; [exact Hk|]. split; [reflexivity|]. right. right.
           split; [exact Ht|]. split; [exact Ha|].
           exists (wrap32 (getTypeAllocSize baseType)), gs1, s2. rewrite Harr.
           apply AddIndex_emitted in H0 as (He & _). rewrite Hp in He. auto.
        -- wp_step. wp_step. wp_step. exists info, s1. split; [rewrite Hcur; exact Hinfo|].
           split; [exact Hk|]. split; [reflexivity|]. right. right.
           split; [exact Ht|]. split; [exact Ha|].
           exists (wrap32 (getTypeAllocSize baseType)), gs1, s2. rewrite Harr. auto.
      * wp_step. wp_step. wp_step. exists info, s1. split; [rewrite Hcur; exact Hinfo|].
        split; [exact Hk|]. split; [reflexivity|]. right. left. auto.
  - wp_step. wp_step. wp_step. wp_step. wp_step. apply run_wp. intros oldInfo s2 _.
    wp_step. wp_step. wp_step. wp_step. wp_step. wp_step. wp_step. wp_step.
    eapply wp_mono; [apply Hcont|].
    2:{ intros [gs'|[out off]] s' HP; [|contradiction]. exists info, s1.
        split; [exact Hinfo|]. rewrite Hk. exact HP. }
    intros gs' Hn Ha. simpl in Hn, Ha. unfold AddMultipliedIndex in *.
    match goal with
    | Hm : match combine ?ip Mul ?V ?c with _ => _ end = Some _ |- _ =>
        destruct (combine ip Mul V c) as [prod|]; [|discriminate];
        apply AddIndex_emitted in Hm as (He & _)
    end.
    rewrite Hn, Ha. split; [now exists prod|reflexivity].
  - wp_step. wp_step. wp_step. apply run_wp. intros oldInfo s2 _.
    wp_step. wp_step. wp_step. wp_step. wp_step. wp_step. wp_step. wp_step.
    eapply wp_mono; [apply Hcont|].
    2:{ intros [gs'|[out off]] s' HP; [|contradiction]. exists info, s1.
        split; [exact Hinfo|]. rewrite Hk. exact HP. }
    intros gs' Hn Ha. simpl in Hn, Ha. unfold AddMultipliedIndex in *.
    match goal with
    | Hm : match combine ?ip Mul ?V ?c with _ => _ end = Some _ |- _ =>
        destruct (combine ip Mul V c) as [prod|]; [|discriminate];
        apply AddIndex_emitted in Hm as (He & _)
    end.
    rewrite Hn, Ha. split; [now exists prod|reflexivity].
  - destruct (curType gs) as [| | | | | | |st] eqn:Hcur; try solve [wp_step].
    apply wp_bind, wp_getStruct. intros sinfo Hsinfo.
    apply wp_bind, wp_liftOption. intros e He.
    apply wp_bind, wp_get.
    apply wp_bind, wp_liftOption. intros mapping Hmapping.
    apply wp_bind, wp_liftOption. intros [f o] Hmember. simpl.
    apply wp_bind, wp_liftOption. intros gs1 Hgs1.
    apply wp_bind, wp_liftOption. intros rt Hrt.
    apply wp_bind, run_wp. intros r2 s2 Hr2. wp_step.
    assert (Hfin : forall gs2,
              addToLastIndex gs2 = negb (isIntegerTy (mappedType r2)) && negb (N.eqb o 0) ->
              wp (gs3 ← advanceType idx gs2;
                  (mret (inl gs3) : M (GEPState + list value * N)))
                 (turnSpec idx idxs' gs s) s2).
    { intros gs2 Hflag. eapply wp_mono; [apply Hcont|].
      2:{ intros [gs'|[out off]] s' HP; [|contradiction]. exists info, s1.
          split; [rewrite Hcur; exact Hinfo|]. rewrite Hk. exact HP. }
      intros gs' _ Ha. exists st, sinfo, mapping, e, f, o, rt, r2, s2. rewrite Ha.
      repeat split; assumption. }
    apply AddIndex_emitted in Hgs1 as (_ & Hf1 & _).
    destruct (isIntegerTy (mappedType r2)) eqn:Hint.
    + wp_step. apply Hfin. simpl. exact Hf1.
    + destruct (N.eqb o 0) eqn:Ho; simpl.
      * wp_step. apply Hfin. simpl. exact Hf1.
      * wp_step. wp_step. wp_step. apply Hfin. reflexivity.
  - destruct (curType gs) as [| | | | | | |st] eqn:Hcur; try solve [wp_step].
    apply wp_bind, wp_getStruct. intros sinfo Hsinfo.
    apply wp_bind, wp_liftOption. intros e He.
    apply wp_bind, wp_get.
    apply wp_bind, wp_liftOption. intros mapping Hmapping.
    apply wp_bind, wp_liftOption. intros [f o] Hmember. simpl.
    apply wp_bind, wp_bind, wp_assert. intros Hzero. apply Nat.eqb_eq in Hzero. subst f.
    wp_step.
    apply wp_bind, wp_liftOption. intros rt Hrt.
    apply wp_bind, run_wp. intros r2 s2 Hr2. wp_step.
    assert (Hfin : forall gs2,
              addToLastIndex gs2
              = (if isIntegerTy (mappedType r2) || N.eqb o 0
                 then addToLastIndex gs else true) ->
              wp (gs3 ← advanceType idx gs2;
                  (mret (inl gs3) : M (GEPState + list value * N)))
                 (turnSpec idx idxs' gs s) s2).
    { intros gs2 Hflag. eapply wp_mono; [apply Hcont|].
      2:{ intros [gs'|[out off]] s' HP; [|contradiction]. exists info, s1.
          split; [rewrite Hcur; exact Hinfo|]. rewrite Hk. exact HP. }
      intros gs' _ Ha. exists st, sinfo, mapping, e, o, rt, r2, s2. rewrite Ha.
      repeat split; assumption. }
    destruct (isIntegerTy (mappedType r2)) eqn:Hint.
    + wp_step. apply Hfin. reflexivity.
    + destruct (N.eqb o 0) eqn:Ho; simpl.
      * wp_step. apply Hfin. reflexivity.
      * wp_step. wp_step. wp_step. apply Hfin. reflexivity.
Qed.

End GEPWalk.


Definition arrayAndFloat : state := moduleState [plainStruct [ArrayTy i32 3; FloatTy]].

(** The walk to the array in [{[3 x i32], float}] leaves no index
    pending. *)
Definition arrayAndFloatWalked : state :=
  Eval vm_compute in
    stateOf (gepWalk noClient notExported (exampleSize (fun _ => 0)) noOffsets 5 false
               (ArrayTy i32 3) [ConstantInt 32 0; ConstantInt 32 0] 0
               (mkGEP [] false 0 (PointerTy (StructTy 0))) arrayAndFloat) arrayAndFloat.


(** A struct that is the source of a down-cast to a struct holding
    pointers to it. *)
Definition holderModule : state :=
  moduleState [plainStruct [ArrayTy i32 4]; plainStruct [ArrayTy (PointerTy (StructTy 0)) 2]].
Definition castToHolder : state :=
  Eval vm_compute in
    stateOf (gatherAllTypesInfo 10 [Downcast 0 1 true] holderModule) holderModule.


(** * Structs that reach themselves *)

Section Reentry.

Variable isClientType : type -> bool.
Variable isJSExportedType : nat -> bool.
Variable getTypeAllocSize : type -> N.

Local Abbreviation rewriteType' := (rewriteType isClientType isJSExportedType getTypeAllocSize).
Local Abbreviation setM := (fun t i => set_typesMapping <[t := i]>).

Lemma pointer_neq t : PointerTy t <> t.
Proof. induction t; intros H; try discriminate. injection H as H. auto. Qed.

(** A call on a struct that is being collapsed onto a struct is answered
    by the call on that struct. *)
Lemma rewriteType_forward fuel st T s :
  typesMapping s !! StructTy st = Some (mkInfo T COLLAPSING) ->
  isStructTy T = true -> T <> StructTy st -> st ∉ newStructTypes s ->
  rewriteType' (S fuel) (StructTy st) s = rewriteType' fuel T s.
Proof.
  intros Hi Hs Hne Hnew. cbn [rewriteType]. unfold rewriteType_body.
  rewrite (bind_Ok get _ s s s eq_refl).
  rewrite (bool_decide_eq_false_2 _ Hnew). simpl. rewrite Hi. simpl. rewrite Hs.
  rewrite bool_decide_eq_false_2 by exact Hne. reflexivity.
Qed.

(** A call on a struct that is being collapsed onto another type promotes
    the marker and returns the tentative type. *)
Lemma rewriteType_promote fuel st T s :
  typesMapping s !! StructTy st = Some (mkInfo T COLLAPSING) ->
  isStructTy T = false -> st ∉ newStructTypes s ->
  rewriteType' (S fuel) (StructTy st) s
  = Ok (mkInfo T COLLAPSING_BUT_USED) (setM (StructTy st) (mkInfo T COLLAPSING_BUT_USED) s).
Proof.
  intros Hi Hs Hnew. cbn [rewriteType]. unfold rewriteType_body.
  rewrite (bind_Ok get _ s s s eq_refl).
  rewrite (bool_decide_eq_false_2 _ Hnew). simpl. rewrite Hi. simpl. rewrite Hs.
  reflexivity.
Qed.

(** An array whose element changes without becoming an array. *)
Lemma rewriteType_array fuel elt n s r s1 :
  typesMapping s !! ArrayTy elt n = None ->
  rewriteType' fuel elt s = Ok r s1 ->
  isArrayTy (mappedType r) = false -> mappedType r <> elt ->
  rewriteType' (S fuel) (ArrayTy elt n) s
  = Ok (mkInfo (ArrayTy (mappedType r) n) IDENTICAL)
       (setM (ArrayTy elt n) (mkInfo (ArrayTy (mappedType r) n) IDENTICAL) s1).
Proof.
  intros Hmiss Hrun Harr Hne. cbn [rewriteType].
  unfold rewriteType_body, mbind, M_bind, get, assert. simpl. rewrite Hmiss, Hrun.
  destruct (mappedType r) eqn:Hm; try discriminate;
    (destruct (decide _) as [H|_]; [congruence|reflexivity]).
Qed.

(** A struct with one element that is kept, whatever the reason. *)
Lemma rewriteType_single_inr fuel st info field s tys' s2 :
  structs s !! st = Some info -> plain isClientType st info -> elements info = [field] ->
  directBase info = None ->
  st ∉ newStructTypes s -> typesMapping s !! StructTy st = None ->
  collapseSingleField isClientType isJSExportedType (rewriteType' fuel) st (nextStruct s) info
    field IDENTICAL (entered st s) = Ok (inr tys') s2 ->
  rewriteType' (S fuel) (StructTy st) s
  = Ok (mkInfo (StructTy (nextStruct s)) IDENTICAL)
       (setM (StructTy st) (mkInfo (StructTy (nextStruct s)) IDENTICAL)
          (set_structs <[nextStruct s := mkStruct tys' false None false false
                                            (isPacked info)]> s2)).
Proof.
  intros Hinfo (Hc & Ho & Hb & Ha) Hel Hbase Hnew Hmiss Hrun.
  cbn [rewriteType]. rewrite rewriteType_body_struct by assumption.
  rewrite rewriteStruct_phases.
  unfold mbind at 1. unfold M_bind at 1. unfold getStruct. rewrite Hinfo, Hc, Ho.
  unfold flattenPhase. rewrite Hb.
  unfold mbind at 1. unfold M_bind at 1. simpl.
  unfold mbind at 1. unfold M_bind at 1. unfold newStruct. simpl.
  unfold mbind at 1. unfold M_bind at 1. unfold setMapping, modify.
  unfold remainingFields. rewrite Ha, Hel. simpl.
  unfold mbind at 1. unfold M_bind at 1. simpl.
  unfold finishStruct. rewrite Ha, Hbase, Hb. simpl.
  unfold entered in Hrun. simpl in Hrun.
  rewrite (bind_Ok _ _ _ _ _ Hrun). reflexivity.
Qed.

End Reentry.

Section SelfArray.

Variable isClientType : type -> bool.
Variable isJSExportedType : nat -> bool.
Variable getTypeAllocSize : type -> N.

Local Abbreviation rewriteType' := (rewriteType isClientType isJSExportedType getTypeAllocSize).
Local Abbreviation setM := (fun t i => set_typesMapping <[t := i]>).

(** A pointer whose pointee is rewritten to an array. *)
Lemma rewriteType_pointer_array fuel elt s r s1 a n :
  typesMapping s !! PointerTy elt = None ->
  rewriteType' fuel elt s = Ok r s1 ->
  mappedType r = ArrayTy a n ->
  rewriteType' (S fuel) (PointerTy elt) s
  = Ok (mkInfo (PointerTy a) POINTER_FROM_ARRAY)
       (setM (PointerTy elt) (mkInfo (PointerTy a) POINTER_FROM_ARRAY) s1).
Proof.
  intros Hmiss Hrun Hm. cbn [rewriteType].
  unfold rewriteType_body, mbind, M_bind, get, assert. simpl. rewrite Hmiss, Hrun, Hm.
  reflexivity.
Qed.

(** The struct [st] whose one field is an array of [k] pointers to [st]. *)
Record selfArray (st : nat) (k : N) (s : state) : Prop := mkSelfArray {
  sa_struct : exists info, structs s !! st = Some info /\ plain isClientType st info /\
                           elements info = [ArrayTy (PointerTy (StructTy st)) k] /\
                           directBase info = None;
  sa_exported : isJSExportedType st = false;
  sa_casts : downcastSourceToDestinationsMapping s !! st = None;
  sa_old : (st < nextStruct s)%nat /\ (st ∉ newStructTypes s);
  sa_fresh : typesMapping s !! StructTy st = None /\
             typesMapping s !! PointerTy (StructTy st) = None /\
             typesMapping s !! ArrayTy (PointerTy (StructTy st)) k = None
}.

Lemma selfArray_kept fuel st k s :
  selfArray st k s ->
  exists s',
    rewriteType' (S (S (S (S fuel)))) (StructTy st) s
    = Ok (mkInfo (StructTy (nextStruct s)) IDENTICAL) s' /\
    typesMapping s' !! StructTy st = Some (mkInfo (StructTy (nextStruct s)) IDENTICAL) /\
    typesMapping s' !! PointerTy (StructTy st)
    = Some (mkInfo (PointerTy (PointerTy (StructTy st))) POINTER_FROM_ARRAY) /\
    typesMapping s' !! ArrayTy (PointerTy (StructTy st)) k
    = Some (mkInfo (ArrayTy (PointerTy (PointerTy (StructTy st))) k) IDENTICAL) /\
    (exists new, structs s' !! nextStruct s = Some new /\
                 elements new = [ArrayTy (PointerTy (PointerTy (StructTy st))) k]) /\
    nextStruct s' = S (nextStruct s).
Proof.
  intros [(info & Hinfo & Hplain & Hel & Hbase) Hexp Hcasts (Hlt & Hnew) (Hm1 & Hm2 & Hm3)].
  set (field := ArrayTy (PointerTy (StructTy st)) k).
  set (field' := ArrayTy (PointerTy (PointerTy (StructTy st))) k).
  set (sM := setM (StructTy st) (mkInfo field COLLAPSING) (entered st s)).
  set (sP := setM (StructTy st) (mkInfo field COLLAPSING_BUT_USED) sM).
  set (sQ := setM (PointerTy (StructTy st))
               (mkInfo (PointerTy (PointerTy (StructTy st))) POINTER_FROM_ARRAY) sP).
  set (s3 := setM field (mkInfo field' IDENTICAL) sQ).
  set (s4 := setM (StructTy st) (mkInfo (StructTy (nextStruct s)) IDENTICAL) s3).
  assert (HnewM : st ∉ newStructTypes sM).
  { unfold sM, entered. simpl. apply not_elem_of_union. split; [|exact Hnew].
    apply not_elem_of_singleton. lia. }
  assert (Hpromote : rewriteType' (S fuel) (StructTy st) sM
                     = Ok (mkInfo field COLLAPSING_BUT_USED) sP).
  { apply rewriteType_promote; [apply lookup_insert_eq|reflexivity|exact HnewM]. }
  assert (Hptr : rewriteType' (S (S fuel)) (PointerTy (StructTy st)) sM
                 = Ok (mkInfo (PointerTy (PointerTy (StructTy st))) POINTER_FROM_ARRAY) sQ).
  { eapply rewriteType_pointer_array; [|exact Hpromote|reflexivity].
    unfold sM, entered. simpl. rewrite ?lookup_insert_ne by discriminate. exact Hm2. }
  assert (Harr : rewriteType' (S (S (S fuel))) field sM = Ok (mkInfo field' IDENTICAL) s3).
  { unfold field.
    rewrite (rewriteType_array isClientType isJSExportedType getTypeAllocSize (S (S fuel))
               (PointerTy (StructTy st)) k sM
               (mkInfo (PointerTy (PointerTy (StructTy st))) POINTER_FROM_ARRAY) sQ);
      [reflexivity| |exact Hptr|reflexivity|].
    - unfold sM, entered. simpl. rewrite ?lookup_insert_ne by discriminate. exact Hm3.
    - simpl. apply pointer_neq. }
  assert (Hagain : rewriteType' (S (S (S fuel))) field s4 = Ok (mkInfo field' IDENTICAL) s4).
  { apply rewriteType_hit; [|discriminate|intros id H; discriminate].
    unfold s4, s3. simpl. rewrite lookup_insert_ne by discriminate. apply lookup_insert_eq. }
  assert (Hmay : mayCollapse isClientType isJSExportedType st info field = true).
  { unfold mayCollapse. simpl. destruct Hplain as (_ & _ & Hb & _). now rewrite Hexp, Hb. }
  assert (Hcol : collapseSingleField isClientType isJSExportedType
                   (rewriteType' (S (S (S fuel)))) st (nextStruct s) info field IDENTICAL
                   (entered st s) = Ok (inr [field']) s4).
  { eapply (collapse_abandoned isClientType isJSExportedType (rewriteType' (S (S (S fuel))))
              st (nextStruct s) info field IDENTICAL (entered st s) (entered st s)
              (mkInfo field' IDENTICAL) s3 (mkInfo field COLLAPSING_BUT_USED)
              (mkInfo field' IDENTICAL) s4 Hmay).
    - apply no_downcast_safe. exact Hcasts.
    - exact Harr.
    - unfold s3, sQ, sP. simpl. rewrite ?lookup_insert_ne by discriminate.
      apply lookup_insert_eq.
    - reflexivity.
    - exact Hagain. }
  eexists. split.
  { exact (rewriteType_single_inr isClientType isJSExportedType getTypeAllocSize _ st info
             field s _ _ Hinfo Hplain Hel Hbase Hnew Hm1 Hcol). }
  simpl. split; [apply lookup_insert_eq|].
  split; [rewrite ?lookup_insert_ne by discriminate; apply lookup_insert_eq|].
  split; [rewrite ?lookup_insert_ne by discriminate; apply lookup_insert_eq|].
  split; [|reflexivity].
  eexists. split; [apply lookup_insert_eq|reflexivity].
Qed.

End SelfArray.

Section Chain.

Variable isClientType : type -> bool.
Variable isJSExportedType : nat -> bool.
Variable getTypeAllocSize : type -> N.

Local Abbreviation rewriteType' := (rewriteType isClientType isJSExportedType getTypeAllocSize).
Local Abbreviation setM := (fun t i => set_typesMapping <[t := i]>).

(** The wrappers [ws], outermost first, around the struct [c]: each
    wrapper is paired with the struct that is its one field. *)
Fixpoint links (ws : list nat) (c : nat) : list (nat * nat) :=
  match ws with
  | [] => []
  | w :: ws' => (w, hd c ws') :: links ws' c
  end.

(** A wrapper that has not been rewritten. *)
Definition wrapperAt (s : state) (l : nat * nat) : Prop :=
  (exists info, structs s !! l.1 = Some info /\ plain isClientType l.1 info /\
                elements info = [StructTy l.2]) /\
  isJSExportedType l.1 = false /\
  downcastSourceToDestinationsMapping s !! l.1 = None /\
  (l.1 < nextStruct s)%nat /\ (l.1 ∉ newStructTypes s) /\
  typesMapping s !! StructTy l.1 = None.

(** A wrapper that is being collapsed onto its field. *)
Definition marked (s : state) (l : nat * nat) : Prop :=
  typesMapping s !! StructTy l.1 = Some (mkInfo (StructTy l.2) COLLAPSING) /\
  (l.1 < nextStruct s)%nat /\ (l.1 ∉ newStructTypes s) /\ l.2 <> l.1.

(** The struct at the end of the chain: its one field is a pointer to the
    outermost struct. *)
Definition coreAt (s : state) (c top : nat) : Prop :=
  (exists info, structs s !! c = Some info /\ plain isClientType c info /\
                elements info = [PointerTy (StructTy top)] /\ directBase info = None) /\
  isClientType (StructTy top) = false /\
  (c < nextStruct s)%nat /\ (c ∉ newStructTypes s) /\ (top < nextStruct s)%nat /\
  typesMapping s !! StructTy c = None /\
  typesMapping s !! PointerTy (StructTy top) = None.

Lemma links_snoc pre w x : links (pre ++ [w]) x = links pre w ++ [(w, x)].
Proof.
  induction pre as [|p pre IH]; simpl; [reflexivity|]. rewrite IH.
  destruct pre; reflexivity.
Qed.

Lemma links_fst ws c : map fst (links ws c) = ws.
Proof. induction ws as [|w ws IH]; simpl; [reflexivity|]. now rewrite IH. Qed.

(** The re-entrant call runs down the markers to the entry of [c]. *)
Lemma forwarded ws : forall c m s fuel,
  Forall (marked s) (links ws c) ->
  typesMapping s !! StructTy c = Some (mkInfo (StructTy m) IDENTICAL) ->
  c ∉ newStructTypes s ->
  rewriteType' (S (length ws + fuel)) (StructTy (hd c ws)) s
  = Ok (mkInfo (StructTy m) IDENTICAL) s.
Proof.
  induction ws as [|w ws IH]; intros c m s fuel Hmk Hc Hnew.
  - simpl. apply rewriteType_hit; [exact Hc|discriminate|]. intros id [= <-]. exact Hnew.
  - simpl in Hmk. pose proof (Forall_inv Hmk) as (He & _ & Hn & Hne).
    apply Forall_inv_tail in Hmk.
    simpl in He, Hn, Hne. cbn [hd length Nat.add].
    rewrite (rewriteType_forward isClientType isJSExportedType getTypeAllocSize _ w
               (StructTy (hd c ws)) s He eq_refl); [|congruence|exact Hn].
    now apply IH.
Qed.

(** The entry of a wrapper that is being collapsed. *)
Definition marker (s : state) (l : nat * nat) : Prop :=
  typesMapping s !! StructTy l.1 = Some (mkInfo (StructTy l.2) COLLAPSING).

(** What the run on the chain leaves behind: the wrappers are collapsed
    onto the new struct [m], which stands for [c] and holds a pointer to
    itself. *)
Definition chainDone (ws : list nat) (c top m : nat) (s : state) : Prop :=
  Forall (fun w => typesMapping s !! StructTy w = Some (mkInfo (StructTy m) COLLAPSED)) ws /\
  typesMapping s !! StructTy c = Some (mkInfo (StructTy m) IDENTICAL) /\
  typesMapping s !! PointerTy (StructTy top)
  = Some (mkInfo (PointerTy (StructTy m)) IDENTICAL) /\
  (exists new, structs s !! m = Some new /\ elements new = [PointerTy (StructTy m)]) /\
  nextStruct s = S m.

Lemma marked_setM x i s l :
  marked s l -> l.1 <> x -> marked (setM (StructTy x) i s) l.
Proof.
  intros (He & Hlt & Hn & Hne) Hx. unfold marked. simpl.
  rewrite lookup_insert_ne by congruence. auto.
Qed.

Lemma marked_entered x s l : marked s l -> l.1 <> x -> marked (entered x s) l.
Proof.
  intros (He & Hlt & Hn & Hne) Hx. unfold marked, entered. simpl.
  split; [|split; [lia|split; [|exact Hne]]].
  - rewrite lookup_insert_ne by congruence. exact He.
  - apply not_elem_of_union. split; [apply not_elem_of_singleton; lia|exact Hn].
Qed.

Lemma wrapperAt_entered x i s l :
  wrapperAt s l -> l.1 <> x -> wrapperAt (setM (StructTy x) i (entered x s)) l.
Proof.
  intros ((info & Hi & Hp & He) & Hx & Hd & Hlt & Hn & Hm) Hne.
  unfold wrapperAt, entered. simpl. split; [|split; [exact Hx|split; [exact Hd|]]].
  - exists info. rewrite lookup_insert_ne by lia. auto.
  - split; [lia|]. split.
    + apply not_elem_of_union. split; [apply not_elem_of_singleton; lia|exact Hn].
    + rewrite !lookup_insert_ne by congruence. exact Hm.
Qed.

Lemma coreAt_entered x i s c top :
  coreAt s c top -> c <> x -> coreAt (setM (StructTy x) i (entered x s)) c top.
Proof.
  intros ((info & Hi & Hp & He & Hb) & Hcl & Hlt & Hn & Htop & Hm & Hmp) Hne.
  unfold coreAt, entered. simpl. split; [|split; [exact Hcl|]].
  - exists info. rewrite lookup_insert_ne by lia. auto.
  - split; [lia|]. split; [|split; [lia|split]].
    + apply not_elem_of_union. split; [apply not_elem_of_singleton; lia|exact Hn].
    + rewrite !lookup_insert_ne by congruence. exact Hm.
    + rewrite ?lookup_insert_ne by discriminate. exact Hmp.
Qed.

Lemma NoDup_app_disjoint (l k : list nat) x : NoDup (l ++ k) -> In x l -> In x k -> False.
Proof.
  induction l as [|a l IH]; simpl; [tauto|]. intros Hnd [->|Hl] Hk.
  - inversion Hnd as [|? ? Hnot _]; subst. apply Hnot. apply list_elem_of_In.
    apply in_or_app. now right.
  - inversion Hnd; subst. now apply IH.
Qed.

Lemma hd_in (c : nat) ws : In (hd c ws) (ws ++ [c]).
Proof. destruct ws; simpl; auto. Qed.

Lemma links_in ws c l : In l (links ws c) -> In l.1 ws.
Proof. intros H. rewrite <- (links_fst ws c). now apply in_map. Qed.

(** The struct at the end of the chain is kept: its field is a pointer,
    and the pointer to the outermost struct becomes a pointer to the new
    struct. *)
Lemma core_kept pre c s fuel :
  Forall (marked s) (links pre c) -> ~ In c pre -> coreAt s c (hd c pre) ->
  exists s',
    rewriteType' (S (S (S (length pre + fuel)))) (StructTy c) s
    = Ok (mkInfo (StructTy (nextStruct s)) IDENTICAL) s' /\
    Forall (marker s') (links pre c) /\
    chainDone [] c (hd c pre) (nextStruct s) s'.
Proof.
  intros Hmk Hnotin ((info & Hi & Hp & He & Hb) & Hcl & Hlt & Hn & Htop & Hm & Hmp).
  set (top := hd c pre) in *.
  set (m := nextStruct s).
  set (sE := entered c s).
  set (sP := setM (PointerTy (StructTy top)) (mkInfo (PointerTy (StructTy m)) IDENTICAL) sE).
  assert (Hfw : rewriteType' (S (length pre + fuel)) (StructTy top) sE
                = Ok (mkInfo (StructTy m) IDENTICAL) sE).
  { apply forwarded.
    - apply List.Forall_forall. intros l Hl.
      apply marked_entered; [exact (proj1 (List.Forall_forall _ _) Hmk l Hl)|].
      intros E. apply Hnotin. rewrite <- E. exact (links_in _ _ _ Hl).
    - unfold sE, entered. simpl. apply lookup_insert_eq.
    - unfold sE, entered. simpl. apply not_elem_of_union.
      split; [apply not_elem_of_singleton; lia|exact Hn]. }
  assert (Hptr : rewriteType' (S (S (length pre + fuel))) (PointerTy (StructTy top)) sE
                 = Ok (mkInfo (PointerTy (StructTy m)) IDENTICAL) sP).
  { rewrite (rewriteType_pointer isClientType isJSExportedType getTypeAllocSize
               (S (length pre + fuel)) (StructTy top) sE (mkInfo (StructTy m) IDENTICAL) sE);
      [reflexivity| |exact Hfw|reflexivity|].
    - unfold sE, entered. simpl. rewrite ?lookup_insert_ne by discriminate. exact Hmp.
    - simpl. intros [= E]. unfold m in E. lia. }
  assert (Hcol : collapseSingleField isClientType isJSExportedType
                   (rewriteType' (S (S (length pre + fuel)))) c m info
                   (PointerTy (StructTy top)) IDENTICAL sE
                 = Ok (inr [PointerTy (StructTy m)]) sP).
  { apply (collapse_not_tried isClientType isJSExportedType
             (rewriteType' (S (S (length pre + fuel)))) c m info (PointerTy (StructTy top))
             IDENTICAL sE (mkInfo (PointerTy (StructTy m)) IDENTICAL) sP); [|exact Hptr].
    unfold mayCollapse. simpl. rewrite Hcl. reflexivity. }
  eexists. split.
  { exact (rewriteType_single_inr isClientType isJSExportedType getTypeAllocSize _ c info
             (PointerTy (StructTy top)) s _ _ Hi Hp He Hb Hn Hm Hcol). }
  split.
  - apply List.Forall_forall. intros l Hl.
    destruct (proj1 (List.Forall_forall _ _) Hmk l Hl) as (Hentry & _).
    assert (Hne : l.1 <> c).
    { intros E. apply Hnotin. rewrite <- E. exact (links_in _ _ _ Hl). }
    unfold marker. simpl. rewrite lookup_insert_ne by congruence.
    rewrite lookup_insert_ne by discriminate. rewrite lookup_insert_ne by congruence.
    exact Hentry.
  - unfold chainDone. simpl. split; [constructor|]. split; [apply lookup_insert_eq|].
    split; [rewrite lookup_insert_ne by discriminate; apply lookup_insert_eq|].
    split; [|reflexivity]. eexists. split; [apply lookup_insert_eq|reflexivity].
Qed.

(** The run on a chain, after the wrappers [pre] have been entered. *)
Lemma chain_down ws : forall pre c s fuel,
  NoDup (pre ++ ws ++ [c]) ->
  Forall (marked s) (links pre (hd c ws)) ->
  Forall (wrapperAt s) (links ws c) ->
  coreAt s c (hd c (pre ++ ws)) ->
  exists s',
    rewriteType' (length ws + (length pre + length ws) + 3 + fuel) (StructTy (hd c ws)) s
    = Ok (mkInfo (StructTy (nextStruct s + length ws))
            (match ws with [] => IDENTICAL | _ => COLLAPSED end)) s' /\
    Forall (marker s') (links pre (hd c ws)) /\
    chainDone ws c (hd c (pre ++ ws)) (nextStruct s + length ws) s'.
Proof.
  induction ws as [|w ws IH]; intros pre c s fuel Hnd Hmk Hws Hcore.
  - simpl in *. rewrite app_nil_r in *. rewrite !Nat.add_0_r.
    replace (length pre + 3 + fuel)%nat with (S (S (S (length pre + fuel)))) by lia.
    apply core_kept; [exact Hmk| |exact Hcore].
    intros H. apply (NoDup_app_disjoint _ _ c Hnd H). now left.
  - cbn [links hd] in *.
    pose proof (Forall_inv Hws) as Hw. apply Forall_inv_tail in Hws.
    destruct Hw as ((info & Hi & Hp & He) & Hx & Hd & Hlt & Hn & Hm). simpl in *.
    assert (Hnd' : NoDup ((pre ++ [w]) ++ ws ++ [c])) by now rewrite <- app_assoc.
    assert (Hwpre : ~ In w pre).
    { intros H. apply (NoDup_app_disjoint _ _ w Hnd H). now left. }
    assert (Hwrest : ~ In w (ws ++ [c])).
    { intros H. apply (NoDup_app_disjoint _ _ w Hnd').
      - apply in_or_app. right. now left.
      - exact H. }
    set (field := StructTy (hd c ws)).
    set (sa := setM (StructTy w) (mkInfo field COLLAPSING) (entered w s)).
    destruct (IH (pre ++ [w]) c sa fuel Hnd') as (s1 & Hrun & Hkeep & Hdone).
    { rewrite links_snoc. apply Forall_app. split.
      - apply List.Forall_forall. intros l Hl. unfold sa.
        assert (l.1 <> w).
        { intros E. apply Hwpre. rewrite <- E. exact (links_in _ _ _ Hl). }
        apply marked_setM; [|assumption]. apply marked_entered; [|assumption].
        exact (proj1 (List.Forall_forall _ _) Hmk l Hl).
      - constructor; [|constructor]. unfold marked, sa, entered. simpl.
        split; [apply lookup_insert_eq|]. split; [lia|]. split.
        + apply not_elem_of_union. split; [apply not_elem_of_singleton; lia|exact Hn].
        + intros E. apply Hwrest. rewrite <- E. apply hd_in. }
    { apply List.Forall_forall. intros l Hl. unfold sa.
      apply wrapperAt_entered; [exact (proj1 (List.Forall_forall _ _) Hws l Hl)|].
      intros E. apply Hwrest. rewrite <- E. apply in_or_app. left.
      exact (links_in _ _ _ Hl). }
    { rewrite <- app_assoc. unfold sa. apply coreAt_entered; [exact Hcore|].
      intros E. apply Hwrest. rewrite <- E. apply in_or_app. right. now left. }
    rewrite <- app_assoc in Hdone. cbn [app] in Hdone.
    assert (Hm' : (nextStruct sa + length ws = nextStruct s + S (length ws))%nat).
    { unfold sa, entered. simpl. lia. }
    rewrite Hm' in Hrun, Hdone.
    rewrite links_snoc in Hkeep. apply Forall_app in Hkeep. destruct Hkeep as [Hkeep Hkw].
    pose proof (Forall_inv Hkw) as Hcur. unfold marker in Hcur. simpl in Hcur.
    exists (setM (StructTy w) (mkInfo (StructTy (nextStruct s + S (length ws))) COLLAPSED) s1).
    split; [|split].
    + replace (length ws + (length (pre ++ [w]) + length ws) + 3 + fuel)%nat
        with (length ws + (length pre + S (length ws)) + 3 + fuel)%nat in Hrun
        by (rewrite length_app; simpl; lia).
      cbn [length Nat.add].
      apply (rewriteType_wrapper isClientType isJSExportedType getTypeAllocSize _ w info field
               s (mkInfo (StructTy (nextStruct s + S (length ws)))
                    (match ws with [] => IDENTICAL | _ => COLLAPSED end)) s1
               (mkInfo field COLLAPSING) Hi Hp He); try assumption; try reflexivity.
      destruct Hp as (_ & _ & Hb & _). now apply mayCollapse_plain.
    + apply List.Forall_forall. intros l Hl.
      pose proof (proj1 (List.Forall_forall _ _) Hkeep l Hl) as Hl'.
      unfold marker in *. simpl. rewrite lookup_insert_ne; [exact Hl'|].
      intros [= E]. apply Hwpre. rewrite E. exact (links_in _ _ _ Hl).
    + destruct Hdone as (Hall & Hc & Hptr & Hnew & Hnext). unfold chainDone. simpl.
      split; [|split; [|split; [|split; assumption]]].
      * constructor; [apply lookup_insert_eq|].
        apply List.Forall_forall. intros w' Hw'.
        rewrite lookup_insert_ne; [exact (proj1 (List.Forall_forall _ _) Hall w' Hw')|].
        intros [= E]. apply Hwrest. rewrite E. apply in_or_app. now left.
      * rewrite lookup_insert_ne; [exact Hc|]. intros [= E]. apply Hwrest. rewrite E.
        apply in_or_app. right. now left.
      * rewrite lookup_insert_ne by discriminate. exact Hptr.
Qed.

End Chain.


(** [S { [4 x S*] }]. *)
Definition selfArrayModule : state :=
  moduleState [plainStruct [ArrayTy (PointerTy (StructTy 0)) 4]].

(** [S { [2 x S*], [2 x S*] }]. *)
Definition twoSelfArrays : state :=
  moduleState [plainStruct [ArrayTy (PointerTy (StructTy 0)) 2;
                            ArrayTy (PointerTy (StructTy 0)) 2]].


